(** * A shallow embedding of the multi-level cache simulator

    The development follows [Cache.cpp] (the version with FIFO replacement,
    the victim cache and [fetch]), [MemoryManager.cpp],
    [MultiLevelCacheConfig.h] and the [CacheHierarchy] class of the
    multi-level driver with the stride prefetcher.

    Conventions.
    - Every [uint32_t] is a [Z] in [0, 2^32); arithmetic on it is written
      with [wrap32].  The field types are those of the [Cache.h] and
      [MemoryManager.h] declarations kept in the sources ([uint32_t] for all
      numeric fields of [Policy], [Block] and [Statistics] and for the
      reference counter); [createdAt] is read into a [uint32_t] local by
      [getReplacementBlockId].
    - A byte is a [Z] in [0, 256).
    - [std::vector] and the page arrays are lists read with [!!]; an index
      outside the vector is undefined behaviour in the source and is
      reported as [OutOfRange].
    - Exceptions and undefined behaviour are values of [error]; a function
      that can raise returns a [result]. *)

From Stdlib Require Import ZArith Lia Ascii.
From stdpp Require Import base option list gmap.

Local Open Scope Z_scope.

(** ** Machine integers *)

Definition wrap32 (z : Z) : Z := z mod 2 ^ 32.

(** [static_cast<int32_t>] of a 64-bit difference, and the conversion of an
    [int32_t] back to [uint32_t] is [wrap32]. *)
Definition toInt32 (z : Z) : Z :=
  let u := wrap32 z in if u <? 2 ^ 31 then u else u - 2 ^ 32.

Definition u32 (z : Z) : Prop := 0 <= z < 2 ^ 32.

(** [-1] converted to [uint32_t], the "absent" sentinel of [getBlockId]. *)
Definition minusOne : Z := 4294967295.

(** ** Errors and results *)

Inductive error : Type :=
  | InvalidCachePolicy
  | InconsistentID (i : Z)
  | DataNotInTopLevelCache (addr : Z)
  | IllegalMemoryAccessOperation
  | OutOfRange (i : Z)
  | NullPointer
  | DivisionByZero.

Inductive result (A : Type) : Type :=
  | Ok (a : A)
  | Err (e : error).
Arguments Ok {A} a.
Arguments Err {A} e.

#[global] Instance result_ret : MRet result := fun A a => Ok a.
#[global] Instance result_bind : MBind result := fun A B f r =>
  match r with
  | Ok a => f a
  | Err e => Err e
  end.

Definition isOk {A} (r : result A) : bool :=
  match r with Ok _ => true | Err _ => false end.

(** [for (i = lo; i < lo + n; ++i) body(i)] threaded through a state. *)
Fixpoint forRange {T : Type} (body : Z -> T -> result T) (i : Z) (n : nat)
    (s : T) : result T :=
  match n with
  | O => Ok s
  | S n' => s' ← body i s; forRange body (i + 1) n' s'
  end.

(** ** MemoryManager.cpp *)

Module MemoryManager.

(** [uint8_t **memory[1024]]: a null pointer is an absent key. *)
Record t : Type := mk { memory : gmap Z (gmap Z (list Z)) }.

Definition getFirstEntryId (addr : Z) : Z := Z.land (Z.shiftr addr 22) 1023.
Definition getSecondEntryId (addr : Z) : Z := Z.land (Z.shiftr addr 12) 1023.
Definition getPageOffset (addr : Z) : Z := Z.land addr 4095.

Definition init : t := mk ∅.

Definition isAddrExist (m : t) (addr : Z) : bool :=
  match memory m !! getFirstEntryId addr with
  | Some dir =>
      match dir !! getSecondEntryId addr with
      | Some _ => true
      | None => false
      end
  | None => false
  end.

Definition isPageExist (m : t) (addr : Z) : bool := isAddrExist m addr.

Definition addPage (m : t) (addr : Z) : t * bool :=
  let i := getFirstEntryId addr in
  let j := getSecondEntryId addr in
  let dir := match memory m !! i with Some d => d | None => ∅ end in
  match dir !! j with
  | None => (mk (<[i := <[j := replicate 4096 0]> dir]> (memory m)), true)
  | Some _ => (mk (<[i := dir]> (memory m)), false)
  end.

Definition setByte (m : t) (addr val : Z) : t * bool :=
  if negb (isAddrExist m addr) then (m, false)
  else
    let i := getFirstEntryId addr in
    let j := getSecondEntryId addr in
    let k := getPageOffset addr in
    match memory m !! i with
    | Some dir =>
        match dir !! j with
        | Some page =>
            (mk (<[i := <[j := <[Z.to_nat k := val]> page]> dir]> (memory m)),
             true)
        | None => (m, false)
        end
    | None => (m, false)
    end.

Definition getByte (m : t) (addr : Z) : Z :=
  if negb (isAddrExist m addr) then 0
  else
    match memory m !! getFirstEntryId addr with
    | Some dir =>
        match dir !! getSecondEntryId addr with
        | Some page => default 0 (page !! Z.to_nat (getPageOffset addr))
        | None => 0
        end
    | None => 0
    end.

End MemoryManager.

(** ** Cache.h: Policy, Block, Statistics *)

Module Policy.
Record t : Type := mk {
  cacheSize : Z;
  blockSize : Z;
  blockNum : Z;
  associativity : Z;
  hitLatency : Z;
  missLatency : Z
}.
End Policy.

Module Block.
Record t : Type := mk {
  valid : bool;
  modified : bool;
  tag : Z;
  id : Z;
  size : Z;
  lastReference : Z;
  createdAt : Z;
  data : list Z
}.

Definition setValid (v : bool) (b : t) : t :=
  mk v (modified b) (tag b) (id b) (size b) (lastReference b) (createdAt b)
     (data b).
Definition setModified (m : bool) (b : t) : t :=
  mk (valid b) m (tag b) (id b) (size b) (lastReference b) (createdAt b)
     (data b).
Definition setLastReference (r : Z) (b : t) : t :=
  mk (valid b) (modified b) (tag b) (id b) (size b) r (createdAt b) (data b).
Definition setData (d : list Z) (b : t) : t :=
  mk (valid b) (modified b) (tag b) (id b) (size b) (lastReference b)
     (createdAt b) d.
End Block.

Module Statistics.
Record t : Type := mk {
  numRead : Z;
  numWrite : Z;
  numHit : Z;
  numMiss : Z;
  totalCycles : Z
}.

Definition zero : t := mk 0 0 0 0 0.

Definition incRead (s : t) : t :=
  mk (wrap32 (numRead s + 1)) (numWrite s) (numHit s) (numMiss s)
     (totalCycles s).
Definition incWrite (s : t) : t :=
  mk (numRead s) (wrap32 (numWrite s + 1)) (numHit s) (numMiss s)
     (totalCycles s).
Definition incHit (s : t) : t :=
  mk (numRead s) (numWrite s) (wrap32 (numHit s + 1)) (numMiss s)
     (totalCycles s).
Definition incMiss (s : t) : t :=
  mk (numRead s) (numWrite s) (numHit s) (wrap32 (numMiss s + 1))
     (totalCycles s).
Definition addCycles (n : Z) (s : t) : t :=
  mk (numRead s) (numWrite s) (numHit s) (numMiss s)
     (wrap32 (totalCycles s + n)).
End Statistics.

(** ** The Cache object

    [lowerCache] and [memoryManager] are pointers to objects shared with
    other caches, and [victimCache] is an owned pointer; they are not
    fields of this record but are supplied by the system state a cache
    runs in (see [Sys] below). *)
Record Cache : Type := mkCache {
  referenceCounter : Z;
  policy : Policy.t;
  blocks : list Block.t;
  statistics : Statistics.t;
  enableFifo : bool;
  enableVictimCache : bool
}.

Definition setReferenceCounter (r : Z) (c : Cache) : Cache :=
  mkCache r (policy c) (blocks c) (statistics c) (enableFifo c)
          (enableVictimCache c).
Definition setBlocks (bs : list Block.t) (c : Cache) : Cache :=
  mkCache (referenceCounter c) (policy c) bs (statistics c) (enableFifo c)
          (enableVictimCache c).
Definition setStatistics (s : Statistics.t) (c : Cache) : Cache :=
  mkCache (referenceCounter c) (policy c) (blocks c) s (enableFifo c)
          (enableVictimCache c).
Definition setEnableFifo (f : bool) (c : Cache) : Cache :=
  mkCache (referenceCounter c) (policy c) (blocks c) (statistics c) f
          (enableVictimCache c).
Definition setEnableVictimCache (v : bool) (c : Cache) : Cache :=
  mkCache (referenceCounter c) (policy c) (blocks c) (statistics c)
          (enableFifo c) v.
Definition updStatistics (f : Statistics.t -> Statistics.t) (c : Cache) : Cache :=
  setStatistics (f (statistics c)) c.

(** ** Address decoding *)

Definition isPowerOfTwo (n : Z) : bool :=
  (0 <? n) && (Z.land n (wrap32 (n - 1)) =? 0).

(** [std::bit_width(val) - 1] is the position of the highest set bit. *)
Definition log2i (val : Z) : Z :=
  if val =? 0 then minusOne else Z.log2 val.

Definition offsetBitsOf (p : Policy.t) : Z := log2i (Policy.blockSize p).
Definition idBitsOf (p : Policy.t) : Z :=
  log2i (Policy.blockNum p / Policy.associativity p).

(** The shift counts below are smaller than 32 for the policies the three
    drivers use; a count of 32 or more is undefined in the source and gets
    the meaning of [Z.shiftl]/[Z.shiftr] here.  A policy that the
    constructor accepts can reach it: with blockSize 1 and one set the
    count in the mask of [getTag] is 32.  What is proved of the value of a
    tag assumes [0 < offsetBits + idBits < 32] or is evaluated at a policy
    for which that holds. *)
Definition getTag (p : Policy.t) (addr : Z) : Z :=
  let offsetBits := offsetBitsOf p in
  let idBits := idBitsOf p in
  let mask := wrap32 (wrap32 (Z.shiftl 1 (wrap32 (32 - offsetBits - idBits))) - 1) in
  Z.land (Z.shiftr addr (wrap32 (offsetBits + idBits))) mask.

Definition getId (p : Policy.t) (addr : Z) : Z :=
  let offsetBits := offsetBitsOf p in
  let idBits := idBitsOf p in
  let mask := wrap32 (Z.shiftl 1 idBits - 1) in
  Z.land (Z.shiftr addr offsetBits) mask.

Definition getOffset (p : Policy.t) (addr : Z) : Z :=
  let bits := offsetBitsOf p in
  let mask := wrap32 (Z.shiftl 1 bits - 1) in
  Z.land addr mask.

Definition getAddr (p : Policy.t) (b : Block.t) : Z :=
  let offsetBits := offsetBitsOf p in
  let idBits := idBitsOf p in
  Z.lor (wrap32 (Z.shiftl (Block.tag b) (wrap32 (offsetBits + idBits))))
        (wrap32 (Z.shiftl (Block.id b) offsetBits)).

(** [addr & ~((1U << bits) - 1)] of [loadBlockFromLowerLevel]. *)
Definition blockAddrBeginOf (p : Policy.t) (addr : Z) : Z :=
  let bits := offsetBitsOf p in
  let mask := wrap32 (- 1 - wrap32 (wrap32 (Z.shiftl 1 bits) - 1)) in
  Z.land addr mask.

(** ** Construction *)

(** The five checks are evaluated eagerly into an array, so both remainders
    are computed whatever the earlier checks say. *)
Definition isPolicyValid (p : Policy.t) : result bool :=
  if (Policy.blockSize p =? 0) || (Policy.associativity p =? 0)
  then Err DivisionByZero
  else Ok (isPowerOfTwo (Policy.cacheSize p)
           && isPowerOfTwo (Policy.blockSize p)
           && (Policy.cacheSize p mod Policy.blockSize p =? 0)
           && (wrap32 (Policy.blockNum p * Policy.blockSize p)
               =? Policy.cacheSize p)
           && (Policy.blockNum p mod Policy.associativity p =? 0)).

Definition initBlock (p : Policy.t) (idx : Z) : Block.t :=
  Block.mk false false 0 (idx / Policy.associativity p) (Policy.blockSize p)
           0 0 (replicate (Z.to_nat (Policy.blockSize p)) 0).

(** [blocks.resize(policy.blockNum)] and the loop over [iota(0, size)]. *)
Fixpoint initBlocksFrom (p : Policy.t) (idx : Z) (n : nat) : list Block.t :=
  match n with
  | O => []
  | S n' => initBlock p idx :: initBlocksFrom p (idx + 1) n'
  end.

Definition initBlocks (p : Policy.t) : list Block.t :=
  initBlocksFrom p 0 (Z.to_nat (Policy.blockNum p)).

(** [Cache::Cache(manager, policy, lowerCache)]. *)
Definition newCache (p : Policy.t) : result Cache :=
  ok ← isPolicyValid p;
  if ok : bool
  then Ok (mkCache 0 p (initBlocks p) Statistics.zero false false)
  else Err InvalidCachePolicy.

(** ** Lookup *)

Fixpoint getBlockIdLoop (bs : list Block.t) (tag idx : Z) (i : Z) (n : nat)
    : result Z :=
  match n with
  | O => Ok minusOne
  | S n' =>
      match bs !! Z.to_nat i with
      | None => Err (OutOfRange i)
      | Some b =>
          if negb (Block.id b =? idx) then Err (InconsistentID i)
          else if Block.valid b && (Block.tag b =? tag) then Ok i
          else getBlockIdLoop bs tag idx (i + 1) n'
      end
  end.

Definition setBegin (p : Policy.t) (idx : Z) : Z :=
  wrap32 (idx * Policy.associativity p).
Definition setEnd (p : Policy.t) (idx : Z) : Z :=
  wrap32 (wrap32 (idx + 1) * Policy.associativity p).

Definition getBlockId (c : Cache) (addr : Z) : result Z :=
  let tag := getTag (policy c) addr in
  let idx := getId (policy c) addr in
  getBlockIdLoop (blocks c) tag idx (setBegin (policy c) idx)
                 (Z.to_nat (setEnd (policy c) idx - setBegin (policy c) idx)).

Definition inCache (c : Cache) (addr : Z) : result bool :=
  blockId ← getBlockId c addr;
  Ok (negb (blockId =? minusOne)).

(** [blocks[i]] by reference. *)
Definition blockAt (c : Cache) (i : Z) : result Block.t :=
  match blocks c !! Z.to_nat i with
  | Some b => Ok b
  | None => Err (OutOfRange i)
  end.

Definition setInvalid (c : Cache) (addr : Z) : result Cache :=
  blockId ← getBlockId c addr;
  if negb (blockId =? minusOne)
  then b ← blockAt c blockId;
       Ok (setBlocks (<[Z.to_nat blockId := Block.setValid false b]> (blocks c)) c)
  else Ok c.

(** ** Replacement *)

Fixpoint firstInvalid (bs : list Block.t) (i : Z) (n : nat)
    : result (option Z) :=
  match n with
  | O => Ok None
  | S n' =>
      match bs !! Z.to_nat i with
      | None => Err (OutOfRange i)
      | Some b =>
          if negb (Block.valid b) then Ok (Some i)
          else firstInvalid bs (i + 1) n'
      end
  end.

(** The two minimum scans differ only in the key and the start index. *)
Fixpoint minScan (key : Block.t -> Z) (bs : list Block.t) (i : Z) (n : nat)
    (best min : Z) : result Z :=
  match n with
  | O => Ok best
  | S n' =>
      match bs !! Z.to_nat i with
      | None => Err (OutOfRange i)
      | Some b =>
          if key b <? min then minScan key bs (i + 1) n' i (key b)
          else minScan key bs (i + 1) n' best min
      end
  end.

Definition getReplacementBlockId (c : Cache) (begin end_ : Z) : result Z :=
  inv ← firstInvalid (blocks c) begin (Z.to_nat (end_ - begin));
  match inv with
  | Some i => Ok i
  | None =>
      first ← blockAt c begin;
      if enableFifo c
      then minScan Block.createdAt (blocks c) (wrap32 (begin + 1))
                   (Z.to_nat (end_ - wrap32 (begin + 1)))
                   begin (Block.createdAt first)
      else minScan Block.lastReference (blocks c) begin
                   (Z.to_nat (end_ - begin))
                   begin (Block.lastReference first)
  end.

(** ** Statistics as reported, and the victim cache switch *)

Definition getStatistics (c : Cache) (victimCache : option Cache)
    : Statistics.t :=
  let stats := statistics c in
  match victimCache with
  | Some v =>
      if enableVictimCache c
      then
        let vh := Statistics.numHit (statistics v) in
        Statistics.mk (Statistics.numRead stats) (Statistics.numWrite stats)
                      (wrap32 (Statistics.numHit stats + vh))
                      (wrap32 (Statistics.numMiss stats - vh))
                      (Statistics.totalCycles stats)
      else stats
  | None => stats
  end.

Definition victimCachePolicy : Policy.t :=
  Policy.mk (8 * 1024) 64 (8 * 1024 / 64) (8 * 1024 / 64) 1 8.

(** ** The system a cache runs in

    A cache reaches other objects through three pointers.  [victimCache] is
    owned by the cache and is [None] when null.  [lowerCache] and
    [memoryManager] point into the rest of the hierarchy, whose state is
    [below]; what the cache can do through these two pointers is the
    interface [Lower].  The victim cache is constructed with its owner's
    [memoryManager] and [lowerCache], so its operations run over the same
    [below]; its own [victimCache] stays null, since only its owner holds a
    pointer to it and never calls [setVictimCache] on it. *)

Record Lower (L : Type) : Type := mkLower {
  lowerCache : L -> option Cache;
  updLowerCache : (Cache -> Cache) -> L -> L;
  lowerLoadBlockFromLowerLevel : Z -> bool -> L -> result L;
  lowerGetByte : Z -> L -> result (Z * L);
  lowerSetByte : Z -> Z -> L -> result L;
  memoryManager : L -> MemoryManager.t;
  setMemoryManager : MemoryManager.t -> L -> L
}.
Arguments mkLower {L} _ _ _ _ _ _ _.
Arguments lowerCache {L} _ _.
Arguments updLowerCache {L} _ _ _.
Arguments lowerLoadBlockFromLowerLevel {L} _ _ _ _.
Arguments lowerGetByte {L} _ _ _.
Arguments lowerSetByte {L} _ _ _ _.
Arguments memoryManager {L} _ _.
Arguments setMemoryManager {L} _ _ _.

Record Sys (L : Type) : Type := mkSys {
  self : Cache;
  victimCache : option Cache;
  below : L
}.
Arguments mkSys {L} _ _ _.
Arguments self {L} _.
Arguments victimCache {L} _.
Arguments below {L} _.

Definition setSelf {L} (c : Cache) (s : Sys L) : Sys L :=
  mkSys c (victimCache s) (below s).
Definition setBelow {L} (l : L) (s : Sys L) : Sys L :=
  mkSys (self s) (victimCache s) l.

(** [victimCache->getByte] and [victimCache->setByte], on the victim and the
    state below it. *)
Record VictimOps (L : Type) : Type := mkVictimOps {
  victimGetByte : Z -> Cache -> L -> result (Z * Cache * L);
  victimSetByte : Z -> Z -> Cache -> L -> result (Cache * L)
}.
Arguments mkVictimOps {L} _ _.
Arguments victimGetByte {L} _ _ _ _.
Arguments victimSetByte {L} _ _ _ _ _.

(** [v[i] = x] and [v[i]] on a [std::vector]. *)
Definition vecSet {A} (v : list A) (i : Z) (x : A) : result (list A) :=
  if (0 <=? i) && (i <? Z.of_nat (length v))
  then Ok (<[Z.to_nat i := x]> v)
  else Err (OutOfRange i).

Definition vecGet {A} (v : list A) (i : Z) : result A :=
  match v !! Z.to_nat i with
  | Some x => Ok x
  | None => Err (OutOfRange i)
  end.

Section CacheOps.
Context {L : Type}.
Variable lo : Lower L.
Variable vo : VictimOps L.

(** Number of iterations of
    [for (i = blockAddrBegin; i < blockAddrBegin + blockSize; ++i)]. *)
Definition copyCount (p : Policy.t) (blockAddrBegin : Z) : nat :=
  Z.to_nat (wrap32 (blockAddrBegin + Policy.blockSize p) - blockAddrBegin).

Definition copyFromVictim (base : Z) (n : nat) (d : list Z) (v : Cache)
    (l : L) : result (list Z * Cache * L) :=
  forRange (fun i '(d, v, l) =>
              '(x, v', l') ← victimGetByte vo i v l;
              d' ← vecSet d (i - base) x;
              Ok (d', v', l'))
           base n (d, v, l).

Definition copyFromLowerCache (base : Z) (n : nat) (d : list Z) (l : L)
    : result (list Z * L) :=
  forRange (fun i '(d, l) =>
              '(x, l') ← lowerGetByte lo i l;
              d' ← vecSet d (i - base) x;
              Ok (d', l'))
           base n (d, l).

Definition copyFromMemory (base : Z) (n : nat) (d : list Z) (l : L)
    : result (list Z) :=
  forRange (fun i d =>
              vecSet d (i - base) (MemoryManager.getByte (memoryManager lo l) i))
           base n d.

(** [for (i = 0; i < block.size; ++i) victimCache->setByte(a + i, data[i])] *)
Definition writeToVictim (a : Z) (b : Block.t) (v : Cache) (l : L)
    : result (Cache * L) :=
  forRange (fun i '(v, l) =>
              x ← vecGet (Block.data b) i;
              victimSetByte vo (wrap32 (a + i)) x v l)
           0 (Z.to_nat (Block.size b)) (v, l).

Definition writeToLowerCache (a : Z) (b : Block.t) (l : L) : result L :=
  forRange (fun i l =>
              x ← vecGet (Block.data b) i;
              lowerSetByte lo (wrap32 (a + i)) x l)
           0 (Z.to_nat (Block.size b)) l.

Definition writeToMemory (a : Z) (b : Block.t) (l : L) : result L :=
  forRange (fun i l =>
              x ← vecGet (Block.data b) i;
              Ok (setMemoryManager lo
                    (fst (MemoryManager.setByte (memoryManager lo l)
                                                (wrap32 (a + i)) x)) l))
           0 (Z.to_nat (Block.size b)) l.

(** The victim cache, when [enableVictimCache && victimCache != nullptr]. *)
Definition enabledVictim (c : Cache) (vc : option Cache) : option Cache :=
  if enableVictimCache c then vc else None.

Definition writeBlockToLowerLevelWith (block : Block.t) (s : Sys L)
    : result (Sys L) :=
  let addrBegin := getAddr (policy (self s)) block in
  match enabledVictim (self s) (victimCache s) with
  | Some v =>
      '(v', l') ← writeToVictim addrBegin block v (below s);
      Ok (mkSys (self s) (Some v') l')
  | None =>
      match lowerCache lo (below s) with
      | Some _ => l' ← writeToLowerCache addrBegin block (below s);
                  Ok (setBelow l' s)
      | None => l' ← writeToMemory addrBegin block (below s);
                Ok (setBelow l' s)
      end
  end.

Definition countAccess (isRead : bool) : Statistics.t -> Statistics.t :=
  if isRead then Statistics.incRead else Statistics.incWrite.

Definition countHit (p : Policy.t) (st : Statistics.t) : Statistics.t :=
  Statistics.addCycles (Policy.hitLatency p) (Statistics.incHit st).

Definition countMiss (p : Policy.t) (st : Statistics.t) : Statistics.t :=
  Statistics.addCycles (Policy.missLatency p) (Statistics.incMiss st).

(** The victim-cache part of [loadBlockFromLowerLevel]: the result says
    whether the line was read from the victim cache. *)
Definition probeVictim (c : Cache) (isRead : bool) (base : Z)
    (d : list Z) (vc : option Cache) (l : L)
    : result (bool * list Z * option Cache * L) :=
  if enableVictimCache c then
    match vc with
    | None => Err NullPointer
    | Some v =>
        let v := updStatistics (countAccess isRead) v in
        hit ← inCache v base;
        if hit : bool then
          let v := updStatistics (countHit (policy v)) v in
          '(d', v', l') ← copyFromVictim base (copyCount (policy c) base) d v l;
          v'' ← setInvalid v' base;
          Ok (true, d', Some v'', l')
        else
          Ok (false, d, Some (updStatistics (countMiss (policy v)) v), l)
    end
  else Ok (false, d, vc, l).

(** The lower-level part: the accounted probe of [lowerCache], the
    recursive load on a miss there, and the byte copy. *)
Definition fetchFromLower (c : Cache) (isRead : bool) (base : Z)
    (d : list Z) (l : L) : result (list Z * L) :=
  match lowerCache lo l with
  | Some lc =>
      let l := updLowerCache lo (updStatistics (countAccess isRead)) l in
      hit ← inCache lc base;
      l' ← (if hit : bool
            then Ok (updLowerCache lo
                       (updStatistics (countHit (policy lc))) l)
            else lowerLoadBlockFromLowerLevel lo base isRead
                   (updLowerCache lo
                      (updStatistics (countMiss (policy lc))) l));
      copyFromLowerCache base (copyCount (policy c) base) d l'
  | None =>
      d' ← copyFromMemory base (copyCount (policy c) base) d l;
      Ok (d', l)
  end.

Definition loadBlockFromLowerLevelWith (addr : Z) (isRead : bool)
    (s : Sys L) : result (Sys L) :=
  let c := self s in
  let p := policy c in
  let blockSize := Policy.blockSize p in
  let fresh := replicate (Z.to_nat blockSize) 0 in
  let blockAddrBegin := blockAddrBeginOf p addr in
  let idx := getId p addr in
  let blockIdBegin := setBegin p idx in
  let blockIdEnd := setEnd p idx in
  replacedBlockIdx ← getReplacementBlockId c blockIdBegin blockIdEnd;
  replaceBlock ← blockAt c replacedBlockIdx;
  '(readFromVictimCache, d1, vc1, l1) ←
    probeVictim c isRead blockAddrBegin fresh (victimCache s) (below s);
  '(d2, l2) ← (if negb readFromVictimCache
               then fetchFromLower c isRead blockAddrBegin d1 l1
               else Ok (d1, l1));
  let newBlock :=
    Block.mk true false (getTag p addr) (getId p addr) blockSize
             (referenceCounter c) (referenceCounter c) d2 in
  s3 ← (if Block.valid replaceBlock then
          if Block.modified replaceBlock then
            s' ← writeBlockToLowerLevelWith replaceBlock (mkSys c vc1 l2);
            Ok (setSelf (updStatistics
                           (Statistics.addCycles (Policy.missLatency p))
                           (self s')) s')
          else
            match enabledVictim c vc1 with
            | Some v =>
                '(v', l') ← writeToVictim (getAddr p replaceBlock)
                                          replaceBlock v l2;
                Ok (mkSys c (Some v') l')
            | None => Ok (mkSys c vc1 l2)
            end
        else Ok (mkSys c vc1 l2));
  blocks' ← vecSet (blocks (self s3)) replacedBlockIdx newBlock;
  Ok (setSelf (setBlocks blocks' (self s3)) s3).

Definition touch (blockId : Z) (f : Block.t -> result Block.t) (c : Cache)
    : result Cache :=
  b ← blockAt c blockId;
  b' ← f b;
  blocks' ← vecSet (blocks c) blockId b';
  Ok (setBlocks blocks' c).

Definition getByteWith (addr : Z) (s : Sys L) : result (Z * Sys L) :=
  let c := setReferenceCounter (wrap32 (referenceCounter (self s) + 1))
                               (self s) in
  let s := setSelf c s in
  blockId ← getBlockId c addr;
  if negb (blockId =? minusOne) then
    let offset := getOffset (policy c) addr in
    c' ← touch blockId
           (fun b => Ok (Block.setLastReference (referenceCounter c) b)) c;
    b ← blockAt c' blockId;
    x ← vecGet (Block.data b) offset;
    Ok (x, setSelf c' s)
  else
    s' ← loadBlockFromLowerLevelWith addr true s;
    blockId ← getBlockId (self s') addr;
    if negb (blockId =? minusOne) then
      let offset := getOffset (policy (self s')) addr in
      c' ← touch blockId
             (fun b => Ok (Block.setLastReference
                             (referenceCounter (self s')) b))
             (self s');
      b ← blockAt c' blockId;
      x ← vecGet (Block.data b) offset;
      Ok (x, setSelf c' s')
    else Err (DataNotInTopLevelCache addr).

Definition storeInBlock (r offset val : Z) (b : Block.t) : result Block.t :=
  let b := Block.setLastReference r (Block.setModified true b) in
  d ← vecSet (Block.data b) offset val;
  Ok (Block.setData d b).

Definition setByteWith (addr val : Z) (s : Sys L) : result (Sys L) :=
  let c := setReferenceCounter (wrap32 (referenceCounter (self s) + 1))
                               (self s) in
  let s := setSelf c s in
  blockId ← getBlockId c addr;
  if negb (blockId =? minusOne) then
    c' ← touch blockId
           (storeInBlock (referenceCounter c) (getOffset (policy c) addr) val)
           c;
    Ok (setSelf c' s)
  else
    s' ← loadBlockFromLowerLevelWith addr false s;
    blockId ← getBlockId (self s') addr;
    if negb (blockId =? minusOne) then
      c' ← touch blockId
             (storeInBlock (referenceCounter (self s'))
                           (getOffset (policy (self s')) addr) val)
             (self s');
      Ok (setSelf c' s')
    else Err (DataNotInTopLevelCache addr).

Definition fetchWith (addr : Z) (s : Sys L) : result (Sys L) :=
  blockId ← getBlockId (self s) addr;
  if blockId =? minusOne
  then loadBlockFromLowerLevelWith addr true s
  else Ok s.

(** The accounting prologue shared by [read] and [write]. *)
Definition account (isRead : bool) (addr : Z) (c : Cache) : result Cache :=
  let c := updStatistics (countAccess isRead) c in
  hit ← inCache c addr;
  Ok (updStatistics (if hit : bool then countHit (policy c)
                     else countMiss (policy c)) c).

Definition readWith (addr : Z) (s : Sys L) : result (Z * Sys L) :=
  c ← account true addr (self s);
  getByteWith addr (setSelf c s).

Definition writeWith (addr val : Z) (s : Sys L) : result (Sys L) :=
  c ← account false addr (self s);
  setByteWith addr val (setSelf c s).

End CacheOps.

(** ** Tying the victim cache and the levels together *)

Section Instances.
Context {L : Type}.
Variable lo : Lower L.

(** The victim cache's own [victimCache] pointer is null. *)
Definition noVictimOps : VictimOps L :=
  mkVictimOps (fun _ _ _ => Err NullPointer) (fun _ _ _ _ => Err NullPointer).

(** [victimCache->getByte] and [victimCache->setByte]: the victim is a
    [Cache] over the owner's [lowerCache] and [memoryManager]. *)
Definition victimOps : VictimOps L :=
  mkVictimOps
    (fun addr v l =>
       '(x, s') ← getByteWith lo noVictimOps addr (mkSys v None l);
       Ok (x, self s', below s'))
    (fun addr val v l =>
       s' ← setByteWith lo noVictimOps addr val (mkSys v None l);
       Ok (self s', below s')).

Definition writeBlockToLowerLevel := writeBlockToLowerLevelWith lo victimOps.
Definition loadBlockFromLowerLevel := loadBlockFromLowerLevelWith lo victimOps.
Definition getByte := getByteWith lo victimOps.
Definition setByte := setByteWith lo victimOps.
Definition fetch := fetchWith lo victimOps.
Definition read := readWith lo victimOps.
Definition write := writeWith lo victimOps.

(** [Cache::setVictimCache]. *)
Definition setVictimCache (enable : bool) (s : Sys L) : result (Sys L) :=
  let c := setEnableVictimCache enable (self s) in
  if enable
  then v ← newCache victimCachePolicy; Ok (mkSys c (Some v) (below s))
  else Ok (mkSys c None (below s)).

(** What the next level up reaches through a [lowerCache] pointer to this
    cache and through the shared [memoryManager]. *)
Definition levelLower : Lower (Sys L) :=
  mkLower
    (fun s => Some (self s))
    (fun f s => setSelf (f (self s)) s)
    loadBlockFromLowerLevel
    getByte
    setByte
    (fun s => memoryManager lo (below s))
    (fun m s => setBelow (setMemoryManager lo m (below s)) s).

End Instances.

(** A cache constructed with [lowerCache == nullptr]. *)
Definition memoryLower : Lower MemoryManager.t :=
  mkLower
    (fun _ => None)
    (fun _ m => m)
    (fun _ _ _ => Err NullPointer)
    (fun _ _ => Err NullPointer)
    (fun _ _ _ => Err NullPointer)
    (fun m => m)
    (fun m _ => m).

(** ** MultiLevelCacheConfig.h *)

Module MultiLevelCacheConfig.
Definition L1 : Policy.t := Policy.mk (16 * 1024) 64 (16 * 1024 / 64) 1 1 8.
Definition L2 : Policy.t := Policy.mk (128 * 1024) 64 (128 * 1024 / 64) 8 8 20.
Definition L3 : Policy.t :=
  Policy.mk (2048 * 1024) 64 (2048 * 1024 / 64) 16 20 100.
End MultiLevelCacheConfig.

(** ** The CacheHierarchy class of the multi-level driver *)

Module PrefetchStatistics.
Record t : Type := mk {
  isPrefetching : bool;
  stride : Z;
  sameStrideCount : Z;
  diffStrideCount : Z;
  lastAccessAddress : Z
}.
Definition init : t := mk false 0 0 0 0.
End PrefetchStatistics.

Module CacheHierarchy.

(** [caches] holds [l1Cache], below it [l2Cache], below it [l3Cache] and
    at the bottom [memoryManager]: each cache was constructed with a
    pointer to the next one and to the one memory manager. *)
Definition Caches : Type := Sys (Sys (Sys MemoryManager.t)).

Record t : Type := mk {
  caches : Caches;
  enablePrefetch : bool;
  enableFifo : bool;
  enableVictimCache : bool;
  prefetchStatistics : PrefetchStatistics.t
}.

Definition lower3 : Lower MemoryManager.t := memoryLower.
Definition lower2 : Lower (Sys MemoryManager.t) := levelLower lower3.
Definition lower1 : Lower (Sys (Sys MemoryManager.t)) := levelLower lower2.
Definition top : Lower Caches := levelLower lower1.

Definition l1Cache (h : t) : Cache := self (caches h).
Definition l2Cache (h : t) : Cache := self (below (caches h)).
Definition l3Cache (h : t) : Cache := self (below (below (caches h))).
Definition memoryManagerOf (h : t) : MemoryManager.t :=
  memoryManager top (caches h).

Definition setCaches (c : Caches) (h : t) : t :=
  mk c (enablePrefetch h) (enableFifo h) (enableVictimCache h)
     (prefetchStatistics h).
Definition setPrefetchStatistics (p : PrefetchStatistics.t) (h : t) : t :=
  mk (caches h) (enablePrefetch h) (enableFifo h) (enableVictimCache h) p.

(** The constructor stores the three switches and builds L3, L2, L1. *)
Definition new (enablePrefetch enableFifo enableVictimCache : bool)
    : result t :=
  c3 ← newCache MultiLevelCacheConfig.L3;
  c2 ← newCache MultiLevelCacheConfig.L2;
  c1 ← newCache MultiLevelCacheConfig.L1;
  Ok (mk (mkSys c1 None (mkSys c2 None (mkSys c3 None MemoryManager.init)))
         enablePrefetch enableFifo enableVictimCache PrefetchStatistics.init).

(** [if (!memoryManager.isPageExist(a)) memoryManager.addPage(a);] *)
Definition ensurePage (a : Z) (c : Caches) : Caches :=
  let m := memoryManager top c in
  if negb (MemoryManager.isPageExist m a)
  then setMemoryManager top (fst (MemoryManager.addPage m a)) c
  else c.

(** The stride bookkeeping that follows the optional prefetch. *)
Definition updateStride (addr : Z) (p : PrefetchStatistics.t)
    : PrefetchStatistics.t :=
  let currentStride :=
    toInt32 (addr - PrefetchStatistics.lastAccessAddress p) in
  let '(same, diff, stride) :=
    if currentStride =? PrefetchStatistics.stride p
    then (wrap32 (PrefetchStatistics.sameStrideCount p + 1), 0,
          PrefetchStatistics.stride p)
    else (0, wrap32 (PrefetchStatistics.diffStrideCount p + 1),
          currentStride) in
  let pre := PrefetchStatistics.isPrefetching p in
  let pre := if 3 <? same then true else pre in
  let pre := if 3 <? diff then false else pre in
  PrefetchStatistics.mk pre stride same diff addr.

Definition prefetchStep (addr : Z) (h : t) : result t :=
  let p := prefetchStatistics h in
  c ← (if PrefetchStatistics.isPrefetching p then
         let prefetchAddr := wrap32 (addr + PrefetchStatistics.stride p) in
         fetch lower1 prefetchAddr (ensurePage prefetchAddr (caches h))
       else Ok (caches h));
  Ok (setPrefetchStatistics (updateStride addr p) (setCaches c h)).

Definition dispatch (operation : Ascii.ascii) (addr : Z) (c : Caches)
    : result Caches :=
  if Ascii.eqb operation "r"%char then
    '(_, c') ← read lower1 addr c; Ok c'
  else if Ascii.eqb operation "w"%char then
    write lower1 addr 0 c
  else Err IllegalMemoryAccessOperation.

Definition processMemoryAccess (operation : Ascii.ascii) (addr : Z) (h : t)
    : result t :=
  let h := setCaches (ensurePage addr (caches h)) h in
  h ← (if enablePrefetch h then prefetchStep addr h else Ok h);
  c ← dispatch operation addr (caches h);
  Ok (setCaches c h).

(** [while (trace >> operation >> std::hex >> addr) processMemoryAccess] *)
Fixpoint run (trace : list (Ascii.ascii * Z)) (h : t) : result t :=
  match trace with
  | [] => Ok h
  | (operation, addr) :: rest =>
      h' ← processMemoryAccess operation addr h; run rest h'
  end.

End CacheHierarchy.


(** * Properties *)

(** ** Generic facts about results and loops *)

Lemma bind_Ok {A B} (r : result A) (f : A -> result B) (b : B) :
  (r ≫= f) = Ok b -> exists a, r = Ok a /\ f a = Ok b.
Proof. destruct r as [a|e]; simpl; [eauto | discriminate]. Qed.

Lemma wrap32_range z : 0 <= wrap32 z < 2 ^ 32.
Proof. unfold wrap32. apply Z.mod_pos_bound. lia. Qed.

Lemma wrap32_small z : 0 <= z < 2 ^ 32 -> wrap32 z = z.
Proof. intros. unfold wrap32. apply Z.mod_small. lia. Qed.

(** Split a monadic hypothesis [H : (r ≫= f) = Ok b] repeatedly. *)
Ltac bind_inv H :=
  let a := fresh "a" in
  let E := fresh "E" in
  apply bind_Ok in H as (a & E & H); simpl in H.

Lemma isOk_true {A} (r : result A) : isOk r = true -> exists a, r = Ok a.
Proof. destruct r; [eauto | discriminate]. Qed.

Lemma bind_ret {A B} (a : A) (f : A -> result B) : (Ok a ≫= f) = f a.
Proof. reflexivity. Qed.

(** Advance a computation by one step whose result is known. *)
Ltac run E := rewrite E, bind_ret; cbv beta iota.

Ltac bind_as H x Hx :=
  apply bind_Ok in H as (x & Hx & H); simpl in H.

(** An invariant of the state is kept by a loop whose body keeps it. *)
Lemma forRange_invariant {T} (P : T -> Prop) (body : Z -> T -> result T) :
  (forall i s s', P s -> body i s = Ok s' -> P s') ->
  forall n i s s', P s -> forRange body i n s = Ok s' -> P s'.
Proof.
  intros Hbody n. induction n as [|n IH]; intros i s s' Hs H; simpl in H.
  - by inversion H; subst.
  - bind_inv H. eapply IH; [|exact H]. eapply Hbody; eauto.
Qed.

(** A loop whose body succeeds wherever the invariant holds succeeds. *)
Lemma forRange_total {T} (P : Z -> T -> Prop) (body : Z -> T -> result T) :
  (forall i s, P i s -> exists s', body i s = Ok s' /\ P (i + 1) s') ->
  forall n i s, P i s -> exists s', forRange body i n s = Ok s' /\ P (i + Z.of_nat n) s'.
Proof.
  intros Hbody n. induction n as [|n IH]; intros i s Hs; simpl.
  - exists s. split; [done|]. by rewrite Z.add_0_r.
  - destruct (Hbody i s Hs) as (s1 & E1 & H1). rewrite E1. simpl.
    destruct (IH (i + 1) s1 H1) as (s2 & E2 & H2).
    exists s2. split; [done|].
    by replace (i + Z.of_nat (S n)) with (i + 1 + Z.of_nat n) by lia.
Qed.

(** ** C2: statistics as reported *)

(** C2. A cache that owns an enabled victim cache reports its raw counters
    with the victim's hit count moved from the misses to the hits
    ([uint32_t] arithmetic); [numRead], [numWrite] and [totalCycles] are
    the raw ones.  A cache without a victim cache reports the raw
    counters. *)
Theorem getStatistics_victim_adjustment (c v : Cache) :
  (enableVictimCache c = true ->
   let r := getStatistics c (Some v) in
   let vh := Statistics.numHit (statistics v) in
   Statistics.numMiss r = wrap32 (Statistics.numMiss (statistics c) - vh) /\
   Statistics.numHit r = wrap32 (Statistics.numHit (statistics c) + vh) /\
   Statistics.numRead r = Statistics.numRead (statistics c) /\
   Statistics.numWrite r = Statistics.numWrite (statistics c) /\
   Statistics.totalCycles r = Statistics.totalCycles (statistics c)) /\
  getStatistics c None = statistics c /\
  (enableVictimCache c = false -> getStatistics c (Some v) = statistics c).
Proof.
  unfold getStatistics. split; [|split].
  - intros ->. simpl. done.
  - done.
  - by intros ->.
Qed.

(** Without wrap-around the adjustment is the integer one. *)
Lemma getStatistics_victim_exact (c v : Cache) :
  enableVictimCache c = true ->
  let vh := Statistics.numHit (statistics v) in
  0 <= vh <= Statistics.numMiss (statistics c) ->
  Statistics.numMiss (statistics c) < 2 ^ 32 ->
  0 <= Statistics.numHit (statistics c) ->
  Statistics.numHit (statistics c) + vh < 2 ^ 32 ->
  Statistics.numMiss (getStatistics c (Some v))
    = Statistics.numMiss (statistics c) - vh /\
  Statistics.numHit (getStatistics c (Some v))
    = Statistics.numHit (statistics c) + vh.
Proof.
  intros He vh H1 H2 H3 H4. unfold getStatistics. rewrite He. simpl.
  fold vh. rewrite !wrap32_small by lia. done.
Qed.

Definition sampleStatistics : Statistics.t := Statistics.mk 7 3 4 6 100.
Definition sampleVictimStatistics : Statistics.t := Statistics.mk 6 0 2 4 34.
Definition sampleOwner : Cache :=
  mkCache 10 MultiLevelCacheConfig.L1 [] sampleStatistics false true.
Definition sampleVictim : Cache :=
  mkCache 5 victimCachePolicy [] sampleVictimStatistics false false.

Lemma getStatistics_victim_adjustment_witness :
  enableVictimCache sampleOwner = true /\
  Statistics.numMiss (getStatistics sampleOwner (Some sampleVictim)) = 4 /\
  Statistics.numHit (getStatistics sampleOwner (Some sampleVictim)) = 6 /\
  getStatistics (setEnableVictimCache false sampleOwner) (Some sampleVictim)
    = sampleStatistics.
Proof.
  destruct (getStatistics_victim_adjustment sampleOwner sampleVictim)
    as (H1 & _ & _).
  destruct (getStatistics_victim_adjustment
              (setEnableVictimCache false sampleOwner) sampleVictim)
    as (_ & _ & H3).
  destruct (H1 eq_refl) as (Hm & Hh & _).
  split; [reflexivity|]. split; [exact Hm|]. split; [exact Hh|].
  exact (H3 eq_refl).
Defined.

(** ** C3: the replacement choice *)

Section Replacement.
Variable bs : list Block.t.

(** Slot [j] of the vector holds block [b]. *)
Definition slot (j : Z) (b : Block.t) : Prop := bs !! Z.to_nat j = Some b.

Definition allValid (lo hi : Z) : Prop :=
  forall j b, lo <= j < hi -> slot j b -> Block.valid b = true.

Lemma slot_exists j : 0 <= j < Z.of_nat (length bs) -> exists b, slot j b.
Proof.
  intros Hj. unfold slot.
  destruct (bs !! Z.to_nat j) as [b|] eqn:E; [eauto|].
  apply lookup_ge_None in E. lia.
Qed.

Lemma slot_fun j b b' : slot j b -> slot j b' -> b = b'.
Proof. unfold slot. congruence. Qed.

Lemma firstInvalid_spec n : forall i,
  0 <= i -> i + Z.of_nat n <= Z.of_nat (length bs) ->
  (exists r br, firstInvalid bs i n = Ok (Some r) /\ i <= r < i + Z.of_nat n /\
                slot r br /\ Block.valid br = false /\ allValid i r) \/
  (firstInvalid bs i n = Ok None /\ allValid i (i + Z.of_nat n)).
Proof.
  induction n as [|n IH]; intros i Hi Hlen.
  - right. split; [done|]. intros j b Hj. lia.
  - simpl firstInvalid.
    destruct (slot_exists i) as (b & Hb); [lia|].
    unfold slot in Hb. rewrite Hb.
    destruct (Block.valid b) eqn:Hv; simpl.
    + destruct (IH (i + 1)) as [(r & br & E & Hr & Hs & Hvr & Hall)|(E & Hall)];
        [lia | lia | left | right].
      * exists r, br. repeat split; try done; try lia.
        intros j b' Hj Hs'. destruct (decide (j = i)) as [->|].
        -- by rewrite (slot_fun _ _ _ Hs' Hb).
        -- eapply Hall; [|done]. lia.
      * split; [done|]. intros j b' Hj Hs'. destruct (decide (j = i)) as [->|].
        -- by rewrite (slot_fun _ _ _ Hs' Hb).
        -- eapply Hall; [|done]. lia.
    + left. exists i, b. repeat split; try done; try lia.
      intros j b' Hj. lia.
Qed.

Variable key : Block.t -> Z.

(** [r] holds a least key of the slots [lo..hi), and is the first to. *)
Definition firstMin (lo hi r : Z) (br : Block.t) : Prop :=
  lo <= r < hi /\ slot r br /\
  (forall j b, lo <= j < hi -> slot j b -> key br <= key b) /\
  (forall j b, lo <= j < r -> slot j b -> key br < key b).

Lemma minScan_spec lo n : forall i best bb,
  0 <= lo -> i + Z.of_nat n <= Z.of_nat (length bs) ->
  firstMin lo i best bb ->
  exists r br, minScan key bs i n best (key bb) = Ok r /\
               firstMin lo (i + Z.of_nat n) r br.
Proof.
  induction n as [|n IH]; intros i best bb Hlo Hlen Hmin.
  - exists best, bb. split; [done|]. by rewrite Z.add_0_r.
  - destruct Hmin as (Hb & Hsb & Hle & Hlt).
    simpl minScan.
    destruct (slot_exists i) as (b & Hbi); [lia|].
    pose proof Hbi as Hbi'. unfold slot in Hbi'. rewrite Hbi'.
    replace (i + Z.of_nat (S n)) with (i + 1 + Z.of_nat n) by lia.
    destruct (key b <? key bb) eqn:Hcmp.
    + apply Z.ltb_lt in Hcmp. apply IH; [done | lia |].
      split; [lia|]. split; [done|]. split.
      * intros j b' Hj Hs. destruct (decide (j = i)) as [->|].
        -- rewrite (slot_fun _ _ _ Hs Hbi). lia.
        -- specialize (Hle j b' ltac:(lia) Hs). lia.
      * intros j b' Hj Hs. specialize (Hle j b' ltac:(lia) Hs). lia.
    + apply Z.ltb_ge in Hcmp. apply IH; [done | lia |].
      split; [lia|]. split; [done|]. split.
      * intros j b' Hj Hs. destruct (decide (j = i)) as [->|].
        -- by rewrite (slot_fun _ _ _ Hs Hbi).
        -- apply (Hle j); [lia | done].
      * done.
Qed.

End Replacement.

Definition replacementKey (c : Cache) : Block.t -> Z :=
  if enableFifo c then Block.createdAt else Block.lastReference.

Lemma getReplacementBlockId_range (c : Cache) (begin end_ : Z) :
  0 <= begin < end_ -> end_ < 2 ^ 32 ->
  end_ <= Z.of_nat (length (blocks c)) ->
  exists r br,
    getReplacementBlockId c begin end_ = Ok r /\
    begin <= r < end_ /\ slot (blocks c) r br /\
    ((exists j b, begin <= j < end_ /\ slot (blocks c) j b /\
                  Block.valid b = false) ->
     Block.valid br = false /\ allValid (blocks c) begin r) /\
    (allValid (blocks c) begin end_ ->
     firstMin (blocks c) (replacementKey c) begin end_ r br).
Proof.
  intros Hb He Hlen. unfold getReplacementBlockId.
  destruct (firstInvalid_spec (blocks c) (Z.to_nat (end_ - begin)) begin)
    as [(r & br & E & Hr & Hs & Hv & Hall)|(E & Hall)]; [lia | lia | |];
    rewrite E; simpl.
  - rewrite Z2Nat.id in Hr by lia.
    exists r, br. split; [done|]. split; [lia|]. split; [done|]. split.
    + intros _. done.
    + intros Hav. specialize (Hav r br ltac:(lia) Hs). congruence.
  - rewrite Z2Nat.id in Hall by lia.
    replace (begin + (end_ - begin)) with end_ in Hall by lia.
    destruct (slot_exists (blocks c) begin) as (b0 & Hb0); [lia|].
    unfold blockAt. pose proof Hb0 as Hb0'. unfold slot in Hb0'.
    rewrite Hb0'. simpl.
    assert (Hfirst : forall key, firstMin (blocks c) key begin (begin + 1) begin b0).
    { intros key. split; [lia|]. split; [done|]. split.
      - intros j b Hj Hs. assert (j = begin) as -> by lia.
        by rewrite (slot_fun _ _ _ _ Hs Hb0).
      - intros j b Hj. lia. }
    assert (Hgoal : exists r br,
      (if enableFifo c
       then minScan Block.createdAt (blocks c) (wrap32 (begin + 1))
                    (Z.to_nat (end_ - wrap32 (begin + 1))) begin
                    (Block.createdAt b0)
       else minScan Block.lastReference (blocks c) begin
                    (Z.to_nat (end_ - begin)) begin (Block.lastReference b0))
      = Ok r /\ firstMin (blocks c) (replacementKey c) begin end_ r br).
    { unfold replacementKey. destruct (enableFifo c).
      - rewrite wrap32_small by lia.
        destruct (minScan_spec (blocks c) Block.createdAt begin
                    (Z.to_nat (end_ - (begin + 1))) (begin + 1) begin b0)
          as (r & br & Er & Hmin); [lia | lia | apply Hfirst |].
        exists r, br. split; [done|].
        by replace (begin + 1 + Z.of_nat (Z.to_nat (end_ - (begin + 1))))
          with end_ in Hmin by lia.
      - replace (Z.to_nat (end_ - begin))
          with (S (Z.to_nat (end_ - (begin + 1)))) by lia.
        simpl minScan. rewrite Hb0'. rewrite Z.ltb_irrefl.
        destruct (minScan_spec (blocks c) Block.lastReference begin
                    (Z.to_nat (end_ - (begin + 1))) (begin + 1) begin b0)
          as (r & br & Er & Hmin); [lia | lia | apply Hfirst |].
        exists r, br. split; [done|].
        by replace (begin + 1 + Z.of_nat (Z.to_nat (end_ - (begin + 1))))
          with end_ in Hmin by lia. }
    destruct Hgoal as (r & br & Er & Hmin).
    exists r, br. split; [done|].
    destruct Hmin as (Hr & Hs & Hle & Hlt).
    split; [done|]. split; [done|]. split.
    + intros (j & b & Hj & Hsj & Hvj).
      specialize (Hall j b Hj Hsj). congruence.
    + intros _. done.
Qed.

(** C3. Over the slots of the set of [addr] (at least one, all inside the
    block vector), [getReplacementBlockId] returns a slot [r] of that set
    such that: if some slot is invalid, [r] is invalid and every slot before
    it is valid; if all are valid, [r] carries the least key and every slot
    before it a strictly larger one, where the key is [createdAt] under FIFO
    and [lastReference] otherwise. *)
Theorem getReplacementBlockId_choice (c : Cache) (addr : Z) :
  let begin := setBegin (policy c) (getId (policy c) addr) in
  let end_ := setEnd (policy c) (getId (policy c) addr) in
  begin < end_ ->
  end_ <= Z.of_nat (length (blocks c)) ->
  exists r br,
    getReplacementBlockId c begin end_ = Ok r /\
    begin <= r < end_ /\ slot (blocks c) r br /\
    ((exists j b, begin <= j < end_ /\ slot (blocks c) j b /\
                  Block.valid b = false) ->
     Block.valid br = false /\ allValid (blocks c) begin r) /\
    (allValid (blocks c) begin end_ ->
     firstMin (blocks c)
              (if enableFifo c then Block.createdAt else Block.lastReference)
              begin end_ r br).
Proof.
  intros begin end_ Hlt Hlen.
  pose proof (wrap32_range (getId (policy c) addr * Policy.associativity (policy c))).
  pose proof (wrap32_range (wrap32 (getId (policy c) addr + 1)
                            * Policy.associativity (policy c))).
  apply getReplacementBlockId_range; unfold begin, end_, setBegin, setEnd in *; lia.
Qed.

(** A two-way cache of two sets whose first set is full. *)
Definition twoWayPolicy : Policy.t := Policy.mk 256 64 4 2 1 8.

Definition twoWayFull : Cache :=
  mkCache 9 twoWayPolicy
    [ Block.mk true false 3 0 64 8 5 (replicate 64 0);
      Block.mk true true 1 0 64 7 2 (replicate 64 0);
      Block.mk false false 0 1 64 0 0 (replicate 64 0);
      Block.mk false false 0 1 64 0 0 (replicate 64 0) ]
    (Statistics.mk 4 1 2 3 30) false false.

Lemma getReplacementBlockId_choice_witness :
  let c := twoWayFull in
  let begin := setBegin (policy c) (getId (policy c) 0) in
  let end_ := setEnd (policy c) (getId (policy c) 0) in
  (begin < end_ /\ end_ <= Z.of_nat (length (blocks c))) /\
  exists r br,
    getReplacementBlockId c begin end_ = Ok r /\
    begin <= r < end_ /\ slot (blocks c) r br /\
    ((exists j b, begin <= j < end_ /\ slot (blocks c) j b /\
                  Block.valid b = false) ->
     Block.valid br = false /\ allValid (blocks c) begin r) /\
    (allValid (blocks c) begin end_ ->
     firstMin (blocks c)
              (if enableFifo c then Block.createdAt else Block.lastReference)
              begin end_ r br).
Proof.
  intros c begin end_.
  assert (H1 : begin < end_) by (vm_compute; reflexivity).
  assert (H2 : end_ <= Z.of_nat (length (blocks c)))
    by (vm_compute; discriminate).
  split; [split; assumption|].
  exact (getReplacementBlockId_choice c 0 H1 H2).
Defined.

(** ** C7: the victim cache that [setVictimCache] constructs *)

Definition smallLinePolicy : Policy.t := Policy.mk 1024 32 32 1 1 8.

(** At an owner with 32-byte lines the victim cache still has 64-byte
    lines. *)
Lemma setVictimCache_blockSize_counterexample :
  exists c s' v,
    newCache smallLinePolicy = Ok c /\
    setVictimCache true (mkSys c None MemoryManager.init) = Ok s' /\
    victimCache s' = Some v /\
    Policy.blockSize (policy (self s')) = 32 /\
    Policy.blockSize (policy v) = 64 /\
    Policy.blockSize (policy v) <> Policy.blockSize (policy (self s')).
Proof.
  eexists _, _, _. split; [vm_compute; reflexivity|].
  split; [vm_compute; reflexivity|].
  split; [reflexivity|]. split; [reflexivity|]. split; [reflexivity|].
  simpl. discriminate.
Qed.

(** What [setVictimCache] constructs.  [setVictimCache(true)] always
    succeeds and gives the owner a freshly constructed victim cache of
    8 KiB with 64-byte lines,
    whatever the owner's line size: 128 blocks in one set (fully
    associative), hit latency 1, miss latency 8, every block invalid and all
    counters zero.  The owner only has its switch set; the state below it,
    and so the chain of lower levels and the memory manager the victim
    cache shares with its owner, is unchanged, and the pointer a higher
    level holds still designates the owner.  Every byte access to the
    victim cache is a Cache access over the owner's lower interface.
    [setVictimCache(false)] clears the switch and the pointer. *)
Theorem setVictimCache_constructs {L : Type} (lo : Lower L) (s : Sys L) :
  exists v,
    setVictimCache true s
      = Ok (mkSys (setEnableVictimCache true (self s)) (Some v) (below s)) /\
    policy v = Policy.mk 8192 64 128 128 1 8 /\
    Policy.associativity (policy v) = Policy.blockNum (policy v) /\
    Policy.blockNum (policy v) / Policy.associativity (policy v) = 1 /\
    length (blocks v) = 128%nat /\
    (forall b, b ∈ blocks v -> Block.valid b = false /\ Block.id b = 0) /\
    statistics v = Statistics.zero /\
    enableVictimCache v = false /\ enableFifo v = false /\
    (forall s', setVictimCache true s = Ok s' ->
       lowerCache (levelLower lo) s' = Some (self s') /\ below s' = below s) /\
    (forall addr l,
       victimGetByte (victimOps lo) addr v l
       = ('(x, s') ← getByteWith lo noVictimOps addr (mkSys v None l);
          Ok (x, self s', below s'))) /\
    (forall addr val l,
       victimSetByte (victimOps lo) addr val v l
       = (s' ← setByteWith lo noVictimOps addr val (mkSys v None l);
          Ok (self s', below s'))) /\
    setVictimCache false s
      = Ok (mkSys (setEnableVictimCache false (self s)) None (below s)).
Proof.
  destruct (newCache victimCachePolicy) as [v|e] eqn:E;
    [|vm_compute in E; discriminate].
  exists v. unfold setVictimCache. rewrite E. simpl.
  assert (Hv : v = mkCache 0 victimCachePolicy (initBlocks victimCachePolicy)
                           Statistics.zero false false).
  { vm_compute in E. injection E as <-. vm_compute. reflexivity. }
  split; [done|]. rewrite Hv.
  split; [reflexivity|]. split; [reflexivity|]. split; [reflexivity|].
  split; [reflexivity|]. split.
  { apply (Forall_forall (fun b => Block.valid b = false /\ Block.id b = 0)).
    vm_compute. repeat (constructor; [split; reflexivity|]). constructor. }
  split; [reflexivity|]. split; [reflexivity|]. split; [reflexivity|].
  split; [by intros s' [= <-]|].
  split; [reflexivity|]. split; reflexivity.
Qed.

(** A client of one cache over a memory manager with page 0 allocated: it
    sets the victim cache switch, writes 1 to address 0, reads [conflict]
    (an address of another line of the set of address 0, so that the line
    written is replaced), reads [next] (the first address after the
    owner's line of address 0) and reads address 0 again; the result is the
    byte of that last read. *)
Definition writeEvictReread (p : Policy.t) (enable : bool)
    (conflict next : Z) : result Z :=
  c ← newCache p;
  s ← setVictimCache enable
        (mkSys c None (MemoryManager.addPage MemoryManager.init 0).1);
  s ← write memoryLower 0 1 s;
  '(_, s) ← read memoryLower conflict s;
  '(_, s) ← read memoryLower next s;
  '(x, _) ← read memoryLower 0 s;
  Ok x.

(** C7.  The victim cache does not get the line size of its owner:
    [setVictimCache] builds it from a constant policy with 64-byte lines,
    here under an owner with 32-byte lines.  The owner then loses a byte
    that was written.  The line of address 0 is replaced and written back
    into the victim cache, where it is part of the 64-byte line of
    addresses 0 to 63; the miss on address 32 is served from that victim
    line, of which the owner copies its own 32 bytes and which
    [setInvalid] then drops whole; the read of address 0 finds the byte
    neither in the owner nor in the victim cache and returns the 0 of the
    memory manager in place of the 1 written.  The same accesses return 1
    when the victim cache is off, and the corresponding accesses return 1
    with the victim cache under an owner with 64-byte lines. *)
Theorem victim_line_size_loses_written_byte :
  (exists c s v,
     newCache smallLinePolicy = Ok c /\
     setVictimCache true
       (mkSys c None (MemoryManager.addPage MemoryManager.init 0).1) = Ok s /\
     victimCache s = Some v /\
     Policy.blockSize (policy (self s)) = 32 /\
     Policy.blockSize (policy v) = 64) /\
  writeEvictReread smallLinePolicy true 1024 32 = Ok 0 /\
  writeEvictReread smallLinePolicy false 1024 32 = Ok 1 /\
  writeEvictReread (Policy.mk 2048 64 32 1 1 8) true 2048 64 = Ok 1.
Proof.
  split.
  { eexists _, _, _. split; [vm_compute; reflexivity|].
    split; [vm_compute; reflexivity|].
    split; [reflexivity|]. split; reflexivity. }
  split; [vm_compute; reflexivity|].
  split; vm_compute; reflexivity.
Qed.

(** ** What a miss resolution does to the cache that runs it *)

(** The block installed by [loadBlockFromLowerLevel]. *)
Definition loadedBlock (c : Cache) (addr : Z) (d : list Z) : Block.t :=
  Block.mk true false (getTag (policy c) addr) (getId (policy c) addr)
           (Policy.blockSize (policy c)) (referenceCounter c)
           (referenceCounter c) d.

(** The writeback charge of a miss resolution. *)
Definition chargeWriteback (rb : Block.t) (c : Cache) : Cache :=
  if Block.valid rb && Block.modified rb
  then updStatistics (Statistics.addCycles (Policy.missLatency (policy c))) c
  else c.

Lemma vecSet_Ok {A} (v v' : list A) i x :
  vecSet v i x = Ok v' ->
  0 <= i < Z.of_nat (length v) /\ v' = <[Z.to_nat i := x]> v.
Proof.
  unfold vecSet. destruct (0 <=? i) eqn:E1; simpl; [|discriminate].
  destruct (i <? Z.of_nat (length v)) eqn:E2; [|discriminate].
  intros [= <-]. apply Z.leb_le in E1. apply Z.ltb_lt in E2. done.
Qed.

Lemma vecSet_total {A} (v : list A) i x :
  0 <= i < Z.of_nat (length v) -> vecSet v i x = Ok (<[Z.to_nat i := x]> v).
Proof.
  intros H. unfold vecSet.
  destruct (0 <=? i) eqn:E1; [|apply Z.leb_gt in E1; lia].
  destruct (i <? Z.of_nat (length v)) eqn:E2; [done|apply Z.ltb_ge in E2; lia].
Qed.

Lemma vecGet_total {A} (v : list A) i :
  0 <= i < Z.of_nat (length v) -> exists x, vecGet v i = Ok x.
Proof.
  intros H. unfold vecGet.
  destruct (v !! Z.to_nat i) eqn:E; [eauto|].
  apply lookup_ge_None in E. lia.
Qed.

Lemma blockAt_Ok c i b : blockAt c i = Ok b <-> slot (blocks c) i b.
Proof.
  unfold blockAt, slot. destruct (blocks c !! Z.to_nat i); split;
    intros H; by inversion H.
Qed.

Section SelfEffects.
Context {L : Type}.
Variable lo : Lower L.
Variable vo : VictimOps L.

Lemma writeBlockToLowerLevelWith_self b s s' :
  writeBlockToLowerLevelWith lo vo b s = Ok s' -> self s' = self s.
Proof.
  unfold writeBlockToLowerLevelWith. intros H.
  destruct (enabledVictim (self s) (victimCache s)).
  - bind_inv H. destruct a as [v' l']. by inversion H.
  - destruct (lowerCache lo (below s)); bind_inv H; by inversion H.
Qed.

(** The cache that resolves a miss changes in one slot of the set of
    [addr], which receives the loaded block, and in [totalCycles] when the
    replaced block was valid and modified. *)
Lemma loadBlockFromLowerLevelWith_self addr isRead s s' :
  loadBlockFromLowerLevelWith lo vo addr isRead s = Ok s' ->
  let c := self s in
  let idx := getId (policy c) addr in
  exists r rb d,
    getReplacementBlockId c (setBegin (policy c) idx) (setEnd (policy c) idx)
      = Ok r /\
    slot (blocks c) r rb /\
    0 <= r < Z.of_nat (length (blocks c)) /\
    self s' = setBlocks (<[Z.to_nat r := loadedBlock c addr d]> (blocks c))
                        (chargeWriteback rb c).
Proof.
  intros H c idx. unfold loadBlockFromLowerLevelWith in H.
  bind_inv H. rename a into r. bind_inv H. rename a into rb.
  bind_inv H. destruct a as [[[rv d1] vc1] l1]. bind_inv H.
  destruct a as [d2 l2]. bind_inv H. rename a into s3. bind_inv H.
  rename a into bs'. inversion H; subst s'; clear H.
  apply blockAt_Ok in E0.
  assert (Hs3 : self s3 = chargeWriteback rb c).
  { unfold chargeWriteback. fold c in E3.
    destruct (Block.valid rb); simpl in *.
    - destruct (Block.modified rb); simpl in *.
      + bind_inv E3. inversion E3; subst s3. simpl.
        apply writeBlockToLowerLevelWith_self in E5. simpl in E5.
        by rewrite E5.
      + destruct (enabledVictim c vc1).
        * bind_inv E3. destruct a as [v' l']. by inversion E3.
        * by inversion E3.
    - by inversion E3. }
  rewrite Hs3 in E4. apply vecSet_Ok in E4 as [Hr ->].
  exists r, rb, d2. split; [exact E|]. split; [done|].
  assert (Hbl : blocks (chargeWriteback rb c) = blocks c).
  { unfold chargeWriteback. by destruct (_ && _). }
  rewrite Hbl in Hr. split; [done|].
  simpl. rewrite Hs3, Hbl. unfold setBlocks, loadedBlock, chargeWriteback.
  by destruct (_ && _).
Qed.

End SelfEffects.

(** ** Policies accepted by the constructor *)

Definition policyOk (p : Policy.t) : Prop :=
  isPolicyValid p = Ok true /\
  u32 (Policy.cacheSize p) /\ u32 (Policy.blockSize p) /\
  u32 (Policy.blockNum p) /\ u32 (Policy.associativity p).

Lemma policyOk_sets p :
  policyOk p ->
  1 <= Policy.associativity p /\
  1 <= Policy.blockNum p / Policy.associativity p /\
  Policy.blockNum p / Policy.associativity p * Policy.associativity p
    = Policy.blockNum p /\
  1 <= Policy.blockSize p.
Proof.
  intros (Hv & Hc & Hbs & Hbn & Ha). unfold isPolicyValid in Hv. unfold u32 in *.
  destruct (Policy.blockSize p =? 0) eqn:E1; [discriminate|].
  destruct (Policy.associativity p =? 0) eqn:E2; [discriminate|].
  simpl in Hv. injection Hv as Hv.
  apply Z.eqb_neq in E1, E2.
  repeat (apply andb_prop in Hv as [Hv ?]).
  apply Z.ltb_lt in Hv. rename Hv into Hpos.
  match goal with H : (wrap32 _ =? _) = true |- _ => apply Z.eqb_eq in H; rename H into Hmul end.
  match goal with H : (_ mod Policy.associativity p =? 0) = true |- _ => apply Z.eqb_eq in H; rename H into Hmod end.
  assert (Hbn0 : Policy.blockNum p <> 0).
  { intros Hz. rewrite Hz in Hmul. unfold wrap32 in Hmul.
    rewrite Z.mul_0_l, Z.mod_0_l in Hmul by lia. lia. }
  assert (Hdiv : Policy.blockNum p
                 = Policy.associativity p
                   * (Policy.blockNum p / Policy.associativity p)).
  { apply Z.div_exact; [lia | done]. }
  split; [lia|]. split; [|split; [lia | lia]].
  assert (0 <= Policy.blockNum p / Policy.associativity p)
    by (apply Z.div_pos; lia).
  destruct (decide (Policy.blockNum p / Policy.associativity p = 0)) as [Hz|];
    [|lia].
  rewrite Hz in Hdiv. lia.
Qed.

Lemma getId_range p addr :
  policyOk p -> 0 <= getId p addr < Policy.blockNum p / Policy.associativity p.
Proof.
  intros Hp. pose proof (policyOk_sets p Hp) as (Ha & Hn & Hmul & Hbs).
  destruct Hp as (_ & _ & _ & Hbn & _). unfold u32 in Hbn.
  unfold getId, idBitsOf, log2i.
  set (n := Policy.blockNum p / Policy.associativity p) in *.
  destruct (n =? 0) eqn:E; [apply Z.eqb_eq in E; lia|].
  pose proof (Z.log2_nonneg n) as Hl.
  pose proof (Z.log2_spec n ltac:(lia)) as [Hlow _].
  rewrite Z.shiftl_1_l.
  assert (n <= Policy.blockNum p) by nia.
  rewrite wrap32_small by lia.
  replace (2 ^ Z.log2 n - 1) with (Z.ones (Z.log2 n))
    by (rewrite Z.ones_equiv; lia).
  rewrite Z.land_ones by done.
  pose proof (Z.mod_pos_bound (Z.shiftr addr (offsetBitsOf p)) (2 ^ Z.log2 n)
                ltac:(lia)).
  lia.
Qed.

(** The slots of the set of [addr] are [idx * a .. (idx + 1) * a), without
    wrap-around and inside the block vector. *)
Lemma set_bounds p addr :
  policyOk p ->
  let idx := getId p addr in
  let a := Policy.associativity p in
  setBegin p idx = idx * a /\ setEnd p idx = (idx + 1) * a /\
  0 <= idx * a /\ idx * a < (idx + 1) * a /\
  (idx + 1) * a <= Policy.blockNum p /\ Policy.blockNum p < 2 ^ 32.
Proof.
  intros Hp idx a. pose proof (policyOk_sets p Hp) as (Ha & Hn & Hmul & Hbs).
  pose proof (getId_range p addr Hp) as Hid. fold idx in Hid. fold a in Ha, Hmul, Hid.
  destruct Hp as (_ & _ & _ & Hbn & _). unfold u32 in Hbn.
  assert ((idx + 1) * a <= Policy.blockNum p) by nia.
  unfold setBegin, setEnd. fold a.
  rewrite (wrap32_small (idx + 1)) by nia.
  rewrite !wrap32_small by nia.
  repeat split; try lia; nia.
Qed.

(** ** Lookup facts *)

Definition noMatch (tag : Z) (b : Block.t) : Prop :=
  (Block.valid b && (Block.tag b =? tag)) = false.

Lemma getBlockIdLoop_Ok bs tag idx n : forall i r,
  0 <= i -> i + Z.of_nat n <= minusOne ->
  getBlockIdLoop bs tag idx i n = Ok r ->
  (r = minusOne /\
   forall j, i <= j < i + Z.of_nat n ->
     exists b, slot bs j b /\ Block.id b = idx /\ noMatch tag b) \/
  (i <= r < i + Z.of_nat n /\
   (exists b, slot bs r b /\ Block.id b = idx /\ Block.valid b = true /\
              Block.tag b = tag) /\
   forall j, i <= j < r ->
     exists b, slot bs j b /\ Block.id b = idx /\ noMatch tag b).
Proof.
  induction n as [|n IH]; intros i r Hi Hn H; simpl in H.
  - left. inversion H. split; [done|]. intros j Hj. lia.
  - destruct (bs !! Z.to_nat i) as [b|] eqn:Hb; [|discriminate].
    destruct (Block.id b =? idx) eqn:Hid; simpl in H; [|discriminate].
    apply Z.eqb_eq in Hid.
    destruct (Block.valid b && (Block.tag b =? tag)) eqn:Hm.
    + right. inversion H; subst r. split; [lia|]. split.
      * exists b. apply andb_prop in Hm as [Hv Ht]. apply Z.eqb_eq in Ht. done.
      * intros j Hj. lia.
    + destruct (IH (i + 1) r ltac:(lia) ltac:(lia) H)
        as [(-> & Hall)|(Hr & Hfound & Hall)]; [left | right].
      * split; [done|]. intros j Hj. destruct (decide (j = i)) as [->|].
        -- exists b. done.
        -- apply Hall. lia.
      * split; [lia|]. split; [done|]. intros j Hj.
        destruct (decide (j = i)) as [->|].
        -- exists b. done.
        -- apply Hall. lia.
Qed.

Lemma getBlockIdLoop_found bs tag idx n : forall i r,
  0 <= i -> i <= r < i + Z.of_nat n ->
  (exists b, slot bs r b /\ Block.id b = idx /\ Block.valid b = true /\
             Block.tag b = tag) ->
  (forall j, i <= j < r ->
     exists b, slot bs j b /\ Block.id b = idx /\ noMatch tag b) ->
  exists r', getBlockIdLoop bs tag idx i n = Ok r' /\ i <= r' <= r.
Proof.
  induction n as [|n IH]; intros i r Hi Hr Hfound Hall; [lia|].
  simpl. destruct (decide (i = r)) as [->|Hne].
  - destruct Hfound as (b & Hs & Hid & Hv & Ht). unfold slot in Hs.
    rewrite Hs, Hid, Hv, Ht, !Z.eqb_refl. simpl. exists r. split; [done | lia].
  - destruct (Hall i ltac:(lia)) as (b & Hs & Hid & Hm). unfold slot in Hs.
    unfold noMatch in Hm. rewrite Hs, Hid, Z.eqb_refl, Hm. simpl.
    destruct (IH (i + 1) r ltac:(lia) ltac:(lia) Hfound) as (r' & E & Hr').
    { intros j Hj. apply Hall. lia. }
    exists r'. split; [done | lia].
Qed.

Lemma slot_insert_eq (bs : list Block.t) r b :
  0 <= r < Z.of_nat (length bs) -> slot (<[Z.to_nat r := b]> bs) r b.
Proof. intros H. unfold slot. apply list_lookup_insert_eq. lia. Qed.

Lemma slot_insert_ne (bs : list Block.t) r j b b' :
  0 <= r -> 0 <= j -> j <> r ->
  slot bs j b' -> slot (<[Z.to_nat r := b]> bs) j b'.
Proof.
  intros Hr Hj Hne H. unfold slot in *.
  rewrite list_lookup_insert_ne by lia. done.
Qed.

(** ** C10 and C5: [fetch] *)

(** C10. [fetch] of an address that is in the cache returns the state it
    was given: no block field, counter or reference counter of this cache,
    of its victim cache or of any lower level changes. *)
Theorem fetch_resident_unchanged {L : Type} (lo : Lower L) (s : Sys L)
    (addr : Z) :
  inCache (self s) addr = Ok true -> fetch lo addr s = Ok s.
Proof.
  unfold inCache, fetch, fetchWith. intros H. bind_inv H.
  rewrite E. simpl. injection H as H.
  destruct (a =? minusOne); [discriminate | done].
Qed.

Definition twoWaySys : Sys MemoryManager.t :=
  mkSys twoWayFull None MemoryManager.init.

Lemma fetch_resident_unchanged_witness :
  inCache (self twoWaySys) 384 = Ok true /\
  fetch memoryLower 384 twoWaySys = Ok twoWaySys.
Proof.
  assert (H : inCache (self twoWaySys) 384 = Ok true)
    by (vm_compute; reflexivity).
  split; [exact H|].
  exact (fetch_resident_unchanged memoryLower twoWaySys 384 H).
Defined.

Lemma loaded_block_found (c : Cache) (addr r : Z) (d : list Z) (rb : Block.t) :
  policyOk (policy c) ->
  getBlockId c addr = Ok minusOne ->
  setBegin (policy c) (getId (policy c) addr) <= r
    < setEnd (policy c) (getId (policy c) addr) ->
  0 <= r < Z.of_nat (length (blocks c)) ->
  exists r',
    getBlockId (setBlocks (<[Z.to_nat r := loadedBlock c addr d]> (blocks c))
                          (chargeWriteback rb c)) addr = Ok r' /\
    r' <> minusOne.
Proof.
  intros Hp Habs Hr Hlen.
  pose proof (set_bounds (policy c) addr Hp) as (Hb & He & H0 & Hlt & Hle & Hbn).
  assert (Hpol : policy (chargeWriteback rb c) = policy c).
  { unfold chargeWriteback. by destruct (_ && _). }
  unfold getBlockId in *. simpl. rewrite Hpol.
  set (idx := getId (policy c) addr) in *.
  set (tag := getTag (policy c) addr) in *.
  apply getBlockIdLoop_Ok in Habs as [(_ & Hall)|(Hr' & _)];
    [| unfold minusOne in *; lia | lia | unfold minusOne in *; lia].
  rewrite Z2Nat.id in Hall by lia.
  destruct (getBlockIdLoop_found
              (<[Z.to_nat r := loadedBlock c addr d]> (blocks c)) tag idx
              (Z.to_nat (setEnd (policy c) idx - setBegin (policy c) idx))
              (setBegin (policy c) idx) r) as (r' & E & Hr'); [lia | lia | |  |].
  - exists (loadedBlock c addr d). split; [by apply slot_insert_eq|]. done.
  - intros j Hj. destruct (Hall j ltac:(lia)) as (b & Hs & Hid & Hm).
    exists b. split; [|done]. apply slot_insert_ne; [lia | lia | lia | done].
  - exists r'. split; [done|]. unfold minusOne. lia.
Qed.

(** C5. For a cache with a policy the constructor accepts, whenever
    [fetch(addr)] returns, [inCache(addr)] is true in the resulting state:
    an address that was absent has had a valid block with its tag and set id
    installed in a slot of its set. *)
Theorem fetch_makes_resident {L : Type} (lo : Lower L) (s s' : Sys L)
    (addr : Z) :
  policyOk (policy (self s)) ->
  fetch lo addr s = Ok s' ->
  inCache (self s') addr = Ok true /\
  (inCache (self s) addr = Ok false ->
   exists r b,
     setBegin (policy (self s)) (getId (policy (self s)) addr) <= r
       < setEnd (policy (self s)) (getId (policy (self s)) addr) /\
     slot (blocks (self s')) r b /\
     Block.valid b = true /\ Block.tag b = getTag (policy (self s)) addr /\
     Block.id b = getId (policy (self s)) addr).
Proof.
  intros Hp H. unfold fetch, fetchWith in H. bind_inv H. rename a into bid.
  destruct (bid =? minusOne) eqn:Hbid.
  - apply Z.eqb_eq in Hbid. subst bid.
    apply loadBlockFromLowerLevelWith_self in H
      as (r & rb & d & Hrep & Hslot & Hr & Hself).
    pose proof (set_bounds (policy (self s)) addr Hp)
      as (Hb & He & H0 & Hlt & Hle & Hbn).
    assert (Hin : setBegin (policy (self s)) (getId (policy (self s)) addr) <= r
                  < setEnd (policy (self s)) (getId (policy (self s)) addr)).
    { pose proof E as Habs. unfold getBlockId in Habs.
      apply getBlockIdLoop_Ok in Habs as [(_ & Hall)|(Hr' & _)];
        [| unfold minusOne in *; lia | lia | unfold minusOne in *; lia].
      rewrite Z2Nat.id in Hall by lia.
      destruct (getReplacementBlockId_range (self s)
                  (setBegin (policy (self s)) (getId (policy (self s)) addr))
                  (setEnd (policy (self s)) (getId (policy (self s)) addr)))
        as (r0 & br & E0 & Hr0 & _); [lia | lia | |].
      - destruct (Hall (setEnd (policy (self s)) (getId (policy (self s)) addr) - 1)
                    ltac:(lia)) as (b & Hs & _).
        unfold slot in Hs. apply lookup_lt_Some in Hs. lia.
      - rewrite Hrep in E0. by inversion E0; subst r0. }
    split.
    + destruct (loaded_block_found (self s) addr r d rb Hp E Hin Hr)
        as (r' & E' & Hne).
      unfold inCache. rewrite Hself, E'. simpl.
      apply Z.eqb_neq in Hne. by rewrite Hne.
    + intros _. exists r, (loadedBlock (self s) addr d).
      split; [done|]. rewrite Hself. simpl.
      split; [by apply slot_insert_eq|]. done.
  - inversion H; subst s'. split.
    + unfold inCache. rewrite E. simpl. by rewrite Hbid.
    + unfold inCache. rewrite E. simpl. rewrite Hbid. discriminate.
Qed.

Lemma twoWayPolicy_ok : policyOk twoWayPolicy.
Proof. unfold policyOk, u32. simpl. repeat split; (reflexivity || lia). Qed.

Lemma fetch_makes_resident_witness :
  exists s',
    policyOk (policy (self twoWaySys)) /\
    fetch memoryLower 1024 twoWaySys = Ok s' /\
    inCache (self s') 1024 = Ok true.
Proof.
  destruct (fetch memoryLower 1024 twoWaySys) as [s'|e] eqn:E;
    [|vm_compute in E; discriminate].
  exists s'. split; [exact twoWayPolicy_ok|]. split; [reflexivity|].
  exact (proj1 (fetch_makes_resident memoryLower twoWaySys s' 1024
                  twoWayPolicy_ok E)).
Defined.

(** ** C4: what [fetch] of an absent block accounts *)

(** The four access counters of a cache. *)
Definition counters (c : Cache) : Z * Z * Z * Z :=
  (Statistics.numRead (statistics c), Statistics.numWrite (statistics c),
   Statistics.numHit (statistics c), Statistics.numMiss (statistics c)).

(** What a cache may assume of the operations of its lower cache: updating
    the lower cache object is seen by reading it back, and the lower
    cache's own [loadBlockFromLowerLevel], [getByte] and [setByte] leave its
    four access counters alone. *)
Record LowerFrame {L : Type} (lo : Lower L) : Prop := mkLowerFrame {
  lf_upd : forall f l,
    lowerCache lo (updLowerCache lo f l) = f <$> lowerCache lo l;
  lf_load : forall a r l l',
    lowerLoadBlockFromLowerLevel lo a r l = Ok l' ->
    counters <$> lowerCache lo l' = counters <$> lowerCache lo l;
  lf_getByte : forall a l x l',
    lowerGetByte lo a l = Ok (x, l') ->
    counters <$> lowerCache lo l' = counters <$> lowerCache lo l;
  lf_setByte : forall a v l l',
    lowerSetByte lo a v l = Ok l' ->
    counters <$> lowerCache lo l' = counters <$> lowerCache lo l
}.

Lemma chargeWriteback_counters rb c :
  counters (chargeWriteback rb c) = counters c.
Proof. unfold chargeWriteback. by destruct (_ && _). Qed.

Lemma touch_Ok blockId f c c' :
  touch blockId f c = Ok c' ->
  exists b b', slot (blocks c) blockId b /\ f b = Ok b' /\
               0 <= blockId < Z.of_nat (length (blocks c)) /\
               c' = setBlocks (<[Z.to_nat blockId := b']> (blocks c)) c.
Proof.
  unfold touch. intros H. bind_inv H. bind_inv H. bind_inv H.
  inversion H; subst c'. apply blockAt_Ok in E. apply vecSet_Ok in E1 as [? ->].
  eauto 10.
Qed.

Section Counters.
Context {L : Type}.
Variable lo : Lower L.
Variable vo : VictimOps L.

Lemma loadBlockFromLowerLevelWith_counters addr isRead s s' :
  loadBlockFromLowerLevelWith lo vo addr isRead s = Ok s' ->
  counters (self s') = counters (self s).
Proof.
  intros H. apply loadBlockFromLowerLevelWith_self in H
    as (r & rb & d & _ & _ & _ & ->).
  apply chargeWriteback_counters.
Qed.

Lemma getByteWith_counters addr s x s' :
  getByteWith lo vo addr s = Ok (x, s') ->
  counters (self s') = counters (self s).
Proof.
  unfold getByteWith. intros H. bind_inv H. rename a into bid.
  destruct (negb (bid =? minusOne)).
  - bind_inv H. bind_inv H. bind_inv H. inversion H; subst. simpl.
    apply touch_Ok in E0 as (b & b' & _ & _ & _ & ->). done.
  - bind_inv H. rename a into s1. bind_inv H.
    destruct (negb (a =? minusOne)); [|discriminate].
    bind_inv H. bind_inv H. bind_inv H. inversion H; subst. simpl.
    apply touch_Ok in E2 as (b & b' & _ & _ & _ & ->).
    apply loadBlockFromLowerLevelWith_counters in E0. done.
Qed.

Lemma setByteWith_counters addr val s s' :
  setByteWith lo vo addr val s = Ok s' ->
  counters (self s') = counters (self s).
Proof.
  unfold setByteWith. intros H. bind_inv H. rename a into bid.
  destruct (negb (bid =? minusOne)).
  - bind_inv H. inversion H; subst. simpl.
    apply touch_Ok in E0 as (b & b' & _ & _ & _ & ->). done.
  - bind_inv H. rename a into s1. bind_inv H.
    destruct (negb (a =? minusOne)); [|discriminate].
    bind_inv H. inversion H; subst. simpl.
    apply touch_Ok in E2 as (b & b' & _ & _ & _ & ->).
    apply loadBlockFromLowerLevelWith_counters in E0. done.
Qed.

End Counters.

(** Every cache is such a lower cache for the level above it. *)
Lemma levelLower_frame {L : Type} (lo : Lower L) : LowerFrame (levelLower lo).
Proof.
  split; simpl.
  - done.
  - intros a r l l' H. f_equal.
    by apply (loadBlockFromLowerLevelWith_counters lo (victimOps lo)) in H.
  - intros a l x l' H. f_equal.
    by apply (getByteWith_counters lo (victimOps lo)) in H.
  - intros a v l l' H. f_equal.
    by apply (setByteWith_counters lo (victimOps lo)) in H.
Qed.

Lemma memoryLower_frame : LowerFrame memoryLower.
Proof. split; simpl; try done. Qed.

Section LowerProbe.
Context {L : Type}.
Variable lo : Lower L.
Variable vo : VictimOps L.
Hypothesis Hlo : LowerFrame lo.

Lemma copyFromLowerCache_counters base n d l d' l' :
  copyFromLowerCache lo base n d l = Ok (d', l') ->
  counters <$> lowerCache lo l' = counters <$> lowerCache lo l.
Proof.
  unfold copyFromLowerCache. intros H.
  apply (forRange_invariant
           (fun st => counters <$> lowerCache lo (snd st)
                      = counters <$> lowerCache lo l)) in H; [done| |done].
  intros i [d0 l0] [d1 l1] HP Hb. simpl in *.
  bind_inv Hb. destruct a as [x l2]. bind_inv Hb. inversion Hb; subst.
  rewrite <- HP. by eapply lf_getByte.
Qed.

Lemma writeToLowerCache_counters a b l l' :
  writeToLowerCache lo a b l = Ok l' ->
  counters <$> lowerCache lo l' = counters <$> lowerCache lo l.
Proof.
  unfold writeToLowerCache. intros H.
  apply (forRange_invariant
           (fun l0 => counters <$> lowerCache lo l0
                      = counters <$> lowerCache lo l)) in H; [done| |done].
  intros i l0 l1 HP Hb. bind_inv Hb.
  rewrite <- HP. by eapply lf_setByte.
Qed.

(** The accounted probe: what one miss resolution without a victim cache
    adds to the counters of the lower cache. *)
Definition probed (isRead hit : bool) (lc : Cache) : Cache :=
  updStatistics (if hit then countHit (policy lc) else countMiss (policy lc))
                (updStatistics (countAccess isRead) lc).

Lemma loadBlockFromLowerLevelWith_lower addr isRead s s' lc :
  enableVictimCache (self s) = false ->
  lowerCache lo (below s) = Some lc ->
  loadBlockFromLowerLevelWith lo vo addr isRead s = Ok s' ->
  exists lc' hit,
    lowerCache lo (below s') = Some lc' /\
    inCache lc (blockAddrBeginOf (policy (self s)) addr) = Ok hit /\
    counters lc' = counters (probed isRead hit lc).
Proof.
  intros Hev Hlc H. unfold loadBlockFromLowerLevelWith in H.
  bind_inv H. rename a into r. bind_inv H. rename a into rb.
  unfold probeVictim in H. rewrite Hev in H. simpl in H.
  bind_inv H. destruct a as [d2 l2].
  unfold fetchFromLower in E1. rewrite Hlc in E1.
  bind_inv E1. rename a into hit. bind_inv E1. rename a into l1.
  apply copyFromLowerCache_counters in E1.
  assert (Hl1 : counters <$> lowerCache lo l1
                = Some (counters (probed isRead hit lc))).
  { destruct hit.
    - inversion E3; subst l1. rewrite !(lf_upd lo Hlo), Hlc. done.
    - apply (lf_load lo Hlo) in E3. rewrite E3.
      rewrite !(lf_upd lo Hlo), Hlc. done. }
  rewrite Hl1 in E1.
  bind_inv H. rename a into s3. bind_inv H. inversion H; subst s'. simpl.
  assert (Hs3 : counters <$> lowerCache lo (below s3)
                = Some (counters (probed isRead hit lc))).
  { destruct (Block.valid rb); simpl in E4.
    - destruct (Block.modified rb); simpl in E4.
      + bind_as E4 s4 Hw. inversion E4; subst s3. simpl.
        unfold writeBlockToLowerLevelWith, enabledVictim in Hw.
        simpl in Hw. rewrite Hev in Hw.
        destruct (lowerCache lo l2) eqn:Hl2; [|discriminate].
        bind_as Hw l4 Hw'. inversion Hw; subst s4. simpl.
        apply writeToLowerCache_counters in Hw'. rewrite Hw', Hl2.
        exact E1.
      + unfold enabledVictim in E4. rewrite Hev in E4.
        by inversion E4; subst s3.
    - by inversion E4; subst s3. }
  destruct (lowerCache lo (below s3)) as [lc'|] eqn:Hlc'; [|discriminate].
  exists lc', hit. split; [done|]. split; [done|].
  simpl in Hs3. congruence.
Qed.

End LowerProbe.

(** A direct-mapped cache with 32-byte lines over the memory manager, with
    the page of address 0 allocated, after [write(0, 0)]. *)
Definition smallLineSys : result (Sys MemoryManager.t) :=
  c ← newCache smallLinePolicy;
  write memoryLower 0 0
        (mkSys c None (fst (MemoryManager.addPage MemoryManager.init 0))).

(** The run behind the counterexample: whether 1024 is in the cache after
    the write, and [totalCycles] before and after [fetch(1024)]. *)
Lemma fetchAfterDirtyWrite_eval :
  (s1 ← smallLineSys;
   present ← inCache (self s1) 1024;
   s2 ← fetch memoryLower 1024 s1;
   Ok (present, Statistics.totalCycles (statistics (self s1)),
       Statistics.totalCycles (statistics (self s2))))
  = Ok (false, 8, 16).
Proof. vm_compute. reflexivity. Qed.

(** After a write has dirtied the line of address 0, [fetch] of the absent
    address 1024, which maps to the same slot, adds the writeback latency
    to this cache's [totalCycles]. *)
Lemma fetch_absent_totalCycles_counterexample :
  exists s1 s2,
    smallLineSys = Ok s1 /\
    inCache (self s1) 1024 = Ok false /\
    fetch memoryLower 1024 s1 = Ok s2 /\
    Statistics.totalCycles (statistics (self s1)) = 8 /\
    Statistics.totalCycles (statistics (self s2)) = 16 /\
    Statistics.totalCycles (statistics (self s2))
      <> Statistics.totalCycles (statistics (self s1)).
Proof.
  pose proof fetchAfterDirtyWrite_eval as H.
  apply bind_Ok in H as (s1 & H1 & H). cbv beta in H.
  apply bind_Ok in H as (present & H2 & H). cbv beta in H.
  apply bind_Ok in H as (s2 & H3 & H). cbv beta in H.
  injection H as -> H8 H16.
  exists s1, s2. rewrite H8, H16.
  split; [exact H1|]. split; [exact H2|]. split; [exact H3|].
  split; [reflexivity|]. split; [reflexivity|]. discriminate.
Qed.

(** C4 (amended). [fetch] of an absent address leaves this cache's
    [numRead], [numWrite], [numHit] and [numMiss] unchanged.  Its
    [totalCycles] is unchanged when the replaced slot is invalid or clean,
    and grows by this cache's [missLatency] when the replaced block is valid
    and modified.  When this cache has no enabled victim cache and has a
    lower cache, the resolution is accounted there as one read and as one
    hit or one miss, according to whether the lower cache holds the line. *)
Theorem fetch_absent_accounting {L : Type} (lo : Lower L) (s s' : Sys L)
    (addr : Z) :
  LowerFrame lo ->
  inCache (self s) addr = Ok false ->
  fetch lo addr s = Ok s' ->
  let c := self s in
  let st := statistics c in
  let st' := statistics (self s') in
  (Statistics.numRead st' = Statistics.numRead st /\
   Statistics.numWrite st' = Statistics.numWrite st /\
   Statistics.numHit st' = Statistics.numHit st /\
   Statistics.numMiss st' = Statistics.numMiss st) /\
  (exists r rb,
     getReplacementBlockId c (setBegin (policy c) (getId (policy c) addr))
                           (setEnd (policy c) (getId (policy c) addr)) = Ok r /\
     slot (blocks c) r rb /\
     Statistics.totalCycles st'
     = if Block.valid rb && Block.modified rb
       then wrap32 (Statistics.totalCycles st + Policy.missLatency (policy c))
       else Statistics.totalCycles st) /\
  (enableVictimCache c = false ->
   forall lc, lowerCache lo (below s) = Some lc ->
   exists lc' hit,
     lowerCache lo (below s') = Some lc' /\
     inCache lc (blockAddrBeginOf (policy c) addr) = Ok hit /\
     Statistics.numRead (statistics lc')
     = wrap32 (Statistics.numRead (statistics lc) + 1) /\
     Statistics.numWrite (statistics lc')
     = Statistics.numWrite (statistics lc) /\
     Statistics.numHit (statistics lc')
     = (if hit then wrap32 (Statistics.numHit (statistics lc) + 1)
        else Statistics.numHit (statistics lc)) /\
     Statistics.numMiss (statistics lc')
     = (if hit then Statistics.numMiss (statistics lc)
        else wrap32 (Statistics.numMiss (statistics lc) + 1))).
Proof.
  intros Hlo Habs H c st st'.
  unfold fetch, fetchWith in H. unfold inCache in Habs.
  bind_as Habs bid Hbid. rewrite Hbid in H. simpl in H.
  injection Habs as Habs. apply negb_false_iff in Habs. rewrite Habs in H.
  split; [|split].
  - apply loadBlockFromLowerLevelWith_counters in H. unfold counters in H.
    by injection H.
  - apply loadBlockFromLowerLevelWith_self in H
      as (r & rb & d & Hrep & Hslot & _ & Hself).
    exists r, rb. split; [done|]. split; [done|].
    unfold st'. rewrite Hself. simpl. unfold chargeWriteback.
    by destruct (_ && _).
  - intros Hev lc Hlc.
    destruct (loadBlockFromLowerLevelWith_lower lo (victimOps lo) Hlo
                addr true s s' lc Hev Hlc H) as (lc' & hit & H1 & H2 & H3).
    exists lc', hit. split; [done|]. split; [done|].
    unfold counters, probed in H3. destruct hit; simpl in H3; by injection H3.
Qed.

(** A two-way cache whose first set is full and dirty, over a direct-mapped
    cache with 32-byte lines, over the memory manager. *)
Definition twoLevelSys : Sys (Sys MemoryManager.t) :=
  mkSys twoWayFull None
        (mkSys (mkCache 0 smallLinePolicy (initBlocks smallLinePolicy)
                        Statistics.zero false false)
               None MemoryManager.init).

Lemma fetch_absent_accounting_witness :
  LowerFrame (levelLower memoryLower) /\
  inCache (self twoLevelSys) 1024 = Ok false /\
  exists s',
    fetch (levelLower memoryLower) 1024 twoLevelSys = Ok s' /\
    Statistics.numRead (statistics (self s')) = 4 /\
    Statistics.numMiss (statistics (self s')) = 3.
Proof.
  assert (Hf : LowerFrame (levelLower memoryLower)) by apply levelLower_frame.
  assert (Ha : inCache (self twoLevelSys) 1024 = Ok false)
    by (vm_compute; reflexivity).
  split; [exact Hf|]. split; [exact Ha|].
  destruct (fetch (levelLower memoryLower) 1024 twoLevelSys) as [s'|e] eqn:E;
    [|vm_compute in E; discriminate].
  exists s'. split; [reflexivity|].
  destruct (fetch_absent_accounting (levelLower memoryLower) twoLevelSys s'
              1024 Hf Ha E) as ((H1 & _ & _ & H4) & _).
  split; [exact H1 | exact H4].
Defined.

(** ** The invariant of a cache object *)

(** [numHit + numMiss == numRead + numWrite], as [uint32_t] sums. *)
Definition balanced (st : Statistics.t) : Prop :=
  wrap32 (Statistics.numHit st + Statistics.numMiss st)
  = wrap32 (Statistics.numRead st + Statistics.numWrite st).

(** Block [n] carries the set id [n / associativity] and a data vector of
    [blockSize] bytes. *)
Definition blockOk (p : Policy.t) (n : nat) (b : Block.t) : Prop :=
  Block.id b = Z.of_nat n / Policy.associativity p /\
  Block.size b = Policy.blockSize p /\
  length (Block.data b) = Z.to_nat (Policy.blockSize p).

Definition idsStructural (c : Cache) : Prop :=
  forall n b, blocks c !! n = Some b ->
              Block.id b = Z.of_nat n / Policy.associativity (policy c).

(** The part of the invariant that lookups rely on. *)
Definition shapeOk (c : Cache) : Prop :=
  policyOk (policy c) /\
  Z.of_nat (length (blocks c)) = Policy.blockNum (policy c) /\
  (forall n b, blocks c !! n = Some b -> blockOk (policy c) n b).

Definition cacheOk (c : Cache) : Prop :=
  shapeOk c /\ balanced (statistics c).

Lemma cacheOk_shape c : cacheOk c -> shapeOk c.
Proof. by intros [H _]. Qed.

Lemma shapeOk_ids c : shapeOk c -> idsStructural c.
Proof. intros (_ & _ & Hb) n b H. by destruct (Hb n b H). Qed.

Lemma wrap32_add_l a b : wrap32 (wrap32 a + b) = wrap32 (a + b).
Proof. unfold wrap32. apply Zplus_mod_idemp_l. Qed.

Lemma wrap32_add_r a b : wrap32 (a + wrap32 b) = wrap32 (a + b).
Proof. unfold wrap32. apply Zplus_mod_idemp_r. Qed.

Lemma balanced_counted isRead (hit : bool) p st :
  balanced st ->
  balanced ((if hit then countHit p else countMiss p) (countAccess isRead st)).
Proof.
  unfold balanced. intros H.
  assert (Hs : wrap32 (Statistics.numHit st + Statistics.numMiss st + 1)
               = wrap32 (Statistics.numRead st + Statistics.numWrite st + 1)).
  { rewrite <- (wrap32_add_l (_ + _) 1), H, wrap32_add_l. done. }
  destruct hit, isRead; simpl; rewrite ?wrap32_add_l, ?wrap32_add_r;
    (etrans; [|etrans; [exact Hs|]]); f_equal; lia.
Qed.

Lemma balanced_addCycles n st :
  balanced st -> balanced (Statistics.addCycles n st).
Proof. done. Qed.

Lemma cacheOk_counted isRead hit p c :
  cacheOk c ->
  cacheOk (updStatistics (if hit : bool then countHit p else countMiss p)
                         (updStatistics (countAccess isRead) c)).
Proof.
  intros (Hsh & Hs). split; [exact Hsh|].
  simpl. by apply balanced_counted.
Qed.

Lemma getOffset_range p addr :
  policyOk p -> 0 <= getOffset p addr < Policy.blockSize p.
Proof.
  intros Hp. pose proof (policyOk_sets p Hp) as (_ & _ & _ & Hbs).
  destruct Hp as (_ & _ & Hu & _). unfold u32 in Hu.
  unfold getOffset, offsetBitsOf, log2i.
  destruct (Policy.blockSize p =? 0) eqn:E; [apply Z.eqb_eq in E; lia|].
  pose proof (Z.log2_nonneg (Policy.blockSize p)) as Hl.
  pose proof (Z.log2_spec (Policy.blockSize p) ltac:(lia)) as [Hlow _].
  rewrite Z.shiftl_1_l. rewrite wrap32_small by lia.
  replace (2 ^ Z.log2 (Policy.blockSize p) - 1)
    with (Z.ones (Z.log2 (Policy.blockSize p)))
    by (rewrite Z.ones_equiv; lia).
  rewrite Z.land_ones by done.
  pose proof (Z.mod_pos_bound addr (2 ^ Z.log2 (Policy.blockSize p))
                ltac:(lia)).
  lia.
Qed.

Lemma blockAddrBeginOf_nonneg p addr : 0 <= blockAddrBeginOf p addr.
Proof.
  unfold blockAddrBeginOf. apply Z.land_nonneg. right.
  apply wrap32_range.
Qed.

Lemma copyCount_le p base :
  0 <= base -> 0 <= Policy.blockSize p ->
  Z.of_nat (copyCount p base) <= Policy.blockSize p.
Proof.
  intros Hb Hs. unfold copyCount.
  assert (wrap32 (base + Policy.blockSize p) <= base + Policy.blockSize p).
  { unfold wrap32. apply Z.mod_le; lia. }
  lia.
Qed.

(** Under the invariant the slots of a set exist and carry its id. *)
Lemma shapeOk_set_slots c addr :
  shapeOk c ->
  let idx := getId (policy c) addr in
  let begin := setBegin (policy c) idx in
  let end_ := setEnd (policy c) idx in
  0 <= begin /\ begin < end_ /\ end_ <= Z.of_nat (length (blocks c)) /\
  end_ <= minusOne /\
  forall j, begin <= j < end_ ->
            exists b, slot (blocks c) j b /\ Block.id b = idx.
Proof.
  intros (Hp & Hl & Hb). cbv zeta.
  pose proof (set_bounds (policy c) addr Hp) as (Hbe & Hen & H0 & Hlt & Hle & Hbn).
  pose proof (policyOk_sets (policy c) Hp) as (Ha & _).
  cbv zeta in Hbe, Hen, H0, Hlt, Hle. rewrite Hbe, Hen.
  set (idx := getId (policy c) addr) in *.
  set (a := Policy.associativity (policy c)) in *.
  unfold minusOne.
  split; [lia|]. split; [lia|]. split; [lia|]. split; [lia|].
  intros j Hj. destruct (slot_exists (blocks c) j) as (b & Hs); [lia|].
  exists b. split; [done|].
  destruct (Hb _ _ Hs) as (Hid & _). rewrite Hid, Z2Nat.id by lia.
  fold a. symmetry. apply Z.div_unique with (r := j - idx * a); lia.
Qed.

Lemma getBlockIdLoop_total bs tag idx n : forall i,
  0 <= i ->
  (forall j, i <= j < i + Z.of_nat n ->
             exists b, slot bs j b /\ Block.id b = idx) ->
  exists r, getBlockIdLoop bs tag idx i n = Ok r /\
            (r = minusOne \/ i <= r < i + Z.of_nat n).
Proof.
  induction n as [|n IH]; intros i Hi Hall; simpl.
  - exists minusOne. split; [done | by left].
  - destruct (Hall i ltac:(lia)) as (b & Hs & Hid). unfold slot in Hs.
    rewrite Hs, Hid, Z.eqb_refl. simpl.
    destruct (Block.valid b && (Block.tag b =? tag)).
    + exists i. split; [done|]. right. lia.
    + destruct (IH (i + 1) ltac:(lia)) as (r & E & Hr).
      { intros j Hj. apply Hall. lia. }
      exists r. split; [done|]. destruct Hr; [by left | right; lia].
Qed.

Lemma getBlockIdLoop_hit bs tag idx n : forall i r0 b0,
  0 <= i -> i <= r0 < i + Z.of_nat n ->
  (forall j, i <= j < i + Z.of_nat n ->
             exists b, slot bs j b /\ Block.id b = idx) ->
  slot bs r0 b0 -> Block.valid b0 = true -> Block.tag b0 = tag ->
  exists r, getBlockIdLoop bs tag idx i n = Ok r /\ i <= r <= r0.
Proof.
  induction n as [|n IH]; intros i r0 b0 Hi Hr0 Hall Hs0 Hv0 Ht0; [lia|].
  simpl. destruct (Hall i ltac:(lia)) as (b & Hs & Hid).
  pose proof Hs as Hs'. unfold slot in Hs'.
  rewrite Hs', Hid, Z.eqb_refl. simpl.
  destruct (Block.valid b && (Block.tag b =? tag)) eqn:Hm.
  - exists i. split; [done | lia].
  - destruct (decide (i = r0)) as [->|Hne].
    + rewrite (slot_fun _ _ _ _ Hs Hs0), Hv0, Ht0, Z.eqb_refl in Hm.
      discriminate.
    + destruct (IH (i + 1) r0 b0 ltac:(lia) ltac:(lia)) as (r & E & Hr);
        try done.
      { intros j Hj. apply Hall. lia. }
      exists r. split; [done | lia].
Qed.

Lemma getBlockId_total c addr :
  shapeOk c ->
  exists r, getBlockId c addr = Ok r /\
            (r = minusOne \/
             setBegin (policy c) (getId (policy c) addr) <= r
               < setEnd (policy c) (getId (policy c) addr)).
Proof.
  intros Hc. destruct (shapeOk_set_slots c addr Hc) as (H0 & Hlt & Hle & _ & Hall).
  unfold getBlockId.
  destruct (getBlockIdLoop_total (blocks c) (getTag (policy c) addr)
              (getId (policy c) addr)
              (Z.to_nat (setEnd (policy c) (getId (policy c) addr)
                         - setBegin (policy c) (getId (policy c) addr)))
              (setBegin (policy c) (getId (policy c) addr)) H0)
    as (r & E & Hr).
  { intros j Hj. apply Hall. lia. }
  exists r. split; [done|]. destruct Hr; [by left | right; lia].
Qed.

Lemma inCache_total c addr : shapeOk c -> exists h, inCache c addr = Ok h.
Proof.
  intros Hc. destruct (getBlockId_total c addr Hc) as (r & E & _).
  unfold inCache. rewrite E. simpl. eauto.
Qed.

Lemma getBlockId_in_range c addr r :
  shapeOk c -> getBlockId c addr = Ok r -> r <> minusOne ->
  0 <= r < Z.of_nat (length (blocks c)).
Proof.
  intros Hc E Hne. destruct (shapeOk_set_slots c addr Hc) as (H0 & Hlt & Hle & _).
  destruct (getBlockId_total c addr Hc) as (r' & E' & Hr).
  rewrite E in E'. inversion E'; subst r'. destruct Hr; [done | lia].
Qed.

Lemma getReplacementBlockId_total c addr :
  shapeOk c ->
  exists r rb,
    getReplacementBlockId c (setBegin (policy c) (getId (policy c) addr))
                          (setEnd (policy c) (getId (policy c) addr)) = Ok r /\
    setBegin (policy c) (getId (policy c) addr) <= r
      < setEnd (policy c) (getId (policy c) addr) /\
    slot (blocks c) r rb.
Proof.
  intros Hc. destruct (shapeOk_set_slots c addr Hc) as (H0 & Hlt & Hle & Hm & _).
  destruct (getReplacementBlockId_range c
              (setBegin (policy c) (getId (policy c) addr))
              (setEnd (policy c) (getId (policy c) addr)))
    as (r & rb & E & Hr & Hs & _); [lia | unfold minusOne in Hm; lia | lia |].
  eauto.
Qed.

(** ** Updates that keep the invariant *)

Lemma cacheOk_setBlocks_insert c r b :
  cacheOk c -> 0 <= r -> blockOk (policy c) (Z.to_nat r) b ->
  cacheOk (setBlocks (<[Z.to_nat r := b]> (blocks c)) c).
Proof.
  intros ((Hp & Hl & Hb) & Hs) Hr Hbo.
  split; [|exact Hs]. split; [exact Hp|]. split; simpl.
  - by rewrite length_insert.
  - intros n b' Hn. destruct (decide (n = Z.to_nat r)) as [->|Hne].
    + apply list_lookup_insert_Some in Hn as [(_ & <- & _)|(? & _)]; done.
    + rewrite list_lookup_insert_ne in Hn by done. by apply Hb.
Qed.

Lemma cacheOk_setReferenceCounter c r :
  cacheOk c -> cacheOk (setReferenceCounter r c).
Proof. done. Qed.

Lemma cacheOk_chargeWriteback rb c :
  cacheOk c -> cacheOk (chargeWriteback rb c).
Proof. unfold chargeWriteback. by destruct (_ && _). Qed.

Lemma cacheOk_addCycles n c :
  cacheOk c -> cacheOk (updStatistics (Statistics.addCycles n) c).
Proof. done. Qed.

Lemma loadedBlock_id c addr r :
  shapeOk c ->
  setBegin (policy c) (getId (policy c) addr) <= r
    < setEnd (policy c) (getId (policy c) addr) ->
  getId (policy c) addr
  = Z.of_nat (Z.to_nat r) / Policy.associativity (policy c).
Proof.
  intros (Hp & _) Hr.
  pose proof (set_bounds (policy c) addr Hp) as (Hbe & Hen & H0 & Hlt & Hle & Hbn).
  rewrite Z2Nat.id by lia.
  apply Z.div_unique
    with (r := r - getId (policy c) addr * Policy.associativity (policy c)); lia.
Qed.

Lemma loadedBlock_ok c addr r d :
  shapeOk c ->
  setBegin (policy c) (getId (policy c) addr) <= r
    < setEnd (policy c) (getId (policy c) addr) ->
  length d = Z.to_nat (Policy.blockSize (policy c)) ->
  blockOk (policy c) (Z.to_nat r) (loadedBlock c addr d).
Proof.
  intros Hsh Hr Hd. split; [|done]. simpl. by apply loadedBlock_id.
Qed.

Lemma touch_total blockId f c :
  cacheOk c -> 0 <= blockId < Z.of_nat (length (blocks c)) ->
  (forall b, blockOk (policy c) (Z.to_nat blockId) b ->
             exists b', f b = Ok b' /\ blockOk (policy c) (Z.to_nat blockId) b') ->
  exists c', touch blockId f c = Ok c' /\ cacheOk c' /\
             policy c' = policy c /\ statistics c' = statistics c /\
             enableVictimCache c' = enableVictimCache c /\
             referenceCounter c' = referenceCounter c /\
             length (blocks c') = length (blocks c) /\
             exists b', slot (blocks c') blockId b' /\
                        blockOk (policy c) (Z.to_nat blockId) b'.
Proof.
  intros Hc Hr Hf. unfold touch.
  destruct (slot_exists (blocks c) blockId Hr) as (b & Hs).
  apply blockAt_Ok in Hs as Hs'. rewrite Hs'. simpl.
  pose proof Hc as ((Hp & Hl & Hb) & Hst).
  destruct (Hf b (Hb _ _ Hs)) as (b' & Hfb & Hok). rewrite Hfb. simpl.
  rewrite vecSet_total by done. simpl.
  eexists. split; [done|]. split.
  { apply cacheOk_setBlocks_insert; [done | lia | done]. }
  simpl. rewrite length_insert. repeat split; try done.
  exists b'. split; [by apply slot_insert_eq | done].
Qed.

(** A loop over [start .. start + n) succeeds and keeps [P] when its body
    does so at every index of the range. *)
Lemma forRange_good {T} (P : T -> Prop) (body : Z -> T -> result T)
    (start : Z) (n : nat) :
  (forall i s, start <= i < start + Z.of_nat n -> P s ->
               exists s', body i s = Ok s' /\ P s') ->
  forall s, P s -> exists s', forRange body start n s = Ok s' /\ P s'.
Proof.
  intros Hbody.
  assert (Hgen : forall m i s, i = start + Z.of_nat n - Z.of_nat m ->
                   (m <= n)%nat -> P s ->
                   exists s', forRange body i m s = Ok s' /\ P s').
  { induction m as [|m IH]; intros i s Hi Hm Hs; simpl.
    - eauto.
    - destruct (Hbody i s ltac:(lia) Hs) as (s1 & E1 & H1). rewrite E1. simpl.
      apply IH; [lia | lia | done]. }
  intros s Hs. apply Hgen; [lia | lia | done].
Qed.

(** ** The invariant of a cache together with what it reaches *)

(** What a cache may assume of the state below it: an invariant [IL] that
    the operations on the lower cache keep, and under which they return. *)
Record LowerGood {L : Type} (lo : Lower L) (IL : L -> Prop) : Prop :=
  mkLowerGood {
  lg_read_upd : forall f l,
    lowerCache lo (updLowerCache lo f l) = f <$> lowerCache lo l;
  lg_upd_upd : forall g1 g2 l,
    updLowerCache lo (updStatistics g2)
                  (updLowerCache lo (updStatistics g1) l)
    = updLowerCache lo (updStatistics (fun st => g2 (g1 st))) l;
  lg_upd : forall g l,
    (forall st, balanced st -> balanced (g st)) -> IL l ->
    IL (updLowerCache lo (updStatistics g) l);
  lg_cache : forall l c, IL l -> lowerCache lo l = Some c -> cacheOk c;
  lg_static : forall l l',
    IL l -> IL l' -> is_Some (lowerCache lo l) -> is_Some (lowerCache lo l');
  lg_load : forall a r l,
    IL l -> is_Some (lowerCache lo l) ->
    exists l', lowerLoadBlockFromLowerLevel lo a r l = Ok l' /\ IL l';
  lg_getByte : forall a l,
    IL l -> is_Some (lowerCache lo l) ->
    exists x l', lowerGetByte lo a l = Ok (x, l') /\ IL l';
  lg_setByte : forall a v l,
    IL l -> is_Some (lowerCache lo l) ->
    exists l', lowerSetByte lo a v l = Ok l' /\ IL l';
  lg_setmem : forall m l, IL l -> IL (setMemoryManager lo m l)
}.

(** A victim cache: a cache object whose own switch is off. *)
Definition victimOk (v : Cache) : Prop :=
  cacheOk v /\ enableVictimCache v = false.

Record VictimGood {L : Type} (vo : VictimOps L) (IL : L -> Prop) : Prop :=
  mkVictimGood {
  vg_get : forall a v l,
    victimOk v -> IL l ->
    exists x v' l', victimGetByte vo a v l = Ok (x, v', l') /\
                    victimOk v' /\ IL l';
  vg_set : forall a x v l,
    victimOk v -> IL l ->
    exists v' l', victimSetByte vo a x v l = Ok (v', l') /\
                  victimOk v' /\ IL l'
}.

(** A cache with its victim cache and the state below: the switch is on
    only when there is a victim cache. *)
Definition victimSlotOk (c : Cache) (vc : option Cache) : Prop :=
  match vc with
  | Some v => victimOk v
  | None => enableVictimCache c = false
  end.

Definition sysOk {L : Type} (IL : L -> Prop) (s : Sys L) : Prop :=
  cacheOk (self s) /\ victimSlotOk (self s) (victimCache s) /\ IL (below s).

Section GoodLoops.
Context {L : Type}.
Variable lo : Lower L.
Variable vo : VictimOps L.
Variable IL : L -> Prop.
Hypothesis Hlo : LowerGood lo IL.

Lemma copyFromVictim_good base n d v l :
  VictimGood vo IL -> victimOk v -> IL l ->
  Z.of_nat n <= Z.of_nat (length d) ->
  exists d' v' l', copyFromVictim vo base n d v l = Ok (d', v', l') /\
                   length d' = length d /\ victimOk v' /\ IL l'.
Proof.
  intros Hvo Hv Hl Hn. unfold copyFromVictim.
  destruct (forRange_good
              (fun st : list Z * Cache * L =>
                 length (st.1.1) = length d /\ victimOk (st.1.2) /\ IL (st.2))
              (fun i '(d, v, l) =>
                 '(x, v', l') ← victimGetByte vo i v l;
                 d' ← vecSet d (i - base) x;
                 Ok (d', v', l'))
              base n) with (s := (d, v, l)) as ([[d' v'] l'] & E & H); [|done|].
  - intros i [[d0 v0] l0] Hi (Hd0 & Hv0 & Hl0). simpl in *.
    destruct (vg_get vo IL Hvo i v0 l0 Hv0 Hl0) as (x & v1 & l1 & E1 & Hv1 & Hl1).
    rewrite E1. simpl. rewrite vecSet_total by lia. simpl.
    eexists. split; [done|]. simpl. by rewrite length_insert.
  - exists d', v', l'. split; [exact E | exact H].
Qed.

Lemma copyFromLowerCache_good base n d l :
  IL l -> is_Some (lowerCache lo l) ->
  Z.of_nat n <= Z.of_nat (length d) ->
  exists d' l', copyFromLowerCache lo base n d l = Ok (d', l') /\
                length d' = length d /\ IL l'.
Proof.
  intros Hl Hsome Hn. unfold copyFromLowerCache.
  destruct (forRange_good
              (fun st : list Z * L => length (st.1) = length d /\ IL (st.2))
              (fun i '(d, l) =>
                 '(x, l') ← lowerGetByte lo i l;
                 d' ← vecSet d (i - base) x;
                 Ok (d', l'))
              base n) with (s := (d, l)) as ([d' l'] & E & H); [|done|].
  - intros i [d0 l0] Hi (Hd0 & Hl0). simpl in *.
    destruct (lg_getByte lo IL Hlo i l0 Hl0) as (x & l1 & E1 & Hl1).
    { by eapply (lg_static lo IL Hlo l l0). }
    rewrite E1. simpl. rewrite vecSet_total by lia. simpl.
    eexists. split; [done|]. simpl. by rewrite length_insert.
  - exists d', l'. split; [exact E | exact H].
Qed.

Lemma copyFromMemory_good base n d l :
  Z.of_nat n <= Z.of_nat (length d) ->
  exists d', copyFromMemory lo base n d l = Ok d' /\ length d' = length d.
Proof.
  intros Hn. unfold copyFromMemory.
  apply (forRange_good (fun d0 : list Z => length d0 = length d)); [|done].
  intros i d0 Hi Hd0. rewrite vecSet_total by lia.
  eexists. split; [done|]. by rewrite length_insert.
Qed.

Lemma writeToVictim_good a b v l :
  VictimGood vo IL -> victimOk v -> IL l ->
  length (Block.data b) = Z.to_nat (Block.size b) ->
  exists v' l', writeToVictim vo a b v l = Ok (v', l') /\ victimOk v' /\ IL l'.
Proof.
  intros Hvo Hv Hl Hd. unfold writeToVictim.
  destruct (forRange_good
              (fun st : Cache * L => victimOk (st.1) /\ IL (st.2))
              (fun i '(v, l) =>
                 x ← vecGet (Block.data b) i;
                 victimSetByte vo (wrap32 (a + i)) x v l)
              0 (Z.to_nat (Block.size b))) with (s := (v, l))
    as ([v' l'] & E & H); [|done|].
  - intros i [v0 l0] Hi (Hv0 & Hl0). simpl in *.
    destruct (vecGet_total (Block.data b) i) as (x & Ex); [lia|].
    rewrite Ex. simpl.
    destruct (vg_set vo IL Hvo (wrap32 (a + i)) x v0 l0 Hv0 Hl0)
      as (v1 & l1 & E1 & H1).
    rewrite E1. eexists. split; [done | exact H1].
  - exists v', l'. split; [exact E | exact H].
Qed.

Lemma writeToLowerCache_good a b l :
  IL l -> is_Some (lowerCache lo l) ->
  length (Block.data b) = Z.to_nat (Block.size b) ->
  exists l', writeToLowerCache lo a b l = Ok l' /\ IL l'.
Proof.
  intros Hl Hsome Hd. unfold writeToLowerCache.
  apply (forRange_good IL); [|done].
  intros i l0 Hi Hl0.
  destruct (vecGet_total (Block.data b) i) as (x & Ex); [lia|].
  rewrite Ex. simpl. apply (lg_setByte lo IL Hlo); [done|].
  by eapply (lg_static lo IL Hlo l l0).
Qed.

Lemma writeToMemory_good a b l :
  IL l -> length (Block.data b) = Z.to_nat (Block.size b) ->
  exists l', writeToMemory lo a b l = Ok l' /\ IL l'.
Proof.
  intros Hl Hd. unfold writeToMemory.
  apply (forRange_good IL); [|done].
  intros i l0 Hi Hl0.
  destruct (vecGet_total (Block.data b) i) as (x & Ex); [lia|].
  rewrite Ex. simpl. eexists. split; [done|].
  by apply (lg_setmem lo IL Hlo).
Qed.

End GoodLoops.

Lemma victimSlotOk_same c c' vc :
  enableVictimCache c' = enableVictimCache c ->
  victimSlotOk c vc -> victimSlotOk c' vc.
Proof. intros He. destruct vc; simpl; [done | by rewrite He]. Qed.

Lemma blockOk_setValid p n v b :
  blockOk p n b -> blockOk p n (Block.setValid v b).
Proof. done. Qed.

Lemma blockOk_setLastReference p n r b :
  blockOk p n b -> blockOk p n (Block.setLastReference r b).
Proof. done. Qed.

Lemma setInvalid_good c addr :
  cacheOk c ->
  exists c', setInvalid c addr = Ok c' /\ cacheOk c' /\
             enableVictimCache c' = enableVictimCache c.
Proof.
  intros Hc. unfold setInvalid. pose proof (cacheOk_shape c Hc) as Hsh.
  destruct (getBlockId_total c addr Hsh) as (r & E & _). rewrite E. simpl.
  destruct (negb (r =? minusOne)) eqn:Hne; [|eauto].
  apply negb_true_iff, Z.eqb_neq in Hne.
  pose proof (getBlockId_in_range c addr r Hsh E Hne) as Hr.
  destruct (slot_exists (blocks c) r Hr) as (b & Hs).
  apply blockAt_Ok in Hs as Hs'. rewrite Hs'. simpl.
  eexists. split; [done|]. split; [|done].
  apply cacheOk_setBlocks_insert; [done | lia |].
  apply blockOk_setValid. destruct Hsh as (_ & _ & Hb). by apply Hb.
Qed.

Section GoodOps.
Context {L : Type}.
Variable lo : Lower L.
Variable vo : VictimOps L.
Variable IL : L -> Prop.
Hypothesis Hlo : LowerGood lo IL.

Lemma probeVictim_good c isRead base d vc l :
  victimSlotOk c vc ->
  (enableVictimCache c = true -> VictimGood vo IL) ->
  IL l ->
  Z.of_nat (copyCount (policy c) base) <= Z.of_nat (length d) ->
  exists rv d' vc' l',
    probeVictim vo c isRead base d vc l = Ok (rv, d', vc', l') /\
    length d' = length d /\ victimSlotOk c vc' /\ IL l'.
Proof.
  intros Hvc Hvo Hl Hn. unfold probeVictim.
  destruct (enableVictimCache c) eqn:Hev; [|by exists false, d, vc, l].
  destruct vc as [v|]; [|simpl in Hvc; congruence].
  destruct Hvc as [Hv Hvev].
  set (v1 := updStatistics (countAccess isRead) v).
  assert (Hv1 : shapeOk v1) by (by destruct Hv as [? _]).
  destruct (inCache_total v1 base Hv1) as (hit & Ehit). run Ehit.
  destruct hit.
  - assert (Hv2 : victimOk (updStatistics (countHit (policy v1)) v1)).
    { split; [|done]. by apply (cacheOk_counted isRead true). }
    destruct (copyFromVictim_good vo IL base (copyCount (policy c) base) d
                _ l (Hvo eq_refl) Hv2 Hl Hn)
      as (d' & v' & l' & E & Hd' & (Hv' & Hev') & Hl').
    run E.
    destruct (setInvalid_good v' base Hv') as (v'' & E'' & Hv'' & Hev'').
    run E''.
    exists true, d', (Some v''), l'. split; [done|]. split; [done|].
    split; [|done]. split; [done | congruence].
  - exists false, d, (Some (updStatistics (countMiss (policy v1)) v1)), l.
    split; [done|]. split; [done|]. split; [|done].
    split; [|done]. by apply (cacheOk_counted isRead false).
Qed.

Lemma fetchFromLower_good c isRead base d l :
  IL l ->
  Z.of_nat (copyCount (policy c) base) <= Z.of_nat (length d) ->
  exists d' l',
    fetchFromLower lo c isRead base d l = Ok (d', l') /\
    length d' = length d /\ IL l'.
Proof.
  intros Hl Hn. unfold fetchFromLower.
  destruct (lowerCache lo l) as [lc|] eqn:Hlc.
  - pose proof (cacheOk_shape lc (lg_cache lo IL Hlo l lc Hl Hlc)) as Hok.
    destruct (inCache_total lc base Hok) as (hit & Ehit). run Ehit.
    rewrite !(lg_upd_upd lo IL Hlo).
    assert (Hup : forall h : bool,
              IL (updLowerCache lo
                    (updStatistics
                       (fun st => (if h then countHit (policy lc)
                                   else countMiss (policy lc))
                                    (countAccess isRead st))) l)).
    { intros h. apply (lg_upd lo IL Hlo); [|done].
      intros st Hst. by apply balanced_counted. }
    assert (Hsome : is_Some (lowerCache lo l)) by (rewrite Hlc; eauto).
    assert (Hl1 : exists l1,
              (if hit
               then Ok (updLowerCache lo
                          (updStatistics
                             (fun st => countHit (policy lc)
                                          (countAccess isRead st))) l)
               else lowerLoadBlockFromLowerLevel lo base isRead
                      (updLowerCache lo
                         (updStatistics
                            (fun st => countMiss (policy lc)
                                         (countAccess isRead st))) l))
              = Ok l1 /\ IL l1).
    { destruct hit.
      - eexists. split; [done|]. exact (Hup true).
      - apply (lg_load lo IL Hlo); [exact (Hup false)|].
        by eapply (lg_static lo IL Hlo l); [| exact (Hup false) |]. }
    destruct Hl1 as (l1 & E1 & Hl1). run E1.
    destruct (copyFromLowerCache_good lo IL Hlo base
                (copyCount (policy c) base) d l1 Hl1) as (d' & l' & E & H);
      [by eapply (lg_static lo IL Hlo l) | done |].
    exists d', l'. split; [exact E | exact H].
  - destruct (copyFromMemory_good lo base (copyCount (policy c) base) d l Hn)
      as (d' & E & Hd'). run E. eauto.
Qed.

Lemma enabledVictim_Some c vc v :
  enabledVictim c vc = Some v -> enableVictimCache c = true /\ vc = Some v.
Proof. unfold enabledVictim. destruct (enableVictimCache c); by intros. Qed.

Lemma writeBlockToLowerLevelWith_good b s :
  sysOk IL s ->
  (enableVictimCache (self s) = true -> VictimGood vo IL) ->
  length (Block.data b) = Z.to_nat (Block.size b) ->
  exists s', writeBlockToLowerLevelWith lo vo b s = Ok s' /\
             sysOk IL s' /\ self s' = self s.
Proof.
  intros (Hc & Hvc & Hl) Hvo Hd. unfold writeBlockToLowerLevelWith.
  destruct (enabledVictim (self s) (victimCache s)) as [v|] eqn:Hen.
  - apply enabledVictim_Some in Hen as [Hev Hv]. rewrite Hv in Hvc.
    destruct (writeToVictim_good vo IL (getAddr (policy (self s)) b) b v
                (below s) (Hvo Hev) Hvc Hl Hd) as (v' & l' & E & Hv' & Hl').
    rewrite E. simpl. eexists. split; [done|]. done.
  - destruct (lowerCache lo (below s)) as [lc|] eqn:Hlc.
    + destruct (writeToLowerCache_good lo IL Hlo (getAddr (policy (self s)) b)
                  b (below s) Hl) as (l' & E & Hl'); [rewrite Hlc; eauto | done |].
      rewrite E. simpl. eexists. split; [done|]. done.
    + destruct (writeToMemory_good lo IL Hlo (getAddr (policy (self s)) b) b
                  (below s) Hl Hd) as (l' & E & Hl').
      rewrite E. simpl. eexists. split; [done|]. done.
Qed.

End GoodOps.

Lemma blockOk_data_size p n b :
  blockOk p n b -> length (Block.data b) = Z.to_nat (Block.size b).
Proof. intros (_ & Hs & Hd). by rewrite Hs. Qed.

Lemma getBlockId_after_load c addr r d rb :
  shapeOk c ->
  setBegin (policy c) (getId (policy c) addr) <= r
    < setEnd (policy c) (getId (policy c) addr) ->
  length d = Z.to_nat (Policy.blockSize (policy c)) ->
  exists r',
    getBlockId (setBlocks (<[Z.to_nat r := loadedBlock c addr d]> (blocks c))
                          (chargeWriteback rb c)) addr = Ok r' /\
    r' <> minusOne.
Proof.
  intros Hc Hr Hd.
  destruct (shapeOk_set_slots c addr Hc) as (H0 & Hlt & Hle & Hm & Hall).
  assert (Hpol : policy (chargeWriteback rb c) = policy c).
  { unfold chargeWriteback. by destruct (_ && _). }
  unfold getBlockId. simpl. rewrite Hpol.
  destruct (getBlockIdLoop_hit
              (<[Z.to_nat r := loadedBlock c addr d]> (blocks c))
              (getTag (policy c) addr) (getId (policy c) addr)
              (Z.to_nat (setEnd (policy c) (getId (policy c) addr)
                         - setBegin (policy c) (getId (policy c) addr)))
              (setBegin (policy c) (getId (policy c) addr)) r
              (loadedBlock c addr d)) as (r' & E & Hr'); try done; try lia.
  - intros j Hj. destruct (decide (j = r)) as [->|Hne].
    + exists (loadedBlock c addr d). split; [|done].
      apply slot_insert_eq. lia.
    + destruct (Hall j ltac:(lia)) as (b & Hs & Hid).
      exists b. split; [|done]. apply slot_insert_ne; [lia | lia | done | done].
  - apply slot_insert_eq. lia.
  - exists r'. split; [done|]. unfold minusOne in *. lia.
Qed.

Section GoodCache.
Context {L : Type}.
Variable lo : Lower L.
Variable vo : VictimOps L.
Variable IL : L -> Prop.
Hypothesis Hlo : LowerGood lo IL.

(** A miss resolution returns, keeps the invariant everywhere, and leaves
    the address in the cache. *)
Lemma loadBlockFromLowerLevelWith_good addr isRead s :
  sysOk IL s ->
  (enableVictimCache (self s) = true -> VictimGood vo IL) ->
  exists s',
    loadBlockFromLowerLevelWith lo vo addr isRead s = Ok s' /\
    sysOk IL s' /\
    enableVictimCache (self s') = enableVictimCache (self s) /\
    exists r, getBlockId (self s') addr = Ok r /\ r <> minusOne.
Proof.
  intros (Hc & Hvc & Hl) Hvo. pose proof (cacheOk_shape _ Hc) as Hsh.
  pose proof Hsh as (Hp & Hlen & Hblk).
  pose proof (policyOk_sets _ Hp) as (_ & _ & _ & Hbs).
  unfold loadBlockFromLowerLevelWith.
  destruct (getReplacementBlockId_total (self s) addr Hsh)
    as (r & rb & Er & Hr & Hs).
  run Er. apply blockAt_Ok in Hs as Hs'. run Hs'.
  set (base := blockAddrBeginOf (policy (self s)) addr).
  set (fresh := replicate (Z.to_nat (Policy.blockSize (policy (self s)))) 0).
  assert (Hfresh : length fresh = Z.to_nat (Policy.blockSize (policy (self s))))
    by apply length_replicate.
  assert (Hcount : Z.of_nat (copyCount (policy (self s)) base)
                   <= Z.of_nat (length fresh)).
  { rewrite Hfresh, Z2Nat.id by lia.
    apply copyCount_le; [apply blockAddrBeginOf_nonneg | lia]. }
  destruct (probeVictim_good vo IL (self s) isRead base fresh (victimCache s)
              (below s) Hvc Hvo Hl Hcount)
    as (rv & d1 & vc1 & l1 & Ep & Hd1 & Hvc1 & Hl1).
  run Ep.
  assert (Hf : exists d2 l2,
            (if negb rv then fetchFromLower lo (self s) isRead base d1 l1
             else Ok (d1, l1)) = Ok (d2, l2) /\
            length d2 = length fresh /\ IL l2).
  { destruct rv; simpl.
    - exists d1, l1. done.
    - destruct (fetchFromLower_good lo IL Hlo (self s) isRead base d1 l1 Hl1)
        as (d2 & l2 & E & Hd2 & Hl2); [lia|].
      exists d2, l2. split; [done|]. split; [congruence | done]. }
  destruct Hf as (d2 & l2 & Ef & Hd2 & Hl2). run Ef.
  assert (Hrb : length (Block.data rb) = Z.to_nat (Block.size rb)).
  { eapply blockOk_data_size. by apply Hblk. }
  match goal with
  | |- exists s', (?ev ≫= _) = _ /\ _ =>
      assert (Hev : exists s3, ev = Ok s3 /\ sysOk IL s3 /\
                               self s3 = chargeWriteback rb (self s))
  end.
  { unfold chargeWriteback.
    destruct (Block.valid rb); simpl; [|by eexists].
    destruct (Block.modified rb); simpl.
    - destruct (writeBlockToLowerLevelWith_good lo vo IL Hlo rb
                  (mkSys (self s) vc1 l2)) as (s4 & E4 & Hs4 & Hself4);
        [done | done | done |].
      run E4. eexists. split; [done|]. simpl in Hself4. rewrite Hself4.
      split; [|done]. destruct Hs4 as (Hc4 & Hvc4 & Hl4).
      split; [|split; [|done]]; simpl.
      + by apply cacheOk_addCycles.
      + rewrite Hself4 in Hvc4. by eapply victimSlotOk_same; [|exact Hvc4].
    - destruct (enabledVictim (self s) vc1) as [v|] eqn:Hen; [|by eexists].
      apply enabledVictim_Some in Hen as [Hen ->].
      destruct (writeToVictim_good vo IL (getAddr (policy (self s)) rb) rb v
                  l2 (Hvo Hen) Hvc1 Hl2 Hrb) as (v' & l' & E & Hv' & Hl').
      run E. eexists. split; [done|]. done. }
  destruct Hev as (s3 & E3 & (Hc3 & Hvc3 & Hl3) & Hself3). run E3.
  assert (Hin : 0 <= r < Z.of_nat (length (blocks (self s)))).
  { pose proof Hs as Hs2. unfold slot in Hs2. apply lookup_lt_Some in Hs2.
    destruct (shapeOk_set_slots (self s) addr Hsh) as (? & _). lia. }
  assert (Hbl3 : blocks (self s3) = blocks (self s)).
  { rewrite Hself3. unfold chargeWriteback. by destruct (_ && _). }
  rewrite Hbl3. rewrite vecSet_total by done. rewrite bind_ret.
  set (c' := setBlocks (<[Z.to_nat r := loadedBlock (self s) addr d2]>
                          (blocks (self s)))
                       (chargeWriteback rb (self s))).
  exists (setSelf c' s3). split.
  { unfold c'. rewrite <- Hself3. reflexivity. }
  assert (Hpol : policy (chargeWriteback rb (self s)) = policy (self s))
    by (unfold chargeWriteback; by destruct (_ && _)).
  assert (Hblc : blocks (chargeWriteback rb (self s)) = blocks (self s))
    by (unfold chargeWriteback; by destruct (_ && _)).
  assert (Hevc : enableVictimCache c' = enableVictimCache (self s))
    by (unfold c', chargeWriteback; by destruct (_ && _)).
  split; [split; [|split; [|done]]|split]; simpl.
  - unfold c'. rewrite <- Hblc.
    apply cacheOk_setBlocks_insert;
      [by apply cacheOk_chargeWriteback | lia |].
    rewrite Hpol. apply loadedBlock_ok; [done | done | congruence].
  - eapply victimSlotOk_same; [|exact Hvc3]. rewrite Hself3.
    unfold c', chargeWriteback. by destruct (_ && _).
  - exact Hevc.
  - unfold c'. apply getBlockId_after_load; [done | done | congruence].
Qed.

End GoodCache.

Lemma storeInBlock_good p n r offset val b :
  0 <= offset < Policy.blockSize p -> blockOk p n b ->
  exists b', storeInBlock r offset val b = Ok b' /\ blockOk p n b'.
Proof.
  intros Ho (Hid & Hs & Hd). unfold storeInBlock. simpl.
  rewrite vecSet_total by lia. simpl.
  eexists. split; [done|]. split; [done|]. split; [done|]. simpl.
  by rewrite length_insert.
Qed.

Section GoodAccess.
Context {L : Type}.
Variable lo : Lower L.
Variable vo : VictimOps L.
Variable IL : L -> Prop.
Hypothesis Hlo : LowerGood lo IL.

(** Reading the byte of a block that the lookup has just found. *)
Lemma readFound_good c addr blockId :
  cacheOk c -> getBlockId c addr = Ok blockId -> blockId <> minusOne ->
  exists x c',
    (c' ← touch blockId
           (fun b => Ok (Block.setLastReference (referenceCounter c) b)) c;
     b ← blockAt c' blockId;
     x ← vecGet (Block.data b) (getOffset (policy c) addr);
     Ok (x, c')) = Ok (x, c') /\
    cacheOk c' /\ enableVictimCache c' = enableVictimCache c.
Proof.
  intros Hc E Hne. pose proof (cacheOk_shape c Hc) as Hsh.
  pose proof (getBlockId_in_range c addr blockId Hsh E Hne) as Hr.
  destruct (touch_total blockId
              (fun b => Ok (Block.setLastReference (referenceCounter c) b))
              c Hc Hr)
    as (c' & Et & Hc' & Hpol & _ & Hev & _ & _ & b' & Hs' & Hb').
  { intros b Hb. eexists. split; [done|]. by apply blockOk_setLastReference. }
  run Et. apply blockAt_Ok in Hs'. run Hs'.
  destruct Hsh as (Hp & _).
  pose proof (getOffset_range (policy c) addr Hp) as Ho.
  destruct Hb' as (_ & _ & Hd).
  destruct (vecGet_total (Block.data b') (getOffset (policy c) addr))
    as (x & Ex); [lia|].
  run Ex. exists x, c'. done.
Qed.

Lemma getByteWith_good addr s :
  sysOk IL s ->
  (enableVictimCache (self s) = true -> VictimGood vo IL) ->
  exists x s',
    getByteWith lo vo addr s = Ok (x, s') /\ sysOk IL s' /\
    enableVictimCache (self s') = enableVictimCache (self s).
Proof.
  intros (Hc & Hvc & Hl) Hvo. unfold getByteWith.
  set (c := setReferenceCounter (wrap32 (referenceCounter (self s) + 1))
                                (self s)).
  assert (Hc1 : cacheOk c) by done.
  destruct (getBlockId_total c addr (cacheOk_shape c Hc1)) as (bid & E & _).
  run E. destruct (negb (bid =? minusOne)) eqn:Hne.
  - apply negb_true_iff, Z.eqb_neq in Hne.
    destruct (readFound_good c addr bid Hc1 E Hne) as (x & c' & Er & Hc' & Hev).
    apply bind_Ok in Er as (c1 & E1 & Er). run E1.
    apply bind_Ok in Er as (b1 & E2 & Er). run E2.
    apply bind_Ok in Er as (x1 & E3 & Er). run E3.
    injection Er as -> ->.
    exists x, (setSelf c' (setSelf c s)). split; [done|].
    split; [|done]. split; [done|]. split; [|done].
    by eapply victimSlotOk_same; [|exact Hvc].
  - destruct (loadBlockFromLowerLevelWith_good lo vo IL Hlo addr true
                (setSelf c s)) as (s1 & E1 & Hs1 & Hev1 & r & Er & Hr);
      [done | done |].
    run E1. run Er. apply Z.eqb_neq in Hr. rewrite Hr. simpl negb. cbv iota.
    apply Z.eqb_neq in Hr.
    destruct Hs1 as (Hc1' & Hvc1 & Hl1).
    destruct (readFound_good (self s1) addr r Hc1' Er Hr)
      as (x & c' & Ex & Hc' & Hev).
    apply bind_Ok in Ex as (c2 & E2 & Ex). run E2.
    apply bind_Ok in Ex as (b2 & E3 & Ex). run E3.
    apply bind_Ok in Ex as (x2 & E4 & Ex). run E4.
    injection Ex as -> ->.
    exists x, (setSelf c' s1). split; [done|].
    split; [|simpl in *; congruence]. split; [done|]. split; [|done].
    by eapply victimSlotOk_same; [|exact Hvc1].
Qed.

(** Storing into a block that the lookup has just found. *)
Lemma storeFound_good c addr val blockId :
  cacheOk c -> getBlockId c addr = Ok blockId -> blockId <> minusOne ->
  exists c',
    touch blockId
          (storeInBlock (referenceCounter c) (getOffset (policy c) addr) val)
          c = Ok c' /\
    cacheOk c' /\ enableVictimCache c' = enableVictimCache c.
Proof.
  intros Hc E Hne. pose proof (cacheOk_shape c Hc) as Hsh.
  pose proof (getBlockId_in_range c addr blockId Hsh E Hne) as Hr.
  destruct Hsh as (Hp & _).
  pose proof (getOffset_range (policy c) addr Hp) as Ho.
  destruct (touch_total blockId
              (storeInBlock (referenceCounter c) (getOffset (policy c) addr) val)
              c Hc Hr)
    as (c' & Et & Hc' & _ & _ & Hev & _).
  { intros b Hb. by apply storeInBlock_good. }
  exists c'. done.
Qed.

Lemma setByteWith_good addr val s :
  sysOk IL s ->
  (enableVictimCache (self s) = true -> VictimGood vo IL) ->
  exists s',
    setByteWith lo vo addr val s = Ok s' /\ sysOk IL s' /\
    enableVictimCache (self s') = enableVictimCache (self s).
Proof.
  intros (Hc & Hvc & Hl) Hvo. unfold setByteWith.
  set (c := setReferenceCounter (wrap32 (referenceCounter (self s) + 1))
                                (self s)).
  assert (Hc1 : cacheOk c) by done.
  destruct (getBlockId_total c addr (cacheOk_shape c Hc1)) as (bid & E & _).
  run E. destruct (negb (bid =? minusOne)) eqn:Hne.
  - apply negb_true_iff, Z.eqb_neq in Hne.
    destruct (storeFound_good c addr val bid Hc1 E Hne) as (c' & Et & Hc' & Hev).
    run Et. eexists. split; [done|].
    split; [|done]. split; [done|]. split; [|done].
    by eapply victimSlotOk_same; [|exact Hvc].
  - destruct (loadBlockFromLowerLevelWith_good lo vo IL Hlo addr false
                (setSelf c s)) as (s1 & E1 & Hs1 & Hev1 & r & Er & Hr);
      [done | done |].
    run E1. run Er. apply Z.eqb_neq in Hr. rewrite Hr. simpl negb. cbv iota.
    apply Z.eqb_neq in Hr.
    destruct Hs1 as (Hc1' & Hvc1 & Hl1).
    destruct (storeFound_good (self s1) addr val r Hc1' Er Hr)
      as (c' & Et & Hc' & Hev).
    run Et. eexists. split; [done|].
    split; [|simpl in *; congruence]. split; [done|]. split; [|done].
    by eapply victimSlotOk_same; [|exact Hvc1].
Qed.

Lemma fetchWith_good addr s :
  sysOk IL s ->
  (enableVictimCache (self s) = true -> VictimGood vo IL) ->
  exists s', fetchWith lo vo addr s = Ok s' /\ sysOk IL s'.
Proof.
  intros Hs Hvo. unfold fetchWith.
  destruct (getBlockId_total (self s) addr (cacheOk_shape _ (proj1 Hs)))
    as (bid & E & _).
  run E. destruct (bid =? minusOne); [|eauto].
  destruct (loadBlockFromLowerLevelWith_good lo vo IL Hlo addr true s Hs Hvo)
    as (s1 & E1 & Hs1 & _). eauto.
Qed.

Lemma account_good isRead addr c :
  cacheOk c ->
  exists c', account isRead addr c = Ok c' /\ cacheOk c' /\
             enableVictimCache c' = enableVictimCache c.
Proof.
  intros Hc. unfold account.
  destruct (inCache_total (updStatistics (countAccess isRead) c) addr)
    as (hit & E); [by destruct Hc|].
  run E. eexists. split; [done|]. split; [|done].
  by apply cacheOk_counted.
Qed.

Lemma readWith_good addr s :
  sysOk IL s ->
  (enableVictimCache (self s) = true -> VictimGood vo IL) ->
  exists x s', readWith lo vo addr s = Ok (x, s') /\ sysOk IL s'.
Proof.
  intros (Hc & Hvc & Hl) Hvo. unfold readWith.
  destruct (account_good true addr (self s) Hc) as (c' & E & Hc' & Hev).
  run E.
  destruct (getByteWith_good addr (setSelf c' s)) as (x & s' & E' & Hs' & _).
  - split; [done|]. split; [|done]. by eapply victimSlotOk_same; [|exact Hvc].
  - simpl. rewrite Hev. done.
  - eauto.
Qed.

Lemma writeWith_good addr val s :
  sysOk IL s ->
  (enableVictimCache (self s) = true -> VictimGood vo IL) ->
  exists s', writeWith lo vo addr val s = Ok s' /\ sysOk IL s'.
Proof.
  intros (Hc & Hvc & Hl) Hvo. unfold writeWith.
  destruct (account_good false addr (self s) Hc) as (c' & E & Hc' & Hev).
  run E.
  destruct (setByteWith_good addr val (setSelf c' s)) as (s' & E' & Hs' & _).
  - split; [done|]. split; [|done]. by eapply victimSlotOk_same; [|exact Hvc].
  - simpl. rewrite Hev. done.
  - eauto.
Qed.

End GoodAccess.

(** ** The invariant across victim caches and levels *)

Lemma victimOps_good {L : Type} (lo : Lower L) (IL : L -> Prop) :
  LowerGood lo IL -> VictimGood (victimOps lo) IL.
Proof.
  intros Hlo. split.
  - intros a v l (Hv & Hev) Hl. simpl.
    destruct (getByteWith_good lo noVictimOps IL Hlo a (mkSys v None l))
      as (x & s' & E & (Hc' & _ & Hl') & Hev').
    { split; [done|]. split; done. }
    { simpl. congruence. }
    run E. exists x, (self s'), (below s'). split; [done|].
    split; [|done]. split; [done|]. simpl in Hev'. congruence.
  - intros a x v l (Hv & Hev) Hl. simpl.
    destruct (setByteWith_good lo noVictimOps IL Hlo a x (mkSys v None l))
      as (s' & E & (Hc' & _ & Hl') & Hev').
    { split; [done|]. split; done. }
    { simpl. congruence. }
    run E. exists (self s'), (below s'). split; [done|].
    split; [|done]. split; [done|]. simpl in Hev'. congruence.
Qed.

Lemma levelLower_good {L : Type} (lo : Lower L) (IL : L -> Prop) :
  LowerGood lo IL -> LowerGood (levelLower lo) (sysOk IL).
Proof.
  intros Hlo. pose proof (victimOps_good lo IL Hlo) as Hvo. split; simpl.
  - done.
  - done.
  - intros g s Hg ((Hsh & Hb) & Hvc & Hl). split; [|split; [|done]]; simpl.
    + split; [done|]. by apply Hg.
    + by eapply victimSlotOk_same; [|exact Hvc].
  - intros s c (Hc & _) [= <-]. done.
  - intros. eauto.
  - intros a r s Hs _.
    destruct (loadBlockFromLowerLevelWith_good lo (victimOps lo) IL Hlo a r s
                Hs (fun _ => Hvo)) as (s' & E & Hs' & _).
    eauto.
  - intros a s Hs _.
    destruct (getByteWith_good lo (victimOps lo) IL Hlo a s Hs (fun _ => Hvo))
      as (x & s' & E & Hs' & _).
    eauto.
  - intros a v s Hs _.
    destruct (setByteWith_good lo (victimOps lo) IL Hlo a v s Hs (fun _ => Hvo))
      as (s' & E & Hs' & _).
    eauto.
  - intros m s (Hc & Hvc & Hl). split; [done|]. split; [done|]. simpl.
    by apply (lg_setmem lo IL Hlo).
Qed.

Lemma memoryLower_good : LowerGood memoryLower (fun _ => True).
Proof.
  split; simpl; try done; intros; by destruct (is_Some_None (A := Cache)).
Qed.

(** ** Construction establishes the invariant *)

Lemma initBlocksFrom_lookup p n : forall idx k b,
  initBlocksFrom p idx n !! k = Some b -> b = initBlock p (idx + Z.of_nat k).
Proof.
  induction n as [|n IH]; intros idx k b H; simpl in H; [done|].
  destruct k as [|k]; simpl in H.
  - inversion H. by rewrite Z.add_0_r.
  - apply IH in H. rewrite H. f_equal. lia.
Qed.

Lemma initBlocksFrom_length p n idx : length (initBlocksFrom p idx n) = n.
Proof. revert idx. induction n as [|n IH]; intros idx; simpl; [done|]. by rewrite IH. Qed.

Lemma newCache_good p c :
  u32 (Policy.cacheSize p) -> u32 (Policy.blockSize p) ->
  u32 (Policy.blockNum p) -> u32 (Policy.associativity p) ->
  newCache p = Ok c ->
  cacheOk c /\ enableVictimCache c = false /\ enableFifo c = false /\
  policy c = p /\ statistics c = Statistics.zero /\
  (forall n b, blocks c !! n = Some b -> Block.valid b = false).
Proof.
  intros H1 H2 H3 H4 H. unfold newCache in H.
  destruct (isPolicyValid p) as [ok|] eqn:Ev; [|discriminate]. simpl in H.
  destruct ok; [|discriminate]. injection H as <-. simpl.
  split; [|split; [done|split; [done|split; [done|split; [done|]]]]].
  - split; [|done]. split; [done|]. split; simpl.
    + unfold initBlocks. rewrite initBlocksFrom_length. unfold u32 in H3. lia.
    + intros n b Hn. apply initBlocksFrom_lookup in Hn. subst b.
      split; [|split]; simpl; [|done|by rewrite length_replicate].
      by rewrite Z.add_0_l.
  - intros n b Hn. apply initBlocksFrom_lookup in Hn. by subst b.
Qed.

(** ** The invariant of the hierarchy *)

Definition level3Ok : Sys MemoryManager.t -> Prop :=
  sysOk (fun _ : MemoryManager.t => True).
Definition level2Ok : Sys (Sys MemoryManager.t) -> Prop := sysOk level3Ok.
Definition cachesOk : CacheHierarchy.Caches -> Prop := sysOk level2Ok.
Definition hierarchyOk (h : CacheHierarchy.t) : Prop :=
  cachesOk (CacheHierarchy.caches h).

Lemma lower2_good : LowerGood CacheHierarchy.lower2 level3Ok.
Proof. apply levelLower_good, memoryLower_good. Qed.

Lemma lower1_good : LowerGood CacheHierarchy.lower1 level2Ok.
Proof. apply levelLower_good, lower2_good. Qed.

Lemma top_good : LowerGood CacheHierarchy.top cachesOk.
Proof. apply levelLower_good, lower1_good. Qed.

(** Closed range goals on policy constants. *)
Ltac solve_u32 := unfold u32; vm_compute; split; [discriminate | reflexivity].

Lemma newCache_valid p :
  isPolicyValid p = Ok true ->
  newCache p = Ok (mkCache 0 p (initBlocks p) Statistics.zero false false).
Proof. unfold newCache. by intros ->. Qed.

(** A policy with 32-bit fields that passes the constructor's check gives a
    cache that satisfies the invariant. *)
Lemma newCache_valid_good p :
  isPolicyValid p = Ok true ->
  u32 (Policy.cacheSize p) -> u32 (Policy.blockSize p) ->
  u32 (Policy.blockNum p) -> u32 (Policy.associativity p) ->
  exists c, newCache p = Ok c /\ cacheOk c /\ enableVictimCache c = false.
Proof.
  intros Hv H1 H2 H3 H4. eexists. split; [by apply newCache_valid|].
  destruct (newCache_good p _ H1 H2 H3 H4 (newCache_valid p Hv))
    as (Hc & Hev & _).
  done.
Qed.

Lemma victimCachePolicy_new :
  exists v, newCache victimCachePolicy = Ok v /\ victimOk v.
Proof.
  destruct (newCache_valid_good victimCachePolicy) as (v & E & Hc & Hev);
    [vm_compute; reflexivity | solve_u32 ..|].
  by exists v.
Qed.

Lemma setVictimCache_good {L : Type} (IL : L -> Prop) enable (s : Sys L) :
  sysOk IL s -> exists s', setVictimCache enable s = Ok s' /\ sysOk IL s'.
Proof.
  intros (Hc & Hvc & Hl). unfold setVictimCache. destruct enable.
  - destruct victimCachePolicy_new as (v & E & Hv). run E.
    eexists. split; [done|]. split; [done|]. split; done.
  - eexists. split; [done|]. split; [done|]. split; done.
Qed.

(** The driver keeps its [-f] and [-v] switches without passing them to the
    caches.  [configure] sets the switches of the three caches all the
    same: it assigns [enableFifo] and calls [setVictimCache] at each
    level. *)
Record Switches : Type := mkSwitches {
  fifo1 : bool; victim1 : bool;
  fifo2 : bool; victim2 : bool;
  fifo3 : bool; victim3 : bool
}.

Definition configureLevel {L : Type} (fifo victim : bool) (s : Sys L)
    : result (Sys L) :=
  s' ← setVictimCache victim s;
  Ok (setSelf (setEnableFifo fifo (self s')) s').

Definition configure (sw : Switches) (h : CacheHierarchy.t)
    : result CacheHierarchy.t :=
  s1 ← configureLevel (fifo1 sw) (victim1 sw) (CacheHierarchy.caches h);
  s2 ← configureLevel (fifo2 sw) (victim2 sw) (below s1);
  s3 ← configureLevel (fifo3 sw) (victim3 sw) (below s2);
  Ok (CacheHierarchy.setCaches (setBelow (setBelow s3 s2) s1) h).

Lemma configureLevel_good {L : Type} (IL : L -> Prop) fifo victim (s : Sys L) :
  sysOk IL s ->
  exists s', configureLevel fifo victim s = Ok s' /\ sysOk IL s' /\
             below s' = below s.
Proof.
  intros Hs. unfold configureLevel.
  destruct (setVictimCache_good IL victim s Hs) as (s' & E & (Hc & Hvc & Hl)).
  assert (Hb : below s' = below s).
  { unfold setVictimCache in E. destruct victim.
    - destruct victimCachePolicy_new as (v & Ev & _). rewrite Ev in E.
      by injection E as <-.
    - by injection E as <-. }
  run E. eexists. split; [done|]. split; [|done]. split; [done|]. split; done.
Qed.

Lemma configure_good sw h :
  hierarchyOk h -> exists h', configure sw h = Ok h' /\ hierarchyOk h'.
Proof.
  intros Hh. unfold configure.
  destruct (configureLevel_good level2Ok (fifo1 sw) (victim1 sw)
              (CacheHierarchy.caches h) Hh) as (s1 & E1 & (Hc1 & Hv1 & Hl1) & _).
  run E1.
  destruct (configureLevel_good level3Ok (fifo2 sw) (victim2 sw) (below s1) Hl1)
    as (s2 & E2 & (Hc2 & Hv2 & Hl2) & _).
  run E2.
  destruct (configureLevel_good (fun _ => True) (fifo3 sw) (victim3 sw)
              (below s2) Hl2) as (s3 & E3 & Hs3 & _).
  run E3. eexists. split; [done|].
  split; [done|]. split; [done|]. split; [done|]. split; [done|]. done.
Qed.

Lemma new_good pf ff vf :
  exists h, CacheHierarchy.new pf ff vf = Ok h /\ hierarchyOk h.
Proof.
  unfold CacheHierarchy.new.
  destruct (newCache_valid_good MultiLevelCacheConfig.L3)
    as (c3 & E3 & H3 & Hv3);
    [vm_compute; reflexivity | solve_u32 ..|].
  destruct (newCache_valid_good MultiLevelCacheConfig.L2)
    as (c2 & E2 & H2 & Hv2);
    [vm_compute; reflexivity | solve_u32 ..|].
  destruct (newCache_valid_good MultiLevelCacheConfig.L1)
    as (c1 & E1 & H1 & Hv1);
    [vm_compute; reflexivity | solve_u32 ..|].
  run E3. run E2. run E1. eexists. split; [done|].
  split; [done|]. split; [done|]. split; [done|]. split; [done|].
  split; [done|]. split; done.
Qed.

(** ** Every access of the hierarchy returns and keeps the invariant *)

Lemma ensurePage_good a c : cachesOk c -> cachesOk (CacheHierarchy.ensurePage a c).
Proof.
  intros Hc. unfold CacheHierarchy.ensurePage.
  destruct (negb _); [|done]. by apply (lg_setmem _ _ top_good).
Qed.

Lemma l1_victimOps_good : VictimGood (victimOps CacheHierarchy.lower1) level2Ok.
Proof. apply victimOps_good, lower1_good. Qed.

Lemma prefetchStep_good addr h :
  hierarchyOk h ->
  exists h', CacheHierarchy.prefetchStep addr h = Ok h' /\ hierarchyOk h' /\
             CacheHierarchy.enablePrefetch h' = CacheHierarchy.enablePrefetch h.
Proof.
  intros Hh. unfold CacheHierarchy.prefetchStep.
  destruct (PrefetchStatistics.isPrefetching _).
  - destruct (fetchWith_good CacheHierarchy.lower1
                (victimOps CacheHierarchy.lower1) level2Ok lower1_good
                (wrap32 (addr + PrefetchStatistics.stride
                                  (CacheHierarchy.prefetchStatistics h)))
                (CacheHierarchy.ensurePage
                   (wrap32 (addr + PrefetchStatistics.stride
                                     (CacheHierarchy.prefetchStatistics h)))
                   (CacheHierarchy.caches h)))
      as (c & E & Hc);
      [by apply ensurePage_good | intros _; apply l1_victimOps_good |].
    unfold fetch. run E. eexists. split; [done|]. split; done.
  - rewrite bind_ret. eexists. split; [done|]. split; done.
Qed.

Definition legalOperation (operation : ascii) : Prop :=
  operation = "r"%char \/ operation = "w"%char.

Lemma dispatch_good operation addr c :
  cachesOk c ->
  (legalOperation operation ->
   exists c', CacheHierarchy.dispatch operation addr c = Ok c' /\ cachesOk c') /\
  (~ legalOperation operation ->
   CacheHierarchy.dispatch operation addr c = Err IllegalMemoryAccessOperation).
Proof.
  intros Hc. unfold CacheHierarchy.dispatch, legalOperation.
  destruct (Ascii.eqb operation "r") eqn:Er.
  - apply Ascii.eqb_eq in Er. split; [|tauto]. intros _.
    destruct (readWith_good CacheHierarchy.lower1
                (victimOps CacheHierarchy.lower1) level2Ok lower1_good addr c Hc)
      as (x & c' & E & Hc'); [intros _; apply l1_victimOps_good|].
    unfold read. run E. eauto.
  - destruct (Ascii.eqb operation "w") eqn:Ew.
    + apply Ascii.eqb_eq in Ew. split; [|tauto]. intros _.
      destruct (writeWith_good CacheHierarchy.lower1
                  (victimOps CacheHierarchy.lower1) level2Ok lower1_good addr 0
                  c Hc)
        as (c' & E & Hc'); [intros _; apply l1_victimOps_good|].
      unfold write. eauto.
    + apply Ascii.eqb_neq in Er, Ew. split; [|done]. intros [?|?]; done.
Qed.

Lemma processMemoryAccess_good operation addr h :
  hierarchyOk h ->
  (legalOperation operation ->
   exists h', CacheHierarchy.processMemoryAccess operation addr h = Ok h' /\
              hierarchyOk h') /\
  (~ legalOperation operation ->
   CacheHierarchy.processMemoryAccess operation addr h
   = Err IllegalMemoryAccessOperation).
Proof.
  intros Hh. unfold CacheHierarchy.processMemoryAccess.
  set (h0 := CacheHierarchy.setCaches _ h).
  assert (Hh0 : hierarchyOk h0) by (by apply ensurePage_good).
  assert (Hpre : exists h1,
            (if CacheHierarchy.enablePrefetch h0
             then CacheHierarchy.prefetchStep addr h0 else Ok h0) = Ok h1 /\
            hierarchyOk h1).
  { destruct (CacheHierarchy.enablePrefetch h0); [|eauto].
    destruct (prefetchStep_good addr h0 Hh0) as (h1 & E & H1 & _). eauto. }
  destruct Hpre as (h1 & E1 & Hh1). run E1.
  destruct (dispatch_good operation addr (CacheHierarchy.caches h1) Hh1)
    as (Hlegal & Hillegal).
  split.
  - intros Hop. destruct (Hlegal Hop) as (c' & E & Hc'). run E.
    eexists. split; [done|]. done.
  - intros Hop. by rewrite (Hillegal Hop).
Qed.

Lemma run_good trace : forall h h',
  hierarchyOk h -> CacheHierarchy.run trace h = Ok h' -> hierarchyOk h'.
Proof.
  induction trace as [|[operation addr] rest IH]; intros h h' Hh H; simpl in H.
  - by injection H as <-.
  - apply bind_Ok in H as (h1 & E1 & H).
    destruct (processMemoryAccess_good operation addr h Hh) as (Hlegal & Hillegal).
    destruct (decide (operation = "r"%char \/ operation = "w"%char)) as [Hop|Hop].
    + destruct (Hlegal Hop) as (h1' & E1' & Hh1). rewrite E1 in E1'.
      injection E1' as <-. by eapply IH.
    + rewrite (Hillegal Hop) in E1. discriminate.
Qed.

Lemma run_total trace : forall h,
  hierarchyOk h -> Forall (fun a => legalOperation a.1) trace ->
  exists h', CacheHierarchy.run trace h = Ok h' /\ hierarchyOk h'.
Proof.
  induction trace as [|[operation addr] rest IH]; intros h Hh Hall; simpl.
  - eauto.
  - inversion Hall as [|? ? Hop Hrest]; subst.
    destruct (processMemoryAccess_good operation addr h Hh) as (Hlegal & _).
    destruct (Hlegal Hop) as (h1 & E1 & Hh1). run E1. by apply IH.
Qed.

(** ** Whole simulations *)

(** A hierarchy constructed by the driver, its caches' switches set by
    [configure], and a trace processed. *)
Definition simulate (enablePrefetch enableFifo enableVictimCache : bool)
    (sw : Switches) (trace : list (ascii * Z)) : result CacheHierarchy.t :=
  h0 ← CacheHierarchy.new enablePrefetch enableFifo enableVictimCache;
  h1 ← configure sw h0;
  CacheHierarchy.run trace h1.

(** The three caches of the hierarchy and their victim caches. *)
Definition allCaches (h : CacheHierarchy.t) : list Cache :=
  let s1 := CacheHierarchy.caches h in
  let s2 := below s1 in
  let s3 := below s2 in
  [self s1; self s2; self s3]
    ++ option_list (victimCache s1) ++ option_list (victimCache s2)
    ++ option_list (victimCache s3).

Lemma victimSlotOk_Forall c vc :
  victimSlotOk c vc -> Forall cacheOk (option_list vc).
Proof.
  destruct vc as [v|]; simpl.
  - intros [Hv _]. constructor; [exact Hv | constructor].
  - intros _. constructor.
Qed.

Lemma hierarchyOk_all h : hierarchyOk h -> Forall cacheOk (allCaches h).
Proof.
  intros (H1 & Hv1 & H2 & Hv2 & H3 & Hv3 & _). unfold allCaches. cbv zeta.
  apply Forall_cons; split; [exact H1|].
  apply Forall_cons; split; [exact H2|].
  apply Forall_cons; split; [exact H3|].
  apply Forall_app; split; [exact (victimSlotOk_Forall _ _ Hv1)|].
  apply Forall_app; split; [exact (victimSlotOk_Forall _ _ Hv2)|].
  exact (victimSlotOk_Forall _ _ Hv3).
Qed.

Lemma simulate_good pf ff vf sw trace h :
  simulate pf ff vf sw trace = Ok h -> hierarchyOk h.
Proof.
  unfold simulate. intros H.
  destruct (new_good pf ff vf) as (h0 & E0 & H0). rewrite E0, bind_ret in H.
  destruct (configure_good sw h0 H0) as (h1 & E1 & H1).
  rewrite E1, bind_ret in H. by eapply run_good.
Qed.

Lemma simulate_total pf ff vf sw trace :
  Forall (fun a => legalOperation a.1) trace ->
  exists h, simulate pf ff vf sw trace = Ok h.
Proof.
  intros Hall. unfold simulate.
  destruct (new_good pf ff vf) as (h0 & E0 & H0). run E0.
  destruct (configure_good sw h0 H0) as (h1 & E1 & H1). run E1.
  destruct (run_total trace h1 H1 Hall) as (h & E & _). eauto.
Qed.

(** ** C1: hits and misses add up to reads and writes *)

Section AccessCounters.
Context {L : Type}.
Variable lo : Lower L.
Variable vo : VictimOps L.

Lemma account_counters isRead addr c c' :
  account isRead addr c = Ok c' ->
  exists hit, inCache c addr = Ok hit /\ c' = probed isRead hit c.
Proof.
  unfold account. intros H. bind_as H hit Hhit. injection H as <-.
  exists hit. split; [exact Hhit | by destruct hit].
Qed.

Lemma readWith_counters addr s x s' :
  readWith lo vo addr s = Ok (x, s') ->
  exists hit, inCache (self s) addr = Ok hit /\
              counters (self s') = counters (probed true hit (self s)).
Proof.
  unfold readWith. intros H. bind_as H c Hc.
  apply account_counters in Hc as (hit & Hhit & ->).
  apply getByteWith_counters in H. eauto.
Qed.

Lemma writeWith_counters addr val s s' :
  writeWith lo vo addr val s = Ok s' ->
  exists hit, inCache (self s) addr = Ok hit /\
              counters (self s') = counters (probed false hit (self s)).
Proof.
  unfold writeWith. intros H. bind_as H c Hc.
  apply account_counters in Hc as (hit & Hhit & ->).
  apply setByteWith_counters in H. eauto.
Qed.

Lemma fetchWith_counters addr s s' :
  fetchWith lo vo addr s = Ok s' -> counters (self s') = counters (self s).
Proof.
  unfold fetchWith. intros H. bind_as H bid Hbid.
  destruct (bid =? minusOne).
  - by apply loadBlockFromLowerLevelWith_counters in H.
  - by injection H as <-.
Qed.

End AccessCounters.

(** C1. After any trace processed by a hierarchy whose prefetcher is on or
    off and whose caches have FIFO and the victim cache switched on or off
    in any combination, every cache of the hierarchy and every victim cache
    satisfies [numHit + numMiss == numRead + numWrite] on its raw counters.
    [read] and [write] add one to [numRead] or [numWrite] and one to
    [numHit] or [numMiss], according to whether the address is in the
    cache; [fetch], [getByte] (the byte copies) and [setByte] (the
    writebacks) leave the four counters of the cache they are called on
    unchanged. *)
Theorem counters_balanced :
  (forall pf ff vf sw trace h,
     simulate pf ff vf sw trace = Ok h ->
     Forall (fun c => balanced (statistics c)) (allCaches h)) /\
  (forall (L : Type) (lo : Lower L) addr (s : Sys L) x s',
     read lo addr s = Ok (x, s') ->
     exists hit, inCache (self s) addr = Ok hit /\
                 counters (self s') = counters (probed true hit (self s))) /\
  (forall (L : Type) (lo : Lower L) addr val (s s' : Sys L),
     write lo addr val s = Ok s' ->
     exists hit, inCache (self s) addr = Ok hit /\
                 counters (self s') = counters (probed false hit (self s))) /\
  (forall isRead hit c,
     let st := statistics c in
     counters (probed isRead hit c)
     = (if isRead then wrap32 (Statistics.numRead st + 1)
        else Statistics.numRead st,
        if isRead then Statistics.numWrite st
        else wrap32 (Statistics.numWrite st + 1),
        if hit then wrap32 (Statistics.numHit st + 1) else Statistics.numHit st,
        if hit then Statistics.numMiss st
        else wrap32 (Statistics.numMiss st + 1))) /\
  (forall (L : Type) (lo : Lower L) addr (s s' : Sys L),
     fetch lo addr s = Ok s' -> counters (self s') = counters (self s)) /\
  (forall (L : Type) (lo : Lower L) addr (s : Sys L) x s',
     getByte lo addr s = Ok (x, s') -> counters (self s') = counters (self s)) /\
  (forall (L : Type) (lo : Lower L) addr val (s s' : Sys L),
     setByte lo addr val s = Ok s' -> counters (self s') = counters (self s)).
Proof.
  split; [|split; [|split; [|split; [|split; [|split]]]]].
  - intros pf ff vf sw trace h H. apply simulate_good, hierarchyOk_all in H.
    eapply Forall_impl; [exact H|]. by intros c [_ Hb].
  - intros L lo addr s x s'. apply readWith_counters.
  - intros L lo addr val s s'. apply writeWith_counters.
  - intros isRead hit c. by destruct isRead, hit.
  - intros L lo addr s s'. apply fetchWith_counters.
  - intros L lo addr s x s'. apply getByteWith_counters.
  - intros L lo addr val s s'. apply setByteWith_counters.
Qed.

(** Every cache switched to FIFO with a victim cache, the prefetcher on. *)
Definition allOn : Switches := mkSwitches true true true true true true.

(** A stride of 64 bytes long enough to start the prefetcher, then writes
    and reads that conflict in L1. *)
Definition sampleTrace : list (ascii * Z) :=
  [("r"%char, 0); ("r"%char, 64); ("r"%char, 128); ("r"%char, 192);
   ("r"%char, 256); ("r"%char, 320); ("w"%char, 0); ("w"%char, 16384);
   ("r"%char, 0); ("r"%char, 32768); ("w"%char, 16384); ("r"%char, 0)].

Lemma counters_balanced_witness :
  exists h,
    simulate true true true allOn sampleTrace = Ok h /\
    Forall (fun c => balanced (statistics c)) (allCaches h).
Proof.
  destruct (isOk_true (simulate true true true allOn sampleTrace)) as (h & E);
    [vm_compute; reflexivity|].
  exists h. split; [exact E|].
  exact (proj1 counters_balanced true true true allOn sampleTrace h E).
Defined.

(** ** C9: the set id of a block is structural *)

Lemma setInvalid_ids c addr c' :
  setInvalid c addr = Ok c' -> idsStructural c -> idsStructural c'.
Proof.
  unfold setInvalid. intros H Hids. bind_as H bid Hbid.
  destruct (negb (bid =? minusOne)); [|by injection H as <-].
  bind_as H b Hb. injection H as <-. apply blockAt_Ok in Hb.
  intros n b' Hn. simpl in Hn.
  destruct (decide (n = Z.to_nat bid)) as [->|Hne].
  - apply list_lookup_insert_Some in Hn as [(_ & <- & _)|(? & _)]; [|done].
    simpl. by apply Hids.
  - rewrite list_lookup_insert_ne in Hn by done. by apply Hids.
Qed.

Lemma loadBlockFromLowerLevelWith_ids {L : Type} (lo : Lower L)
    (vo : VictimOps L) addr isRead (s s' : Sys L) :
  shapeOk (self s) ->
  loadBlockFromLowerLevelWith lo vo addr isRead s = Ok s' ->
  idsStructural (self s') /\ policy (self s') = policy (self s) /\
  length (blocks (self s')) = length (blocks (self s)).
Proof.
  intros Hsh H.
  apply loadBlockFromLowerLevelWith_self in H
    as (r & rb & d & Hrep & Hslot & Hr & ->).
  destruct (getReplacementBlockId_total (self s) addr Hsh)
    as (r' & rb' & Hrep' & Hin & _).
  rewrite Hrep in Hrep'. injection Hrep' as <-.
  assert (Hpol : policy (chargeWriteback rb (self s)) = policy (self s))
    by (unfold chargeWriteback; by destruct (_ && _)).
  split; [|split]; simpl; [|done|by rewrite length_insert].
  intros n b Hn. simpl in Hn |- *. rewrite Hpol.
  destruct (decide (n = Z.to_nat r)) as [->|Hne].
  - apply list_lookup_insert_Some in Hn as [(_ & <- & _)|(? & _)]; [|done].
    simpl. by apply loadedBlock_id.
  - rewrite list_lookup_insert_ne in Hn by done.
    by apply (shapeOk_ids _ Hsh).
Qed.

Lemma getBlockId_never_inconsistent c addr i :
  shapeOk c -> getBlockId c addr <> Err (InconsistentID i).
Proof.
  intros Hsh. destruct (getBlockId_total c addr Hsh) as (r & E & _).
  rewrite E. discriminate.
Qed.

(** C9. In every state a hierarchy reaches, whatever the switches of its
    caches and the trace, each block of each cache and victim cache carries
    the set id [index / associativity]; every lookup in these caches
    returns, so the "Inconsistent ID" exception is never raised, neither by
    a lookup nor by the next access.  The constructor establishes the
    structural ids, and [loadBlockFromLowerLevel] and [setInvalid] keep
    them. *)
Theorem set_ids_structural :
  (forall pf ff vf sw trace h,
     simulate pf ff vf sw trace = Ok h ->
     Forall (fun c => idsStructural c /\
                      forall addr, exists r, getBlockId c addr = Ok r)
            (allCaches h) /\
     forall operation addr i,
       CacheHierarchy.processMemoryAccess operation addr h
       <> Err (InconsistentID i)) /\
  (forall p c n b,
     newCache p = Ok c -> blocks c !! n = Some b ->
     Block.id b = Z.of_nat n / Policy.associativity p) /\
  (forall (L : Type) (lo : Lower L) addr isRead (s s' : Sys L),
     shapeOk (self s) ->
     loadBlockFromLowerLevel lo addr isRead s = Ok s' ->
     idsStructural (self s')) /\
  (forall c addr c',
     idsStructural c -> setInvalid c addr = Ok c' -> idsStructural c') /\
  (forall c addr i,
     shapeOk c -> getBlockId c addr <> Err (InconsistentID i)).
Proof.
  split; [|split; [|split; [|split]]].
  - intros pf ff vf sw trace h H. apply simulate_good in H. split.
    + apply hierarchyOk_all in H. eapply Forall_impl; [exact H|].
      intros c [Hsh _]. split; [by apply shapeOk_ids|].
      intros addr. destruct (getBlockId_total c addr Hsh) as (r & E & _). eauto.
    + intros operation addr i.
      destruct (processMemoryAccess_good operation addr h H) as (Hl & Hi).
      destruct (decide (operation = "r"%char \/ operation = "w"%char))
        as [Hop|Hop].
      * destruct (Hl Hop) as (h' & -> & _). discriminate.
      * rewrite (Hi Hop). discriminate.
  - intros p c n b H Hn. unfold newCache in H. bind_as H ok Hok.
    destruct ok; [|discriminate]. injection H as <-. simpl in Hn.
    apply initBlocksFrom_lookup in Hn. subst b. simpl. by rewrite Z.add_0_l.
  - intros L lo addr isRead s s' Hsh H.
    by destruct (loadBlockFromLowerLevelWith_ids lo (victimOps lo) addr isRead
                   s s' Hsh H).
  - intros c addr c' Hids H. by eapply setInvalid_ids.
  - intros c addr i. apply getBlockId_never_inconsistent.
Qed.

Lemma set_ids_structural_witness :
  exists h,
    simulate true true true allOn sampleTrace = Ok h /\
    Forall (fun c => idsStructural c /\
                     forall addr, exists r, getBlockId c addr = Ok r)
           (allCaches h).
Proof.
  destruct (isOk_true (simulate true true true allOn sampleTrace)) as (h & E);
    [vm_compute; reflexivity|].
  exists h. split; [exact E|].
  exact (proj1 (proj1 set_ids_structural true true true allOn sampleTrace h E)).
Defined.

(** ** C8: two reads of address 0 *)

(** C8. A freshly constructed hierarchy with the default policies and all
    switches off has the L1 policy 16 KiB / 64 B / direct-mapped with
    latencies 1 and 8; the slot that the first [r 0] replaces is invalid;
    after [r 0] the L1 statistics are one read, one miss and 8 cycles; after
    [r 0], [r 0] they are [numRead = 2], [numWrite = 0], [numHit = 1],
    [numMiss = 1] and [totalCycles = 9]. *)
Theorem two_reads_of_address_zero :
  (h0 ← CacheHierarchy.new false false false;
   let l1 := CacheHierarchy.l1Cache h0 in
   r ← getReplacementBlockId l1 (setBegin (policy l1) (getId (policy l1) 0))
                             (setEnd (policy l1) (getId (policy l1) 0));
   rb ← blockAt l1 r;
   h1 ← CacheHierarchy.run [("r"%char, 0)] h0;
   h2 ← CacheHierarchy.run [("r"%char, 0); ("r"%char, 0)] h0;
   Ok (policy l1, Block.valid rb,
       getStatistics (CacheHierarchy.l1Cache h1)
                     (victimCache (CacheHierarchy.caches h1)),
       getStatistics (CacheHierarchy.l1Cache h2)
                     (victimCache (CacheHierarchy.caches h2))))
  = Ok (Policy.mk 16384 64 256 1 1 8, false,
        Statistics.mk 1 0 0 1 8, Statistics.mk 2 0 1 1 9).
Proof. vm_compute. reflexivity. Qed.

(** ** C6: the stride prefetcher *)

(** Reduce the projections of a freshly built memory manager. *)
Ltac mem_step := cbn [fst MemoryManager.memory].

Lemma addPage_exists m a :
  MemoryManager.isAddrExist (MemoryManager.addPage m a).1 a = true.
Proof.
  unfold MemoryManager.addPage, MemoryManager.isAddrExist.
  destruct (MemoryManager.memory m !! MemoryManager.getFirstEntryId a)
    as [dir|] eqn:Hd.
  - destruct (dir !! MemoryManager.getSecondEntryId a) eqn:Hp; mem_step.
    + by rewrite lookup_insert_eq, Hp.
    + by rewrite !lookup_insert_eq.
  - rewrite lookup_empty. mem_step. by rewrite !lookup_insert_eq.
Qed.

Lemma addPage_preserves m a b :
  MemoryManager.isAddrExist m b = true ->
  MemoryManager.isAddrExist (MemoryManager.addPage m a).1 b = true.
Proof.
  unfold MemoryManager.addPage, MemoryManager.isAddrExist. intros H.
  destruct (MemoryManager.memory m !! MemoryManager.getFirstEntryId b)
    as [dirb|] eqn:Hdb; [|discriminate].
  destruct (dirb !! MemoryManager.getSecondEntryId b) as [pb|] eqn:Hpb;
    [|discriminate].
  destruct (decide (MemoryManager.getFirstEntryId a
                    = MemoryManager.getFirstEntryId b)) as [Heq|Hne].
  - rewrite Heq, Hdb.
    destruct (dirb !! MemoryManager.getSecondEntryId a) eqn:Hpa; mem_step.
    + by rewrite lookup_insert_eq, Hpb.
    + rewrite lookup_insert_eq.
      destruct (decide (MemoryManager.getSecondEntryId a
                        = MemoryManager.getSecondEntryId b)) as [Heq2|Hne2].
      * rewrite Heq2 in Hpa. congruence.
      * rewrite lookup_insert_ne by done. by rewrite Hpb.
  - destruct (match MemoryManager.memory m !! MemoryManager.getFirstEntryId a
              with Some d => d | None => ∅ end
              !! MemoryManager.getSecondEntryId a); mem_step;
      rewrite lookup_insert_ne by done; by rewrite Hdb, Hpb.
Qed.

Lemma top_memory_set m c :
  memoryManager CacheHierarchy.top (setMemoryManager CacheHierarchy.top m c) = m.
Proof. reflexivity. Qed.

Lemma ensurePage_exists a c :
  MemoryManager.isPageExist
    (memoryManager CacheHierarchy.top (CacheHierarchy.ensurePage a c)) a = true.
Proof.
  unfold CacheHierarchy.ensurePage, MemoryManager.isPageExist.
  destruct (MemoryManager.isAddrExist (memoryManager CacheHierarchy.top c) a)
    eqn:E; cbn [negb]; [done|].
  rewrite top_memory_set. apply addPage_exists.
Qed.

Lemma ensurePage_preserves a b c :
  MemoryManager.isPageExist (memoryManager CacheHierarchy.top c) b = true ->
  MemoryManager.isPageExist
    (memoryManager CacheHierarchy.top (CacheHierarchy.ensurePage a c)) b = true.
Proof.
  unfold CacheHierarchy.ensurePage, MemoryManager.isPageExist. intros H.
  destruct (MemoryManager.isAddrExist (memoryManager CacheHierarchy.top c) a);
    cbn [negb]; [done|].
  rewrite top_memory_set. by apply addPage_preserves.
Qed.

(** The caches are those of [c] whatever pages are added. *)
Lemma ensurePage_l1 a c : self (CacheHierarchy.ensurePage a c) = self c.
Proof.
  unfold CacheHierarchy.ensurePage. destruct (negb _); [|reflexivity].
  unfold CacheHierarchy.top, levelLower, setMemoryManager, setBelow.
  reflexivity.
Qed.

Lemma flag_update (pre : bool) (same diff : Z) :
  same = 0 \/ diff = 0 ->
  let pre' := if 3 <? diff then false
              else if 3 <? same then true else pre in
  (3 < same -> pre' = true) /\
  (3 < diff -> pre' = false) /\
  (same <= 3 -> diff <= 3 -> pre' = pre) /\
  (pre = false -> (pre' = true <-> 3 < same)) /\
  (pre = true -> (pre' = false <-> 3 < diff)).
Proof.
  intros Hz. cbv zeta.
  destruct (3 <? diff) eqn:Ed; [apply Z.ltb_lt in Ed | apply Z.ltb_ge in Ed];
    (destruct (3 <? same) eqn:Es;
       [apply Z.ltb_lt in Es | apply Z.ltb_ge in Es]);
    destruct pre; repeat split; intros; try reflexivity; try lia;
    try discriminate.
Qed.

Lemma updateStride_unfold addr p :
  CacheHierarchy.updateStride addr p
  = let delta := toInt32 (addr - PrefetchStatistics.lastAccessAddress p) in
    let same := if delta =? PrefetchStatistics.stride p
                then wrap32 (PrefetchStatistics.sameStrideCount p + 1) else 0 in
    let diff := if delta =? PrefetchStatistics.stride p
                then 0 else wrap32 (PrefetchStatistics.diffStrideCount p + 1) in
    PrefetchStatistics.mk
      (if 3 <? diff then false
       else if 3 <? same then true else PrefetchStatistics.isPrefetching p)
      delta same diff addr.
Proof.
  unfold CacheHierarchy.updateStride. cbv zeta.
  destruct (toInt32 (addr - PrefetchStatistics.lastAccessAddress p)
            =? PrefetchStatistics.stride p) eqn:E; [|reflexivity].
  apply Z.eqb_eq in E. by rewrite E.
Qed.

Lemma updateStride_spec addr p :
  let p' := CacheHierarchy.updateStride addr p in
  let delta := toInt32 (addr - PrefetchStatistics.lastAccessAddress p) in
  let same' := PrefetchStatistics.sameStrideCount p' in
  let diff' := PrefetchStatistics.diffStrideCount p' in
  (delta = PrefetchStatistics.stride p ->
   same' = wrap32 (PrefetchStatistics.sameStrideCount p + 1) /\ diff' = 0) /\
  (delta <> PrefetchStatistics.stride p ->
   same' = 0 /\ diff' = wrap32 (PrefetchStatistics.diffStrideCount p + 1)) /\
  PrefetchStatistics.stride p' = delta /\
  PrefetchStatistics.lastAccessAddress p' = addr /\
  (3 < same' -> PrefetchStatistics.isPrefetching p' = true) /\
  (3 < diff' -> PrefetchStatistics.isPrefetching p' = false) /\
  (same' <= 3 -> diff' <= 3 ->
   PrefetchStatistics.isPrefetching p' = PrefetchStatistics.isPrefetching p) /\
  (PrefetchStatistics.isPrefetching p = false ->
   (PrefetchStatistics.isPrefetching p' = true <-> 3 < same')) /\
  (PrefetchStatistics.isPrefetching p = true ->
   (PrefetchStatistics.isPrefetching p' = false <-> 3 < diff')).
Proof.
  cbv zeta. rewrite updateStride_unfold. cbv zeta.
  cbn [PrefetchStatistics.isPrefetching PrefetchStatistics.stride
       PrefetchStatistics.sameStrideCount PrefetchStatistics.diffStrideCount
       PrefetchStatistics.lastAccessAddress].
  destruct (toInt32 (addr - PrefetchStatistics.lastAccessAddress p)
            =? PrefetchStatistics.stride p) eqn:E.
  - apply Z.eqb_eq in E.
    split; [intros _; split; reflexivity|].
    split; [intros Hne; contradiction|].
    split; [reflexivity|]. split; [reflexivity|].
    apply (flag_update (PrefetchStatistics.isPrefetching p)
             (wrap32 (PrefetchStatistics.sameStrideCount p + 1)) 0).
    right. reflexivity.
  - apply Z.eqb_neq in E.
    split; [intros Heq; contradiction|].
    split; [intros _; split; reflexivity|].
    split; [reflexivity|]. split; [reflexivity|].
    apply (flag_update (PrefetchStatistics.isPrefetching p) 0
             (wrap32 (PrefetchStatistics.diffStrideCount p + 1))).
    left. reflexivity.
Qed.

(** C6. With prefetch enabled, each access updates the detector so that
    the stride in force is the signed 32-bit delta to the previous address;
    [sameStrideCount] counts the consecutive accesses whose delta equals the
    stride in force and [diffStrideCount] those whose delta differs;
    [isPrefetching] is set when [sameStrideCount > 3], cleared when
    [diffStrideCount > 3], and otherwise kept, so it becomes true exactly
    when [sameStrideCount] exceeds three and false exactly when
    [diffStrideCount] does.  While [isPrefetching] holds, an access makes
    sure the pages of [addr] and of [addr + stride] exist, then fetches
    [addr + stride] into L1, which leaves the four access counters of L1
    unchanged, and only then performs the read or write of [addr] and
    updates the detector; otherwise no fetch is issued. *)
Theorem prefetcher_behaviour :
  (forall addr p,
     let p' := CacheHierarchy.updateStride addr p in
     let delta := toInt32 (addr - PrefetchStatistics.lastAccessAddress p) in
     let same' := PrefetchStatistics.sameStrideCount p' in
     let diff' := PrefetchStatistics.diffStrideCount p' in
     (delta = PrefetchStatistics.stride p ->
      same' = wrap32 (PrefetchStatistics.sameStrideCount p + 1) /\ diff' = 0) /\
     (delta <> PrefetchStatistics.stride p ->
      same' = 0 /\ diff' = wrap32 (PrefetchStatistics.diffStrideCount p + 1)) /\
     PrefetchStatistics.stride p' = delta /\
     PrefetchStatistics.lastAccessAddress p' = addr /\
     (3 < same' -> PrefetchStatistics.isPrefetching p' = true) /\
     (3 < diff' -> PrefetchStatistics.isPrefetching p' = false) /\
     (same' <= 3 -> diff' <= 3 ->
      PrefetchStatistics.isPrefetching p' = PrefetchStatistics.isPrefetching p) /\
     (PrefetchStatistics.isPrefetching p = false ->
      (PrefetchStatistics.isPrefetching p' = true <-> 3 < same')) /\
     (PrefetchStatistics.isPrefetching p = true ->
      (PrefetchStatistics.isPrefetching p' = false <-> 3 < diff'))) /\
  (forall operation addr h,
     CacheHierarchy.enablePrefetch h = true ->
     PrefetchStatistics.isPrefetching (CacheHierarchy.prefetchStatistics h)
       = true ->
     let p := CacheHierarchy.prefetchStatistics h in
     let target := wrap32 (addr + PrefetchStatistics.stride p) in
     let c0 := CacheHierarchy.ensurePage target
                 (CacheHierarchy.ensurePage addr (CacheHierarchy.caches h)) in
     MemoryManager.isPageExist (memoryManager CacheHierarchy.top c0) target
       = true /\
     MemoryManager.isPageExist (memoryManager CacheHierarchy.top c0) addr
       = true /\
     CacheHierarchy.processMemoryAccess operation addr h
     = (c1 ← fetch CacheHierarchy.lower1 target c0;
        c2 ← CacheHierarchy.dispatch operation addr c1;
        Ok (CacheHierarchy.mk c2 (CacheHierarchy.enablePrefetch h)
              (CacheHierarchy.enableFifo h)
              (CacheHierarchy.enableVictimCache h)
              (CacheHierarchy.updateStride addr p))) /\
     (forall c1, fetch CacheHierarchy.lower1 target c0 = Ok c1 ->
                 counters (self c1) = counters (CacheHierarchy.l1Cache h))) /\
  (forall operation addr h,
     CacheHierarchy.enablePrefetch h = true ->
     PrefetchStatistics.isPrefetching (CacheHierarchy.prefetchStatistics h)
       = false ->
     CacheHierarchy.processMemoryAccess operation addr h
     = (c2 ← CacheHierarchy.dispatch operation addr
               (CacheHierarchy.ensurePage addr (CacheHierarchy.caches h));
        Ok (CacheHierarchy.mk c2 (CacheHierarchy.enablePrefetch h)
              (CacheHierarchy.enableFifo h)
              (CacheHierarchy.enableVictimCache h)
              (CacheHierarchy.updateStride addr
                 (CacheHierarchy.prefetchStatistics h))))).
Proof.
  split; [|split].
  - intros addr p. apply updateStride_spec.
  - intros operation addr h Hen Hpre p target c0.
    split; [apply ensurePage_exists|].
    split; [apply ensurePage_preserves, ensurePage_exists|]. split.
    + unfold CacheHierarchy.processMemoryAccess, CacheHierarchy.prefetchStep.
      cbn [CacheHierarchy.enablePrefetch CacheHierarchy.setCaches
           CacheHierarchy.caches CacheHierarchy.prefetchStatistics].
      rewrite Hen, Hpre. subst c0 target p.
      destruct (fetch CacheHierarchy.lower1 _ _) as [c1|e]; [|reflexivity].
      rewrite !bind_ret.
      cbn [CacheHierarchy.enablePrefetch CacheHierarchy.setCaches
           CacheHierarchy.caches CacheHierarchy.prefetchStatistics
           CacheHierarchy.enableFifo CacheHierarchy.enableVictimCache
           CacheHierarchy.setPrefetchStatistics].
      destruct (CacheHierarchy.dispatch operation addr _) as [c2|e];
        [|reflexivity].
      rewrite !bind_ret.
      unfold CacheHierarchy.setCaches, CacheHierarchy.setPrefetchStatistics.
      cbn [CacheHierarchy.enablePrefetch CacheHierarchy.caches
           CacheHierarchy.prefetchStatistics CacheHierarchy.enableFifo
           CacheHierarchy.enableVictimCache].
      rewrite Hen. reflexivity.
    + intros c1 Hc1. apply fetchWith_counters in Hc1. rewrite Hc1.
      unfold c0. rewrite !ensurePage_l1. reflexivity.
  - intros operation addr h Hen Hpre.
    unfold CacheHierarchy.processMemoryAccess, CacheHierarchy.prefetchStep.
    cbn [CacheHierarchy.enablePrefetch CacheHierarchy.setCaches
         CacheHierarchy.caches CacheHierarchy.prefetchStatistics].
    rewrite Hen, Hpre. rewrite !bind_ret.
    cbn [CacheHierarchy.enablePrefetch CacheHierarchy.setCaches
         CacheHierarchy.caches CacheHierarchy.prefetchStatistics
         CacheHierarchy.enableFifo CacheHierarchy.enableVictimCache
         CacheHierarchy.setPrefetchStatistics].
    destruct (CacheHierarchy.dispatch operation addr _) as [c2|e];
        [|reflexivity].
      rewrite !bind_ret.
      unfold CacheHierarchy.setCaches, CacheHierarchy.setPrefetchStatistics.
      cbn [CacheHierarchy.enablePrefetch CacheHierarchy.caches
           CacheHierarchy.prefetchStatistics CacheHierarchy.enableFifo
           CacheHierarchy.enableVictimCache].
      rewrite Hen. reflexivity.
Qed.

(** * Further properties of the code *)

(** ** MemoryManager: the page directory *)

Lemma address_parts (a : Z) :
  u32 a ->
  0 <= MemoryManager.getFirstEntryId a < 1024 /\
  0 <= MemoryManager.getSecondEntryId a < 1024 /\
  0 <= MemoryManager.getPageOffset a < 4096 /\
  a = MemoryManager.getFirstEntryId a * 2 ^ 22
      + MemoryManager.getSecondEntryId a * 2 ^ 12
      + MemoryManager.getPageOffset a.
Proof.
  unfold u32, MemoryManager.getFirstEntryId, MemoryManager.getSecondEntryId,
    MemoryManager.getPageOffset. intros Ha.
  change 1023 with (Z.ones 10). change 4095 with (Z.ones 12).
  rewrite !Z.land_ones by lia. rewrite !Z.shiftr_div_pow2 by lia.
  change (2 ^ 10) with 1024. change (2 ^ 12) with 4096.
  change (2 ^ 22) with 4194304. change (2 ^ 32) with 4294967296 in Ha.
  Z.to_euclidean_division_equations. lia.
Qed.

Lemma memory_address_inj (a b : Z) :
  u32 a -> u32 b ->
  MemoryManager.getFirstEntryId a = MemoryManager.getFirstEntryId b ->
  MemoryManager.getSecondEntryId a = MemoryManager.getSecondEntryId b ->
  MemoryManager.getPageOffset a = MemoryManager.getPageOffset b ->
  a = b.
Proof.
  intros Ha Hb H1 H2 H3.
  destruct (address_parts a Ha) as (_ & _ & _ & Ea).
  destruct (address_parts b Hb) as (_ & _ & _ & Eb).
  rewrite Ea, Eb, H1, H2, H3. reflexivity.
Qed.

(** X1. A 32-bit address is its directory index (10 bits), its page index
    (10 bits) and its page offset (12 bits) put together, so the three
    parts address the 1024 x 1024 x 4096 table without overlap: two 32-bit
    addresses with the same three parts are equal. *)
Theorem memory_address_decomposition (a : Z) :
  u32 a ->
  0 <= MemoryManager.getFirstEntryId a < 1024 /\
  0 <= MemoryManager.getSecondEntryId a < 1024 /\
  0 <= MemoryManager.getPageOffset a < 4096 /\
  a = MemoryManager.getFirstEntryId a * 2 ^ 22
      + MemoryManager.getSecondEntryId a * 2 ^ 12
      + MemoryManager.getPageOffset a /\
  forall b, u32 b ->
    MemoryManager.getFirstEntryId b = MemoryManager.getFirstEntryId a ->
    MemoryManager.getSecondEntryId b = MemoryManager.getSecondEntryId a ->
    MemoryManager.getPageOffset b = MemoryManager.getPageOffset a ->
    b = a.
Proof.
  intros Ha. destruct (address_parts a Ha) as (H1 & H2 & H3 & H4).
  split; [exact H1|]. split; [exact H2|]. split; [exact H3|].
  split; [exact H4|].
  intros b Hb E1 E2 E3. by apply memory_address_inj.
Qed.

Lemma memory_address_decomposition_witness :
  u32 305419896 /\
  305419896 = MemoryManager.getFirstEntryId 305419896 * 2 ^ 22
              + MemoryManager.getSecondEntryId 305419896 * 2 ^ 12
              + MemoryManager.getPageOffset 305419896.
Proof.
  assert (H : u32 305419896) by (unfold u32; lia).
  split; [exact H|].
  exact (proj1 (proj2 (proj2 (proj2
           (memory_address_decomposition 305419896 H))))).
Defined.

(** The page that holds [a], if it has been allocated. *)
Definition pageOf (m : MemoryManager.t) (a : Z) : option (list Z) :=
  dir ← MemoryManager.memory m !! MemoryManager.getFirstEntryId a;
  dir !! MemoryManager.getSecondEntryId a.

Lemma isAddrExist_pageOf m a :
  MemoryManager.isAddrExist m a = true <-> is_Some (pageOf m a).
Proof.
  unfold MemoryManager.isAddrExist, pageOf.
  destruct (MemoryManager.memory m !! MemoryManager.getFirstEntryId a)
    as [dir|]; simpl.
  - destruct (dir !! MemoryManager.getSecondEntryId a); split; intros H;
      try done; by destruct H.
  - split; intros H; [done | by destruct H].
Qed.

Lemma getByte_pageOf m a :
  MemoryManager.getByte m a
  = match pageOf m a with
    | Some page => default 0 (page !! Z.to_nat (MemoryManager.getPageOffset a))
    | None => 0
    end.
Proof.
  unfold MemoryManager.getByte, MemoryManager.isAddrExist, pageOf.
  destruct (MemoryManager.memory m !! MemoryManager.getFirstEntryId a)
    as [dir|]; simpl; [|done].
  by destruct (dir !! MemoryManager.getSecondEntryId a).
Qed.

Lemma addPage_pageOf m a b :
  pageOf (MemoryManager.addPage m a).1 b
  = match pageOf m b with
    | Some page => Some page
    | None =>
        if decide (MemoryManager.getFirstEntryId a
                   = MemoryManager.getFirstEntryId b /\
                   MemoryManager.getSecondEntryId a
                   = MemoryManager.getSecondEntryId b)
        then Some (replicate 4096 0) else None
    end.
Proof.
  unfold MemoryManager.addPage, pageOf.
  set (ia := MemoryManager.getFirstEntryId a).
  set (ja := MemoryManager.getSecondEntryId a).
  set (ib := MemoryManager.getFirstEntryId b).
  set (jb := MemoryManager.getSecondEntryId b).
  destruct (decide (ia = ib)) as [Hi|Hi].
  - rewrite <- Hi.
    destruct (MemoryManager.memory m !! ia) as [dir|] eqn:Hd;
      cbn [mbind option_bind].
    + destruct (dir !! ja) as [pa|] eqn:Hpa; mem_step;
        rewrite lookup_insert_eq; cbn [mbind option_bind].
      * destruct (dir !! jb) eqn:Hpb; [done|].
        destruct (decide (ia = ia /\ ja = jb)) as [[_ Hj]|Hn]; [|done].
        rewrite <- Hj, Hpa in Hpb. done.
      * destruct (decide (ja = jb)) as [Hj|Hj].
        -- rewrite <- Hj, lookup_insert_eq, Hpa.
           destruct (decide (ia = ia /\ ja = ja)) as [|Hn]; [done|].
           by destruct Hn.
        -- rewrite lookup_insert_ne by done.
           destruct (dir !! jb); [done|].
           destruct (decide (ia = ia /\ ja = jb)) as [[_ ?]|]; done.
    + rewrite lookup_empty. mem_step. rewrite lookup_insert_eq.
      cbn [mbind option_bind].
      destruct (decide (ja = jb)) as [Hj|Hj].
      * rewrite <- Hj, lookup_insert_eq.
        destruct (decide (ia = ia /\ ja = ja)) as [|Hn]; [done|].
        by destruct Hn.
      * rewrite lookup_insert_ne, lookup_empty by done.
        destruct (decide (ia = ia /\ ja = jb)) as [[_ ?]|]; done.
  - destruct (match MemoryManager.memory m !! ia with
              | Some d => d | None => ∅ end !! ja); mem_step;
      rewrite lookup_insert_ne by done;
      (destruct (MemoryManager.memory m !! ib) as [dirb|];
         cbn [mbind option_bind];
         [destruct (dirb !! jb); [done|]|];
         destruct (decide (ia = ib /\ ja = jb)) as [[? _]|]; done).
Qed.

Lemma setByte_pageOf m a v b :
  pageOf (MemoryManager.setByte m a v).1 b
  = match pageOf m a with
    | Some page =>
        if decide (MemoryManager.getFirstEntryId a
                   = MemoryManager.getFirstEntryId b /\
                   MemoryManager.getSecondEntryId a
                   = MemoryManager.getSecondEntryId b)
        then Some (<[Z.to_nat (MemoryManager.getPageOffset a) := v]> page)
        else pageOf m b
    | None => pageOf m b
    end.
Proof.
  unfold MemoryManager.setByte, MemoryManager.isAddrExist, pageOf.
  set (ia := MemoryManager.getFirstEntryId a).
  set (ja := MemoryManager.getSecondEntryId a).
  set (ib := MemoryManager.getFirstEntryId b).
  set (jb := MemoryManager.getSecondEntryId b).
  destruct (MemoryManager.memory m !! ia) as [dir|] eqn:Hd;
    cbn [mbind option_bind negb fst]; [|done].
  destruct (dir !! ja) as [pa|] eqn:Hpa; cbn [negb fst]; [|done].
  mem_step.
  destruct (decide (ia = ib /\ ja = jb)) as [[Hi Hj]|Hn].
  - rewrite <- Hi, <- Hj, lookup_insert_eq. cbn [mbind option_bind].
    by rewrite lookup_insert_eq.
  - destruct (decide (ia = ib)) as [Hi|Hi].
    + rewrite <- Hi, lookup_insert_eq, Hd. cbn [mbind option_bind].
      rewrite lookup_insert_ne; [done|]. intros Hj. by apply Hn.
    + by rewrite lookup_insert_ne.
Qed.

(** Every allocated page has 4096 bytes. *)
Definition wfMemory (m : MemoryManager.t) : Prop :=
  forall a page, pageOf m a = Some page -> length page = 4096%nat.

Lemma wfMemory_init : wfMemory MemoryManager.init.
Proof.
  intros a page H. unfold pageOf, MemoryManager.init in H.
  cbn [MemoryManager.memory] in H. by rewrite lookup_empty in H.
Qed.

Lemma wfMemory_addPage m a : wfMemory m -> wfMemory (MemoryManager.addPage m a).1.
Proof.
  intros Hm b page H. rewrite addPage_pageOf in H.
  destruct (pageOf m b) as [pb|] eqn:Hb.
  - injection H as <-. by eapply Hm.
  - destruct (decide _); [|done].
    assert (Hp : page = replicate 4096 0) by congruence.
    rewrite Hp. apply length_replicate.
Qed.

Lemma wfMemory_setByte m a v : wfMemory m -> wfMemory (MemoryManager.setByte m a v).1.
Proof.
  intros Hm b page H. rewrite setByte_pageOf in H.
  destruct (pageOf m a) as [pa|] eqn:Ha; [|by eapply Hm].
  destruct (decide _); [|by eapply Hm].
  injection H as <-. rewrite length_insert. by eapply Hm.
Qed.

Lemma isPageExist_pageOf m a :
  MemoryManager.isPageExist m a = match pageOf m a with
                                  | Some _ => true | None => false end.
Proof.
  unfold MemoryManager.isPageExist, MemoryManager.isAddrExist, pageOf.
  destruct (MemoryManager.memory m !! MemoryManager.getFirstEntryId a)
    as [dir|]; cbn [mbind option_bind]; [|done].
  by destruct (dir !! MemoryManager.getSecondEntryId a).
Qed.

(** X2. [addPage] returns true exactly when the page was missing.  After
    it the page of the address exists; a page that already existed leaves
    the memory as it was (so a second [addPage] changes nothing and returns
    false); pages that existed keep existing with the same bytes; and every
    byte of a newly allocated page reads as zero. *)
Theorem addPage_allocates (m : MemoryManager.t) (a : Z) :
  (MemoryManager.addPage m a).2 = negb (MemoryManager.isPageExist m a) /\
  MemoryManager.isPageExist (MemoryManager.addPage m a).1 a = true /\
  MemoryManager.addPage (MemoryManager.addPage m a).1 a
    = ((MemoryManager.addPage m a).1, false) /\
  (forall b, MemoryManager.isPageExist m b = true ->
             MemoryManager.isPageExist (MemoryManager.addPage m a).1 b = true /\
             MemoryManager.getByte (MemoryManager.addPage m a).1 b
             = MemoryManager.getByte m b) /\
  (forall b, MemoryManager.isPageExist m a = false ->
             MemoryManager.getFirstEntryId b = MemoryManager.getFirstEntryId a ->
             MemoryManager.getSecondEntryId b = MemoryManager.getSecondEntryId a ->
             MemoryManager.getByte (MemoryManager.addPage m a).1 b = 0).
Proof.
  assert (Hid : forall m', MemoryManager.isPageExist m' a = true ->
                           MemoryManager.addPage m' a = (m', false)).
  { intros m' H. unfold MemoryManager.isPageExist, MemoryManager.isAddrExist in H.
    unfold MemoryManager.addPage.
    destruct (MemoryManager.memory m' !! MemoryManager.getFirstEntryId a)
      as [dir|] eqn:Hd; [|discriminate].
    destruct (dir !! MemoryManager.getSecondEntryId a) eqn:Hp; [|discriminate].
    destruct m' as [mem]. cbn [MemoryManager.memory] in *.
    by rewrite insert_id. }
  split; [|split; [|split; [|split]]].
  - unfold MemoryManager.addPage, MemoryManager.isPageExist,
      MemoryManager.isAddrExist.
    destruct (MemoryManager.memory m !! MemoryManager.getFirstEntryId a)
      as [dir|]; [|by rewrite lookup_empty].
    by destruct (dir !! MemoryManager.getSecondEntryId a).
  - apply addPage_exists.
  - apply Hid. apply addPage_exists.
  - intros b Hb. split; [by apply addPage_preserves|].
    rewrite !getByte_pageOf, addPage_pageOf.
    rewrite isPageExist_pageOf in Hb. by destruct (pageOf m b).
  - intros b Ha H1 H2. rewrite getByte_pageOf, addPage_pageOf.
    rewrite isPageExist_pageOf in Ha.
    assert (Hb : pageOf m b = None).
    { unfold pageOf in *. rewrite H1, H2. by destruct (_ ≫= _). }
    rewrite Hb. destruct (decide _) as [|Hn]; [|by destruct Hn].
    destruct (replicate 4096 0 !! _) as [x|] eqn:Hx; [|done].
    apply lookup_replicate in Hx as [-> _]. done.
Qed.

Lemma getPageOffset_range a : 0 <= MemoryManager.getPageOffset a < 4096.
Proof.
  unfold MemoryManager.getPageOffset. change 4095 with (Z.ones 12).
  rewrite Z.land_ones by lia. apply Z.mod_pos_bound. lia.
Qed.

Lemma setByte_flag m a v :
  (MemoryManager.setByte m a v).2 = MemoryManager.isPageExist m a.
Proof.
  unfold MemoryManager.isPageExist, MemoryManager.setByte.
  destruct (MemoryManager.isAddrExist m a) eqn:Ha; cbn [negb]; [|done].
  unfold MemoryManager.isAddrExist in Ha.
  destruct (MemoryManager.memory m !! MemoryManager.getFirstEntryId a)
    as [dir|]; [|discriminate].
  by destruct (dir !! MemoryManager.getSecondEntryId a).
Qed.

Lemma setByte_missing m a v :
  MemoryManager.isPageExist m a = false ->
  MemoryManager.setByte m a v = (m, false) /\ MemoryManager.getByte m a = 0.
Proof.
  unfold MemoryManager.isPageExist. intros Ha.
  unfold MemoryManager.setByte, MemoryManager.getByte. by rewrite Ha.
Qed.

Lemma getByte_setByte_same m a v :
  wfMemory m -> MemoryManager.isPageExist m a = true ->
  MemoryManager.getByte (MemoryManager.setByte m a v).1 a = v.
Proof.
  intros Hm Ha. rewrite getByte_pageOf, setByte_pageOf.
  rewrite isPageExist_pageOf in Ha.
  destruct (pageOf m a) as [page|] eqn:Hp; [|discriminate].
  destruct (decide _) as [|Hn]; [|by destruct Hn].
  rewrite list_lookup_insert_eq; [done|].
  rewrite (Hm a page Hp). pose proof (getPageOffset_range a). lia.
Qed.

Lemma getByte_setByte_other m a v b :
  u32 a -> u32 b -> b <> a ->
  MemoryManager.getByte (MemoryManager.setByte m a v).1 b
  = MemoryManager.getByte m b.
Proof.
  intros Hua Hub Hne. rewrite !getByte_pageOf, setByte_pageOf.
  destruct (pageOf m a) as [page|] eqn:Hp; [|done].
  destruct (decide _) as [[H1 H2]|Hn]; [|done].
  assert (Hb : pageOf m b = Some page).
  { unfold pageOf in *. by rewrite <- H1, <- H2. }
  rewrite Hb. rewrite list_lookup_insert_ne; [done|].
  intros Hoff. apply Hne. symmetry.
  apply memory_address_inj; try done.
  pose proof (getPageOffset_range a). pose proof (getPageOffset_range b). lia.
Qed.

Lemma isPageExist_setByte m a v b :
  MemoryManager.isPageExist (MemoryManager.setByte m a v).1 b
  = MemoryManager.isPageExist m b.
Proof.
  rewrite !isPageExist_pageOf, setByte_pageOf.
  destruct (pageOf m a) as [page|] eqn:Hp; [|done].
  destruct (decide _) as [[H1 H2]|Hn]; [|done].
  assert (Hb : pageOf m b = Some page).
  { unfold pageOf in *. by rewrite <- H1, <- H2. }
  by rewrite Hb.
Qed.

Lemma getByte_addPage m a b :
  MemoryManager.getByte (MemoryManager.addPage m a).1 b
  = MemoryManager.getByte m b.
Proof.
  rewrite !getByte_pageOf, addPage_pageOf.
  destruct (pageOf m b) as [page|]; [done|].
  destruct (decide _); [|done].
  destruct (replicate 4096 0 !! _) as [x|] eqn:Hx; [|done].
  apply lookup_replicate in Hx as [-> _]. done.
Qed.

(** X3. On a memory whose pages have 4096 bytes, [setByte] to an address with
    a page returns true and the byte is what [getByte] then reads; without
    a page [setByte] returns false and changes nothing, and [getByte] reads
    0.  [setByte] changes the byte of no other 32-bit address, neither
    allocates nor frees a page, and keeps the page size. *)
Theorem setByte_getByte (m : MemoryManager.t) (a v : Z) :
  wfMemory m ->
  (MemoryManager.isPageExist m a = true ->
   (MemoryManager.setByte m a v).2 = true /\
   MemoryManager.getByte (MemoryManager.setByte m a v).1 a = v) /\
  (MemoryManager.isPageExist m a = false ->
   MemoryManager.setByte m a v = (m, false) /\ MemoryManager.getByte m a = 0) /\
  (forall b, u32 a -> u32 b -> b <> a ->
             MemoryManager.getByte (MemoryManager.setByte m a v).1 b
             = MemoryManager.getByte m b) /\
  (forall b, MemoryManager.isPageExist (MemoryManager.setByte m a v).1 b
             = MemoryManager.isPageExist m b) /\
  wfMemory (MemoryManager.setByte m a v).1.
Proof.
  intros Hm. split; [|split; [|split; [|split]]].
  - intros Ha. split; [by rewrite setByte_flag | by apply getByte_setByte_same].
  - apply setByte_missing.
  - intros b. apply getByte_setByte_other.
  - apply isPageExist_setByte.
  - by apply wfMemory_setByte.
Qed.

Lemma setByte_getByte_witness :
  let m := (MemoryManager.addPage MemoryManager.init 4660).1 in
  wfMemory m /\
  MemoryManager.getByte (MemoryManager.setByte m 4660 171).1 4660 = 171.
Proof.
  intros m.
  assert (Hm : wfMemory m) by apply wfMemory_addPage, wfMemory_init.
  split; [exact Hm|].
  destruct (setByte_getByte m 4660 171 Hm) as (H & _).
  apply H. apply addPage_exists.
Defined.

(** ** Policies

    What [isPolicyValid] accepts. *)

Lemma isPowerOfTwo_log2 (n : Z) :
  u32 n -> isPowerOfTwo n = true -> 0 <= Z.log2 n < 32 /\ n = 2 ^ Z.log2 n.
Proof.
  unfold u32. intros Hn. unfold isPowerOfTwo.
  intros H. apply andb_prop in H as [Hpos Hland].
  apply Z.ltb_lt in Hpos. apply Z.eqb_eq in Hland.
  rewrite wrap32_small in Hland by lia.
  pose proof (Z.log2_nonneg n) as Hk.
  pose proof (Z.log2_spec n Hpos) as [Hlow Hhigh].
  split.
  - split; [done|]. apply Z.log2_lt_pow2; lia.
  - destruct (decide (n = 2 ^ Z.log2 n)) as [|Hne]; [done|]. exfalso.
    assert (Hl : Z.log2 (n - 1) = Z.log2 n).
    { apply Z.log2_unique; [done|]. lia. }
    assert (Hb : Z.testbit (Z.land n (n - 1)) (Z.log2 n) = true).
    { assert (0 < n - 1)
        by (pose proof (Z.pow_pos_nonneg 2 (Z.log2 n)); lia).
      pose proof (Z.bit_log2 (n - 1) ltac:(lia)) as Hb1.
      rewrite Hl in Hb1.
      rewrite Z.land_spec, Z.bit_log2, Hb1 by lia. reflexivity. }
    rewrite Hland, Z.bits_0 in Hb. discriminate.
Qed.

Lemma isPowerOfTwo_pow2 (k : Z) : 0 <= k < 32 -> isPowerOfTwo (2 ^ k) = true.
Proof.
  intros Hk. unfold isPowerOfTwo.
  assert (0 < 2 ^ k) by (apply Z.pow_pos_nonneg; lia).
  assert (2 ^ k < 2 ^ 32) by (apply Z.pow_lt_mono_r; lia).
  apply andb_true_intro. split; [by apply Z.ltb_lt|]. apply Z.eqb_eq.
  rewrite wrap32_small by lia.
  replace (2 ^ k - 1) with (Z.ones k) by (rewrite Z.ones_equiv; lia).
  rewrite Z.land_ones by lia. apply Z_mod_same_full.
Qed.

(** X4. For a 32-bit value, [isPowerOfTwo] holds exactly of the powers of
    two [2 ^ k] with [k] from 0 to 31; in particular it rejects 0. *)
Theorem isPowerOfTwo_spec (n : Z) :
  u32 n -> (isPowerOfTwo n = true <-> exists k, 0 <= k < 32 /\ n = 2 ^ k).
Proof.
  intros Hn. split.
  - intros H. exists (Z.log2 n). by apply isPowerOfTwo_log2.
  - intros (k & Hk & ->). by apply isPowerOfTwo_pow2.
Qed.

Lemma isPowerOfTwo_spec_witness :
  u32 4096 /\ (isPowerOfTwo 4096 = true <-> exists k, 0 <= k < 32 /\ 4096 = 2 ^ k).
Proof.
  assert (H : u32 4096) by (unfold u32; lia).
  split; [exact H | exact (isPowerOfTwo_spec 4096 H)].
Defined.

(** ** Address decoding *)

Lemma policyOk_blockSize p :
  policyOk p ->
  0 <= offsetBitsOf p < 32 /\ Policy.blockSize p = 2 ^ offsetBitsOf p.
Proof.
  intros Hp. pose proof (policyOk_sets p Hp) as (_ & _ & _ & Hbs).
  destruct Hp as (Hv & _ & Hu & _).
  unfold isPolicyValid in Hv.
  destruct (_ || _); [discriminate|]. injection Hv as Hv.
  do 3 (apply andb_prop in Hv as [Hv _]).
  unfold offsetBitsOf, log2i.
  destruct (Policy.blockSize p =? 0) eqn:E; [apply Z.eqb_eq in E; lia|].
  apply andb_prop in Hv as [_ Hv].
  by apply isPowerOfTwo_log2.
Qed.

Lemma idBitsOf_nonneg p : policyOk p -> 0 <= idBitsOf p.
Proof.
  intros Hp. pose proof (policyOk_sets p Hp) as (_ & Hn & _).
  unfold idBitsOf, log2i.
  destruct (_ =? 0) eqn:E; [apply Z.eqb_eq in E; lia|]. apply Z.log2_nonneg.
Qed.

Lemma getOffset_mod p a :
  policyOk p -> getOffset p a = a mod 2 ^ offsetBitsOf p.
Proof.
  intros Hp. destruct (policyOk_blockSize p Hp) as (Ho & Hbs).
  unfold getOffset. rewrite Z.shiftl_1_l.
  assert (2 ^ offsetBitsOf p < 2 ^ 32) by (apply Z.pow_lt_mono_r; lia).
  assert (0 < 2 ^ offsetBitsOf p) by (apply Z.pow_pos_nonneg; lia).
  rewrite wrap32_small by lia.
  replace (2 ^ offsetBitsOf p - 1) with (Z.ones (offsetBitsOf p))
    by (rewrite Z.ones_equiv; lia).
  apply Z.land_ones. lia.
Qed.

Lemma getId_mod p a :
  policyOk p ->
  getId p a = (a / 2 ^ offsetBitsOf p) mod 2 ^ idBitsOf p.
Proof.
  intros Hp. destruct (policyOk_blockSize p Hp) as (Ho & Hbs).
  pose proof (idBitsOf_nonneg p Hp) as Hi.
  pose proof (policyOk_sets p Hp) as (Ha & Hn & Hmul & _).
  destruct Hp as (_ & _ & _ & Hbn & _). unfold u32 in Hbn.
  unfold getId. rewrite Z.shiftl_1_l.
  assert (0 < 2 ^ idBitsOf p) by (apply Z.pow_pos_nonneg; lia).
  assert (2 ^ idBitsOf p <= Policy.blockNum p).
  { unfold idBitsOf, log2i in *.
    destruct (_ =? 0) eqn:E; [apply Z.eqb_eq in E; lia|].
    assert (Hpos : 0 < Policy.blockNum p / Policy.associativity p) by lia.
    pose proof (Z.log2_spec _ Hpos) as [Hlow _]. nia. }
  rewrite wrap32_small by lia.
  replace (2 ^ idBitsOf p - 1) with (Z.ones (idBitsOf p))
    by (rewrite Z.ones_equiv; lia).
  rewrite Z.land_ones by lia. by rewrite Z.shiftr_div_pow2 by lia.
Qed.

Lemma getTag_div p a :
  policyOk p -> 0 < offsetBitsOf p + idBitsOf p < 32 -> u32 a ->
  getTag p a = a / 2 ^ (offsetBitsOf p + idBitsOf p).
Proof.
  intros Hp Hoi Ha. unfold u32 in Ha. unfold getTag.
  set (n := offsetBitsOf p + idBitsOf p) in *.
  replace (32 - offsetBitsOf p - idBitsOf p) with (32 - n) by (unfold n; lia).
  rewrite (wrap32_small (32 - n)) by lia.
  rewrite (wrap32_small n) by lia.
  rewrite Z.shiftl_1_l.
  assert (0 < 2 ^ (32 - n)) by (apply Z.pow_pos_nonneg; lia).
  assert (2 ^ (32 - n) < 2 ^ 32) by (apply Z.pow_lt_mono_r; lia).
  rewrite (wrap32_small (2 ^ (32 - n))) by lia.
  rewrite (wrap32_small (2 ^ (32 - n) - 1)) by lia.
  replace (2 ^ (32 - n) - 1) with (Z.ones (32 - n))
    by (rewrite Z.ones_equiv; lia).
  rewrite Z.land_ones by lia. rewrite Z.shiftr_div_pow2 by lia.
  apply Z.mod_small. split; [apply Z.div_pos; [lia|apply Z.pow_pos_nonneg; lia]|].
  apply Z.div_lt_upper_bound; [apply Z.pow_pos_nonneg; lia|].
  rewrite <- Z.pow_add_r by lia. replace (n + (32 - n)) with 32 by lia. lia.
Qed.

Lemma blockAddrBeginOf_eq p a :
  policyOk p -> u32 a ->
  blockAddrBeginOf p a = a - a mod 2 ^ offsetBitsOf p.
Proof.
  intros Hp Ha. destruct (policyOk_blockSize p Hp) as (Ho & _).
  unfold u32 in Ha. unfold blockAddrBeginOf.
  set (o := offsetBitsOf p) in *.
  assert (0 < 2 ^ o) by (apply Z.pow_pos_nonneg; lia).
  assert (2 ^ o < 2 ^ 32) by (apply Z.pow_lt_mono_r; lia).
  rewrite Z.shiftl_1_l, !(wrap32_small (2 ^ o)), (wrap32_small (2 ^ o - 1))
    by lia.
  replace (-1 - (2 ^ o - 1)) with (Z.lnot (Z.ones o))
    by (unfold Z.lnot; rewrite Z.ones_equiv; lia).
  unfold wrap32. rewrite <- Z.land_ones by lia.
  rewrite (Z.land_comm (Z.lnot _)), Z.land_assoc.
  rewrite (Z.land_ones a 32), (Z.mod_small a) by lia.
  rewrite <- Z.ldiff_land, Z.ldiff_ones_r by lia.
  rewrite Z.shiftl_mul_pow2, Z.shiftr_div_pow2 by lia.
  pose proof (Z.div_mod a (2 ^ o) ltac:(lia)). lia.
Qed.

Lemma lor_disjoint_add t y n :
  0 <= n -> 0 <= y < 2 ^ n -> Z.lor (t * 2 ^ n) y = t * 2 ^ n + y.
Proof.
  intros Hn Hy.
  assert (Hl : Z.land (t * 2 ^ n) y = 0).
  { apply Z.bits_inj'. intros k Hk. rewrite Z.land_spec, Z.bits_0.
    destruct (Z.lt_ge_cases k n).
    - rewrite Z.mul_pow2_bits_low by lia. done.
    - rewrite <- (Z.mod_small y (2 ^ n)) by lia.
      rewrite Z.mod_pow2_bits_high by lia. apply andb_false_r. }
  rewrite Z.add_nocarry_lxor by done. symmetry. by apply Z.lxor_lor.
Qed.

Lemma getAddr_eq p a b :
  policyOk p -> 0 < offsetBitsOf p + idBitsOf p < 32 -> u32 a ->
  Block.tag b = getTag p a -> Block.id b = getId p a ->
  getAddr p b = a - a mod 2 ^ offsetBitsOf p.
Proof.
  intros Hp Hoi Ha Ht Hid. destruct (policyOk_blockSize p Hp) as (Ho & _).
  pose proof (idBitsOf_nonneg p Hp) as Hi.
  unfold getAddr. rewrite Ht, Hid, getTag_div, getId_mod by done.
  unfold u32 in Ha.
  set (o := offsetBitsOf p) in *. set (i := idBitsOf p) in *.
  rewrite (wrap32_small (o + i)) by lia.
  rewrite !Z.shiftl_mul_pow2 by lia.
  assert (Ho2 : 0 < 2 ^ o) by (apply Z.pow_pos_nonneg; lia).
  assert (Hi2 : 0 < 2 ^ i) by (apply Z.pow_pos_nonneg; lia).
  assert (Hoi2 : 2 ^ (o + i) = 2 ^ o * 2 ^ i) by (apply Z.pow_add_r; lia).
  assert (Hd : a / 2 ^ (o + i) = a / 2 ^ o / 2 ^ i).
  { rewrite Hoi2. symmetry. apply Z.div_div; lia. }
  pose proof (Z.div_mod a (2 ^ o) ltac:(lia)) as E1.
  pose proof (Z.mod_pos_bound a (2 ^ o) ltac:(lia)) as B1.
  pose proof (Z.div_mod (a / 2 ^ o) (2 ^ i) ltac:(lia)) as E2.
  pose proof (Z.mod_pos_bound (a / 2 ^ o) (2 ^ i) ltac:(lia)) as B2.
  assert (0 <= a / 2 ^ o) by (apply Z.div_pos; lia).
  assert (0 <= a / 2 ^ o / 2 ^ i) by (apply Z.div_pos; lia).
  rewrite Hd.
  set (t := a / 2 ^ o / 2 ^ i) in *. set (x := (a / 2 ^ o) mod 2 ^ i) in *.
  assert (Hsum : t * 2 ^ (o + i) + x * 2 ^ o = a - a mod 2 ^ o).
  { rewrite Hoi2. nia. }
  assert (0 <= x * 2 ^ o < 2 ^ (o + i)) by (rewrite Hoi2; nia).
  assert (0 <= t * 2 ^ (o + i)) by nia.
  rewrite !wrap32_small by lia.
  rewrite lor_disjoint_add by lia. exact Hsum.
Qed.

(** X5. The address parts of a cache with a valid policy whose offset and
    index bits together are between 1 and 31 (so that no shift count
    reaches 32): the line address [getAddr] rebuilt from the tag and set
    index of a 32-bit address is the line address [loadBlockFromLowerLevel]
    reads from, the address is that line address plus [getOffset], and two
    32-bit addresses with the same tag, set index and offset are equal.
    A block written back therefore goes to the addresses it was loaded
    from. *)
Theorem address_decode_round_trip (p : Policy.t) (a : Z) (b : Block.t) :
  policyOk p -> 0 < offsetBitsOf p + idBitsOf p < 32 -> u32 a ->
  Block.tag b = getTag p a -> Block.id b = getId p a ->
  getAddr p b = blockAddrBeginOf p a /\
  a = getAddr p b + getOffset p a /\
  0 <= getOffset p a < Policy.blockSize p /\
  forall a', u32 a' ->
    getTag p a' = getTag p a -> getId p a' = getId p a ->
    getOffset p a' = getOffset p a -> a' = a.
Proof.
  intros Hp Hoi Ha Ht Hid.
  pose proof (getAddr_eq p a b Hp Hoi Ha Ht Hid) as E.
  split; [by rewrite blockAddrBeginOf_eq|].
  split; [rewrite E, getOffset_mod by done; lia|].
  split; [by apply getOffset_range|].
  intros a' Ha' Ht' Hid' Ho'.
  pose proof (getAddr_eq p a' b Hp Hoi Ha' ltac:(congruence) ltac:(congruence))
    as E'.
  rewrite !getOffset_mod in Ho' by done. lia.
Qed.

Lemma address_decode_round_trip_witness :
  let p := MultiLevelCacheConfig.L2 in
  let a := 305419896 in
  let b := Block.mk true false (getTag p a) (getId p a) 64 0 0 [] in
  getAddr p b = blockAddrBeginOf p a /\ a = getAddr p b + getOffset p a.
Proof.
  intros p a b.
  assert (Hp : policyOk p).
  { split; [vm_compute; reflexivity|]. split; [solve_u32|].
    split; [solve_u32|]. split; solve_u32. }
  assert (Hoi : 0 < offsetBitsOf p + idBitsOf p < 32) by (vm_compute; done).
  assert (Ha : u32 a) by solve_u32.
  destruct (address_decode_round_trip p a b Hp Hoi Ha eq_refl eq_refl)
    as (H1 & H2 & _).
  split; [exact H1 | exact H2].
Defined.

(** ** A byte written is the byte read *)

(** What the scan of [getBlockId] looks at in a block. *)
Definition blockKey (b : Block.t) : bool * Z * Z :=
  (Block.valid b, Block.tag b, Block.id b).

Definition sameKeys (bs bs' : list Block.t) : Prop :=
  forall k, blockKey <$> bs !! k = blockKey <$> bs' !! k.

Lemma getBlockIdLoop_sameKeys bs bs' tag idx n : forall i,
  sameKeys bs bs' ->
  getBlockIdLoop bs tag idx i n = getBlockIdLoop bs' tag idx i n.
Proof.
  induction n as [|n IH]; intros i Hk; [done|].
  cbn [getBlockIdLoop]. pose proof (Hk (Z.to_nat i)) as Hi.
  destruct (bs !! Z.to_nat i) as [b|], (bs' !! Z.to_nat i) as [b'|];
    try discriminate; [|done].
  injection Hi as Hv Ht Hid. rewrite Hv, Ht, Hid, (IH (i + 1) Hk). done.
Qed.

Lemma getBlockId_sameKeys c c' addr :
  policy c = policy c' -> sameKeys (blocks c) (blocks c') ->
  getBlockId c addr = getBlockId c' addr.
Proof.
  intros Hp Hk. unfold getBlockId. rewrite Hp.
  by apply getBlockIdLoop_sameKeys.
Qed.

Lemma sameKeys_insert bs r b b' :
  bs !! r = Some b -> blockKey b' = blockKey b ->
  sameKeys bs (<[r := b']> bs).
Proof.
  intros Hb Hk k. destruct (decide (k = r)) as [->|Hne].
  - rewrite list_lookup_insert_eq by (by eapply lookup_lt_Some).
    rewrite Hb. cbn [fmap option_fmap option_map]. by rewrite Hk.
  - by rewrite list_lookup_insert_ne.
Qed.

(** The block [setByte] leaves behind, and the cache a read hit leaves. *)
Definition storedBlock (r : Z) (d : list Z) (b : Block.t) : Block.t :=
  Block.setData d (Block.setLastReference r (Block.setModified true b)).

Definition afterReadHit (r : Z) (b : Block.t) (c : Cache) : Cache :=
  let rc := wrap32 (referenceCounter c + 1) in
  setBlocks (<[Z.to_nat r := Block.setLastReference rc b]> (blocks c))
            (setReferenceCounter rc c).

Section WriteRead.
Context {L : Type}.
Variable lo : Lower L.
Variable vo : VictimOps L.

(** However [setByte] got the line into the cache, it ends by storing the
    byte in the block that the lookup found. *)
Lemma setByteWith_stored addr val s s' :
  setByteWith lo vo addr val s = Ok s' ->
  exists c0 r b,
    getBlockId c0 addr = Ok r /\ r <> minusOne /\ slot (blocks c0) r b /\
    0 <= r < Z.of_nat (length (blocks c0)) /\
    0 <= getOffset (policy c0) addr < Z.of_nat (length (Block.data b)) /\
    self s' = setBlocks
                (<[Z.to_nat r :=
                     storedBlock (referenceCounter c0)
                       (<[Z.to_nat (getOffset (policy c0) addr) := val]>
                          (Block.data b)) b]> (blocks c0)) c0.
Proof.
  unfold setByteWith. intros H. bind_as H r Er.
  destruct (negb (r =? minusOne)) eqn:Hr.
  - bind_as H c' Ec. injection H as <-.
    apply touch_Ok in Ec as (b & b' & Hb & Hf & Hrange & ->).
    unfold storeInBlock in Hf. bind_as Hf d Ed. injection Hf as <-.
    apply vecSet_Ok in Ed as [Hoff ->].
    eexists _, r, b. split; [exact Er|].
    split; [by intros ->|]. split; [exact Hb|]. split; [exact Hrange|].
    split; [exact Hoff|]. reflexivity.
  - bind_as H s0 E0. bind_as H r' Er'.
    destruct (negb (r' =? minusOne)) eqn:Hr'; [|discriminate].
    bind_as H c' Ec. injection H as <-.
    apply touch_Ok in Ec as (b & b' & Hb & Hf & Hrange & ->).
    unfold storeInBlock in Hf. bind_as Hf d Ed. injection Hf as <-.
    apply vecSet_Ok in Ed as [Hoff ->].
    exists (self s0), r', b. split; [exact Er'|].
    split; [by intros ->|]. split; [exact Hb|]. split; [exact Hrange|].
    split; [exact Hoff|]. reflexivity.
Qed.

(** A read of a resident line. *)
Lemma getByteWith_hit addr s r b x :
  getBlockId (self s) addr = Ok r -> r <> minusOne ->
  0 <= r -> slot (blocks (self s)) r b ->
  Block.data b !! Z.to_nat (getOffset (policy (self s)) addr) = Some x ->
  getByteWith lo vo addr s = Ok (x, setSelf (afterReadHit r b (self s)) s).
Proof.
  intros Er Hr H0 Hb Hx. unfold getByteWith.
  assert (Hlt : (Z.to_nat r < length (blocks (self s)))%nat)
    by (by eapply lookup_lt_Some).
  assert (E : getBlockId (setReferenceCounter
                            (wrap32 (referenceCounter (self s) + 1)) (self s))
                         addr = Ok r) by exact Er.
  run E.
  assert (Hn : negb (r =? minusOne) = true).
  { apply negb_true_iff. by apply Z.eqb_neq. }
  rewrite Hn. unfold touch, blockAt.
  cbn [blocks setReferenceCounter referenceCounter policy setBlocks].
  unfold slot in Hb. rewrite Hb, !bind_ret.
  rewrite vecSet_total by lia. rewrite bind_ret.
  rewrite bind_ret. cbv beta. cbn [blocks setBlocks].
  rewrite list_lookup_insert_eq by done.
  rewrite bind_ret. unfold vecGet. cbn [Block.data Block.setLastReference].
  rewrite Hx, bind_ret. reflexivity.
Qed.

End WriteRead.

Lemma sameKeys_sym bs bs' : sameKeys bs bs' -> sameKeys bs' bs.
Proof. intros H k. symmetry. apply H. Qed.

(** A cache as the constructor leaves it, and one over an empty memory. *)
Definition freshCache (p : Policy.t) : Cache :=
  mkCache 0 p (initBlocks p) Statistics.zero false false.

Definition freshTwoWaySys : Sys MemoryManager.t :=
  mkSys (freshCache twoWayPolicy) None MemoryManager.init.

Lemma freshTwoWaySys_ok : sysOk (fun _ : MemoryManager.t => True) freshTwoWaySys.
Proof.
  destruct (newCache_good twoWayPolicy (freshCache twoWayPolicy))
    as (Hc & Hev & _); [solve_u32 .. | by apply newCache_valid |].
  split; [exact Hc|]. split; [exact Hev | exact I].
Qed.

(** X6. Under the invariant of a cache and of what is below it, [write]
    returns, and a [read] of the same address right after it returns the
    byte written.  That read is a hit: it is counted as one read and one hit
    with [hitLatency] cycles, and it changes nothing in the victim cache and
    below. *)
Theorem write_then_read {L : Type} (lo : Lower L) (IL : L -> Prop)
    (s : Sys L) (addr val : Z) :
  LowerGood lo IL -> sysOk IL s ->
  exists s' s'',
    write lo addr val s = Ok s' /\
    read lo addr s' = Ok (val, s'') /\
    below s'' = below s' /\ victimCache s'' = victimCache s' /\
    statistics (self s'')
    = countHit (policy (self s')) (countAccess true (statistics (self s'))).
Proof.
  intros Hlo Hs.
  destruct (writeWith_good lo (victimOps lo) IL Hlo addr val s Hs)
    as (s' & E & _); [intros _; by apply victimOps_good|].
  exists s'. unfold write. rewrite E.
  unfold writeWith in E. bind_as E c Ec.
  apply setByteWith_stored in E
    as (c0 & r & b & Er & Hr & Hb & Hrange & Hoff & Hself).
  pose (b' := storedBlock (referenceCounter c0)
                (<[Z.to_nat (getOffset (policy c0) addr) := val]>
                   (Block.data b)) b).
  assert (Hk : sameKeys (blocks (self s')) (blocks c0)).
  { rewrite Hself. apply sameKeys_sym.
    by apply (sameKeys_insert (blocks c0) (Z.to_nat r) b b'). }
  assert (Hp : policy (self s') = policy c0) by (by rewrite Hself).
  assert (Hb' : slot (blocks (self s')) r b').
  { rewrite Hself. by apply slot_insert_eq. }
  assert (Hx : Block.data b' !! Z.to_nat (getOffset (policy (self s')) addr)
               = Some val).
  { rewrite Hp. apply list_lookup_insert_eq. lia. }
  assert (Hn : negb (r =? minusOne) = true).
  { apply negb_true_iff. by apply Z.eqb_neq. }
  set (c1 := updStatistics (countHit (policy (self s')))
               (updStatistics (countAccess true) (self s'))).
  assert (Ea : account true addr (self s') = Ok c1).
  { unfold account, inCache.
    rewrite (getBlockId_sameKeys _ c0 addr) by done.
    rewrite Er, bind_ret. cbv beta. rewrite bind_ret, Hn. reflexivity. }
  assert (Eg : getByteWith lo (victimOps lo) addr (setSelf c1 s')
               = Ok (val, setSelf (afterReadHit r b' c1) (setSelf c1 s'))).
  { apply getByteWith_hit; try done; [|lia].
    change (getBlockId c1 addr = Ok r).
    rewrite (getBlockId_sameKeys c1 c0 addr); done. }
  eexists. split; [reflexivity|]. split.
  - unfold read, readWith. rewrite Ea, bind_ret. exact Eg.
  - split; [reflexivity|]. split; reflexivity.
Qed.

Lemma write_then_read_witness :
  exists s' s'',
    write memoryLower 200 7 freshTwoWaySys = Ok s' /\
    read memoryLower 200 s' = Ok (7, s'').
Proof.
  destruct (write_then_read memoryLower (fun _ => True) freshTwoWaySys 200 7
              memoryLower_good freshTwoWaySys_ok)
    as (s' & s'' & E1 & E2 & _).
  exists s', s''. split; [exact E1 | exact E2].
Defined.

(** ** The hierarchy as a memory

    The rest of the file shows that a cache without a victim cache, over
    lower levels that are caches of the same kind or the memory manager,
    behaves as one memory: a read returns the byte last written to the
    address, or the byte of the memory manager when there was no write.
    No driver of the repository enables a victim cache. *)

(** *** Lines *)

(** Addresses below the last page.  A line at the very top of the address
    space is not copied: [blockAddrBegin + blockSize] wraps around to 0 and
    the copy loops of [loadBlockFromLowerLevel] do not run. *)
Definition safeAddr (a : Z) : Prop := 0 <= a < 2 ^ 32 - 4096.

(** A policy with lines of at most one page, and with shift counts below
    32. *)
Definition linePolicy (p : Policy.t) : Prop :=
  policyOk p /\ 0 < offsetBitsOf p + idBitsOf p < 32 /\
  Policy.blockSize p <= 4096.

Definition sameLine (p : Policy.t) (a a' : Z) : Prop :=
  getTag p a = getTag p a' /\ getId p a = getId p a'.

Lemma safeAddr_u32 a : safeAddr a -> u32 a.
Proof. unfold safeAddr, u32. lia. Qed.

Lemma sameLine_base p a a' :
  linePolicy p -> u32 a -> u32 a' ->
  (sameLine p a a' <->
   a - a mod Policy.blockSize p = a' - a' mod Policy.blockSize p).
Proof.
  intros (Hp & Hoi & _) Ha Ha'.
  destruct (policyOk_blockSize p Hp) as (Ho & Hbs).
  pose proof (idBitsOf_nonneg p Hp) as Hi.
  rewrite Hbs. split.
  - intros [Ht Hid].
    pose (b := Block.mk true false (getTag p a) (getId p a) 0 0 0 []).
    rewrite <- (getAddr_eq p a b), <- (getAddr_eq p a' b); done.
  - intros Hb. unfold sameLine.
    rewrite !getTag_div, !getId_mod by done.
    set (o := offsetBitsOf p) in *. set (i := idBitsOf p) in *.
    assert (Ho2 : 0 < 2 ^ o) by (apply Z.pow_pos_nonneg; lia).
    assert (Hi2 : 0 < 2 ^ i) by (apply Z.pow_pos_nonneg; lia).
    assert (Hd : a / 2 ^ o = a' / 2 ^ o).
    { pose proof (Z.div_mod a (2 ^ o) ltac:(lia)).
      pose proof (Z.div_mod a' (2 ^ o) ltac:(lia)). nia. }
    rewrite !Z.pow_add_r, <- !Z.div_div, Hd by lia. done.
Qed.

Lemma sameLine_refl p a : sameLine p a a.
Proof. done. Qed.

Lemma sameLine_sym p a a' : sameLine p a a' -> sameLine p a' a.
Proof. intros [? ?]. done. Qed.

Lemma sameLine_trans p a a' a'' :
  sameLine p a a' -> sameLine p a' a'' -> sameLine p a a''.
Proof. intros [? ?] [? ?]. split; congruence. Qed.

(** Lines do not cross pages. *)
Lemma sameLine_page p a a' :
  linePolicy p -> u32 a -> u32 a' -> sameLine p a a' ->
  a / 4096 = a' / 4096.
Proof.
  intros Hlp Ha Ha' Hs. pose proof Hlp as (Hp & Hoi & Hle).
  apply (sameLine_base p a a' Hlp Ha Ha') in Hs.
  destruct (policyOk_blockSize p Hp) as (Ho & Hbs). rewrite Hbs in *.
  set (o := offsetBitsOf p) in *.
  assert (Ho12 : o <= 12).
  { destruct (Z.le_gt_cases o 12) as [|Hgt]; [done|]. exfalso.
    assert (2 ^ 12 < 2 ^ o) by (apply Z.pow_lt_mono_r; lia). lia. }
  assert (Ho2 : 0 < 2 ^ o) by (apply Z.pow_pos_nonneg; lia).
  assert (Hq : 0 < 2 ^ (12 - o)) by (apply Z.pow_pos_nonneg; lia).
  assert (E : 4096 = 2 ^ o * 2 ^ (12 - o)).
  { rewrite <- Z.pow_add_r by lia. replace (o + (12 - o)) with 12 by lia. done. }
  assert (Hd : a / 2 ^ o = a' / 2 ^ o).
  { pose proof (Z.div_mod a (2 ^ o) ltac:(lia)).
    pose proof (Z.div_mod a' (2 ^ o) ltac:(lia)). nia. }
  rewrite E, <- !Z.div_div, Hd by lia. done.
Qed.

Lemma samePage_safe a a' :
  u32 a' -> a / 4096 = a' / 4096 -> safeAddr a -> safeAddr a'.
Proof.
  unfold safeAddr, u32. intros Ha' Hd Ha.
  change (2 ^ 32) with 4294967296 in *.
  Z.to_euclidean_division_equations. lia.
Qed.

Lemma samePage_ids a a' :
  a / 4096 = a' / 4096 ->
  MemoryManager.getFirstEntryId a = MemoryManager.getFirstEntryId a' /\
  MemoryManager.getSecondEntryId a = MemoryManager.getSecondEntryId a'.
Proof.
  intros Hd. unfold MemoryManager.getFirstEntryId, MemoryManager.getSecondEntryId.
  rewrite !Z.shiftr_div_pow2 by lia.
  change (2 ^ 22) with (4096 * 1024). change (2 ^ 12) with 4096.
  rewrite <- !Z.div_div, Hd by lia. done.
Qed.

Lemma samePage_exists m a a' :
  a / 4096 = a' / 4096 ->
  MemoryManager.isPageExist m a' = MemoryManager.isPageExist m a.
Proof.
  intros Hd. destruct (samePage_ids a a' Hd) as [H1 H2].
  rewrite !isPageExist_pageOf. unfold pageOf. by rewrite H1, H2.
Qed.

Lemma sameLine_safe p a a' :
  linePolicy p -> safeAddr a -> u32 a' -> sameLine p a a' -> safeAddr a'.
Proof.
  intros Hlp Ha Ha' Hs. apply (samePage_safe a a'); [done| |done].
  by apply (sameLine_page p); [|apply safeAddr_u32|..].
Qed.

(** The addresses of the line of [a] are [base + k] for [k] below the
    line size, and [k] is the offset. *)
Lemma line_member p a k :
  linePolicy p -> safeAddr a -> 0 <= k < Policy.blockSize p ->
  let a' := blockAddrBeginOf p a + k in
  safeAddr a' /\ sameLine p a a' /\ getOffset p a' = k.
Proof.
  intros Hlp Ha Hk a'. pose proof Hlp as (Hp & Hoi & Hle).
  pose proof (safeAddr_u32 a Ha) as Hu.
  destruct (policyOk_blockSize p Hp) as (Ho & Hbs).
  unfold a'. rewrite blockAddrBeginOf_eq by done. rewrite <- Hbs.
  set (B := Policy.blockSize p) in *.
  pose proof (Z.mod_pos_bound a B ltac:(lia)) as Hm.
  pose proof (Z.div_mod a B ltac:(lia)) as Hdm.
  assert (Hmod : (a - a mod B + k) mod B = k).
  { replace (a - a mod B + k) with (k + a / B * B) by lia.
    rewrite Z.mod_add by lia. apply Z.mod_small. lia. }
  assert (Hu' : u32 (a - a mod B + k)).
  { pose proof (Z.mod_le a B). unfold u32, safeAddr in *. lia. }
  assert (Hs : sameLine p a (a - a mod B + k)).
  { apply sameLine_base; [done..|]. fold B. rewrite Hmod. lia. }
  split; [by eapply sameLine_safe|]. split; [done|].
  rewrite getOffset_mod, <- Hbs by done. exact Hmod.
Qed.

Lemma line_offset p a :
  linePolicy p -> u32 a ->
  a = blockAddrBeginOf p a + getOffset p a /\
  0 <= getOffset p a < Policy.blockSize p.
Proof.
  intros (Hp & _) Hu. split; [|by apply getOffset_range].
  rewrite blockAddrBeginOf_eq, getOffset_mod by done. lia.
Qed.

Lemma sameLine_begin p a a' :
  linePolicy p -> u32 a -> u32 a' -> sameLine p a a' ->
  blockAddrBeginOf p a' = blockAddrBeginOf p a.
Proof.
  intros Hlp Ha Ha' Hs. pose proof Hlp as (Hp & _).
  destruct (policyOk_blockSize p Hp) as (_ & Hbs).
  rewrite !blockAddrBeginOf_eq, <- Hbs by done. symmetry.
  by apply sameLine_base.
Qed.

Lemma sameLine_offset_inj p a a' :
  linePolicy p -> u32 a -> u32 a' -> sameLine p a a' ->
  getOffset p a = getOffset p a' -> a = a'.
Proof.
  intros Hlp Ha Ha' Hs Ho.
  destruct (line_offset p a Hlp Ha) as [E _].
  destruct (line_offset p a' Hlp Ha') as [E' _].
  rewrite E, E', Ho, (sameLine_begin p a a'); done.
Qed.

Lemma copyCount_full p a :
  linePolicy p -> safeAddr a ->
  copyCount p (blockAddrBeginOf p a) = Z.to_nat (Policy.blockSize p).
Proof.
  intros Hlp Ha. pose proof Hlp as (Hp & _ & Hle).
  pose proof (policyOk_sets p Hp) as (_ & _ & _ & Hbs).
  pose proof (safeAddr_u32 a Ha) as Hu.
  destruct (policyOk_blockSize p Hp) as (_ & Hpow).
  unfold copyCount. rewrite blockAddrBeginOf_eq by done. rewrite <- Hpow.
  pose proof (Z.mod_pos_bound a (Policy.blockSize p) ltac:(lia)).
  pose proof (Z.mod_le a (Policy.blockSize p)).
  unfold safeAddr in Ha. rewrite wrap32_small by lia. f_equal. lia.
Qed.

(** The line address rebuilt from a block of the line of [a]. *)
Lemma getAddr_line p a b :
  linePolicy p -> u32 a ->
  Block.tag b = getTag p a -> Block.id b = getId p a ->
  getAddr p b = blockAddrBeginOf p a.
Proof.
  intros (Hp & Hoi & _) Ha Ht Hid.
  rewrite blockAddrBeginOf_eq by done. by apply getAddr_eq.
Qed.

(** *** Lookup, logically *)

(** Slot [n] holds the line of [a]. *)
Definition holds (c : Cache) (n : nat) (a : Z) : Prop :=
  exists b, blocks c !! n = Some b /\ Block.valid b = true /\
            Block.tag b = getTag (policy c) a /\
            Block.id b = getId (policy c) a.

(** No line is in two slots. *)
Definition uniqueLines (c : Cache) : Prop :=
  forall n1 n2 b1 b2,
    blocks c !! n1 = Some b1 -> blocks c !! n2 = Some b2 ->
    Block.valid b1 = true -> Block.valid b2 = true ->
    Block.tag b1 = Block.tag b2 -> Block.id b1 = Block.id b2 -> n1 = n2.

Lemma getBlockId_found c a r :
  shapeOk c -> getBlockId c a = Ok r -> r <> minusOne ->
  0 <= r /\ holds c (Z.to_nat r) a.
Proof.
  intros Hc E Hr.
  destruct (shapeOk_set_slots c a Hc) as (H0 & Hlt & Hle & Hm & Hall).
  unfold getBlockId in E.
  apply getBlockIdLoop_Ok in E as [(-> & _)|(Hin & (b & Hs & Hid & Hv & Ht) & _)];
    [done | | done | lia].
  split; [lia|]. exists b. done.
Qed.

Lemma set_of_slot c a n b :
  shapeOk c -> blocks c !! n = Some b -> Block.id b = getId (policy c) a ->
  setBegin (policy c) (getId (policy c) a) <= Z.of_nat n
    < setEnd (policy c) (getId (policy c) a).
Proof.
  intros Hc Hb Hid. pose proof Hc as (Hp & Hlen & Hblk).
  destruct (Hblk n b Hb) as (Hidn & _).
  pose proof (set_bounds (policy c) a Hp) as (Hbe & Hen & H0 & Hlt & Hle & Hbn).
  pose proof (policyOk_sets (policy c) Hp) as (Ha & _).
  cbv zeta in *. rewrite Hbe, Hen. rewrite <- Hid, Hidn.
  set (q := Policy.associativity (policy c)) in *.
  pose proof (Z.div_mod (Z.of_nat n) q ltac:(lia)).
  pose proof (Z.mod_pos_bound (Z.of_nat n) q ltac:(lia)). nia.
Qed.

Lemma getBlockId_absent c a :
  shapeOk c -> getBlockId c a = Ok minusOne -> forall n, ~ holds c n a.
Proof.
  intros Hc E n (b & Hb & Hv & Ht & Hid).
  destruct (shapeOk_set_slots c a Hc) as (H0 & Hlt & Hle & Hm & Hall).
  pose proof (set_of_slot c a n b Hc Hb Hid) as Hn.
  unfold getBlockId in E.
  apply getBlockIdLoop_Ok in E as [(_ & Hno)|(Hin & _)]; [| lia | done | lia].
  destruct (Hno (Z.of_nat n) ltac:(lia)) as (b' & Hs & _ & Hnm).
  unfold slot in Hs. rewrite Nat2Z.id, Hb in Hs. injection Hs as <-.
  unfold noMatch in Hnm. rewrite Hv, Ht, Z.eqb_refl in Hnm. discriminate.
Qed.

Lemma holds_getBlockId c a n :
  shapeOk c -> uniqueLines c -> holds c n a -> getBlockId c a = Ok (Z.of_nat n).
Proof.
  intros Hc Hu Hh. destruct (getBlockId_total c a Hc) as (r & E & _).
  destruct (decide (r = minusOne)) as [->|Hr].
  - by destruct (getBlockId_absent c a Hc E n).
  - destruct (getBlockId_found c a r Hc E Hr) as (H0 & b' & Hb' & Hv' & Ht' & Hid').
    destruct Hh as (b & Hb & Hv & Ht & Hid).
    assert (Z.to_nat r = n)
      by (apply (Hu _ _ b' b); congruence).
    rewrite E. f_equal. lia.
Qed.

Lemma absent_getBlockId c a :
  shapeOk c -> (forall n, ~ holds c n a) -> getBlockId c a = Ok minusOne.
Proof.
  intros Hc Hno. destruct (getBlockId_total c a Hc) as (r & E & _).
  destruct (decide (r = minusOne)) as [->|Hr]; [done|].
  destruct (getBlockId_found c a r Hc E Hr) as (_ & Hh).
  by destruct (Hno _ Hh).
Qed.

(** The block that holds the line of [a], if it is in the cache, and the
    byte of [a] there. *)
Definition lineOf (c : Cache) (a : Z) : option Block.t :=
  match getBlockId c a with
  | Ok r => if r =? minusOne then None else blocks c !! Z.to_nat r
  | Err _ => None
  end.

Definition residentByte (c : Cache) (a : Z) : option Z :=
  b ← lineOf c a; Block.data b !! Z.to_nat (getOffset (policy c) a).

Lemma lineOf_holds c a n b :
  shapeOk c -> uniqueLines c ->
  blocks c !! n = Some b -> Block.valid b = true ->
  Block.tag b = getTag (policy c) a -> Block.id b = getId (policy c) a ->
  lineOf c a = Some b.
Proof.
  intros Hc Hu Hb Hv Ht Hid. unfold lineOf.
  rewrite (holds_getBlockId c a n Hc Hu) by (by exists b).
  assert (Hn : (Z.of_nat n =? minusOne) = false).
  { apply Z.eqb_neq. pose proof (lookup_lt_Some _ _ _ Hb).
    destruct Hc as ((_ & _ & _ & Hbn & _) & Hlen & _).
    unfold u32, minusOne in *. lia. }
  by rewrite Hn, Nat2Z.id.
Qed.

Lemma lineOf_inv c a b :
  shapeOk c -> lineOf c a = Some b ->
  exists n, getBlockId c a = Ok (Z.of_nat n) /\ Z.of_nat n <> minusOne /\
            blocks c !! n = Some b /\ Block.valid b = true /\
            Block.tag b = getTag (policy c) a /\
            Block.id b = getId (policy c) a.
Proof.
  intros Hc H. unfold lineOf in H.
  destruct (getBlockId c a) as [r|] eqn:E; [|discriminate].
  destruct (r =? minusOne) eqn:Hr; [discriminate|]. apply Z.eqb_neq in Hr.
  destruct (getBlockId_found c a r Hc E Hr) as (H0 & b' & Hb' & Hv & Ht & Hid).
  rewrite Hb' in H. injection H as ->.
  exists (Z.to_nat r). rewrite Z2Nat.id by lia. done.
Qed.

Lemma lineOf_None_inv c a :
  shapeOk c -> lineOf c a = None -> forall n, ~ holds c n a.
Proof.
  intros Hc H. unfold lineOf in H.
  destruct (getBlockId_total c a Hc) as (r & E & _). rewrite E in H.
  destruct (r =? minusOne) eqn:Hr.
  - apply Z.eqb_eq in Hr as ->. by apply getBlockId_absent.
  - apply Z.eqb_neq in Hr.
    destruct (getBlockId_found c a r Hc E Hr) as (_ & b & Hb & _).
    rewrite Hb in H. discriminate.
Qed.

Lemma lineOf_absent c a :
  shapeOk c -> (forall n, ~ holds c n a) -> lineOf c a = None.
Proof.
  intros Hc Hno. unfold lineOf. by rewrite absent_getBlockId.
Qed.

(** *** What a cache assumes of the level below *)

Definition pagesKept (m m' : MemoryManager.t) : Prop :=
  forall a, MemoryManager.isPageExist m a = true ->
            MemoryManager.isPageExist m' a = true.

(** [CL] is the invariant of the level below and [lview l a] the byte that
    the level below holds for [a]. *)
Record ViewLaws {L : Type} (lo : Lower L) (CL : L -> Prop)
    (lview : L -> Z -> Z) : Prop := mkViewLaws {
  vl_kind : (forall l, is_Some (lowerCache lo l)) \/
            (forall l, lowerCache lo l = None);
  vl_upd_cache : forall f l,
    lowerCache lo (updLowerCache lo f l) = f <$> lowerCache lo l;
  vl_upd : forall g l,
    CL l ->
    CL (updLowerCache lo (updStatistics g) l) /\
    (forall a, lview (updLowerCache lo (updStatistics g) l) a = lview l a) /\
    memoryManager lo (updLowerCache lo (updStatistics g) l)
    = memoryManager lo l;
  vl_get : forall a l x l',
    CL l -> safeAddr a -> lowerGetByte lo a l = Ok (x, l') ->
    x = lview l a /\ CL l' /\
    (forall b, u32 b -> lview l' b = lview l b) /\
    pagesKept (memoryManager lo l) (memoryManager lo l');
  vl_set : forall a v l l',
    CL l -> safeAddr a ->
    MemoryManager.isPageExist (memoryManager lo l) a = true ->
    lowerSetByte lo a v l = Ok l' ->
    CL l' /\
    (forall b, u32 b -> lview l' b = if decide (b = a) then v else lview l b) /\
    pagesKept (memoryManager lo l) (memoryManager lo l');
  vl_load : forall a r l l',
    CL l -> safeAddr a ->
    (forall lc, lowerCache lo l = Some lc -> inCache lc a = Ok false) ->
    lowerLoadBlockFromLowerLevel lo a r l = Ok l' ->
    CL l' /\
    (forall b, u32 b -> lview l' b = lview l b) /\
    pagesKept (memoryManager lo l) (memoryManager lo l');
  vl_mem_view : forall l a,
    lowerCache lo l = None ->
    lview l a = MemoryManager.getByte (memoryManager lo l) a;
  vl_mem_wf : forall l,
    CL l -> lowerCache lo l = None -> wfMemory (memoryManager lo l);
  vl_setmem : forall m l,
    CL l -> wfMemory m ->
    (forall a, MemoryManager.getByte m a
               = MemoryManager.getByte (memoryManager lo l) a) ->
    pagesKept (memoryManager lo l) m ->
    CL (setMemoryManager lo m l) /\
    (forall a, lview (setMemoryManager lo m l) a = lview l a) /\
    memoryManager lo (setMemoryManager lo m l) = m;
  vl_mem_set : forall l m,
    CL l -> lowerCache lo l = None -> wfMemory m ->
    CL (setMemoryManager lo m l) /\
    memoryManager lo (setMemoryManager lo m l) = m
}.

Section Coherence.
Context {L : Type}.
Variable lo : Lower L.
Variable CL : L -> Prop.
Variable lview : L -> Z -> Z.

(** The byte a cache over [below] holds for [a]. *)
Definition view (s : Sys L) (a : Z) : Z :=
  match residentByte (self s) a with
  | Some x => x
  | None => lview (below s) a
  end.

(** The invariant: every valid block is the line of an address below the
    last page, no line is in two blocks, a clean block has the bytes of the
    level below, and the page of a modified block is allocated. *)
Record coherent (s : Sys L) : Prop := mkCoherent {
  coh_shape : shapeOk (self s);
  coh_policy : linePolicy (policy (self s));
  coh_novictim : enableVictimCache (self s) = false;
  coh_unique : uniqueLines (self s);
  coh_line : forall n b,
    blocks (self s) !! n = Some b -> Block.valid b = true ->
    exists a, safeAddr a /\ Block.tag b = getTag (policy (self s)) a /\
              Block.id b = getId (policy (self s)) a;
  coh_clean : forall n b a,
    blocks (self s) !! n = Some b -> Block.valid b = true ->
    Block.modified b = false -> u32 a ->
    Block.tag b = getTag (policy (self s)) a ->
    Block.id b = getId (policy (self s)) a ->
    Block.data b !! Z.to_nat (getOffset (policy (self s)) a)
    = Some (lview (below s) a);
  coh_dirty : forall n b a,
    blocks (self s) !! n = Some b -> Block.valid b = true ->
    Block.modified b = true -> u32 a ->
    Block.tag b = getTag (policy (self s)) a ->
    Block.id b = getId (policy (self s)) a ->
    MemoryManager.isPageExist (memoryManager lo (below s)) a = true;
  coh_below : CL (below s)
}.

End Coherence.

(** An invariant that depends on the index, along a loop that returns. *)
Lemma forRange_ind {T} (P : Z -> T -> Prop) (body : Z -> T -> result T)
    (start : Z) (n : nat) :
  (forall i s s', start <= i < start + Z.of_nat n -> P i s ->
                  body i s = Ok s' -> P (i + 1) s') ->
  forall s s', P start s -> forRange body start n s = Ok s' ->
               P (start + Z.of_nat n) s'.
Proof.
  intros Hbody.
  assert (Hgen : forall m i s s', i = start + Z.of_nat n - Z.of_nat m ->
                   (m <= n)%nat -> P i s -> forRange body i m s = Ok s' ->
                   P (i + Z.of_nat m) s').
  { induction m as [|m IH]; intros i s s' Hi Hm Hs H; cbn [forRange] in H.
    - injection H as <-. by rewrite Z.add_0_r.
    - apply bind_Ok in H as (s1 & E1 & H).
      replace (i + Z.of_nat (S m)) with (i + 1 + Z.of_nat m) by lia.
      apply (IH (i + 1) s1 s'); [lia | lia | | done].
      apply (Hbody i s s1); [lia | done | done]. }
  intros s s' Hs H.
  apply (Hgen n start s s'); [lia | lia | done | done].
Qed.

Section LowerBytes.
Context {L : Type}.
Variable lo : Lower L.
Variable CL : L -> Prop.
Variable lview : L -> Z -> Z.
Hypothesis Hlaws : ViewLaws lo CL lview.

(** The state below after some operations: the invariant, the same bytes
    except those written, and the pages that were there. *)
Definition keeps (l l' : L) : Prop :=
  CL l' /\ pagesKept (memoryManager lo l) (memoryManager lo l').

Lemma pagesKept_refl m : pagesKept m m.
Proof. by intros a. Qed.

Lemma pagesKept_trans m1 m2 m3 :
  pagesKept m1 m2 -> pagesKept m2 m3 -> pagesKept m1 m3.
Proof. intros H1 H2 a Ha. by apply H2, H1. Qed.

Lemma copyFromLowerCache_view base n d l d' l' :
  CL l -> (forall k, 0 <= k < Z.of_nat n -> safeAddr (base + k)) ->
  copyFromLowerCache lo base n d l = Ok (d', l') ->
  keeps l l' /\ (forall b, u32 b -> lview l' b = lview l b) /\
  length d' = length d /\
  forall k, 0 <= k < Z.of_nat n ->
            d' !! Z.to_nat k = Some (lview l (base + k)).
Proof.
  intros Hl Hsafe H. unfold copyFromLowerCache in H.
  pose (P := fun (i : Z) (st : list Z * L) =>
               keeps l st.2 /\ (forall b, u32 b -> lview st.2 b = lview l b) /\
               length st.1 = length d /\
               forall k, 0 <= k < i - base ->
                         st.1 !! Z.to_nat k = Some (lview l (base + k))).
  assert (HP : P (base + Z.of_nat n) (d', l')).
  { eapply (forRange_ind P); [| |exact H].
    - intros i [d1 l1] [d2 l2] Hi (Hk & Hv & Hlen & Hd) Hb.
      cbn [fst snd] in *. bind_as Hb r Er. destruct r as [x l1'].
      bind_as Hb d1' Ed. injection Hb as <- <-.
      destruct Hk as [Hc1 Hp1].
      assert (Hsi : safeAddr i).
      { replace i with (base + (i - base)) by lia. apply Hsafe. lia. }
      destruct (vl_get lo CL lview Hlaws i l1 x l1' Hc1 Hsi Er)
        as (-> & Hc1' & Hv' & Hp').
      apply vecSet_Ok in Ed as [Hrange ->]. unfold P. cbn [fst snd].
      split; [split; [done | by eapply pagesKept_trans]|].
      split; [intros b Hb; by rewrite Hv', Hv|].
      split; [by rewrite length_insert|].
      intros k Hk. destruct (decide (k = i - base)) as [->|Hne].
      + rewrite list_lookup_insert_eq by lia. rewrite Hv by (by apply safeAddr_u32).
        do 2 f_equal. lia.
      + rewrite list_lookup_insert_ne by lia. apply Hd. lia.
    - split; [split; [done | apply pagesKept_refl]|]. split; [done|].
      split; [done|]. intros k Hk. lia. }
  destruct HP as (Hkeep & Hv & Hlen & Hd). cbn [fst snd] in *.
  split; [done|]. split; [done|]. split; [done|].
  intros k Hk. apply Hd. lia.
Qed.

Lemma copyFromMemory_view base n d l d' :
  lowerCache lo l = None ->
  copyFromMemory lo base n d l = Ok d' ->
  length d' = length d /\
  forall k, 0 <= k < Z.of_nat n ->
            d' !! Z.to_nat k = Some (lview l (base + k)).
Proof.
  intros Hnone H. unfold copyFromMemory in H.
  pose (P := fun (i : Z) (d1 : list Z) =>
               length d1 = length d /\
               forall k, 0 <= k < i - base ->
                         d1 !! Z.to_nat k = Some (lview l (base + k))).
  assert (HP : P (base + Z.of_nat n) d').
  { eapply (forRange_ind P); [| |exact H].
    - intros i d1 d2 Hi (Hlen & Hd) Hb.
      apply vecSet_Ok in Hb as [Hrange ->].
      split; [by rewrite length_insert|].
      intros k Hk. destruct (decide (k = i - base)) as [->|Hne].
      + rewrite list_lookup_insert_eq by lia.
        rewrite (vl_mem_view lo CL lview Hlaws) by done. do 3 f_equal. lia.
      + rewrite list_lookup_insert_ne by lia. apply Hd. lia.
    - split; [done|]. intros k Hk. lia. }
  destruct HP as (Hlen & Hd). split; [done|]. intros k Hk. apply Hd. lia.
Qed.

(** What a block written to the level below leaves there. *)
Definition written (a : Z) (b : Block.t) (n : Z) (l l' : L) : Prop :=
  keeps l l' /\
  (forall k, 0 <= k < n ->
             Block.data b !! Z.to_nat k = Some (lview l' (a + k))) /\
  (forall c, u32 c -> ~ (a <= c < a + n) -> lview l' c = lview l c).

Lemma writeToLowerCache_view a b l l' :
  CL l ->
  (forall k, 0 <= k < Block.size b ->
             safeAddr (a + k) /\
             MemoryManager.isPageExist (memoryManager lo l) (a + k) = true) ->
  writeToLowerCache lo a b l = Ok l' ->
  written a b (Block.size b) l l'.
Proof.
  intros Hl Hsafe H. unfold writeToLowerCache in H.
  destruct (Z.le_gt_cases 0 (Block.size b)) as [Hsz|Hsz].
  2:{ rewrite Z2Nat.nonpos in H by lia. injection H as <-.
      split; [split; [done | apply pagesKept_refl]|].
      split; [intros k Hk; lia | done]. }
  pose (P := fun (i : Z) (l1 : L) => written a b i l l1).
  assert (HP : P (0 + Z.of_nat (Z.to_nat (Block.size b))) l').
  { eapply (forRange_ind P); [| |exact H].
    - intros i l1 l2 Hi ((Hc1 & Hp1) & Hd & Hfr) Hb.
      bind_as Hb x Ex. unfold vecGet in Ex.
      destruct (Block.data b !! Z.to_nat i) as [x'|] eqn:Hx; [|discriminate].
      injection Ex as ->.
      destruct (Hsafe i ltac:(lia)) as (Hsi & Hpi).
      pose proof (safeAddr_u32 _ Hsi) as Hui.
      rewrite wrap32_small in Hb by exact Hui.
      destruct (vl_set lo CL lview Hlaws (a + i) x l1 l2 Hc1 Hsi (Hp1 _ Hpi) Hb)
        as (Hc2 & Hv2 & Hp2).
      split; [split; [done | by eapply pagesKept_trans]|]. split.
      + intros k Hk. destruct (Hsafe k ltac:(lia)) as (Hsk & _).
        rewrite Hv2 by (by apply safeAddr_u32).
        destruct (decide (a + k = a + i)) as [E|Hne].
        * by replace k with i by lia.
        * apply Hd. lia.
      + intros c Hc Hout. rewrite Hv2 by done.
        destruct (decide (c = a + i)) as [->|Hne]; [lia|]. apply Hfr; [done | lia].
    - split; [split; [done | apply pagesKept_refl]|].
      split; [intros k Hk; lia | done]. }
  unfold P in HP. by rewrite Z.add_0_l, Z2Nat.id in HP by lia.
Qed.

Lemma writeToMemory_view a b l l' :
  CL l -> (forall l0, lowerCache lo l0 = None) ->
  (forall k, 0 <= k < Block.size b ->
             safeAddr (a + k) /\
             MemoryManager.isPageExist (memoryManager lo l) (a + k) = true) ->
  writeToMemory lo a b l = Ok l' ->
  written a b (Block.size b) l l'.
Proof.
  intros Hl Hnone Hsafe H. unfold writeToMemory in H.
  destruct (Z.le_gt_cases 0 (Block.size b)) as [Hsz|Hsz].
  2:{ rewrite Z2Nat.nonpos in H by lia. injection H as <-.
      split; [split; [done | apply pagesKept_refl]|].
      split; [intros k Hk; lia | done]. }
  pose (P := fun (i : Z) (l1 : L) => written a b i l l1).
  assert (HP : P (0 + Z.of_nat (Z.to_nat (Block.size b))) l').
  { eapply (forRange_ind P); [| |exact H].
    - intros i l1 l2 Hi ((Hc1 & Hp1) & Hd & Hfr) Hb.
      bind_as Hb x Ex. unfold vecGet in Ex.
      destruct (Block.data b !! Z.to_nat i) as [x'|] eqn:Hx; [|discriminate].
      injection Ex as ->. injection Hb as <-.
      destruct (Hsafe i ltac:(lia)) as (Hsi & Hpi).
      pose proof (safeAddr_u32 _ Hsi) as Hui.
      rewrite wrap32_small by exact Hui.
      pose proof (vl_mem_wf lo CL lview Hlaws l1 Hc1 (Hnone l1)) as Hwf.
      set (m2 := (MemoryManager.setByte (memoryManager lo l1) (a + i) x).1).
      destruct (vl_mem_set lo CL lview Hlaws l1 m2 Hc1 (Hnone l1))
        as (Hc2 & Hm2); [by apply wfMemory_setByte|].
      assert (Hv2 : forall c, u32 c ->
                lview (setMemoryManager lo m2 l1) c
                = if decide (c = a + i) then x else lview l1 c).
      { intros c Hc. rewrite !(vl_mem_view lo CL lview Hlaws) by done.
        rewrite Hm2. unfold m2. destruct (decide (c = a + i)) as [->|Hne].
        - apply getByte_setByte_same; [done | by apply Hp1].
        - by apply getByte_setByte_other. }
      split; [split; [done|]|]; [|split].
      + rewrite Hm2. intros c Hc. unfold m2.
        rewrite isPageExist_setByte. by apply Hp1.
      + intros k Hk. destruct (Hsafe k ltac:(lia)) as (Hsk & _).
        rewrite Hv2 by (by apply safeAddr_u32).
        destruct (decide (a + k = a + i)) as [E|Hne].
        * by replace k with i by lia.
        * apply Hd. lia.
      + intros c Hc Hout. rewrite Hv2 by done.
        destruct (decide (c = a + i)) as [->|Hne]; [lia|]. apply Hfr; [done | lia].
    - split; [split; [done | apply pagesKept_refl]|].
      split; [intros k Hk; lia | done]. }
  unfold P in HP. by rewrite Z.add_0_l, Z2Nat.id in HP by lia.
Qed.

End LowerBytes.

Lemma inCache_updStatistics g c a : inCache (updStatistics g c) a = inCache c a.
Proof. reflexivity. Qed.

Section MissResolution.
Context {L : Type}.
Variable lo : Lower L.
Variable vo : VictimOps L.
Variable CL : L -> Prop.
Variable lview : L -> Z -> Z.
Hypothesis Hlaws : ViewLaws lo CL lview.

(** The bytes [loadBlockFromLowerLevel] gets from the level below are the
    bytes that level holds for the line. *)
Lemma fetchFromLower_view c isRead base d l d2 l2 :
  CL l ->
  (forall k, 0 <= k < Z.of_nat (copyCount (policy c) base) ->
             safeAddr (base + k)) ->
  safeAddr base ->
  fetchFromLower lo c isRead base d l = Ok (d2, l2) ->
  keeps lo CL l l2 /\ (forall b, u32 b -> lview l2 b = lview l b) /\
  length d2 = length d /\
  forall k, 0 <= k < Z.of_nat (copyCount (policy c) base) ->
            d2 !! Z.to_nat k = Some (lview l (base + k)).
Proof.
  intros Hl Hsafe Hbase H. unfold fetchFromLower in H.
  destruct (lowerCache lo l) as [lc|] eqn:Hlc.
  - bind_as H hit Eh. bind_as H l1 E1.
    destruct (vl_upd lo CL lview Hlaws (countAccess isRead) l Hl)
      as (Hc0 & Hv0 & Hm0).
    set (l0 := updLowerCache lo (updStatistics (countAccess isRead)) l) in *.
    assert (H1 : CL l1 /\ (forall b, u32 b -> lview l1 b = lview l b) /\
                 pagesKept (memoryManager lo l) (memoryManager lo l1)).
    { destruct hit.
      - injection E1 as <-.
        destruct (vl_upd lo CL lview Hlaws (countHit (policy lc)) l0 Hc0)
          as (Hc1 & Hv1 & Hm1).
        split; [done|]. split; [intros b _; by rewrite Hv1, Hv0|].
        rewrite Hm1, Hm0. apply pagesKept_refl.
      - destruct (vl_upd lo CL lview Hlaws (countMiss (policy lc)) l0 Hc0)
          as (Hc1 & Hv1 & Hm1).
        destruct (vl_load lo CL lview Hlaws base isRead _ l1 Hc1 Hbase)
          as (Hc2 & Hv2 & Hp2); [|exact E1|].
        + intros lc'. unfold l0.
          rewrite !(vl_upd_cache lo CL lview Hlaws), Hlc.
          cbn [fmap option_fmap option_map]. intros [= <-].
          by rewrite !inCache_updStatistics.
        + split; [done|]. split; [intros b Hb; by rewrite Hv2, Hv1, Hv0|].
          by rewrite Hm1, Hm0 in Hp2. }
    destruct H1 as (Hc1 & Hv1 & Hp1).
    destruct (copyFromLowerCache_view lo CL lview Hlaws base _ d l1 d2 l2 Hc1
                Hsafe H) as ((Hc2 & Hp2) & Hv2 & Hlen & Hd).
    split; [split; [done | by eapply pagesKept_trans]|].
    split; [intros b Hb; by rewrite Hv2, Hv1|]. split; [done|].
    intros k Hk. rewrite (Hd k Hk). f_equal. apply Hv1.
    by apply safeAddr_u32, Hsafe.
  - bind_as H d' Ed. injection H as <- <-.
    destruct (copyFromMemory_view lo CL lview Hlaws base _ d l d' Hlc Ed)
      as (Hlen & Hd).
    split; [split; [done | apply pagesKept_refl]|]. done.
Qed.

(** A dirty block goes to the level below. *)
Lemma writeBlockToLowerLevelWith_view rb c vc l s' :
  enableVictimCache c = false -> CL l ->
  (forall k, 0 <= k < Block.size rb ->
     safeAddr (getAddr (policy c) rb + k) /\
     MemoryManager.isPageExist (memoryManager lo l)
       (getAddr (policy c) rb + k) = true) ->
  writeBlockToLowerLevelWith lo vo rb (mkSys c vc l) = Ok s' ->
  exists l', s' = mkSys c vc l' /\
             written lo CL lview (getAddr (policy c) rb) rb (Block.size rb) l l'.
Proof.
  intros Hnv Hl Hsafe H. unfold writeBlockToLowerLevelWith in H.
  cbn [self victimCache below] in H. unfold enabledVictim in H.
  rewrite Hnv in H.
  destruct (lowerCache lo l) as [lc|] eqn:Hlc.
  - bind_as H l' E. injection H as <-. exists l'. split; [done|].
    by eapply writeToLowerCache_view.
  - bind_as H l' E. injection H as <-. exists l'. split; [done|].
    eapply writeToMemory_view; try done.
    destruct (vl_kind lo CL lview Hlaws) as [Hsome|Hnone]; [|done].
    destruct (Hsome l) as [? Hx]. rewrite Hlc in Hx. discriminate.
Qed.

(** The steps of a miss resolution without a victim cache. *)
Lemma loadBlockFromLowerLevelWith_steps addr isRead s s' :
  enableVictimCache (self s) = false ->
  loadBlockFromLowerLevelWith lo vo addr isRead s = Ok s' ->
  let c := self s in
  let p := policy c in
  exists r rb d2 l2 l3,
    getReplacementBlockId c (setBegin p (getId p addr))
                          (setEnd p (getId p addr)) = Ok r /\
    slot (blocks c) r rb /\
    0 <= r < Z.of_nat (length (blocks c)) /\
    fetchFromLower lo c isRead (blockAddrBeginOf p addr)
                   (replicate (Z.to_nat (Policy.blockSize p)) 0) (below s)
    = Ok (d2, l2) /\
    (if Block.valid rb && Block.modified rb
     then exists s3,
            writeBlockToLowerLevelWith lo vo rb (mkSys c (victimCache s) l2)
            = Ok s3 /\ below s3 = l3 /\ victimCache s3 = victimCache s
     else l3 = l2) /\
    s' = mkSys (setBlocks (<[Z.to_nat r := loadedBlock c addr d2]> (blocks c))
                          (chargeWriteback rb c))
               (victimCache s) l3.
Proof.
  intros Hnv H c p. unfold loadBlockFromLowerLevelWith in H.
  fold c in H. fold p in H.
  bind_as H r Er. bind_as H rb Erb. unfold probeVictim in H.
  fold c in Hnv. rewrite Hnv in H. rewrite bind_ret in H. cbv beta iota in H.
  cbn [negb] in H. bind_as H r2 E2. destruct r2 as [d2 l2].
  bind_as H s3 E3. bind_as H bs' Eb. injection H as <-.
  apply blockAt_Ok in Erb.
  exists r, rb, d2, l2.
  assert (Hs3 : self s3 = chargeWriteback rb c /\
                victimCache s3 = victimCache s /\
                if Block.valid rb && Block.modified rb
                then exists s3',
                       writeBlockToLowerLevelWith lo vo rb
                         (mkSys c (victimCache s) l2) = Ok s3' /\
                       below s3' = below s3 /\
                       victimCache s3' = victimCache s
                else below s3 = l2).
  { unfold chargeWriteback. unfold enabledVictim in E3. rewrite Hnv in E3.
    destruct (Block.valid rb); cbn [andb] in *.
    - destruct (Block.modified rb).
      + bind_as E3 s3' E5. injection E3 as <-.
        pose proof (writeBlockToLowerLevelWith_self lo vo _ _ _ E5) as Hself.
        cbn [self] in Hself.
        assert (Hvc : victimCache s3' = victimCache s).
        { unfold writeBlockToLowerLevelWith in E5.
          cbn [self victimCache below] in E5. unfold enabledVictim in E5.
          rewrite Hnv in E5.
          destruct (lowerCache lo l2); bind_as E5 l' E6; by injection E5 as <-. }
        cbn [self setSelf victimCache below]. rewrite Hself.
        split; [done|]. split; [done|]. exists s3'. done.
      + injection E3 as <-. done.
    - injection E3 as <-. done. }
  destruct Hs3 as (Hself & Hvc & Hwb).
  rewrite Hself in Eb.
  assert (Hbl : blocks (chargeWriteback rb c) = blocks c).
  { unfold chargeWriteback. by destruct (_ && _). }
  rewrite Hbl in Eb. apply vecSet_Ok in Eb as [Hr ->].
  exists (below s3). split; [done|]. split; [done|]. split; [done|].
  split; [done|]. split.
  - destruct (Block.valid rb && Block.modified rb); [|done].
    destruct Hwb as (s3' & ? & ? & ?). exists s3'. done.
  - destruct s3 as [c3 vc3 l3]. cbn [self victimCache below setSelf] in *.
    subst c3 vc3. reflexivity.
Qed.

End MissResolution.

(** *** A miss resolution keeps the bytes *)

Definition matches (p : Policy.t) (b : Block.t) (a : Z) : Prop :=
  Block.valid b = true /\ Block.tag b = getTag p a /\ Block.id b = getId p a.

Lemma sameLine_range p a c :
  linePolicy p -> u32 a -> u32 c ->
  (sameLine p a c <->
   blockAddrBeginOf p a <= c < blockAddrBeginOf p a + Policy.blockSize p).
Proof.
  intros Hlp Ha Hc. pose proof Hlp as (Hp & _).
  pose proof (policyOk_sets p Hp) as (_ & _ & _ & Hbs).
  destruct (policyOk_blockSize p Hp) as (_ & Hpow).
  rewrite (sameLine_base p a c Hlp Ha Hc), blockAddrBeginOf_eq, <- Hpow by done.
  set (B := Policy.blockSize p) in *.
  pose proof (Z.mod_pos_bound a B ltac:(lia)).
  pose proof (Z.mod_pos_bound c B ltac:(lia)).
  pose proof (Z.div_mod a B ltac:(lia)).
  pose proof (Z.div_mod c B ltac:(lia)).
  split; [lia|]. intros Hr.
  assert (a / B = c / B); [|nia].
  apply (Z.div_unique c B (a / B) (c - B * (a / B))); lia.
Qed.

Lemma shapeOk_blocks c c' :
  shapeOk c -> policy c' = policy c ->
  length (blocks c') = length (blocks c) ->
  (forall n b, blocks c' !! n = Some b -> blockOk (policy c) n b) ->
  shapeOk c'.
Proof.
  intros (Hp & Hlen & _) Hpol Hl Hb. unfold shapeOk. rewrite Hpol, Hl. done.
Qed.

Lemma uniqueLines_insert c c' n nb :
  uniqueLines c -> blocks c' = <[n := nb]> (blocks c) ->
  (forall n' b', n' <> n -> blocks c !! n' = Some b' ->
     Block.valid b' = true -> Block.valid nb = true ->
     Block.tag b' = Block.tag nb -> Block.id b' = Block.id nb -> False) ->
  uniqueLines c'.
Proof.
  intros Hu Hbl Hnew n1 n2 b1 b2 H1 H2 Hv1 Hv2 Ht Hid.
  rewrite Hbl in H1, H2.
  destruct (decide (n1 = n)) as [->|Hn1], (decide (n2 = n)) as [->|Hn2];
    [done | | |].
  - rewrite list_lookup_insert_ne in H2 by done.
    apply lookup_lt_Some in H1 as Hlt. rewrite length_insert in Hlt.
    rewrite list_lookup_insert_eq in H1 by done.
    exfalso. injection H1 as <-.
    by apply (Hnew n2 b2).
  - rewrite list_lookup_insert_ne in H1 by done.
    apply lookup_lt_Some in H2 as Hlt. rewrite length_insert in Hlt.
    rewrite list_lookup_insert_eq in H2 by done.
    exfalso. injection H2 as <-.
    by apply (Hnew n1 b1).
  - rewrite list_lookup_insert_ne in H1, H2 by done.
    by apply (Hu n1 n2 b1 b2).
Qed.

#[local] Instance matches_dec p b a : Decision (matches p b a).
Proof. unfold matches. apply _. Defined.

(** The line found after one slot has been replaced. *)
Lemma lineOf_insert c c' n ob nb a :
  shapeOk c -> uniqueLines c -> shapeOk c' -> uniqueLines c' ->
  policy c' = policy c -> blocks c' = <[n := nb]> (blocks c) ->
  blocks c !! n = Some ob ->
  lineOf c' a = if decide (matches (policy c) nb a) then Some nb
                else if decide (matches (policy c) ob a) then None
                     else lineOf c a.
Proof.
  intros Hc Hu Hc' Hu' Hpol Hbl Hob.
  assert (Hlt : (n < length (blocks c))%nat) by (by eapply lookup_lt_Some).
  destruct (decide (matches (policy c) nb a)) as [(Hv & Ht & Hid)|Hnb].
  { apply (lineOf_holds c' a n nb); try done; rewrite ?Hpol; try done.
    rewrite Hbl. by apply list_lookup_insert_eq. }
  assert (Hslot : forall n' b', blocks c' !! n' = Some b' ->
                    matches (policy c) b' a ->
                    n' <> n /\ blocks c !! n' = Some b').
  { intros n' b' Hb' Hm. rewrite Hbl in Hb'.
    destruct (decide (n' = n)) as [->|Hne].
    - rewrite list_lookup_insert_eq in Hb' by done. injection Hb' as <-. done.
    - by rewrite list_lookup_insert_ne in Hb' by done. }
  destruct (decide (matches (policy c) ob a)) as [(Hv & Ht & Hid)|Hno].
  { apply lineOf_absent; [done|]. intros n' (b' & Hb' & Hm').
    rewrite Hpol in Hm'.
    destruct (Hslot n' b' Hb' Hm') as (Hne & Hold).
    destruct Hm' as (Hv' & Ht' & Hid').
    apply Hne. apply (Hu n' n b' ob); congruence. }
  destruct (lineOf c a) as [bb|] eqn:El.
  - destruct (lineOf_inv c a bb Hc El) as (n1 & _ & _ & Hb1 & Hm1).
    assert (Hne : n1 <> n).
    { intros ->. rewrite Hob in Hb1. injection Hb1 as ->. by apply Hno. }
    destruct Hm1 as (Hv1 & Ht1 & Hid1).
    apply (lineOf_holds c' a n1 bb); try done; rewrite ?Hpol; try done.
    rewrite Hbl. by rewrite list_lookup_insert_ne.
  - apply lineOf_absent; [done|]. intros n' (b' & Hb' & Hm').
    rewrite Hpol in Hm'.
    destruct (Hslot n' b' Hb' Hm') as (Hne & Hold).
    apply (lineOf_None_inv c a Hc El n'). by exists b'.
Qed.

Section LoadCoherent.
Context {L : Type}.
Variable lo : Lower L.
Variable vo : VictimOps L.
Variable CL : L -> Prop.
Variable lview : L -> Z -> Z.
Hypothesis Hlaws : ViewLaws lo CL lview.

(** The bytes of a valid block are the bytes of its line's addresses. *)
Lemma coherent_block_line s n b :
  coherent lo CL lview s ->
  blocks (self s) !! n = Some b -> Block.valid b = true ->
  exists a, safeAddr a /\ matches (policy (self s)) b a /\
            getAddr (policy (self s)) b = blockAddrBeginOf (policy (self s)) a /\
            Block.size b = Policy.blockSize (policy (self s)) /\
            length (Block.data b) = Z.to_nat (Policy.blockSize (policy (self s))).
Proof.
  intros Hs Hb Hv. destruct (coh_line lo CL lview s Hs n b Hb Hv) as (a & Ha & Ht & Hid).
  destruct (coh_shape lo CL lview s Hs) as (_ & _ & Hblk).
  destruct (Hblk n b Hb) as (_ & Hsz & Hlen).
  exists a. split; [done|]. split; [done|]. split; [|done].
  apply getAddr_line; [apply (coh_policy lo CL lview s Hs) | by apply safeAddr_u32 | done..].
Qed.

(** What the eviction of the replaced block leaves below. *)
Lemma evict_view s n rb l2 l3 :
  coherent lo CL lview s ->
  blocks (self s) !! n = Some rb ->
  keeps lo CL (below s) l2 ->
  (forall b, u32 b -> lview l2 b = lview (below s) b) ->
  (if Block.valid rb && Block.modified rb
   then exists s3,
          writeBlockToLowerLevelWith lo vo rb
            (mkSys (self s) (victimCache s) l2) = Ok s3 /\
          below s3 = l3 /\ victimCache s3 = victimCache s
   else l3 = l2) ->
  keeps lo CL (below s) l3 /\
  (forall c, u32 c ->
     ~ (Block.modified rb = true /\ matches (policy (self s)) rb c) ->
     lview l3 c = lview (below s) c) /\
  (forall c, u32 c ->
     Block.modified rb = true -> matches (policy (self s)) rb c ->
     Block.data rb !! Z.to_nat (getOffset (policy (self s)) c)
     = Some (lview l3 c)).
Proof.
  intros Hs Hrb (Hc2 & Hp2) Hv2 Hwb.
  pose proof (coh_policy lo CL lview s Hs) as Hlp.
  destruct (Block.valid rb) eqn:Hv; cbn [andb] in Hwb.
  2:{ subst l3. split; [done|]. split; [intros c Hc _; by apply Hv2|].
      intros c _ _ (Hv' & _). congruence. }
  destruct (Block.modified rb) eqn:Hm.
  2:{ subst l3. split; [done|]. split; [intros c Hc _; by apply Hv2|].
      intros c _ Hm'. congruence. }
  destruct Hwb as (s3 & E & <- & _).
  destruct (coherent_block_line s n rb Hs Hrb Hv)
    as (a & Ha & (_ & Ht & Hid) & Haddr & Hsz & Hlen).
  pose proof (safeAddr_u32 a Ha) as Hua.
  destruct (writeBlockToLowerLevelWith_view lo vo CL lview Hlaws rb (self s)
              (victimCache s) l2 s3 (coh_novictim lo CL lview s Hs) Hc2)
    as (l3 & -> & (Hc3 & Hp3) & Hd3 & Hf3); [|exact E|].
  { intros k Hk. rewrite Haddr. rewrite Hsz in Hk.
    destruct (line_member _ a k Hlp Ha Hk) as (Hsk & (Htk & Hidk) & _).
    split; [done|]. apply Hp2.
    apply (coh_dirty lo CL lview s Hs n rb); try done;
      [by apply safeAddr_u32 | congruence | congruence]. }
  cbn [below]. rewrite Haddr, Hsz in *.
  split; [split; [done | by eapply pagesKept_trans]|]. split.
  - intros c Hc Hno. rewrite Hf3, Hv2; [done..|].
    intros Hr. apply Hno. split; [done|]. split; [done|].
    apply (sameLine_range _ a c Hlp Hua Hc) in Hr as [Htc Hidc].
    split; congruence.
  - intros c Hc _ (_ & Htc & Hidc).
    assert (Hsl : sameLine (policy (self s)) a c) by (split; congruence).
    destruct (line_offset _ c Hlp Hc) as [Ec Hoff].
    rewrite (sameLine_begin _ a c Hlp Hua Hc Hsl) in Ec.
    rewrite (Hd3 _ Hoff). by rewrite <- Ec.
Qed.

Lemma loadBlockFromLowerLevelWith_coherent addr isRead s s' :
  coherent lo CL lview s -> safeAddr addr ->
  getBlockId (self s) addr = Ok minusOne ->
  loadBlockFromLowerLevelWith lo vo addr isRead s = Ok s' ->
  coherent lo CL lview s' /\
  (forall b, u32 b -> view lview s' b = view lview s b) /\
  pagesKept (memoryManager lo (below s)) (memoryManager lo (below s')) /\
  policy (self s') = policy (self s).
Proof.
  intros Hs Ha Habs H.
  pose proof (coh_shape lo CL lview s Hs) as Hsh.
  pose proof (coh_policy lo CL lview s Hs) as Hlp.
  pose proof (coh_novictim lo CL lview s Hs) as Hnv.
  pose proof (coh_unique lo CL lview s Hs) as Hu.
  pose proof (safeAddr_u32 addr Ha) as Hua.
  destruct (loadBlockFromLowerLevelWith_steps lo vo addr isRead s s' Hnv H)
    as (r & rb & d2 & l2 & l3 & Er & Hrb & Hr & Ef & Hwb & ->).
  destruct (getReplacementBlockId_total (self s) addr Hsh)
    as (r' & rb' & Er' & Hrange & _).
  rewrite Er in Er'. injection Er' as <-.
  set (c := self s) in *. set (p := policy c) in *. set (l := below s) in *.
  pose proof Hlp as (Hp & _).
  pose proof (policyOk_sets p Hp) as (_ & _ & _ & Hbs).
  pose proof (copyCount_full p addr Hlp Ha) as Hcount.
  destruct (fetchFromLower_view lo CL lview Hlaws c isRead
              (blockAddrBeginOf p addr)
              (replicate (Z.to_nat (Policy.blockSize p)) 0) l d2 l2
              (coh_below lo CL lview s Hs)) as (Hk2 & Hv2 & Hlen2 & Hd2);
    [| |exact Ef|].
  { intros k Hk. fold p in Hk. rewrite Hcount in Hk.
    apply (line_member p addr k Hlp Ha). lia. }
  { replace (blockAddrBeginOf p addr) with (blockAddrBeginOf p addr + 0) by lia.
    apply (line_member p addr 0 Hlp Ha). lia. }
  fold p in Hd2. rewrite Hcount in Hd2. rewrite length_replicate in Hlen2.
  unfold slot in Hrb.
  destruct (evict_view s (Z.to_nat r) rb l2 l3 Hs Hrb Hk2 Hv2 Hwb)
    as ((Hc3 & Hp3) & Hf3 & Hd3).
  fold c in Hf3, Hd3. fold p in Hf3, Hd3. fold l in Hf3, Hp3.
  set (nb := loadedBlock c addr d2).
  assert (Hnbt : Block.tag nb = getTag p addr) by reflexivity.
  assert (Hnbi : Block.id nb = getId p addr) by reflexivity.
  assert (Hnbd : Block.data nb = d2) by reflexivity.
  assert (Hnbc : Block.modified nb = false) by reflexivity.
  set (c' := setBlocks (<[Z.to_nat r := nb]> (blocks c)) (chargeWriteback rb c)).
  assert (Hpol : policy c' = p).
  { unfold c', chargeWriteback. by destruct (_ && _). }
  assert (Hbl : blocks c' = <[Z.to_nat r := nb]> (blocks c)) by reflexivity.
  assert (Hnv' : enableVictimCache c' = false).
  { unfold c', chargeWriteback. by destruct (_ && _). }
  assert (Hlt : (Z.to_nat r < length (blocks c))%nat) by lia.
  assert (Hnbm : matches p nb addr) by done.
  assert (Habsent : forall n b, blocks c !! n = Some b -> ~ matches p b addr).
  { intros n b Hb Hm. apply (getBlockId_absent c addr Hsh Habs n). by exists b. }
  assert (Hline_addr : forall a, u32 a -> matches p nb a ->
            d2 !! Z.to_nat (getOffset p a) = Some (lview l a)).
  { intros a Hua' (_ & Ht & Hid).
    assert (Hsl : sameLine p addr a) by done.
    destruct (line_offset p a Hlp Hua') as [Ea Hoff].
    rewrite (sameLine_begin p addr a Hlp Hua Hua' Hsl) in Ea.
    rewrite Hd2 by lia. by rewrite <- Ea. }
  assert (Hsh' : shapeOk c').
  { apply (shapeOk_blocks c); [done | done | by rewrite Hbl, length_insert|].
    intros n b Hb. rewrite Hbl in Hb.
    destruct (decide (n = Z.to_nat r)) as [->|Hne].
    - rewrite list_lookup_insert_eq in Hb by done. injection Hb as <-.
      apply loadedBlock_ok; [done | done | by rewrite Hlen2].
    - rewrite list_lookup_insert_ne in Hb by done.
      destruct Hsh as (_ & _ & Hblk). by apply Hblk. }
  assert (Hu' : uniqueLines c').
  { apply (uniqueLines_insert c c' (Z.to_nat r) nb Hu Hbl).
    intros n' b' Hne Hb' Hv' _ Ht' Hid'. by apply (Habsent n' b'). }
  pose proof (fun a => lineOf_insert c c' (Z.to_nat r) rb nb a Hsh Hu Hsh' Hu'
                         Hpol Hbl Hrb) as Hline.
  fold p in Hline.
  split; [|split; [|split; [exact Hp3 | exact Hpol]]].
  - split; cbn [self below victimCache]; fold c'; rewrite ?Hpol;
      try done.
    + intros n b Hb Hv. rewrite Hbl in Hb.
      destruct (decide (n = Z.to_nat r)) as [->|Hne].
      * rewrite list_lookup_insert_eq in Hb by done. injection Hb as <-.
        exists addr. done.
      * rewrite list_lookup_insert_ne in Hb by done.
        by apply (coh_line lo CL lview s Hs n b).
    + intros n b a Hb Hv Hm Hua' Ht Hid. rewrite Hbl in Hb.
      destruct (decide (n = Z.to_nat r)) as [->|Hne].
      * rewrite list_lookup_insert_eq in Hb by done. injection Hb as <-.
        rewrite Hnbd, Hline_addr by done. f_equal. symmetry.
        apply Hf3; [done|].
        intros (_ & Hvr & Htr & Hidr). apply (Habsent _ rb Hrb).
        split; [done|]. rewrite Hnbt in Ht. rewrite Hnbi in Hid.
        split; congruence.
      * rewrite list_lookup_insert_ne in Hb by done.
        assert (Hcl : Block.data b !! Z.to_nat (getOffset p a)
                      = Some (lview l a))
          by (by apply (coh_clean lo CL lview s Hs n b a)).
        rewrite Hcl. f_equal. symmetry. apply Hf3; [done|].
        intros (_ & Hvr & Htr & Hidr). apply Hne.
        apply (Hu n (Z.to_nat r) b rb); congruence.
    + intros n b a Hb Hv Hm Hua' Ht Hid. rewrite Hbl in Hb.
      destruct (decide (n = Z.to_nat r)) as [->|Hne].
      * rewrite list_lookup_insert_eq in Hb by done. injection Hb as <-.
        congruence.
      * rewrite list_lookup_insert_ne in Hb by done.
        apply Hp3. by apply (coh_dirty lo CL lview s Hs n b a).
  - intros b Hb. unfold view, residentByte. cbn [self below]. fold c'. fold c.
    fold l. rewrite Hline, Hpol. fold p.
    destruct (decide (matches p nb b)) as [Hm|Hm].
    + cbn [mbind option_bind]. rewrite Hnbd, Hline_addr by done.
      rewrite (lineOf_absent c b Hsh); [done|].
      intros n (b' & Hb' & Hv' & Ht' & Hid'). apply (Habsent n b' Hb').
      fold p in Ht', Hid'.
      destruct Hm as (_ & Ht & Hid). rewrite Hnbt in Ht. rewrite Hnbi in Hid.
      split; [done|]. split; congruence.
    + destruct (decide (matches p rb b)) as [Hmr|Hmr].
      * cbn [mbind option_bind]. pose proof Hmr as (Hvr & Htr & Hidr).
        rewrite (lineOf_holds c b (Z.to_nat r) rb) by done.
        cbn [mbind option_bind].
        destruct (Block.modified rb) eqn:Hmod.
        -- by rewrite Hd3.
        -- assert (Hcl : Block.data rb !! Z.to_nat (getOffset p b)
                         = Some (lview l b))
             by (by apply (coh_clean lo CL lview s Hs (Z.to_nat r) rb b)).
           rewrite Hcl. apply Hf3; [done|].
           intros (Hx & _). congruence.
      * rewrite (Hf3 b Hb); [done|]. intros (_ & Hx). by apply Hmr.
Qed.

End LoadCoherent.

(** *** Reads and writes *)

Section AccessCoherent.
Context {L : Type}.
Variable lo : Lower L.
Variable vo : VictimOps L.
Variable CL : L -> Prop.
Variable lview : L -> Z -> Z.
Hypothesis Hlaws : ViewLaws lo CL lview.

(** The invariant and the bytes depend on the policy, the blocks and the
    victim switch of the cache, not on its counters. *)
Lemma coherent_core s c' :
  coherent lo CL lview s ->
  policy c' = policy (self s) -> blocks c' = blocks (self s) ->
  enableVictimCache c' = enableVictimCache (self s) ->
  coherent lo CL lview (setSelf c' s) /\
  forall a, view lview (setSelf c' s) a = view lview s a.
Proof.
  intros [Hsh Hlp Hnv Hu Hline Hclean Hdirty Hbelow] Hpol Hbl Hev. split.
  - split; cbn [self below setSelf]; rewrite ?Hpol, ?Hbl; try done.
    + unfold shapeOk. by rewrite Hpol, Hbl.
    + congruence.
    + unfold uniqueLines. by rewrite Hbl.
  - intros a. unfold view, residentByte, lineOf, getBlockId.
    cbn [self below setSelf]. by rewrite Hpol, Hbl.
Qed.

(** One block replaced by a block of the same line. *)
Lemma replace_block s n ob nb c' :
  coherent lo CL lview s ->
  blocks (self s) !! n = Some ob -> blockKey nb = blockKey ob ->
  Block.size nb = Block.size ob ->
  length (Block.data nb) = length (Block.data ob) ->
  policy c' = policy (self s) ->
  blocks c' = <[n := nb]> (blocks (self s)) ->
  enableVictimCache c' = false ->
  (Block.modified nb = false ->
   Block.modified ob = false /\ Block.data nb = Block.data ob) ->
  (Block.valid ob = true -> Block.modified nb = true ->
   forall a, u32 a -> matches (policy (self s)) ob a ->
     MemoryManager.isPageExist (memoryManager lo (below s)) a = true) ->
  coherent lo CL lview (setSelf c' s) /\
  forall a, view lview (setSelf c' s) a
            = if decide (matches (policy (self s)) ob a)
              then default (lview (below s) a)
                     (Block.data nb !! Z.to_nat (getOffset (policy (self s)) a))
              else view lview s a.
Proof.
  intros Hs Hob Hkey Hsz Hlen Hpol Hbl Hnv Hcl Hdi.
  pose proof Hs as [Hsh Hlp _ Hu Hline Hclean Hdirty Hbelow].
  injection Hkey as Hv Ht Hid.
  assert (Hlt : (n < length (blocks (self s)))%nat) by (by eapply lookup_lt_Some).
  assert (Hsh' : shapeOk c').
  { apply (shapeOk_blocks (self s)); [done | done | by rewrite Hbl, length_insert|].
    intros n' b Hb. rewrite Hbl in Hb. destruct Hsh as (_ & _ & Hblk).
    destruct (decide (n' = n)) as [->|Hne].
    - rewrite list_lookup_insert_eq in Hb by done. injection Hb as <-.
      destruct (Hblk n ob Hob) as (Hi & Hs1 & Hs2).
      split; [congruence|]. split; congruence.
    - rewrite list_lookup_insert_ne in Hb by done. by apply Hblk. }
  assert (Hu' : uniqueLines c').
  { apply (uniqueLines_insert (self s) c' n nb Hu Hbl).
    intros n' b' Hne Hb' Hv' Hvn Ht' Hid'. apply Hne.
    apply (Hu n' n b' ob); congruence. }
  assert (Hm : forall a, matches (policy (self s)) nb a
                         <-> matches (policy (self s)) ob a).
  { intros a. unfold matches. by rewrite Hv, Ht, Hid. }
  split.
  - split; cbn [self below setSelf]; rewrite ?Hpol; try done.
    + intros n' b Hb Hvb. rewrite Hbl in Hb.
      destruct (decide (n' = n)) as [->|Hne].
      * rewrite list_lookup_insert_eq in Hb by done. injection Hb as <-.
        destruct (Hline n ob Hob ltac:(congruence)) as (a & Ha & Hta & Hia).
        exists a. split; [done|]. split; congruence.
      * rewrite list_lookup_insert_ne in Hb by done. by apply (Hline n').
    + intros n' b a Hb Hvb Hmb Hua Hta Hia. rewrite Hbl in Hb.
      destruct (decide (n' = n)) as [->|Hne].
      * rewrite list_lookup_insert_eq in Hb by done. injection Hb as <-.
        destruct (Hcl Hmb) as (Hmo & ->).
        apply (Hclean n ob a); congruence.
      * rewrite list_lookup_insert_ne in Hb by done. by apply (Hclean n').
    + intros n' b a Hb Hvb Hmb Hua Hta Hia. rewrite Hbl in Hb.
      destruct (decide (n' = n)) as [->|Hne].
      * rewrite list_lookup_insert_eq in Hb by done. injection Hb as <-.
        apply Hdi; [congruence | done | done|].
        split; [congruence|]. split; congruence.
      * rewrite list_lookup_insert_ne in Hb by done. by apply (Hdirty n' b).
  - intros a. unfold view at 1, residentByte. cbn [self below setSelf].
    rewrite (lineOf_insert (self s) c' n ob nb a) by done. rewrite Hpol.
    destruct (decide (matches (policy (self s)) nb a)) as [Hma|Hma];
      destruct (decide (matches (policy (self s)) ob a)) as [Hmo|Hmo];
      try (exfalso; apply Hm in Hma; done);
      try (exfalso; apply Hm in Hmo; done).
    + cbn [mbind option_bind]. by destruct (Block.data nb !! _).
    + reflexivity.
Qed.

(** The end of [getByte]: the block found is touched and read. *)
Lemma readTail_coherent s r rc c1 b x addr :
  coherent lo CL lview s ->
  getBlockId (self s) addr = Ok r -> r <> minusOne ->
  touch r (fun b => Ok (Block.setLastReference rc b)) (self s) = Ok c1 ->
  blockAt c1 r = Ok b ->
  vecGet (Block.data b) (getOffset (policy (self s)) addr) = Ok x ->
  x = view lview s addr /\ coherent lo CL lview (setSelf c1 s) /\
  forall a, view lview (setSelf c1 s) a = view lview s a.
Proof.
  intros Hs Er Hr Et Eb Ex.
  pose proof Hs as [Hsh Hlp Hnv Hu Hline Hclean Hdirty Hbelow].
  destruct (getBlockId_found (self s) addr r Hsh Er Hr)
    as (H0 & ob & Hob & Hmo).
  apply touch_Ok in Et as (b0 & b' & Hb0 & Hf & Hrange & ->).
  unfold slot in Hb0. rewrite Hob in Hb0. injection Hb0 as <-.
  injection Hf as <-.
  unfold blockAt in Eb. cbn [blocks setBlocks] in Eb.
  rewrite list_lookup_insert_eq in Eb by lia. injection Eb as <-.
  unfold vecGet in Ex. cbn [Block.data Block.setLastReference] in Ex.
  destruct (Block.data ob !! _) as [x'|] eqn:Hx; [|discriminate].
  injection Ex as ->.
  assert (Hl : lineOf (self s) addr = Some ob).
  { destruct Hmo as (? & ? & ?). by apply (lineOf_holds _ _ (Z.to_nat r)). }
  split.
  { unfold view, residentByte. rewrite Hl. cbn [mbind option_bind].
    by rewrite Hx. }
  destruct (replace_block s (Z.to_nat r) ob (Block.setLastReference rc ob)
              (setBlocks (<[Z.to_nat r := Block.setLastReference rc ob]>
                            (blocks (self s))) (self s)))
    as (Hs' & Hv'); try done.
  { intros Hvo Hm a Ha (_ & Hta & Hia).
    by apply (Hdirty (Z.to_nat r) ob a). }
  split; [exact Hs'|]. intros a. rewrite Hv'.
  destruct (decide (matches (policy (self s)) ob a)) as [(Hva & Hta & Hia)|];
    [|done].
  unfold view, residentByte.
  rewrite (lineOf_holds _ a (Z.to_nat r) ob) by done.
  cbn [mbind option_bind Block.data Block.setLastReference].
  by destruct (Block.data ob !! _).
Qed.

(** The end of [setByte]: the byte is stored in the block found. *)
Lemma writeTail_coherent s r rc c1 addr val :
  coherent lo CL lview s -> safeAddr addr ->
  MemoryManager.isPageExist (memoryManager lo (below s)) addr = true ->
  getBlockId (self s) addr = Ok r -> r <> minusOne ->
  touch r (storeInBlock rc (getOffset (policy (self s)) addr) val) (self s)
  = Ok c1 ->
  coherent lo CL lview (setSelf c1 s) /\
  forall a, u32 a ->
    view lview (setSelf c1 s) a
    = if decide (a = addr) then val else view lview s a.
Proof.
  intros Hs Ha Hpage Er Hr Et.
  pose proof Hs as [Hsh Hlp Hnv Hu Hline Hclean Hdirty Hbelow].
  pose proof (safeAddr_u32 addr Ha) as Hua.
  destruct (getBlockId_found (self s) addr r Hsh Er Hr)
    as (H0 & ob & Hob & Hmo).
  apply touch_Ok in Et as (b0 & b' & Hb0 & Hf & Hrange & ->).
  unfold slot in Hb0. rewrite Hob in Hb0. injection Hb0 as <-.
  unfold storeInBlock in Hf. bind_as Hf d Ed. injection Hf as <-.
  cbn [Block.data Block.setLastReference Block.setModified] in Ed.
  apply vecSet_Ok in Ed as [Hoff ->].
  set (off := getOffset (policy (self s)) addr) in *.
  set (nb := Block.setData (<[Z.to_nat off := val]> (Block.data ob))
               (Block.setLastReference rc (Block.setModified true ob))).
  destruct (replace_block s (Z.to_nat r) ob nb
              (setBlocks (<[Z.to_nat r := nb]> (blocks (self s))) (self s)))
    as (Hs' & Hv'); try done.
  { unfold nb. cbn [Block.data Block.setData]. by rewrite length_insert. }
  { intros Hvo _ a Hua' (_ & Hta & Hia).
    destruct Hmo as (_ & Hto & Hio).
    assert (Hsl : sameLine (policy (self s)) addr a) by (split; congruence).
    rewrite (samePage_exists _ addr a); [done|].
    by apply (sameLine_page (policy (self s))). }
  split; [exact Hs'|]. intros a Hua'. rewrite Hv'.
  assert (Hd : Block.data nb = <[Z.to_nat off := val]> (Block.data ob))
    by reflexivity.
  destruct (decide (matches (policy (self s)) ob a)) as [(Hva & Hta & Hia)|Hno].
  - rewrite Hd. destruct (decide (a = addr)) as [->|Hne].
    + fold off. by rewrite list_lookup_insert_eq by lia.
    + assert (Hoa : getOffset (policy (self s)) a <> off).
      { intros Heq. apply Hne. destruct Hmo as (_ & Hto & Hio).
        apply (sameLine_offset_inj (policy (self s))); try done.
        split; congruence. }
      pose proof (getOffset_range (policy (self s)) a (proj1 Hlp)).
      rewrite list_lookup_insert_ne by lia.
      unfold view, residentByte.
      rewrite (lineOf_holds _ a (Z.to_nat r) ob) by done.
      cbn [mbind option_bind]. by destruct (Block.data ob !! _).
  - destruct (decide (a = addr)) as [->|Hne]; [|done]. by destruct Hno.
Qed.

Lemma getByteWith_coherent addr s x s' :
  coherent lo CL lview s -> safeAddr addr ->
  getByteWith lo vo addr s = Ok (x, s') ->
  x = view lview s addr /\ coherent lo CL lview s' /\
  (forall a, u32 a -> view lview s' a = view lview s a) /\
  pagesKept (memoryManager lo (below s)) (memoryManager lo (below s')).
Proof.
  intros Hs Ha H. unfold getByteWith in H.
  set (c0 := setReferenceCounter (wrap32 (referenceCounter (self s) + 1))
                                 (self s)) in *.
  destruct (coherent_core s c0 Hs) as (Hs0 & Hv0); [done..|].
  set (s0 := setSelf c0 s) in *.
  bind_as H r Er. destruct (negb (r =? minusOne)) eqn:Hr.
  - apply negb_true_iff, Z.eqb_neq in Hr.
    bind_as H c1 Et. bind_as H b Eb. bind_as H x' Ex. injection H as <- <-.
    destruct (readTail_coherent s0 r _ c1 b x' addr Hs0 Er Hr Et Eb Ex)
      as (-> & Hs1 & Hv1).
    split; [by rewrite Hv0|]. split; [exact Hs1|].
    split; [intros a _; by rewrite Hv1, Hv0 | apply pagesKept_refl].
  - apply negb_false_iff, Z.eqb_eq in Hr. subst r.
    bind_as H s1 El. bind_as H r1 Er1.
    destruct (negb (r1 =? minusOne)) eqn:Hr1; [|discriminate].
    apply negb_true_iff, Z.eqb_neq in Hr1.
    bind_as H c1 Et. bind_as H b Eb. bind_as H x' Ex. injection H as <- <-.
    destruct (loadBlockFromLowerLevelWith_coherent lo vo CL lview Hlaws addr
                true s0 s1 Hs0 Ha Er El) as (Hs1 & Hv1 & Hp1 & Hpol1).
    destruct (readTail_coherent s1 r1 _ c1 b x' addr Hs1 Er1 Hr1 Et Eb Ex)
      as (-> & Hs2 & Hv2).
    pose proof (safeAddr_u32 addr Ha).
    split; [by rewrite Hv1, Hv0|]. split; [exact Hs2|].
    split; [intros a Hua; by rewrite Hv2, Hv1, Hv0 | exact Hp1].
Qed.

Lemma setByteWith_coherent addr val s s' :
  coherent lo CL lview s -> safeAddr addr ->
  MemoryManager.isPageExist (memoryManager lo (below s)) addr = true ->
  setByteWith lo vo addr val s = Ok s' ->
  coherent lo CL lview s' /\
  (forall a, u32 a ->
     view lview s' a = if decide (a = addr) then val else view lview s a) /\
  pagesKept (memoryManager lo (below s)) (memoryManager lo (below s')).
Proof.
  intros Hs Ha Hpage H. unfold setByteWith in H.
  set (c0 := setReferenceCounter (wrap32 (referenceCounter (self s) + 1))
                                 (self s)) in *.
  destruct (coherent_core s c0 Hs) as (Hs0 & Hv0); [done..|].
  set (s0 := setSelf c0 s) in *.
  bind_as H r Er. destruct (negb (r =? minusOne)) eqn:Hr.
  - apply negb_true_iff, Z.eqb_neq in Hr.
    bind_as H c1 Et. injection H as <-.
    destruct (writeTail_coherent s0 r _ c1 addr val Hs0 Ha Hpage Er Hr Et)
      as (Hs1 & Hv1).
    split; [exact Hs1|].
    split; [intros a Hua; by rewrite Hv1, Hv0 | apply pagesKept_refl].
  - apply negb_false_iff, Z.eqb_eq in Hr. subst r.
    bind_as H s1 El. bind_as H r1 Er1.
    destruct (negb (r1 =? minusOne)) eqn:Hr1; [|discriminate].
    apply negb_true_iff, Z.eqb_neq in Hr1.
    bind_as H c1 Et. injection H as <-.
    destruct (loadBlockFromLowerLevelWith_coherent lo vo CL lview Hlaws addr
                false s0 s1 Hs0 Ha Er El) as (Hs1 & Hv1 & Hp1 & Hpol1).
    destruct (writeTail_coherent s1 r1 _ c1 addr val Hs1 Ha (Hp1 _ Hpage)
                Er1 Hr1 Et) as (Hs2 & Hv2).
    split; [exact Hs2|].
    split; [intros a Hua; by rewrite Hv2, Hv1, Hv0 | exact Hp1].
Qed.

Lemma fetchWith_coherent addr s s' :
  coherent lo CL lview s -> safeAddr addr ->
  fetchWith lo vo addr s = Ok s' ->
  coherent lo CL lview s' /\
  (forall a, u32 a -> view lview s' a = view lview s a) /\
  pagesKept (memoryManager lo (below s)) (memoryManager lo (below s')).
Proof.
  intros Hs Ha H. unfold fetchWith in H. bind_as H r Er.
  destruct (r =? minusOne) eqn:Hr.
  - apply Z.eqb_eq in Hr as ->.
    destruct (loadBlockFromLowerLevelWith_coherent lo vo CL lview Hlaws addr
                true s s' Hs Ha Er H) as (Hs1 & Hv1 & Hp1 & _).
    done.
  - injection H as <-. split; [done|]. split; [done | apply pagesKept_refl].
Qed.

Lemma account_core isRead addr c c' :
  account isRead addr c = Ok c' ->
  policy c' = policy c /\ blocks c' = blocks c /\
  enableVictimCache c' = enableVictimCache c.
Proof.
  unfold account. intros H. bind_as H hit Eh. injection H as <-. done.
Qed.

Lemma readWith_coherent addr s x s' :
  coherent lo CL lview s -> safeAddr addr ->
  readWith lo vo addr s = Ok (x, s') ->
  x = view lview s addr /\ coherent lo CL lview s' /\
  (forall a, u32 a -> view lview s' a = view lview s a) /\
  pagesKept (memoryManager lo (below s)) (memoryManager lo (below s')).
Proof.
  intros Hs Ha H. unfold readWith in H. bind_as H c Ec.
  destruct (account_core _ _ _ _ Ec) as (Hp & Hb & Hv).
  destruct (coherent_core s c Hs Hp Hb Hv) as (Hs0 & Hv0).
  destruct (getByteWith_coherent addr (setSelf c s) x s' Hs0 Ha H)
    as (-> & Hs1 & Hv1 & Hp1).
  split; [by rewrite Hv0|]. split; [done|].
  split; [intros a Hua; by rewrite Hv1, Hv0 | exact Hp1].
Qed.

Lemma writeWith_coherent addr val s s' :
  coherent lo CL lview s -> safeAddr addr ->
  MemoryManager.isPageExist (memoryManager lo (below s)) addr = true ->
  writeWith lo vo addr val s = Ok s' ->
  coherent lo CL lview s' /\
  (forall a, u32 a ->
     view lview s' a = if decide (a = addr) then val else view lview s a) /\
  pagesKept (memoryManager lo (below s)) (memoryManager lo (below s')).
Proof.
  intros Hs Ha Hpage H. unfold writeWith in H. bind_as H c Ec.
  destruct (account_core _ _ _ _ Ec) as (Hp & Hb & Hv).
  destruct (coherent_core s c Hs Hp Hb Hv) as (Hs0 & Hv0).
  destruct (setByteWith_coherent addr val (setSelf c s) s' Hs0 Ha Hpage H)
    as (Hs1 & Hv1 & Hp1).
  split; [done|].
  split; [intros a Hua; by rewrite Hv1, Hv0 | exact Hp1].
Qed.

End AccessCoherent.

(** *** Levels *)

(** A cache that keeps the invariant is a level below of the same kind. *)
Lemma levelLower_viewLaws {L : Type} (lo : Lower L) (CL : L -> Prop)
    (lview : L -> Z -> Z) :
  ViewLaws lo CL lview ->
  ViewLaws (levelLower lo) (coherent lo CL lview) (view lview).
Proof.
  intros Hlaws. split.
  - left. intros l. by eexists.
  - reflexivity.
  - intros g l Hl.
    destruct (coherent_core lo CL lview l (updStatistics g (self l)) Hl)
      as (Hc & Hv); [done..|].
    split; [exact Hc|]. split; [exact Hv | reflexivity].
  - intros a l x l' Hl Ha H.
    apply (getByteWith_coherent lo (victimOps lo) CL lview Hlaws a l x l' Hl Ha H).
  - intros a v l l' Hl Ha Hpage H.
    apply (setByteWith_coherent lo (victimOps lo) CL lview Hlaws a v l l' Hl Ha
             Hpage H).
  - intros a r l l' Hl Ha Habs H.
    assert (Er : getBlockId (self l) a = Ok minusOne).
    { specialize (Habs (self l) eq_refl). unfold inCache in Habs.
      bind_as Habs r0 Er0. injection Habs as Hn.
      apply negb_false_iff, Z.eqb_eq in Hn. by subst r0. }
    destruct (loadBlockFromLowerLevelWith_coherent lo (victimOps lo) CL lview
                Hlaws a r l l' Hl Ha Er H) as (Hc & Hv & Hp & _).
    done.
  - intros l a H. discriminate.
  - intros l _ H. discriminate.
  - intros m l Hl Hm Hget Hpages.
    pose proof Hl as [Hsh Hlp Hnv Hu Hline Hclean Hdirty Hbelow].
    destruct (vl_setmem lo CL lview Hlaws m (below l) Hbelow Hm Hget Hpages)
      as (Hc & Hv & Hmm).
    split; [|split].
    + split; cbn [self below levelLower setMemoryManager setBelow]; try done.
      * intros n b a Hb Hvb Hmb Hua Ht Hid. rewrite Hv. by apply (Hclean n).
      * intros n b a Hb Hvb Hmb Hua Ht Hid. rewrite Hmm. apply Hpages.
        by apply (Hdirty n b).
    + intros a. unfold view. cbn [self below levelLower setMemoryManager setBelow].
      by rewrite Hv.
    + exact Hmm.
  - intros l m _ H. discriminate.
Qed.

Lemma memoryLower_viewLaws :
  ViewLaws memoryLower wfMemory MemoryManager.getByte.
Proof.
  split; try done. by right.
Qed.

(** A cache whose blocks are all invalid. *)
Lemma coherent_empty {L : Type} (lo : Lower L) (CL : L -> Prop)
    (lview : L -> Z -> Z) (s : Sys L) :
  shapeOk (self s) -> linePolicy (policy (self s)) ->
  enableVictimCache (self s) = false ->
  (forall n b, blocks (self s) !! n = Some b -> Block.valid b = false) ->
  CL (below s) ->
  coherent lo CL lview s /\ forall a, view lview s a = lview (below s) a.
Proof.
  intros Hsh Hlp Hnv Hinv Hl.
  assert (Hno : forall n b, blocks (self s) !! n = Some b ->
                            Block.valid b = true -> False).
  { intros n b Hb Hv. rewrite (Hinv n b Hb) in Hv. discriminate. }
  split.
  - split; try done.
    + intros n1 n2 b1 b2 H1 _ Hv1. by destruct (Hno n1 b1).
    + intros n b Hb Hv. by destruct (Hno n b).
    + intros n b a Hb Hv. by destruct (Hno n b).
    + intros n b a Hb Hv. by destruct (Hno n b).
  - intros a. unfold view, residentByte.
    rewrite lineOf_absent; [done | done|].
    intros n (b & Hb & Hv & _). by destruct (Hno n b).
Qed.

(** *** The three-level hierarchy *)

Definition coherent3 : Sys MemoryManager.t -> Prop :=
  coherent CacheHierarchy.lower3 wfMemory MemoryManager.getByte.
Definition view3 : Sys MemoryManager.t -> Z -> Z :=
  view MemoryManager.getByte.
Definition coherent2 : Sys (Sys MemoryManager.t) -> Prop :=
  coherent CacheHierarchy.lower2 coherent3 view3.
Definition view2 : Sys (Sys MemoryManager.t) -> Z -> Z := view view3.

(** The byte the hierarchy holds for an address: the byte of the first
    level that has the line, or the byte of the memory manager. *)
Definition hierarchyView : CacheHierarchy.Caches -> Z -> Z := view view2.
Definition hierarchyCoherent : CacheHierarchy.Caches -> Prop :=
  coherent CacheHierarchy.lower1 coherent2 view2.

Lemma lower3_viewLaws :
  ViewLaws CacheHierarchy.lower3 wfMemory MemoryManager.getByte.
Proof. apply memoryLower_viewLaws. Qed.

Lemma lower2_viewLaws : ViewLaws CacheHierarchy.lower2 coherent3 view3.
Proof. apply levelLower_viewLaws, lower3_viewLaws. Qed.

Lemma lower1_viewLaws : ViewLaws CacheHierarchy.lower1 coherent2 view2.
Proof. apply levelLower_viewLaws, lower2_viewLaws. Qed.

Lemma top_viewLaws :
  ViewLaws CacheHierarchy.top hierarchyCoherent hierarchyView.
Proof. apply levelLower_viewLaws, lower1_viewLaws. Qed.

(** The hierarchy the driver constructs. *)
Definition freshCaches : CacheHierarchy.Caches :=
  mkSys (freshCache MultiLevelCacheConfig.L1) None
    (mkSys (freshCache MultiLevelCacheConfig.L2) None
       (mkSys (freshCache MultiLevelCacheConfig.L3) None MemoryManager.init)).

Lemma new_freshCaches pf ff vf :
  CacheHierarchy.new pf ff vf
  = Ok (CacheHierarchy.mk freshCaches pf ff vf PrefetchStatistics.init).
Proof.
  unfold CacheHierarchy.new.
  rewrite (newCache_valid MultiLevelCacheConfig.L3) by (vm_compute; reflexivity).
  rewrite bind_ret.
  rewrite (newCache_valid MultiLevelCacheConfig.L2) by (vm_compute; reflexivity).
  rewrite bind_ret.
  rewrite (newCache_valid MultiLevelCacheConfig.L1) by (vm_compute; reflexivity).
  reflexivity.
Qed.

Lemma freshCaches_ok : cachesOk freshCaches.
Proof.
  destruct (new_good false false false) as (h & E & Hh).
  rewrite new_freshCaches in E. injection E as <-. exact Hh.
Qed.

Lemma freshCache_facts p :
  isPolicyValid p = Ok true ->
  u32 (Policy.cacheSize p) -> u32 (Policy.blockSize p) ->
  u32 (Policy.blockNum p) -> u32 (Policy.associativity p) ->
  shapeOk (freshCache p) /\
  forall n b, blocks (freshCache p) !! n = Some b -> Block.valid b = false.
Proof.
  intros Hv H1 H2 H3 H4.
  destruct (newCache_good p (freshCache p) H1 H2 H3 H4 (newCache_valid p Hv))
    as ((Hsh & _) & _ & _ & _ & _ & Hinv).
  done.
Qed.

Lemma multiLevel_linePolicy :
  linePolicy MultiLevelCacheConfig.L1 /\ linePolicy MultiLevelCacheConfig.L2 /\
  linePolicy MultiLevelCacheConfig.L3.
Proof.
  repeat split; try solve_u32; try (vm_compute; reflexivity);
    vm_compute; discriminate.
Qed.

Lemma freshCaches_coherent :
  hierarchyCoherent freshCaches /\ forall a, hierarchyView freshCaches a = 0.
Proof.
  destruct multiLevel_linePolicy as (Hl1 & Hl2 & Hl3).
  destruct (freshCache_facts MultiLevelCacheConfig.L3) as (Hs3 & Hi3);
    [vm_compute; reflexivity | solve_u32 ..|].
  destruct (freshCache_facts MultiLevelCacheConfig.L2) as (Hs2 & Hi2);
    [vm_compute; reflexivity | solve_u32 ..|].
  destruct (freshCache_facts MultiLevelCacheConfig.L1) as (Hs1 & Hi1);
    [vm_compute; reflexivity | solve_u32 ..|].
  destruct (coherent_empty CacheHierarchy.lower3 wfMemory MemoryManager.getByte
              (mkSys (freshCache MultiLevelCacheConfig.L3) None
                     MemoryManager.init))
    as (Hc3 & Hv3); [done | done | done | done | apply wfMemory_init |].
  destruct (coherent_empty CacheHierarchy.lower2 coherent3 view3
              (mkSys (freshCache MultiLevelCacheConfig.L2) None
                 (mkSys (freshCache MultiLevelCacheConfig.L3) None
                        MemoryManager.init)))
    as (Hc2 & Hv2); [done | done | done | done | exact Hc3 |].
  destruct (coherent_empty CacheHierarchy.lower1 coherent2 view2 freshCaches)
    as (Hc1 & Hv1); [done | done | done | done | exact Hc2 |].
  split; [exact Hc1|]. intros a.
  unfold hierarchyView. rewrite Hv1. cbn [below freshCaches].
  unfold view2. rewrite Hv2. cbn [below]. unfold view3. rewrite Hv3.
  cbn [below]. unfold MemoryManager.getByte, MemoryManager.isAddrExist,
    MemoryManager.init. cbn [MemoryManager.memory].
  by rewrite lookup_empty.
Qed.

(** X7. A read through the hierarchy.  The states are those that satisfy
    [cachesOk] and [hierarchyCoherent]: at each of the three levels the
    victim cache is off, lines have at most 4096 bytes, every valid block
    is the line of an address below the last page, no line is in two
    blocks, a clean block has the bytes of the level below and the page of
    a modified block is allocated.  In such a state a read of an address
    below the last page returns the byte the hierarchy holds for the
    address, keeps the two invariants and changes no byte.  The hierarchy
    as constructed is such a state ([freshCaches_ok],
    [freshCaches_coherent]).  An access to the last page can install a
    block that is the line of no address below it: the states after such an
    access are outside this theorem. *)
Theorem hierarchy_read (c : CacheHierarchy.Caches) (a : Z) :
  cachesOk c -> hierarchyCoherent c -> safeAddr a ->
  exists c',
    read CacheHierarchy.lower1 a c = Ok (hierarchyView c a, c') /\
    cachesOk c' /\ hierarchyCoherent c' /\
    forall b, u32 b -> hierarchyView c' b = hierarchyView c b.
Proof.
  intros Hok Hc Ha.
  destruct (readWith_good CacheHierarchy.lower1
              (victimOps CacheHierarchy.lower1) level2Ok lower1_good a c Hok)
    as (x & c' & E & Hok'); [intros _; apply l1_victimOps_good|].
  destruct (readWith_coherent CacheHierarchy.lower1
              (victimOps CacheHierarchy.lower1) coherent2 view2
              lower1_viewLaws a c x c' Hc Ha E) as (-> & Hc' & Hv & _).
  exists c'. done.
Qed.

Lemma hierarchy_read_witness :
  exists c', read CacheHierarchy.lower1 4660 freshCaches = Ok (0, c').
Proof.
  destruct (hierarchy_read freshCaches 4660 freshCaches_ok
              (proj1 freshCaches_coherent)) as (c' & E & _).
  - unfold safeAddr. lia.
  - rewrite (proj2 freshCaches_coherent) in E. by exists c'.
Defined.

(** X8. A write through the hierarchy.  In a state that satisfies [cachesOk]
    and [hierarchyCoherent] (every valid block of every level is the line
    of an address below the last page, no line is in two blocks, and the
    rest of the invariant of [coherent]), a write to an address below the
    last page whose page is allocated returns, keeps the two invariants,
    changes the byte of that address to the value written and no other
    byte, and frees no page.  The states after an access to the last page
    are outside this theorem. *)
Theorem hierarchy_write (c : CacheHierarchy.Caches) (a v : Z) :
  cachesOk c -> hierarchyCoherent c -> safeAddr a ->
  MemoryManager.isPageExist (memoryManager CacheHierarchy.top c) a = true ->
  exists c',
    write CacheHierarchy.lower1 a v c = Ok c' /\
    cachesOk c' /\ hierarchyCoherent c' /\
    (forall b, u32 b ->
       hierarchyView c' b = if decide (b = a) then v else hierarchyView c b) /\
    pagesKept (memoryManager CacheHierarchy.top c)
              (memoryManager CacheHierarchy.top c').
Proof.
  intros Hok Hc Ha Hpage.
  destruct (writeWith_good CacheHierarchy.lower1
              (victimOps CacheHierarchy.lower1) level2Ok lower1_good a v c Hok)
    as (c' & E & Hok'); [intros _; apply l1_victimOps_good|].
  destruct (writeWith_coherent CacheHierarchy.lower1
              (victimOps CacheHierarchy.lower1) coherent2 view2
              lower1_viewLaws a v c c' Hc Ha Hpage E) as (Hc' & Hv & Hp).
  exists c'. done.
Qed.

(** Allocating the page of an address, as the driver does before every
    access, changes no byte and keeps the invariants. *)
Lemma ensurePage_coherent a c :
  hierarchyCoherent c ->
  hierarchyCoherent (CacheHierarchy.ensurePage a c) /\
  (forall b, hierarchyView (CacheHierarchy.ensurePage a c) b
             = hierarchyView c b) /\
  MemoryManager.isPageExist
    (memoryManager CacheHierarchy.top (CacheHierarchy.ensurePage a c)) a = true.
Proof.
  intros Hc. unfold CacheHierarchy.ensurePage.
  destruct (MemoryManager.isPageExist (memoryManager CacheHierarchy.top c) a)
    eqn:Hp; cbn [negb]; [done|].
  set (m := memoryManager CacheHierarchy.top c) in *.
  assert (Hwf : wfMemory m).
  { destruct Hc as [_ _ _ _ _ _ _ [_ _ _ _ _ _ _ [_ _ _ _ _ _ _ Hm]]].
    exact Hm. }
  destruct (vl_setmem CacheHierarchy.top hierarchyCoherent hierarchyView
              top_viewLaws (MemoryManager.addPage m a).1 c Hc)
    as (Hc' & Hv & Hmm).
  - by apply wfMemory_addPage.
  - intros b. apply getByte_addPage.
  - intros b Hb. by apply addPage_preserves.
  - split; [exact Hc'|]. split; [exact Hv|]. rewrite Hmm. apply addPage_exists.
Qed.

Lemma hierarchy_write_witness :
  exists c' c'',
    write CacheHierarchy.lower1 4660 171
          (CacheHierarchy.ensurePage 4660 freshCaches) = Ok c' /\
    read CacheHierarchy.lower1 4660 c' = Ok (171, c'').
Proof.
  destruct (ensurePage_coherent 4660 freshCaches (proj1 freshCaches_coherent))
    as (Hc & _ & Hpage).
  assert (Hs : safeAddr 4660) by (unfold safeAddr; lia).
  destruct (hierarchy_write (CacheHierarchy.ensurePage 4660 freshCaches)
              4660 171 (ensurePage_good 4660 freshCaches freshCaches_ok)
              Hc Hs Hpage) as (c' & E & Hok' & Hc' & Hv & _).
  destruct (readWith_good CacheHierarchy.lower1
              (victimOps CacheHierarchy.lower1) level2Ok lower1_good 4660 c'
              Hok') as (x & c'' & E' & _); [intros _; apply l1_victimOps_good|].
  destruct (readWith_coherent CacheHierarchy.lower1
              (victimOps CacheHierarchy.lower1) coherent2 view2
              lower1_viewLaws 4660 c' x c'' Hc' Hs E') as (-> & _).
  exists c', c''. split; [exact E|].
  unfold read. rewrite E'. f_equal. f_equal. fold hierarchyView.
  rewrite Hv by (by apply safeAddr_u32). by rewrite decide_True.
Defined.

(** X9. [fetch], the entry point the prefetcher uses.  In a state that
    satisfies [cachesOk] and [hierarchyCoherent] (every valid block of
    every level is the line of an address below the last page, no line is
    in two blocks, and the rest of the invariant of [coherent]), a fetch of
    an address below the last page returns, leaves the line in L1, keeps
    the two invariants and changes no byte the hierarchy holds.  A fetch of
    an address of the last page, which the prefetcher can issue, and the
    states after it are outside this theorem. *)
Theorem hierarchy_fetch (c : CacheHierarchy.Caches) (a : Z) :
  cachesOk c -> hierarchyCoherent c -> safeAddr a ->
  exists c',
    fetch CacheHierarchy.lower1 a c = Ok c' /\
    cachesOk c' /\ hierarchyCoherent c' /\
    (forall b, u32 b -> hierarchyView c' b = hierarchyView c b) /\
    inCache (self c') a = Ok true.
Proof.
  intros Hok Hc Ha.
  destruct (fetchWith_good CacheHierarchy.lower1
              (victimOps CacheHierarchy.lower1) level2Ok lower1_good a c Hok)
    as (c' & E & Hok'); [intros _; apply l1_victimOps_good|].
  destruct (fetchWith_coherent CacheHierarchy.lower1
              (victimOps CacheHierarchy.lower1) coherent2 view2
              lower1_viewLaws a c c' Hc Ha E) as (Hc' & Hv & _).
  exists c'. split; [exact E|]. split; [exact Hok'|]. split; [exact Hc'|].
  split; [exact Hv|].
  destruct Hok as ((Hsh & _) & _).
  unfold fetch, fetchWith in E. bind_as E r Er.
  destruct (r =? minusOne) eqn:Hr.
  - destruct (loadBlockFromLowerLevelWith_self _ _ _ _ _ _ E)
      as (r0 & rb & d & Er0 & Hrb & Hr0 & Hself).
    destruct (getReplacementBlockId_total (self c) a Hsh)
      as (r' & rb' & Er' & Hrange & _).
    cbv zeta in Er0. rewrite Er0 in Er'. injection Er' as <-.
    destruct (getBlockId_after_load (self c) a r0 d rb Hsh Hrange)
      as (r1 & E1 & Hne).
    + destruct Hc' as [(_ & _ & Hblk) _ _ _ _ _ _ _].
      destruct (Hblk (Z.to_nat r0) (loadedBlock (self c) a d)) as (_ & _ & Hlen).
      * rewrite Hself. cbn [blocks setBlocks].
        apply list_lookup_insert_eq. lia.
      * rewrite Hself in Hlen. cbn [policy setBlocks] in Hlen.
        unfold chargeWriteback in Hlen. by destruct (_ && _).
    + unfold inCache. rewrite Hself, E1, bind_ret.
      apply Z.eqb_neq in Hne. by rewrite Hne.
  - injection E as <-. unfold inCache. rewrite Er, bind_ret. by rewrite Hr.
Qed.

Lemma hierarchy_fetch_witness :
  exists c',
    fetch CacheHierarchy.lower1 8192 freshCaches = Ok c' /\
    inCache (self c') 8192 = Ok true /\
    forall b, u32 b -> hierarchyView c' b = 0.
Proof.
  destruct (hierarchy_fetch freshCaches 8192 freshCaches_ok
              (proj1 freshCaches_coherent)) as (c' & E & _ & _ & Hv & Hin).
  - unfold safeAddr. lia.
  - exists c'. split; [exact E|]. split; [exact Hin|].
    intros b Hb. rewrite (Hv b Hb). apply (proj2 freshCaches_coherent).
Defined.

(** *** A client of the hierarchy

    A program that uses the hierarchy as its memory: each access allocates
    the page of its address, as the drivers do, and then reads or writes.
    [flatMemory] is the reference: an array of bytes, all 0 at first. *)
Inductive access : Type :=
| Read (a : Z)
| Write (a v : Z).

Definition accessAddr (x : access) : Z :=
  match x with Read a => a | Write a _ => a end.

Fixpoint performAll (xs : list access) (c : CacheHierarchy.Caches)
    : result (list Z * CacheHierarchy.Caches) :=
  match xs with
  | [] => Ok ([], c)
  | x :: rest =>
      let c := CacheHierarchy.ensurePage (accessAddr x) c in
      match x with
      | Read a =>
          '(v, c') ← read CacheHierarchy.lower1 a c;
          '(vs, c'') ← performAll rest c';
          Ok (v :: vs, c'')
      | Write a v =>
          c' ← write CacheHierarchy.lower1 a v c;
          performAll rest c'
      end
  end.

Fixpoint flatMemory (xs : list access) (mem : Z -> Z) : list Z :=
  match xs with
  | [] => []
  | Read a :: rest => mem a :: flatMemory rest mem
  | Write a v :: rest =>
      flatMemory rest (fun b => if decide (b = a) then v else mem b)
  end.

Lemma performAll_flatMemory xs : forall c mem,
  cachesOk c -> hierarchyCoherent c ->
  (forall b, u32 b -> hierarchyView c b = mem b) ->
  Forall (fun x => safeAddr (accessAddr x)) xs ->
  exists c', performAll xs c = Ok (flatMemory xs mem, c') /\
             cachesOk c' /\ hierarchyCoherent c'.
Proof.
  induction xs as [|x rest IH]; intros c mem Hok Hc Hmem Hall.
  - exists c. done.
  - apply Forall_cons in Hall as [Hx Hall].
    destruct (ensurePage_coherent (accessAddr x) c Hc) as (Hc0 & Hv0 & Hpage).
    pose proof (ensurePage_good (accessAddr x) c Hok) as Hok0.
    cbn [performAll flatMemory].
    set (c0 := CacheHierarchy.ensurePage (accessAddr x) c) in *.
    destruct x as [a|a v]; cbn [accessAddr] in *.
    + destruct (readWith_good CacheHierarchy.lower1
                  (victimOps CacheHierarchy.lower1) level2Ok lower1_good a c0
                  Hok0) as (x & c1 & E1 & Hok1);
        [intros _; apply l1_victimOps_good|].
      destruct (readWith_coherent CacheHierarchy.lower1
                  (victimOps CacheHierarchy.lower1) coherent2 view2
                  lower1_viewLaws a c0 x c1 Hc0 Hx E1) as (-> & Hc1 & Hv1 & _).
      fold hierarchyView in Hv1 |- *.
      unfold read. rewrite E1, bind_ret. cbv beta iota.
      destruct (IH c1 mem Hok1 Hc1) as (c2 & E2 & Hok2 & Hc2); [|done|].
      { intros b Hb. by rewrite Hv1, Hv0, Hmem. }
      rewrite E2, bind_ret. cbv beta iota.
      exists c2. rewrite Hv0, Hmem by (by apply safeAddr_u32). done.
    + destruct (writeWith_good CacheHierarchy.lower1
                  (victimOps CacheHierarchy.lower1) level2Ok lower1_good a v c0
                  Hok0) as (c1 & E1 & Hok1);
        [intros _; apply l1_victimOps_good|].
      destruct (writeWith_coherent CacheHierarchy.lower1
                  (victimOps CacheHierarchy.lower1) coherent2 view2
                  lower1_viewLaws a v c0 c1 Hc0 Hx Hpage E1) as (Hc1 & Hv1 & _).
      fold hierarchyView in Hv1.
      unfold write. rewrite E1, bind_ret.
      apply (IH c1); [done | done | | done].
      intros b Hb. rewrite Hv1 by done.
      destruct (decide (b = a)); [done|]. by rewrite Hv0, Hmem.
Qed.

(** X10. Every sequence of reads and writes of addresses below the last page,
    run on the hierarchy as the driver constructs it, returns at every read
    the byte last written to the address, and 0 when there was no write:
    what an array of bytes would return. *)
Theorem hierarchy_refines_flat_memory (xs : list access) :
  Forall (fun x => safeAddr (accessAddr x)) xs ->
  exists c', performAll xs freshCaches = Ok (flatMemory xs (fun _ => 0), c').
Proof.
  intros Hall.
  destruct (performAll_flatMemory xs freshCaches (fun _ => 0) freshCaches_ok
              (proj1 freshCaches_coherent)) as (c' & E & _); [|done|].
  - intros b _. apply (proj2 freshCaches_coherent).
  - by exists c'.
Qed.

Lemma hierarchy_refines_flat_memory_witness :
  exists c',
    performAll [Write 4660 171; Read 20480; Write 20480 5; Read 4660;
                Read 20480] freshCaches
    = Ok ([0; 171; 5], c').
Proof.
  apply (hierarchy_refines_flat_memory
           [Write 4660 171; Read 20480; Write 20480 5; Read 4660; Read 20480]).
  repeat (apply Forall_cons; split; [unfold safeAddr; cbn [accessAddr]; lia|]).
  apply Forall_nil_2.
Defined.

(** *** The single-level drivers *)

(** [createSingleLevelPolicy] of MainSinCache.cpp. *)
Definition createSingleLevelPolicy (cacheSize blockSize associativity : Z)
    : Policy.t :=
  Policy.mk cacheSize blockSize (cacheSize / blockSize) associativity 1 100.

Lemma createSingleLevelPolicy_check cs bs a :
  u32 cs -> bs <> 0 -> a <> 0 ->
  isPolicyValid (createSingleLevelPolicy cs bs a)
  = Ok (isPowerOfTwo cs && isPowerOfTwo bs && (cs mod bs =? 0)
        && (cs / bs mod a =? 0)).
Proof.
  intros Hcs Hbs Ha. unfold isPolicyValid, createSingleLevelPolicy.
  cbn [Policy.cacheSize Policy.blockSize Policy.blockNum Policy.associativity].
  apply Z.eqb_neq in Hbs as Hbs'. apply Z.eqb_neq in Ha as Ha'.
  rewrite Hbs', Ha'. cbn [orb]. f_equal.
  destruct (cs mod bs =? 0) eqn:Hm.
  - apply Z.eqb_eq in Hm.
    assert (E : cs / bs * bs = cs).
    { pose proof (Z.div_mod cs bs Hbs). lia. }
    rewrite E, wrap32_small, Z.eqb_refl by exact Hcs.
    by rewrite !andb_true_r.
  - by rewrite !andb_false_r.
Qed.

Lemma pow2_div_mod i j :
  0 <= j <= i -> 2 ^ i mod 2 ^ j = 0 /\ 2 ^ i / 2 ^ j = 2 ^ (i - j).
Proof.
  intros H. assert (0 < 2 ^ j) by (apply Z.pow_pos_nonneg; lia).
  assert (E : 2 ^ i = 2 ^ (i - j) * 2 ^ j).
  { rewrite <- Z.pow_add_r by lia. f_equal. lia. }
  rewrite E. split; [apply Z.mod_mul; lia | apply Z.div_mul; lia].
Qed.

(** The parameters the constructor accepts. *)
Definition singleLevelParameters (cs bs a : Z) : Prop :=
  exists i j, 0 <= j <= i /\ i < 32 /\ cs = 2 ^ i /\ bs = 2 ^ j /\
              2 ^ (i - j) mod a = 0.

Lemma singleLevelParameters_check cs bs a :
  u32 cs -> u32 bs -> bs <> 0 -> a <> 0 ->
  (isPowerOfTwo cs && isPowerOfTwo bs && (cs mod bs =? 0)
   && (cs / bs mod a =? 0)) = true <-> singleLevelParameters cs bs a.
Proof.
  intros Hcs Hbs Hb0 Ha0. split.
  - intros H. apply andb_prop in H as [H H4]. apply andb_prop in H as [H H3].
    apply andb_prop in H as [H1 H2].
    apply Z.eqb_eq in H3, H4.
    destruct (isPowerOfTwo_log2 cs Hcs H1) as (Hi & Ei).
    destruct (isPowerOfTwo_log2 bs Hbs H2) as (Hj & Ej).
    set (i := Z.log2 cs) in *. set (j := Z.log2 bs) in *.
    assert (Hji : j <= i).
    { destruct (Z.le_gt_cases j i) as [|Hgt]; [done|]. exfalso.
      assert (0 < 2 ^ i) by (apply Z.pow_pos_nonneg; lia).
      assert (2 ^ i < 2 ^ j) by (apply Z.pow_lt_mono_r; lia).
      rewrite Ei, Ej, Z.mod_small in H3 by lia. lia. }
    exists i, j. split; [lia|]. split; [lia|]. split; [done|]. split; [done|].
    destruct (pow2_div_mod i j) as (_ & Ed); [lia|].
    by rewrite <- Ed, <- Ei, <- Ej.
  - intros (i & j & Hji & Hi & -> & -> & Hm).
    destruct (pow2_div_mod i j Hji) as (Em & Ed).
    rewrite !isPowerOfTwo_pow2 by lia. rewrite Em, Ed, Hm. done.
Qed.

Lemma singleLevel_policyOk cs bs a :
  u32 a -> a <> 0 -> singleLevelParameters cs bs a ->
  policyOk (createSingleLevelPolicy cs bs a).
Proof.
  intros Ha Ha0 Hpar. pose proof Hpar as (i & j & Hji & Hi & Ecs & Ebs & Hm).
  assert (Hcs : u32 cs).
  { subst cs. unfold u32. split; [apply Z.pow_nonneg; lia|].
    apply Z.pow_lt_mono_r; lia. }
  assert (Hbs : u32 bs).
  { subst bs. unfold u32. split; [apply Z.pow_nonneg; lia|].
    apply Z.pow_lt_mono_r; lia. }
  assert (Hb0 : bs <> 0).
  { subst bs. pose proof (Z.pow_pos_nonneg 2 j). lia. }
  split.
  - rewrite createSingleLevelPolicy_check by done. f_equal.
    by apply singleLevelParameters_check.
  - cbn [createSingleLevelPolicy Policy.cacheSize Policy.blockSize
           Policy.blockNum Policy.associativity].
    split; [done|]. split; [done|]. split; [|done].
    destruct (pow2_div_mod i j Hji) as (_ & Ed). rewrite Ecs, Ebs, Ed.
    unfold u32. split; [apply Z.pow_nonneg; lia|]. apply Z.pow_lt_mono_r; lia.
Qed.

(** X11. The [Cache] constructor accepts the policy of [createSingleLevelPolicy]
    exactly when the cache size and the block size are powers of two, the
    block size is at most the cache size, and the associativity divides
    the number of blocks; otherwise it throws its "Invalid cache policy"
    error. *)
Theorem createSingleLevelPolicy_accepted (cs bs a : Z) :
  u32 cs -> u32 bs -> u32 a -> bs <> 0 -> a <> 0 ->
  let p := createSingleLevelPolicy cs bs a in
  (singleLevelParameters cs bs a ->
   newCache p = Ok (freshCache p) /\ cacheOk (freshCache p)) /\
  (~ singleLevelParameters cs bs a -> newCache p = Err InvalidCachePolicy).
Proof.
  intros Hcs Hbs Ha Hb0 Ha0 p. split.
  - intros Hpar. destruct (singleLevel_policyOk cs bs a Ha Ha0 Hpar)
      as (Hv & H1 & H2 & H3 & H4).
    pose proof (newCache_valid p Hv) as E. split; [exact E|].
    by destruct (newCache_good p (freshCache p) H1 H2 H3 H4 E).
  - intros Hno. unfold newCache, p.
    rewrite createSingleLevelPolicy_check by done. rewrite bind_ret.
    destruct (_ && _) eqn:E; [|done].
    destruct Hno. by apply singleLevelParameters_check.
Qed.

Lemma createSingleLevelPolicy_accepted_witness :
  newCache (createSingleLevelPolicy 4096 128 32)
  = Ok (freshCache (createSingleLevelPolicy 4096 128 32)) /\
  newCache (createSingleLevelPolicy 4096 256 32) = Err InvalidCachePolicy.
Proof.
  destruct (createSingleLevelPolicy_accepted 4096 128 32) as (Hyes & _);
    [solve_u32 | solve_u32 | solve_u32 | lia | lia |].
  destruct (createSingleLevelPolicy_accepted 4096 256 32) as (_ & Hno);
    [solve_u32 | solve_u32 | solve_u32 | lia | lia |].
  split.
  - apply Hyes. exists 12, 7. repeat split; lia.
  - apply Hno. intros (i & j & Hji & Hi & Ei & Ej & Hm).
    assert (i = 12) by (apply (Z.pow_inj_r 2); lia).
    assert (j = 8) by (apply (Z.pow_inj_r 2); lia).
    subst i j. vm_compute in Hm. discriminate.
Defined.

Lemma singleLevel_linePolicy cs bs a :
  u32 a -> a <> 0 -> singleLevelParameters cs bs a -> 2 <= bs <= 4096 ->
  linePolicy (createSingleLevelPolicy cs bs a).
Proof.
  intros Ha Ha0 Hpar Hbs. split; [by apply singleLevel_policyOk|].
  split; [|apply Hbs].
  destruct Hpar as (i & j & Hji & Hi & Ecs & Ebs & Hm).
  destruct (pow2_div_mod i j Hji) as (_ & Ed).
  unfold offsetBitsOf, idBitsOf, log2i, createSingleLevelPolicy.
  cbn [Policy.blockSize Policy.blockNum Policy.associativity].
  rewrite Ecs, Ebs, Ed.
  assert (Hpj : 0 < 2 ^ j) by (apply Z.pow_pos_nonneg; lia).
  assert (Hpq : 0 < 2 ^ (i - j)) by (apply Z.pow_pos_nonneg; lia).
  assert (Hj1 : 1 <= j).
  { destruct (Z.le_gt_cases 1 j) as [|Hlt]; [done|].
    assert (j = 0) by lia. subst j. rewrite Ebs in Hbs. cbn in Hbs. lia. }
  destruct (2 ^ j =? 0) eqn:E1; [apply Z.eqb_eq in E1; lia|].
  rewrite Z.log2_pow2 by lia.
  assert (Hapos : 0 < a) by (unfold u32 in Ha; lia).
  assert (Hq : 1 <= 2 ^ (i - j) / a <= 2 ^ (i - j)).
  { pose proof (Z.div_mod (2 ^ (i - j)) a Ha0) as Hdm.
    rewrite Hm in Hdm. split; [|apply Z.div_le_upper_bound; nia].
    destruct (Z.le_gt_cases 1 (2 ^ (i - j) / a)) as [|Hlt]; [done|].
    assert (0 <= 2 ^ (i - j) / a) by (apply Z.div_pos; lia). nia. }
  destruct (2 ^ (i - j) / a =? 0) eqn:E2; [apply Z.eqb_eq in E2; lia|].
  pose proof (Z.log2_nonneg (2 ^ (i - j) / a)).
  pose proof (Z.log2_le_mono _ _ (proj2 Hq)) as Hle.
  rewrite Z.log2_pow2 in Hle by lia. lia.
Qed.

(** [new Cache(memory, policy, nullptr)] over a new [MemoryManager]. *)
Definition singleLevelCache (p : Policy.t) : Sys MemoryManager.t :=
  mkSys (freshCache p) None MemoryManager.init.

(** The loop of [simulateCache], with the byte to write left to the
    client: the page of the address is allocated when it is missing, then
    the cache is read with [getByte] or written with [setByte]. *)
Fixpoint performSingle (xs : list access) (s : Sys MemoryManager.t)
    : result (list Z * Sys MemoryManager.t) :=
  match xs with
  | [] => Ok ([], s)
  | x :: rest =>
      let s := if negb (MemoryManager.isPageExist (below s) (accessAddr x))
               then setBelow (MemoryManager.addPage (below s) (accessAddr x)).1 s
               else s in
      match x with
      | Read a =>
          '(v, s') ← getByte memoryLower a s;
          '(vs, s'') ← performSingle rest s';
          Ok (v :: vs, s'')
      | Write a v =>
          s' ← setByte memoryLower a v s;
          performSingle rest s'
      end
  end.

Lemma performSingle_flatMemory xs : forall s mem,
  sysOk (fun _ : MemoryManager.t => True) s -> coherent3 s ->
  (forall b, u32 b -> view3 s b = mem b) ->
  Forall (fun x => safeAddr (accessAddr x)) xs ->
  exists s', performSingle xs s = Ok (flatMemory xs mem, s').
Proof.
  induction xs as [|x rest IH]; intros s mem Hok Hc Hmem Hall.
  - exists s. done.
  - apply Forall_cons in Hall as [Hx Hall].
    cbn [performSingle flatMemory].
    set (s0 := if negb (MemoryManager.isPageExist (below s) (accessAddr x))
               then setBelow (MemoryManager.addPage (below s) (accessAddr x)).1 s
               else s).
    assert (H0 : sysOk (fun _ : MemoryManager.t => True) s0 /\ coherent3 s0 /\
                 (forall b, view3 s0 b = view3 s b) /\
                 MemoryManager.isPageExist (below s0) (accessAddr x) = true).
    { unfold s0.
      destruct (MemoryManager.isPageExist (below s) (accessAddr x)) eqn:Hp;
        cbn [negb]; [done|].
      destruct (vl_setmem CacheHierarchy.lower2 coherent3 view3 lower2_viewLaws
                  (MemoryManager.addPage (below s) (accessAddr x)).1 s Hc)
        as (Hc' & Hv & Hmm).
      - apply wfMemory_addPage. by destruct Hc.
      - intros b. apply getByte_addPage.
      - intros b Hb. by apply addPage_preserves.
      - split; [by destruct Hok as (? & ? & ?)|]. split; [exact Hc'|].
        split; [exact Hv|]. apply addPage_exists. }
    destruct H0 as (Hok0 & Hc0 & Hv0 & Hpage). clearbody s0.
    destruct x as [a|a v]; cbn [accessAddr] in *.
    + destruct (getByteWith_good memoryLower (victimOps memoryLower)
                  (fun _ => True) memoryLower_good a s0 Hok0)
        as (x & s1 & E1 & Hok1 & _);
        [intros _; apply victimOps_good, memoryLower_good|].
      destruct (getByteWith_coherent memoryLower (victimOps memoryLower)
                  wfMemory MemoryManager.getByte memoryLower_viewLaws a s0 x s1
                  Hc0 Hx E1) as (-> & Hc1 & Hv1 & _).
      unfold getByte. rewrite E1, bind_ret. cbv beta iota.
      destruct (IH s1 mem Hok1 Hc1) as (s2 & E2); [|done|].
      { intros b Hb. unfold view3. by rewrite Hv1, <- Hmem, <- Hv0. }
      rewrite E2, bind_ret. cbv beta iota. exists s2.
      fold view3. rewrite Hv0, Hmem by (by apply safeAddr_u32). done.
    + destruct (setByteWith_good memoryLower (victimOps memoryLower)
                  (fun _ => True) memoryLower_good a v s0 Hok0)
        as (s1 & E1 & Hok1 & _);
        [intros _; apply victimOps_good, memoryLower_good|].
      destruct (setByteWith_coherent memoryLower (victimOps memoryLower)
                  wfMemory MemoryManager.getByte memoryLower_viewLaws a v s0 s1
                  Hc0 Hx Hpage E1) as (Hc1 & Hv1 & _).
      unfold setByte. rewrite E1, bind_ret.
      apply (IH s1); [done | done | | done].
      intros b Hb. unfold view3. rewrite Hv1 by done.
      destruct (decide (b = a)); [done|]. fold view3. by rewrite Hv0, Hmem.
Qed.

(** X12. A single cache over the memory manager, with a policy of
    [createSingleLevelPolicy] that the constructor accepts and lines of 2
    to 4096 bytes, is a memory to its client: in every sequence of
    [getByte] and [setByte] on addresses below the last page, each
    preceded by the allocation of the page, every [getByte] returns the
    byte last written to the address with [setByte], and 0 when there was
    none. *)
Theorem single_level_refines_flat_memory (cs bs a : Z) (xs : list access) :
  u32 a -> a <> 0 -> singleLevelParameters cs bs a -> 2 <= bs <= 4096 ->
  Forall (fun x => safeAddr (accessAddr x)) xs ->
  exists s',
    performSingle xs (singleLevelCache (createSingleLevelPolicy cs bs a))
    = Ok (flatMemory xs (fun _ => 0), s').
Proof.
  intros Ha Ha0 Hpar Hbs Hall.
  set (p := createSingleLevelPolicy cs bs a).
  pose proof (singleLevel_linePolicy cs bs a Ha Ha0 Hpar Hbs) as Hlp.
  fold p in Hlp. pose proof Hlp as ((Hv & H1 & H2 & H3 & H4) & _).
  destruct (newCache_good p (freshCache p) H1 H2 H3 H4 (newCache_valid p Hv))
    as (Hc & Hev & _ & _ & _ & Hinv).
  destruct (coherent_empty CacheHierarchy.lower3 wfMemory MemoryManager.getByte
              (singleLevelCache p))
    as (Hcoh & Hview);
    [by destruct Hc | done | done | done | apply wfMemory_init |].
  apply performSingle_flatMemory; [| exact Hcoh | | exact Hall].
  - split; [exact Hc|]. split; [exact Hev | exact I].
  - intros b _. unfold view3. rewrite Hview.
    unfold singleLevelCache, MemoryManager.getByte, MemoryManager.isAddrExist,
      MemoryManager.init. cbn [below MemoryManager.memory].
    by rewrite lookup_empty.
Qed.

Lemma single_level_refines_flat_memory_witness :
  exists s',
    performSingle [Write 4660 171; Write 8756 9; Read 4660; Read 4661]
                  (singleLevelCache (createSingleLevelPolicy 4096 32 2))
    = Ok ([171; 0], s').
Proof.
  apply (single_level_refines_flat_memory 4096 32 2
           [Write 4660 171; Write 8756 9; Read 4660; Read 4661]).
  - solve_u32.
  - lia.
  - exists 12, 5. repeat split; lia.
  - lia.
  - repeat (apply Forall_cons; split; [unfold safeAddr; cbn [accessAddr]; lia|]).
    apply Forall_nil_2.
Defined.

(** ** The only error of a simulation *)

Lemma run_illegal trace : forall h,
  hierarchyOk h -> ~ Forall (fun x => legalOperation x.1) trace ->
  CacheHierarchy.run trace h = Err IllegalMemoryAccessOperation.
Proof.
  induction trace as [|[operation addr] rest IH]; intros h Hh Hno.
  - destruct Hno. constructor.
  - cbn [CacheHierarchy.run].
    destruct (processMemoryAccess_good operation addr h Hh) as (Hlegal & Hillegal).
    destruct (decide (operation = "r"%char \/ operation = "w"%char)) as [Hop|Hop].
    + destruct (Hlegal Hop) as (h1 & E1 & Hh1). rewrite E1, bind_ret.
      apply IH; [done|]. intros Hrest. apply Hno. by constructor.
    + by rewrite (Hillegal Hop).
Qed.

(** X13. A simulation (the hierarchy constructed, the switches of its caches
    set in any way, a trace processed) returns when every operation of the
    trace is ['r'] or ['w'], and otherwise fails with the illegal-operation
    error.  So no trace makes a vector index leave its range, finds an
    inconsistent set id, misses the line after it was loaded, or reaches a
    null victim cache. *)
Theorem simulate_fails_only_on_illegal_operation
    (pf ff vf : bool) (sw : Switches) (trace : list (ascii * Z)) :
  (Forall (fun x => legalOperation x.1) trace ->
   exists h, simulate pf ff vf sw trace = Ok h /\ hierarchyOk h) /\
  (~ Forall (fun x => legalOperation x.1) trace ->
   simulate pf ff vf sw trace = Err IllegalMemoryAccessOperation).
Proof.
  unfold simulate.
  destruct (new_good pf ff vf) as (h0 & E0 & H0). rewrite E0, bind_ret.
  destruct (configure_good sw h0 H0) as (h1 & E1 & H1). rewrite E1, bind_ret.
  split.
  - intros Hall. by apply run_total.
  - intros Hno. by apply run_illegal.
Qed.

(** ** The earlier [getReplacementBlockId]

    The earlier version of Cache.cpp finds the LRU block with
    [std::ranges::min_element] over
    [blocks | drop(begin) | take(end - begin)]. *)

(** [min_element]: the first element is the candidate, and a later
    element replaces the candidate when it compares less. *)
Fixpoint minElementFrom (key : Block.t -> Z) (l : list Block.t) (i best : nat)
    (bestKey : Z) : nat :=
  match l with
  | [] => best
  | b :: rest =>
      if key b <? bestKey then minElementFrom key rest (S i) i (key b)
      else minElementFrom key rest (S i) best bestKey
  end.

Definition minElement (key : Block.t -> Z) (l : list Block.t) : nat :=
  match l with
  | [] => O
  | b :: rest => minElementFrom key rest 1 0 (key b)
  end.

Definition earlierGetReplacementBlockId (c : Cache) (begin end_ : Z)
    : result Z :=
  inv ← firstInvalid (blocks c) begin (Z.to_nat (end_ - begin));
  match inv with
  | Some i => Ok i
  | None =>
      Ok (begin + Z.of_nat
                    (minElement Block.lastReference
                       (take (Z.to_nat (end_ - begin))
                             (drop (Z.to_nat begin) (blocks c)))))
  end.

Lemma minScan_minElementFrom key bs begin n : forall k best min,
  0 <= begin ->
  (Z.to_nat begin + k + n <= length bs)%nat ->
  minScan key bs (begin + Z.of_nat k) n (begin + Z.of_nat best) min
  = Ok (begin + Z.of_nat
                  (minElementFrom key
                     (take n (drop (Z.to_nat begin + k) bs)) k best min)).
Proof.
  induction n as [|n IH]; intros k best min H0 Hlen.
  - reflexivity.
  - cbn [minScan].
    replace (Z.to_nat (begin + Z.of_nat k)) with (Z.to_nat begin + k)%nat by lia.
    destruct (bs !! (Z.to_nat begin + k)%nat) as [b|] eqn:Hb.
    2:{ apply lookup_ge_None in Hb. lia. }
    rewrite (drop_S bs b _ Hb). cbn [take minElementFrom].
    replace (begin + Z.of_nat k + 1) with (begin + Z.of_nat (S k)) by lia.
    replace (S (Z.to_nat begin + k)) with (Z.to_nat begin + S k)%nat by lia.
    destruct (key b <? min); apply IH; lia.
Qed.

(** X14. The LRU choice of the current [getReplacementBlockId] (with FIFO off)
    is the choice of the earlier version: on every set inside the block
    vector the two functions return the same slot. *)
Theorem getReplacementBlockId_as_earlier (c : Cache) (begin end_ : Z) :
  enableFifo c = false ->
  0 <= begin < end_ -> end_ <= Z.of_nat (length (blocks c)) ->
  getReplacementBlockId c begin end_
  = earlierGetReplacementBlockId c begin end_.
Proof.
  intros Hf Hb He. unfold getReplacementBlockId, earlierGetReplacementBlockId.
  destruct (firstInvalid _ _ _) as [[i|]|e]; cbn [mbind]; try reflexivity.
  rewrite !bind_ret. unfold blockAt.
  destruct (blocks c !! Z.to_nat begin) as [first|] eqn:Hfirst.
  2:{ apply lookup_ge_None in Hfirst. lia. }
  rewrite bind_ret, Hf.
  assert (Hn : Z.to_nat (end_ - begin) = S (Z.to_nat (end_ - begin) - 1)) by lia.
  rewrite Hn. cbn [minScan]. rewrite Hfirst, Z.ltb_irrefl.
  rewrite (drop_S _ first _ Hfirst). cbn [take minElement].
  pose proof (minScan_minElementFrom Block.lastReference (blocks c) begin
                (Z.to_nat (end_ - begin) - 1) 1 0
                (Block.lastReference first)) as E.
  replace (begin + Z.of_nat 1) with (begin + 1) in E by lia.
  replace (begin + Z.of_nat 0) with begin in E by lia.
  replace (Z.to_nat begin + 1)%nat with (S (Z.to_nat begin)) in E by lia.
  apply E; lia.
Qed.

Lemma getReplacementBlockId_as_earlier_witness :
  getReplacementBlockId twoWayFull 0 2
  = earlierGetReplacementBlockId twoWayFull 0 2.
Proof.
  apply getReplacementBlockId_as_earlier;
    [reflexivity | lia | vm_compute; discriminate].
Defined.

(** ** The last line of the address space *)

Lemma copyCount_top p a :
  policyOk p -> u32 a -> 2 ^ 32 - Policy.blockSize p <= a ->
  copyCount p (blockAddrBeginOf p a) = O.
Proof.
  intros Hp Ha Htop.
  pose proof (policyOk_sets p Hp) as (_ & _ & _ & Hbs).
  destruct (policyOk_blockSize p Hp) as (Ho & Hpow).
  unfold copyCount. rewrite blockAddrBeginOf_eq, <- Hpow by done.
  set (B := Policy.blockSize p) in *. unfold u32 in Ha.
  assert (Hdiv : 2 ^ 32 = 2 ^ (32 - offsetBitsOf p) * B).
  { rewrite Hpow, <- Z.pow_add_r by lia. f_equal. lia. }
  assert (Hq : 0 < 2 ^ (32 - offsetBitsOf p)) by (apply Z.pow_pos_nonneg; lia).
  set (Q := 2 ^ (32 - offsetBitsOf p)) in *.
  assert (Hbase : a - a mod B = 2 ^ 32 - B).
  { pose proof (Z.div_mod a B ltac:(lia)) as Hdm.
    pose proof (Z.mod_pos_bound a B ltac:(lia)) as Hm.
    assert (a / B = Q - 1); [|nia].
    symmetry. apply (Z.div_unique a B (Q - 1) (a - B * (Q - 1))); nia. }
  rewrite Hbase. replace (2 ^ 32 - B + B) with (2 ^ 32) by lia.
  unfold wrap32. rewrite Z.mod_same by lia. lia.
Qed.

(** X15. A line that ends at the top of the 32-bit address space is never
    copied: [blockAddrBegin + blockSize] wraps around to 0, so the copy
    loop of [loadBlockFromLowerLevel] does not run and the block keeps the
    zeros it was created with.  A cache as the constructor leaves it, over
    any memory, therefore reads 0 at every address of that line, whatever
    the memory holds there. *)
Theorem top_line_reads_zero (p : Policy.t) (m : MemoryManager.t) (a : Z) :
  policyOk p -> 0 < offsetBitsOf p + idBitsOf p < 32 ->
  u32 a -> 2 ^ 32 - Policy.blockSize p <= a ->
  exists s', getByte memoryLower a (mkSys (freshCache p) None m) = Ok (0, s').
Proof.
  intros Hp Hoi Ha Htop. pose proof Hp as (Hv & H1 & H2 & H3 & H4).
  destruct (newCache_good p (freshCache p) H1 H2 H3 H4 (newCache_valid p Hv))
    as (Hc & Hev & _ & _ & _ & Hinv).
  set (s := mkSys (freshCache p) None m).
  assert (Hs : sysOk (fun _ : MemoryManager.t => True) s) by done.
  destruct (getByteWith_good memoryLower (victimOps memoryLower)
              (fun _ => True) memoryLower_good a s Hs)
    as (x & s' & E & _); [intros _; apply victimOps_good, memoryLower_good|].
  exists s'. unfold getByte. rewrite E. do 2 f_equal.
  unfold getByteWith in E.
  set (c0 := setReferenceCounter (wrap32 (referenceCounter (self s) + 1))
                                 (self s)) in *.
  assert (Hsh0 : shapeOk c0) by (by destruct Hc).
  assert (Habs : getBlockId c0 a = Ok minusOne).
  { apply absent_getBlockId; [done|]. intros n (b & Hb & Hvb & _).
    rewrite (Hinv n b Hb) in Hvb. discriminate. }
  rewrite Habs, bind_ret in E. cbv beta iota in E.
  change (negb (minusOne =? minusOne)) with false in E. cbv iota in E.
  bind_as E s1 El. bind_as E r1 Er1.
  destruct (negb (r1 =? minusOne)) eqn:Hr1; [|discriminate].
  apply negb_true_iff, Z.eqb_neq in Hr1.
  bind_as E c1 Et. bind_as E b Eb. bind_as E x' Ex. injection E as -> _.
  destruct (loadBlockFromLowerLevelWith_steps memoryLower (victimOps memoryLower)
              a true (setSelf c0 s) s1 Hev El)
    as (r & rb & d2 & l2 & l3 & Er & Hrb & Hr & Ef & _ & ->).
  cbn [self setSelf] in *.
  assert (Hd2 : d2 = replicate (Z.to_nat (Policy.blockSize p)) 0).
  { unfold fetchFromLower in Ef. cbn [lowerCache memoryLower] in Ef.
    change (policy c0) with p in Ef.
    rewrite (copyCount_top p a Hp Ha Htop) in Ef.
    cbn [copyFromMemory forRange] in Ef. rewrite bind_ret in Ef.
    by injection Ef as <- _. }
  set (c' := setBlocks (<[Z.to_nat r := loadedBlock c0 a d2]> (blocks c0))
                       (chargeWriteback rb c0)) in *.
  destruct (getReplacementBlockId_total c0 a Hsh0) as (r' & rb' & Er' & Hrange & _).
  rewrite Er in Er'. injection Er' as <-.
  assert (Hsh' : shapeOk c').
  { apply (shapeOk_blocks c0);
      [done | unfold c', chargeWriteback; by destruct (_ && _)
      | unfold c'; cbn [blocks setBlocks]; by rewrite length_insert |].
    intros n b0 Hb0. unfold c' in Hb0. cbn [blocks setBlocks] in Hb0.
    destruct (decide (n = Z.to_nat r)) as [->|Hne].
    - rewrite list_lookup_insert_eq in Hb0 by lia. injection Hb0 as <-.
      apply loadedBlock_ok; [done | done|]. by rewrite Hd2, length_replicate.
    - rewrite list_lookup_insert_ne in Hb0 by done.
      destruct Hsh0 as (_ & _ & Hblk). by apply Hblk. }
  destruct (getBlockId_found c' a r1 Hsh' Er1 Hr1) as (H0 & b1 & Hb1 & Hvb1 & _).
  assert (Hb1' : b1 = loadedBlock c0 a d2).
  { unfold c' in Hb1. cbn [blocks setBlocks] in Hb1.
    destruct (decide (Z.to_nat r1 = Z.to_nat r)) as [Heq|Hne].
    - rewrite Heq, list_lookup_insert_eq in Hb1 by lia. by injection Hb1.
    - rewrite list_lookup_insert_ne in Hb1 by done.
      rewrite (Hinv _ _ Hb1) in Hvb1. discriminate. }
  apply touch_Ok in Et as (b0 & b' & Hb0 & Hf & _ & ->).
  unfold slot in Hb0. rewrite Hb1 in Hb0. injection Hb0 as <-.
  injection Hf as <-. unfold blockAt in Eb. cbn [blocks setBlocks] in Eb.
  rewrite list_lookup_insert_eq in Eb by (by eapply lookup_lt_Some).
  injection Eb as <-. unfold vecGet in Ex.
  rewrite Hb1' in Ex. cbn [Block.data Block.setLastReference loadedBlock] in Ex.
  rewrite Hd2 in Ex.
  destruct (replicate _ 0 !! _) as [y|] eqn:Hy; [|discriminate].
  apply lookup_replicate in Hy as [-> _]. by injection Ex.
Qed.

Lemma top_line_reads_zero_witness :
  let m := (MemoryManager.setByte
              (MemoryManager.addPage MemoryManager.init 4294967295).1
              4294967295 171).1 in
  MemoryManager.getByte m 4294967295 = 171 /\
  exists s', getByte memoryLower 4294967295
               (mkSys (freshCache twoWayPolicy) None m) = Ok (0, s').
Proof.
  intros m. split.
  - apply getByte_setByte_same;
      [apply wfMemory_addPage, wfMemory_init | apply addPage_exists].
  - apply top_line_reads_zero;
      [apply twoWayPolicy_ok | vm_compute; done | solve_u32
      | vm_compute; discriminate].
Defined.

(** ** InstructionCache

    [writeBlockToLowerLevel] is virtual, and [InstructionCache] overrides
    it with an empty body.  The functions below are the functions of
    [Cache] with that call made a parameter [wb]. *)

Section Overridable.
Context {L : Type}.
Variable lo : Lower L.
Variable vo : VictimOps L.
Variable wb : Block.t -> Sys L -> result (Sys L).

Definition loadBlockFromLowerLevelVia (addr : Z) (isRead : bool)
    (s : Sys L) : result (Sys L) :=
  let c := self s in
  let p := policy c in
  let blockSize := Policy.blockSize p in
  let fresh := replicate (Z.to_nat blockSize) 0 in
  let blockAddrBegin := blockAddrBeginOf p addr in
  let idx := getId p addr in
  let blockIdBegin := setBegin p idx in
  let blockIdEnd := setEnd p idx in
  replacedBlockIdx ← getReplacementBlockId c blockIdBegin blockIdEnd;
  replaceBlock ← blockAt c replacedBlockIdx;
  '(readFromVictimCache, d1, vc1, l1) ←
    probeVictim vo c isRead blockAddrBegin fresh (victimCache s) (below s);
  '(d2, l2) ← (if negb readFromVictimCache
               then fetchFromLower lo c isRead blockAddrBegin d1 l1
               else Ok (d1, l1));
  let newBlock :=
    Block.mk true false (getTag p addr) (getId p addr) blockSize
             (referenceCounter c) (referenceCounter c) d2 in
  s3 ← (if Block.valid replaceBlock then
          if Block.modified replaceBlock then
            s' ← wb replaceBlock (mkSys c vc1 l2);
            Ok (setSelf (updStatistics
                           (Statistics.addCycles (Policy.missLatency p))
                           (self s')) s')
          else
            match enabledVictim c vc1 with
            | Some v =>
                '(v', l') ← writeToVictim vo (getAddr p replaceBlock)
                                          replaceBlock v l2;
                Ok (mkSys c (Some v') l')
            | None => Ok (mkSys c vc1 l2)
            end
        else Ok (mkSys c vc1 l2));
  blocks' ← vecSet (blocks (self s3)) replacedBlockIdx newBlock;
  Ok (setSelf (setBlocks blocks' (self s3)) s3).

Definition getByteVia (addr : Z) (s : Sys L) : result (Z * Sys L) :=
  let c := setReferenceCounter (wrap32 (referenceCounter (self s) + 1))
                               (self s) in
  let s := setSelf c s in
  blockId ← getBlockId c addr;
  if negb (blockId =? minusOne) then
    let offset := getOffset (policy c) addr in
    c' ← touch blockId
           (fun b => Ok (Block.setLastReference (referenceCounter c) b)) c;
    b ← blockAt c' blockId;
    x ← vecGet (Block.data b) offset;
    Ok (x, setSelf c' s)
  else
    s' ← loadBlockFromLowerLevelVia addr true s;
    blockId ← getBlockId (self s') addr;
    if negb (blockId =? minusOne) then
      let offset := getOffset (policy (self s')) addr in
      c' ← touch blockId
             (fun b => Ok (Block.setLastReference
                             (referenceCounter (self s')) b))
             (self s');
      b ← blockAt c' blockId;
      x ← vecGet (Block.data b) offset;
      Ok (x, setSelf c' s')
    else Err (DataNotInTopLevelCache addr).

Definition setByteVia (addr val : Z) (s : Sys L) : result (Sys L) :=
  let c := setReferenceCounter (wrap32 (referenceCounter (self s) + 1))
                               (self s) in
  let s := setSelf c s in
  blockId ← getBlockId c addr;
  if negb (blockId =? minusOne) then
    c' ← touch blockId
           (storeInBlock (referenceCounter c) (getOffset (policy c) addr) val)
           c;
    Ok (setSelf c' s)
  else
    s' ← loadBlockFromLowerLevelVia addr false s;
    blockId ← getBlockId (self s') addr;
    if negb (blockId =? minusOne) then
      c' ← touch blockId
             (storeInBlock (referenceCounter (self s'))
                           (getOffset (policy (self s')) addr) val)
             (self s');
      Ok (setSelf c' s')
    else Err (DataNotInTopLevelCache addr).

Definition fetchVia (addr : Z) (s : Sys L) : result (Sys L) :=
  blockId ← getBlockId (self s) addr;
  if blockId =? minusOne
  then loadBlockFromLowerLevelVia addr true s
  else Ok s.

Definition readVia (addr : Z) (s : Sys L) : result (Z * Sys L) :=
  c ← account true addr (self s);
  getByteVia addr (setSelf c s).

Definition writeVia (addr val : Z) (s : Sys L) : result (Sys L) :=
  c ← account false addr (self s);
  setByteVia addr val (setSelf c s).

End Overridable.

(** With [Cache::writeBlockToLowerLevel] for [wb] these are the functions
    of [Cache]. *)
Lemma via_Cache {L : Type} (lo : Lower L) (vo : VictimOps L) :
  loadBlockFromLowerLevelVia lo vo (writeBlockToLowerLevelWith lo vo)
  = loadBlockFromLowerLevelWith lo vo /\
  getByteVia lo vo (writeBlockToLowerLevelWith lo vo) = getByteWith lo vo /\
  setByteVia lo vo (writeBlockToLowerLevelWith lo vo) = setByteWith lo vo /\
  fetchVia lo vo (writeBlockToLowerLevelWith lo vo) = fetchWith lo vo /\
  readVia lo vo (writeBlockToLowerLevelWith lo vo) = readWith lo vo /\
  writeVia lo vo (writeBlockToLowerLevelWith lo vo) = writeWith lo vo.
Proof. repeat split; reflexivity. Qed.

Module InstructionCache.
Section Ops.
Context {L : Type}.
Variable lo : Lower L.

(** [void writeBlockToLowerLevel(Block &block) override {};] *)
Definition writeBlockToLowerLevel (block : Block.t) (s : Sys L)
    : result (Sys L) := Ok s.

Definition loadBlockFromLowerLevel :=
  loadBlockFromLowerLevelVia lo (victimOps lo) writeBlockToLowerLevel.
Definition getByte := getByteVia lo (victimOps lo) writeBlockToLowerLevel.
Definition setByte := setByteVia lo (victimOps lo) writeBlockToLowerLevel.
Definition fetch := fetchVia lo (victimOps lo) writeBlockToLowerLevel.
Definition read := readVia lo (victimOps lo) writeBlockToLowerLevel.
Definition write := writeVia lo (victimOps lo) writeBlockToLowerLevel.

End Ops.
End InstructionCache.

(** No block of the cache is modified. *)
Definition noDirty (c : Cache) : Prop :=
  forall n b, blocks c !! n = Some b -> Block.modified b = false.

Section CleanOverride.
Context {L : Type}.
Variable lo : Lower L.
Variable vo : VictimOps L.
Variable wb : Block.t -> Sys L -> result (Sys L).

(** A cache without modified blocks never calls [writeBlockToLowerLevel],
    so the override is not seen. *)
Lemma loadBlockFromLowerLevelVia_clean addr isRead s :
  noDirty (self s) ->
  loadBlockFromLowerLevelVia lo vo wb addr isRead s
  = loadBlockFromLowerLevelWith lo vo addr isRead s.
Proof.
  intros Hclean. unfold loadBlockFromLowerLevelVia, loadBlockFromLowerLevelWith.
  destruct (getReplacementBlockId _ _ _) as [r|e]; [|reflexivity].
  rewrite !bind_ret. cbv beta.
  destruct (blockAt (self s) r) as [rb|e] eqn:Hrb; [|reflexivity].
  rewrite !bind_ret. cbv beta.
  apply blockAt_Ok in Hrb. unfold slot in Hrb.
  pose proof (Hclean _ _ Hrb) as Hm.
  destruct (probeVictim _ _ _ _ _ _ _) as [[[[rv d1] vc1] l1]|e];
    [|reflexivity].
  rewrite !bind_ret. cbv beta iota.
  destruct (if negb rv then _ else _) as [[d2 l2]|e]; [|reflexivity].
  rewrite !bind_ret. cbv beta iota. rewrite Hm. reflexivity.
Qed.

Lemma getByteVia_clean addr s :
  noDirty (self s) -> getByteVia lo vo wb addr s = getByteWith lo vo addr s.
Proof.
  intros Hclean. unfold getByteVia, getByteWith.
  destruct (getBlockId _ addr) as [r|e]; [|reflexivity].
  rewrite !bind_ret. cbv beta.
  destruct (negb (r =? minusOne)); [reflexivity|].
  by rewrite loadBlockFromLowerLevelVia_clean.
Qed.

Lemma setByteVia_clean addr val s :
  noDirty (self s) ->
  setByteVia lo vo wb addr val s = setByteWith lo vo addr val s.
Proof.
  intros Hclean. unfold setByteVia, setByteWith.
  destruct (getBlockId _ addr) as [r|e]; [|reflexivity].
  rewrite !bind_ret. cbv beta.
  destruct (negb (r =? minusOne)); [reflexivity|].
  by rewrite loadBlockFromLowerLevelVia_clean.
Qed.

Lemma fetchVia_clean addr s :
  noDirty (self s) -> fetchVia lo vo wb addr s = fetchWith lo vo addr s.
Proof.
  intros Hclean. unfold fetchVia, fetchWith.
  destruct (getBlockId _ addr) as [r|e]; [|reflexivity].
  rewrite !bind_ret. cbv beta.
  destruct (r =? minusOne); [|reflexivity].
  by apply loadBlockFromLowerLevelVia_clean.
Qed.

Lemma readVia_clean addr s :
  noDirty (self s) -> readVia lo vo wb addr s = readWith lo vo addr s.
Proof.
  intros Hclean. unfold readVia, readWith.
  destruct (account true addr (self s)) as [c|e] eqn:Ec; [|reflexivity].
  rewrite !bind_ret. apply getByteVia_clean.
  destruct (account_core _ _ _ _ Ec) as (_ & Hb & _).
  unfold noDirty. cbn [self setSelf]. by rewrite Hb.
Qed.

Lemma writeVia_clean addr val s :
  noDirty (self s) -> writeVia lo vo wb addr val s = writeWith lo vo addr val s.
Proof.
  intros Hclean. unfold writeVia, writeWith.
  destruct (account false addr (self s)) as [c|e] eqn:Ec; [|reflexivity].
  rewrite !bind_ret. apply setByteVia_clean.
  destruct (account_core _ _ _ _ Ec) as (_ & Hb & _).
  unfold noDirty. cbn [self setSelf]. by rewrite Hb.
Qed.

(** Reads and prefetches modify no block. *)
Lemma loadBlockFromLowerLevelWith_clean addr isRead s s' :
  noDirty (self s) ->
  loadBlockFromLowerLevelWith lo vo addr isRead s = Ok s' -> noDirty (self s').
Proof.
  intros Hclean H.
  destruct (loadBlockFromLowerLevelWith_self lo vo addr isRead s s' H)
    as (r & rb & d & _ & _ & Hr & ->).
  intros n b Hb. cbn [blocks setBlocks] in Hb.
  destruct (decide (n = Z.to_nat r)) as [->|Hne].
  - rewrite list_lookup_insert_eq in Hb by lia. by injection Hb as <-.
  - rewrite list_lookup_insert_ne in Hb by done. by apply (Hclean n).
Qed.

Lemma getByteWith_clean addr s x s' :
  noDirty (self s) -> getByteWith lo vo addr s = Ok (x, s') -> noDirty (self s').
Proof.
  intros Hclean H. unfold getByteWith in H. bind_as H r Er.
  assert (Htouch : forall c rc c1,
            noDirty c ->
            touch r (fun b => Ok (Block.setLastReference rc b)) c = Ok c1 ->
            noDirty c1).
  { intros c rc c1 Hc Et.
    apply touch_Ok in Et as (b0 & b' & Hb0 & Hf & Hrange & ->).
    injection Hf as <-. intros n b Hb. cbn [blocks setBlocks] in Hb.
    destruct (decide (n = Z.to_nat r)) as [->|Hne].
    - rewrite list_lookup_insert_eq in Hb by lia. injection Hb as <-.
      change (Block.modified b0 = false). by apply (Hc (Z.to_nat r)).
    - rewrite list_lookup_insert_ne in Hb by done. by apply (Hc n). }
  destruct (negb (r =? minusOne)).
  - bind_as H c1 Et. bind_as H b Eb. bind_as H x' Ex. injection H as _ <-.
    apply (Htouch (setReferenceCounter
                     (wrap32 (referenceCounter (self s) + 1)) (self s))
                  (wrap32 (referenceCounter (self s) + 1)) c1);
      [exact Hclean | exact Et].
  - bind_as H s1 El. bind_as H r1 Er1.
    destruct (negb (r1 =? minusOne)); [|discriminate].
    bind_as H c1 Et. bind_as H b Eb. bind_as H x' Ex. injection H as _ <-.
    apply loadBlockFromLowerLevelWith_clean in El; [|done].
    clear Htouch.
    apply touch_Ok in Et as (b0 & b' & Hb0 & Hf & Hrange & ->).
    injection Hf as <-. intros n b2 Hb2. cbn [blocks setBlocks self setSelf] in Hb2.
    destruct (decide (n = Z.to_nat r1)) as [->|Hne].
    + rewrite list_lookup_insert_eq in Hb2 by lia. injection Hb2 as <-.
      change (Block.modified b0 = false). by apply (El (Z.to_nat r1)).
    + rewrite list_lookup_insert_ne in Hb2 by done. by apply (El n).
Qed.

End CleanOverride.

(** X16. On a cache without modified blocks, [read], [getByte] and [fetch] of
    an [InstructionCache] are those of [Cache]: the same results, the same
    states, the same errors; and they leave the cache without modified
    blocks.  So an [InstructionCache] that is only read from and
    prefetched into is a [Cache]. *)
Theorem instructionCache_as_cache_when_clean {L : Type} (lo : Lower L)
    (s : Sys L) (addr : Z) :
  noDirty (self s) ->
  InstructionCache.read lo addr s = read lo addr s /\
  InstructionCache.getByte lo addr s = getByte lo addr s /\
  InstructionCache.fetch lo addr s = fetch lo addr s /\
  (forall x s', read lo addr s = Ok (x, s') -> noDirty (self s')) /\
  (forall x s', getByte lo addr s = Ok (x, s') -> noDirty (self s')) /\
  (forall s', fetch lo addr s = Ok s' -> noDirty (self s')).
Proof.
  intros Hclean.
  split; [by apply readVia_clean|]. split; [by apply getByteVia_clean|].
  split; [by apply fetchVia_clean|]. split; [|split].
  - intros x s' H. unfold read, readWith in H. bind_as H c Ec.
    apply (getByteWith_clean lo (victimOps lo) addr (setSelf c s) x s'); [|done].
    destruct (account_core _ _ _ _ Ec) as (_ & Hb & _).
    unfold noDirty. cbn [self setSelf]. by rewrite Hb.
  - intros x s'. by apply getByteWith_clean.
  - intros s' H. unfold fetch, fetchWith in H. bind_as H r Er.
    destruct (r =? minusOne).
    + by apply (loadBlockFromLowerLevelWith_clean lo (victimOps lo) addr true s).
    + by injection H as <-.
Qed.

Lemma instructionCache_as_cache_when_clean_witness :
  noDirty (self freshTwoWaySys) /\
  InstructionCache.read memoryLower 200 freshTwoWaySys
  = read memoryLower 200 freshTwoWaySys.
Proof.
  assert (H : noDirty (self freshTwoWaySys)).
  { intros n b Hb. cbn [self freshTwoWaySys freshCache blocks] in Hb.
    unfold initBlocks in Hb.
    by rewrite (initBlocksFrom_lookup _ _ _ _ _ Hb). }
  split; [exact H|].
  exact (proj1 (instructionCache_as_cache_when_clean memoryLower
                  freshTwoWaySys 200 H)).
Defined.

Lemma instLoad_memory addr isRead (s s' : Sys MemoryManager.t) :
  enableVictimCache (self s) = false ->
  InstructionCache.loadBlockFromLowerLevel memoryLower addr isRead s = Ok s' ->
  below s' = below s /\ enableVictimCache (self s') = false.
Proof.
  intros Hnv H.
  unfold InstructionCache.loadBlockFromLowerLevel,
    loadBlockFromLowerLevelVia in H.
  bind_as H r Er. bind_as H rb Erb. unfold probeVictim in H.
  rewrite Hnv, bind_ret in H. cbv beta iota in H. cbn [negb] in H.
  bind_as H r2 E2. destruct r2 as [d2 l2].
  unfold fetchFromLower in E2. cbn [lowerCache memoryLower] in E2.
  bind_as E2 d' Ed. injection E2 as -> <-.
  bind_as H s3 E3. bind_as H bs' Eb. injection H as <-.
  assert (Hs3 : below s3 = below s /\ enableVictimCache (self s3) = false).
  { unfold enabledVictim, InstructionCache.writeBlockToLowerLevel in E3.
    rewrite Hnv in E3.
    destruct (Block.valid rb); [destruct (Block.modified rb)|].
    - rewrite ?bind_ret in E3. by injection E3 as <-.
    - by injection E3 as <-.
    - by injection E3 as <-. }
  done.
Qed.

(** X17. An [InstructionCache] without a victim cache, over the memory manager,
    never changes the memory: whenever [read], [write] or [fetch] returns,
    the memory manager is the one it started with.  A block it modified
    is dropped when it is replaced. *)
Theorem instructionCache_keeps_memory (s : Sys MemoryManager.t)
    (addr val : Z) :
  enableVictimCache (self s) = false ->
  (forall x s', InstructionCache.read memoryLower addr s = Ok (x, s') ->
                below s' = below s) /\
  (forall s', InstructionCache.write memoryLower addr val s = Ok s' ->
              below s' = below s) /\
  (forall s', InstructionCache.fetch memoryLower addr s = Ok s' ->
              below s' = below s).
Proof.
  intros Hnv. split; [|split].
  - intros x s' H. unfold InstructionCache.read, readVia in H.
    bind_as H c Ec.
    destruct (account_core _ _ _ _ Ec) as (_ & _ & Hev).
    unfold getByteVia in H. bind_as H r Er. destruct (negb (r =? minusOne)).
    + bind_as H c1 Et. bind_as H b Eb. bind_as H x' Ex. by injection H as _ <-.
    + bind_as H s1 El. bind_as H r1 Er1.
      destruct (negb (r1 =? minusOne)); [|discriminate].
      bind_as H c1 Et. bind_as H b Eb. bind_as H x' Ex. injection H as _ <-.
      apply instLoad_memory in El as [Hb _]; [done|].
      cbn [self setSelf setReferenceCounter enableVictimCache]. congruence.
  - intros s' H. unfold InstructionCache.write, writeVia in H.
    bind_as H c Ec.
    destruct (account_core _ _ _ _ Ec) as (_ & _ & Hev).
    unfold setByteVia in H. bind_as H r Er. destruct (negb (r =? minusOne)).
    + bind_as H c1 Et. by injection H as <-.
    + bind_as H s1 El. bind_as H r1 Er1.
      destruct (negb (r1 =? minusOne)); [|discriminate].
      bind_as H c1 Et. injection H as <-.
      apply instLoad_memory in El as [Hb _]; [done|].
      cbn [self setSelf setReferenceCounter enableVictimCache]. congruence.
  - intros s' H. unfold InstructionCache.fetch, fetchVia in H.
    bind_as H r Er.
    destruct (r =? minusOne).
    + by apply instLoad_memory in H as [Hb _].
    + by injection H as <-.
Qed.

Lemma instructionCache_keeps_memory_witness :
  enableVictimCache (self freshTwoWaySys) = false /\
  exists s', InstructionCache.write memoryLower 200 7 freshTwoWaySys = Ok s' /\
             below s' = below freshTwoWaySys.
Proof.
  assert (H : enableVictimCache (self freshTwoWaySys) = false) by reflexivity.
  split; [exact H|].
  destruct (isOk_true (InstructionCache.write memoryLower 200 7 freshTwoWaySys))
    as (s' & E); [vm_compute; reflexivity|].
  exists s'. split; [exact E|].
  exact (proj1 (proj2 (instructionCache_keeps_memory freshTwoWaySys 200 7 H))
               s' E).
Defined.

(** ** LRU keeps the line just used *)

(** No block was used after the current value of the reference counter. *)
Definition stamped (c : Cache) : Prop :=
  forall n b, blocks c !! n = Some b ->
              Block.lastReference b <= referenceCounter c.

(** Slot [r] holds the line of [a], and that block was used after every
    other block of the cache. *)
Definition newest (c : Cache) (a r : Z) : Prop :=
  0 <= r /\
  exists br, blocks c !! Z.to_nat r = Some br /\ Block.valid br = true /\
             Block.tag br = getTag (policy c) a /\
             Block.id br = getId (policy c) a /\
             forall n b, n <> Z.to_nat r -> blocks c !! n = Some b ->
                         Block.lastReference b < Block.lastReference br.

(** One access of a client: [read] or [write]. *)
Definition perform {L : Type} (lo : Lower L) (x : access) (s : Sys L)
    : result (Sys L) :=
  match x with
  | Read a => '(_, s') ← read lo a s; Ok s'
  | Write a v => write lo a v s
  end.

Lemma stamped_fresh p : stamped (freshCache p).
Proof.
  intros n b Hb. unfold freshCache in *. cbn [blocks referenceCounter] in *.
  unfold initBlocks in Hb. apply initBlocksFrom_lookup in Hb. subst b.
  cbn [initBlock Block.lastReference]. lia.
Qed.

Lemma newest_resident c a r : shapeOk c -> newest c a r -> inCache c a = Ok true.
Proof.
  intros Hsh (H0 & br & Hbr & Hv & Ht & Hid & _).
  destruct (getBlockId_total c a Hsh) as (r0 & E & _).
  unfold inCache. rewrite E, bind_ret.
  destruct (decide (r0 = minusOne)) as [->|Hne].
  - destruct (getBlockId_absent c a Hsh E (Z.to_nat r)). by exists br.
  - f_equal. by apply negb_true_iff, Z.eqb_neq.
Qed.

(** With LRU replacement and at least two ways, the block used last is
    not the one replaced, whichever set the replacement is in. *)
Lemma newest_not_replaced c a r a2 r' :
  shapeOk c -> enableFifo c = false ->
  2 <= Policy.associativity (policy c) ->
  newest c a r ->
  getReplacementBlockId c (setBegin (policy c) (getId (policy c) a2))
                        (setEnd (policy c) (getId (policy c) a2)) = Ok r' ->
  r' <> r.
Proof.
  intros Hsh Hfifo Hways (H0 & br & Hbr & Hv & _ & _ & Hothers) Erep Heq.
  subst r'.
  destruct (shapeOk_set_slots c a2 Hsh) as (Hb0 & Hlt & Hle & Hm & _).
  pose proof Hsh as (Hp & _).
  pose proof (set_bounds (policy c) a2 Hp) as (Hbe & Hen & _).
  cbv zeta in Hbe, Hen.
  set (begin := setBegin (policy c) (getId (policy c) a2)) in *.
  set (end_ := setEnd (policy c) (getId (policy c) a2)) in *.
  assert (Hsize : begin + 2 <= end_) by lia.
  destruct (getReplacementBlockId_range c begin end_)
    as (r1 & br1 & E1 & Hr1 & Hs1 & Hinv & Hmin);
    [lia | unfold minusOne in Hm; lia | lia |].
  rewrite Erep in E1. injection E1 as <-.
  unfold slot in Hs1. rewrite Hbr in Hs1. injection Hs1 as <-.
  destruct (firstInvalid_spec (blocks c) (Z.to_nat (end_ - begin)) begin)
    as [(ri & bi & _ & Hri & Hsi & Hvi & _)|(_ & Hall)]; [lia | lia | |].
  - assert (Hbad : Block.valid br = false /\ allValid (blocks c) begin r).
    { apply Hinv. exists ri, bi. split; [lia|]. done. }
    destruct Hbad as (Hbad & _). congruence.
  - rewrite Z2Nat.id in Hall by lia.
    replace (begin + (end_ - begin)) with end_ in Hall by lia.
    destruct (Hmin Hall) as (_ & _ & Hleast & _).
    unfold replacementKey in Hleast. rewrite Hfifo in Hleast.
    set (j := if decide (r = begin) then begin + 1 else begin).
    assert (Hj : begin <= j < end_ /\ j <> r)
      by (unfold j; destruct (decide (r = begin)); lia).
    destruct (slot_exists (blocks c) j) as (bj & Hbj); [lia|].
    specialize (Hleast j bj (proj1 Hj) Hbj).
    unfold slot in Hbj.
    assert (Hne : Z.to_nat j <> Z.to_nat r) by lia.
    specialize (Hothers (Z.to_nat j) bj Hne Hbj). lia.
Qed.

(** Touching the block found, with the current reference counter. *)
Lemma touch_newest c a r f c1 :
  shapeOk c -> getBlockId c a = Ok r -> r <> minusOne ->
  touch r f c = Ok c1 ->
  (forall b b', f b = Ok b' ->
                blockKey b' = blockKey b /\
                Block.lastReference b' = referenceCounter c) ->
  (forall n b, n <> Z.to_nat r -> blocks c !! n = Some b ->
               Block.lastReference b < referenceCounter c) ->
  newest c1 a r /\ stamped c1 /\
  policy c1 = policy c /\ referenceCounter c1 = referenceCounter c /\
  enableFifo c1 = enableFifo c.
Proof.
  intros Hsh Er Hr Et Hf Hothers.
  destruct (getBlockId_found c a r Hsh Er Hr) as (H0 & ob & Hob & Hvo & Hto & Hio).
  apply touch_Ok in Et as (b0 & b' & Hb0 & Hfb & Hrange & ->).
  unfold slot in Hb0. rewrite Hob in Hb0. injection Hb0 as <-.
  destruct (Hf ob b' Hfb) as (Hkey & Hlast).
  injection Hkey as Hv Ht Hid.
  cbn [blocks setBlocks referenceCounter policy enableFifo].
  split; [|split; [|done]].
  - split; [done|]. exists b'. cbn [blocks setBlocks policy].
    rewrite list_lookup_insert_eq by lia.
    split; [done|]. split; [congruence|]. split; [congruence|].
    split; [congruence|].
    intros n b Hne Hb. rewrite list_lookup_insert_ne in Hb by done.
    rewrite Hlast. by apply (Hothers n).
  - intros n b Hb. cbn [blocks setBlocks referenceCounter] in *.
    destruct (decide (n = Z.to_nat r)) as [->|Hne].
    + rewrite list_lookup_insert_eq in Hb by lia. injection Hb as <-. lia.
    + rewrite list_lookup_insert_ne in Hb by done.
      specialize (Hothers n b Hne Hb). lia.
Qed.

(** Touching a block without changing its key keeps every line where it
    is. *)
Lemma touch_keeps c a r f c1 :
  touch r f c = Ok c1 ->
  (forall b b', f b = Ok b' -> blockKey b' = blockKey b) ->
  getBlockId c1 a = getBlockId c a /\ policy c1 = policy c.
Proof.
  intros Et Hf.
  apply touch_Ok in Et as (b0 & b' & Hb0 & Hfb & Hrange & ->).
  split; [|done]. symmetry. apply getBlockId_sameKeys; [done|].
  cbn [blocks setBlocks].
  apply (sameKeys_insert (blocks c) (Z.to_nat r) b0 b'); [done|].
  by apply Hf.
Qed.

Lemma storeInBlock_key rc off val b b' :
  storeInBlock rc off val b = Ok b' ->
  blockKey b' = blockKey b /\ Block.lastReference b' = rc.
Proof.
  unfold storeInBlock. intros H. bind_as H d Ed. by injection H as <-.
Qed.

Lemma account_frame isRead addr c c' :
  account isRead addr c = Ok c' ->
  referenceCounter c' = referenceCounter c /\ enableFifo c' = enableFifo c.
Proof.
  unfold account. intros H. bind_as H hit Eh. injection H as <-. done.
Qed.

Section Recent.
Context {L : Type}.
Variable lo : Lower L.
Variable vo : VictimOps L.
Variable IL : L -> Prop.
Hypothesis Hlo : LowerGood lo IL.

(** After a miss resolution the line is in the slot that was filled, and
    the other blocks are the ones of before. *)
Lemma loadBlockFromLowerLevelWith_others addr isRead s s1 :
  sysOk IL s ->
  (enableVictimCache (self s) = true -> VictimGood vo IL) ->
  getBlockId (self s) addr = Ok minusOne ->
  loadBlockFromLowerLevelWith lo vo addr isRead s = Ok s1 ->
  sysOk IL s1 /\
  (enableVictimCache (self s1) = true -> VictimGood vo IL) /\
  referenceCounter (self s1) = referenceCounter (self s) /\
  policy (self s1) = policy (self s) /\
  enableFifo (self s1) = enableFifo (self s) /\
  forall r1, getBlockId (self s1) addr = Ok r1 -> r1 <> minusOne ->
    forall n b, n <> Z.to_nat r1 -> blocks (self s1) !! n = Some b ->
                blocks (self s) !! n = Some b.
Proof.
  intros Hs Hvo Habs H.
  pose proof Hs as (Hc & _). pose proof (cacheOk_shape _ Hc) as Hsh.
  destruct (loadBlockFromLowerLevelWith_good lo vo IL Hlo addr isRead s Hs Hvo)
    as (s1' & E & Hs1 & Hev1 & _).
  rewrite H in E. injection E as <-.
  pose proof (loadBlockFromLowerLevelWith_self lo vo addr isRead s s1 H) as Hx.
  cbv zeta in Hx. destruct Hx as (r & rb & d & _ & _ & Hr & Hself).
  assert (Hrc : referenceCounter (self s1) = referenceCounter (self s)).
  { rewrite Hself. unfold chargeWriteback. by destruct (_ && _). }
  assert (Hpol : policy (self s1) = policy (self s)).
  { rewrite Hself. unfold chargeWriteback. by destruct (_ && _). }
  assert (Hfifo : enableFifo (self s1) = enableFifo (self s)).
  { rewrite Hself. unfold chargeWriteback. by destruct (_ && _). }
  assert (Hbl : blocks (self s1)
                = <[Z.to_nat r := loadedBlock (self s) addr d]> (blocks (self s)))
    by (by rewrite Hself).
  split; [exact Hs1|]. split; [by rewrite Hev1|].
  split; [exact Hrc|]. split; [exact Hpol|]. split; [exact Hfifo|].
  intros r1 Er1 Hr1 n b Hne Hb.
  destruct Hs1 as (Hc1 & _). pose proof (cacheOk_shape _ Hc1) as Hsh1.
  destruct (getBlockId_found (self s1) addr r1 Hsh1 Er1 Hr1)
    as (H0 & b1 & Hb1 & Hv1 & Ht1 & Hid1).
  assert (Heq : Z.to_nat r1 = Z.to_nat r).
  { destruct (decide (Z.to_nat r1 = Z.to_nat r)) as [|Hn]; [done|]. exfalso.
    rewrite Hbl, list_lookup_insert_ne in Hb1 by done.
    apply (getBlockId_absent (self s) addr Hsh Habs (Z.to_nat r1)).
    exists b1. rewrite Hpol in Ht1, Hid1. done. }
  rewrite Hbl, list_lookup_insert_ne in Hb by lia. done.
Qed.

(** A miss resolution for another line leaves the line used last where it
    is. *)
Lemma loadBlockFromLowerLevelWith_keeps a r a2 isRead s s1 :
  sysOk IL s ->
  (enableVictimCache (self s) = true -> VictimGood vo IL) ->
  enableFifo (self s) = false ->
  2 <= Policy.associativity (policy (self s)) ->
  newest (self s) a r ->
  loadBlockFromLowerLevelWith lo vo a2 isRead s = Ok s1 ->
  sysOk IL s1 /\ policy (self s1) = policy (self s) /\
  inCache (self s1) a = Ok true.
Proof.
  intros Hs Hvo Hfifo Hways Hnew H.
  pose proof Hs as (Hc & _). pose proof (cacheOk_shape _ Hc) as Hsh.
  destruct (loadBlockFromLowerLevelWith_good lo vo IL Hlo a2 isRead s Hs Hvo)
    as (s1' & E & Hs1 & Hev1 & _).
  rewrite H in E. injection E as <-.
  pose proof (loadBlockFromLowerLevelWith_self lo vo a2 isRead s s1 H) as Hx.
  cbv zeta in Hx. destruct Hx as (r' & rb & d & Erep & _ & Hr' & Hself).
  assert (Hpol : policy (self s1) = policy (self s)).
  { rewrite Hself. unfold chargeWriteback. by destruct (_ && _). }
  assert (Hbl : blocks (self s1)
                = <[Z.to_nat r' := loadedBlock (self s) a2 d]> (blocks (self s)))
    by (by rewrite Hself).
  pose proof (newest_not_replaced (self s) a r a2 r' Hsh Hfifo Hways Hnew Erep)
    as Hne.
  split; [exact Hs1|]. split; [exact Hpol|].
  destruct Hs1 as (Hc1 & _). pose proof (cacheOk_shape _ Hc1) as Hsh1.
  destruct Hnew as (H0 & br & Hbr & Hv & Ht & Hid & _).
  destruct (getBlockId_total (self s1) a Hsh1) as (r0 & E0 & _).
  unfold inCache. rewrite E0, bind_ret.
  destruct (decide (r0 = minusOne)) as [->|Hn0].
  - destruct (getBlockId_absent (self s1) a Hsh1 E0 (Z.to_nat r)).
    exists br. rewrite Hbl, list_lookup_insert_ne by lia. rewrite Hpol. done.
  - f_equal. by apply negb_true_iff, Z.eqb_neq.
Qed.

Lemma getByteWith_newest addr s x s' :
  sysOk IL s ->
  (enableVictimCache (self s) = true -> VictimGood vo IL) ->
  stamped (self s) -> 0 <= referenceCounter (self s) < 2 ^ 32 - 1 ->
  getByteWith lo vo addr s = Ok (x, s') ->
  (exists r, newest (self s') addr r) /\ stamped (self s') /\
  referenceCounter (self s') = referenceCounter (self s) + 1 /\
  policy (self s') = policy (self s) /\
  enableFifo (self s') = enableFifo (self s).
Proof.
  intros Hs Hvo Hst Hrc H. pose proof Hs as (Hc & Hvc & Hl).
  unfold getByteWith in H. rewrite (wrap32_small (_ + 1)) in H by lia.
  set (c0 := setReferenceCounter (referenceCounter (self s) + 1) (self s)) in *.
  assert (Hold : forall n b, blocks c0 !! n = Some b ->
                             Block.lastReference b < referenceCounter c0).
  { intros n b Hb. specialize (Hst n b Hb).
    unfold c0. cbn [referenceCounter setReferenceCounter]. lia. }
  assert (Hc0 : cacheOk c0) by done.
  assert (Hs0 : sysOk IL (setSelf c0 s)).
  { split; [done|]. split; [|done]. by eapply victimSlotOk_same; [|exact Hvc]. }
  bind_as H r Er. destruct (negb (r =? minusOne)) eqn:Hr.
  - apply negb_true_iff, Z.eqb_neq in Hr.
    bind_as H c1 Et. bind_as H b Eb. bind_as H x' Ex. injection H as _ <-.
    destruct (touch_newest c0 addr r _ c1 (cacheOk_shape c0 Hc0) Er Hr Et)
      as (Hm & Hst1 & Hp & Hrc1 & Hf).
    + intros b0 b1 Hb. by injection Hb as <-.
    + intros n b0 _ Hb0. by apply (Hold n).
    + cbn [self setSelf]. split; [by exists r|]. done.
  - apply negb_false_iff, Z.eqb_eq in Hr. subst r.
    bind_as H s1 El. bind_as H r1 Er1.
    destruct (negb (r1 =? minusOne)) eqn:Hr1; [|discriminate].
    apply negb_true_iff, Z.eqb_neq in Hr1.
    bind_as H c1 Et. bind_as H b Eb. bind_as H x' Ex. injection H as _ <-.
    destruct (loadBlockFromLowerLevelWith_others addr true (setSelf c0 s) s1
                Hs0 Hvo Er El)
      as ((Hc1 & _) & _ & Hrc1 & Hp1 & Hf1 & Hothers).
    cbn [self setSelf] in Hrc1, Hp1, Hf1, Hothers.
    destruct (touch_newest (self s1) addr r1 _ c1 (cacheOk_shape _ Hc1)
                Er1 Hr1 Et)
      as (Hm & Hst1 & Hp & Hrc2 & Hf).
    + intros b0 b1 Hb. by injection Hb as <-.
    + intros n b0 Hne Hb0. rewrite Hrc1. apply (Hold n).
      by apply (Hothers r1 Er1 Hr1 n b0).
    + cbn [self setSelf]. split; [by exists r1|]. split; [done|].
      rewrite Hrc2, Hrc1, Hp, Hp1, Hf, Hf1. done.
Qed.

Lemma setByteWith_newest addr val s s' :
  sysOk IL s ->
  (enableVictimCache (self s) = true -> VictimGood vo IL) ->
  stamped (self s) -> 0 <= referenceCounter (self s) < 2 ^ 32 - 1 ->
  setByteWith lo vo addr val s = Ok s' ->
  (exists r, newest (self s') addr r) /\ stamped (self s') /\
  referenceCounter (self s') = referenceCounter (self s) + 1 /\
  policy (self s') = policy (self s) /\
  enableFifo (self s') = enableFifo (self s).
Proof.
  intros Hs Hvo Hst Hrc H. pose proof Hs as (Hc & Hvc & Hl).
  unfold setByteWith in H. rewrite (wrap32_small (_ + 1)) in H by lia.
  set (c0 := setReferenceCounter (referenceCounter (self s) + 1) (self s)) in *.
  assert (Hold : forall n b, blocks c0 !! n = Some b ->
                             Block.lastReference b < referenceCounter c0).
  { intros n b Hb. specialize (Hst n b Hb).
    unfold c0. cbn [referenceCounter setReferenceCounter]. lia. }
  assert (Hc0 : cacheOk c0) by done.
  assert (Hs0 : sysOk IL (setSelf c0 s)).
  { split; [done|]. split; [|done]. by eapply victimSlotOk_same; [|exact Hvc]. }
  bind_as H r Er. destruct (negb (r =? minusOne)) eqn:Hr.
  - apply negb_true_iff, Z.eqb_neq in Hr.
    bind_as H c1 Et. injection H as <-.
    destruct (touch_newest c0 addr r _ c1 (cacheOk_shape c0 Hc0) Er Hr Et)
      as (Hm & Hst1 & Hp & Hrc1 & Hf).
    + intros b0 b1 Hb. by apply storeInBlock_key in Hb.
    + intros n b0 _ Hb0. by apply (Hold n).
    + cbn [self setSelf]. split; [by exists r|]. done.
  - apply negb_false_iff, Z.eqb_eq in Hr. subst r.
    bind_as H s1 El. bind_as H r1 Er1.
    destruct (negb (r1 =? minusOne)) eqn:Hr1; [|discriminate].
    apply negb_true_iff, Z.eqb_neq in Hr1.
    bind_as H c1 Et. injection H as <-.
    destruct (loadBlockFromLowerLevelWith_others addr false (setSelf c0 s) s1
                Hs0 Hvo Er El)
      as ((Hc1 & _) & _ & Hrc1 & Hp1 & Hf1 & Hothers).
    cbn [self setSelf] in Hrc1, Hp1, Hf1, Hothers.
    destruct (touch_newest (self s1) addr r1 _ c1 (cacheOk_shape _ Hc1)
                Er1 Hr1 Et)
      as (Hm & Hst1 & Hp & Hrc2 & Hf).
    + intros b0 b1 Hb. by apply storeInBlock_key in Hb.
    + intros n b0 Hne Hb0. rewrite Hrc1. apply (Hold n).
      by apply (Hothers r1 Er1 Hr1 n b0).
    + cbn [self setSelf]. split; [by exists r1|]. split; [done|].
      rewrite Hrc2, Hrc1, Hp, Hp1, Hf, Hf1. done.
Qed.

Lemma getByteWith_keeps a r a2 s x s' :
  sysOk IL s ->
  (enableVictimCache (self s) = true -> VictimGood vo IL) ->
  enableFifo (self s) = false ->
  2 <= Policy.associativity (policy (self s)) ->
  newest (self s) a r ->
  getByteWith lo vo a2 s = Ok (x, s') ->
  inCache (self s') a = Ok true.
Proof.
  intros Hs Hvo Hfifo Hways Hnew H. pose proof Hs as (Hc & Hvc & Hl).
  unfold getByteWith in H.
  set (c0 := setReferenceCounter _ (self s)) in *.
  assert (Hc0 : cacheOk c0) by done.
  assert (Hnew0 : newest c0 a r) by done.
  assert (Hs0 : sysOk IL (setSelf c0 s)).
  { split; [done|]. split; [|done]. by eapply victimSlotOk_same; [|exact Hvc]. }
  bind_as H r2 Er. destruct (negb (r2 =? minusOne)).
  - bind_as H c1 Et. bind_as H b Eb. bind_as H x' Ex. injection H as _ <-.
    destruct (touch_keeps c0 a r2 _ c1 Et) as (Hg & _).
    + intros b0 b1 Hb. by injection Hb as <-.
    + cbn [self setSelf]. unfold inCache. rewrite Hg.
      by apply (newest_resident c0 a r (cacheOk_shape c0 Hc0)).
  - bind_as H s1 El. bind_as H r1 Er1.
    destruct (negb (r1 =? minusOne)); [|discriminate].
    bind_as H c1 Et. bind_as H b Eb. bind_as H x' Ex. injection H as _ <-.
    destruct (loadBlockFromLowerLevelWith_keeps a r a2 true (setSelf c0 s) s1
                Hs0 Hvo Hfifo Hways Hnew0 El) as (_ & _ & Hin).
    destruct (touch_keeps (self s1) a r1 _ c1 Et) as (Hg & _).
    + intros b0 b1 Hb. by injection Hb as <-.
    + cbn [self setSelf]. unfold inCache. rewrite Hg. exact Hin.
Qed.

Lemma setByteWith_keeps a r a2 val s s' :
  sysOk IL s ->
  (enableVictimCache (self s) = true -> VictimGood vo IL) ->
  enableFifo (self s) = false ->
  2 <= Policy.associativity (policy (self s)) ->
  newest (self s) a r ->
  setByteWith lo vo a2 val s = Ok s' ->
  inCache (self s') a = Ok true.
Proof.
  intros Hs Hvo Hfifo Hways Hnew H. pose proof Hs as (Hc & Hvc & Hl).
  unfold setByteWith in H.
  set (c0 := setReferenceCounter _ (self s)) in *.
  assert (Hc0 : cacheOk c0) by done.
  assert (Hnew0 : newest c0 a r) by done.
  assert (Hs0 : sysOk IL (setSelf c0 s)).
  { split; [done|]. split; [|done]. by eapply victimSlotOk_same; [|exact Hvc]. }
  bind_as H r2 Er. destruct (negb (r2 =? minusOne)).
  - bind_as H c1 Et. injection H as <-.
    destruct (touch_keeps c0 a r2 _ c1 Et) as (Hg & _).
    + intros b0 b1 Hb. by apply storeInBlock_key in Hb as (Hb & _).
    + cbn [self setSelf]. unfold inCache. rewrite Hg.
      by apply (newest_resident c0 a r (cacheOk_shape c0 Hc0)).
  - bind_as H s1 El. bind_as H r1 Er1.
    destruct (negb (r1 =? minusOne)); [|discriminate].
    bind_as H c1 Et. injection H as <-.
    destruct (loadBlockFromLowerLevelWith_keeps a r a2 false (setSelf c0 s) s1
                Hs0 Hvo Hfifo Hways Hnew0 El) as (_ & _ & Hin).
    destruct (touch_keeps (self s1) a r1 _ c1 Et) as (Hg & _).
    + intros b0 b1 Hb. by apply storeInBlock_key in Hb as (Hb & _).
    + cbn [self setSelf]. unfold inCache. rewrite Hg. exact Hin.
Qed.

End Recent.

Section PerformRecent.
Context {L : Type}.
Variable lo : Lower L.
Variable IL : L -> Prop.
Hypothesis Hlo : LowerGood lo IL.

Lemma perform_good x s :
  sysOk IL s -> exists s1, perform lo x s = Ok s1 /\ sysOk IL s1.
Proof.
  intros Hs. destruct x as [a|a v]; cbn [perform].
  - destruct (readWith_good lo (victimOps lo) IL Hlo a s Hs)
      as (x & s1 & E & Hs1); [intros _; by apply victimOps_good|].
    exists s1. unfold read. rewrite E. done.
  - destruct (writeWith_good lo (victimOps lo) IL Hlo a v s Hs)
      as (s1 & E & Hs1); [intros _; by apply victimOps_good|].
    exists s1. done.
Qed.

Lemma account_sysOk isRead addr s c :
  sysOk IL s -> account isRead addr (self s) = Ok c ->
  sysOk IL (setSelf c s) /\
  (stamped (self s) -> stamped c) /\
  (forall a r, newest (self s) a r -> newest c a r) /\
  referenceCounter c = referenceCounter (self s) /\
  policy c = policy (self s) /\ enableFifo c = enableFifo (self s).
Proof.
  intros (Hc & Hvc & Hl) E.
  destruct (account_good isRead addr (self s) Hc) as (c' & E' & Hc' & Hev).
  rewrite E in E'. injection E' as <-.
  destruct (account_core _ _ _ _ E) as (Hp & Hb & _).
  destruct (account_frame _ _ _ _ E) as (Hrc & Hf).
  split.
  { split; [done|]. split; [|done]. by eapply victimSlotOk_same; [|exact Hvc]. }
  split.
  { intros Hst n b Hn. rewrite Hb in Hn. rewrite Hrc. by apply (Hst n). }
  split; [|done].
  intros a r. unfold newest. by rewrite Hb, Hp.
Qed.

Lemma perform_newest x s s1 :
  sysOk IL s -> stamped (self s) ->
  0 <= referenceCounter (self s) < 2 ^ 32 - 1 ->
  perform lo x s = Ok s1 ->
  (exists r, newest (self s1) (accessAddr x) r) /\ stamped (self s1) /\
  referenceCounter (self s1) = referenceCounter (self s) + 1 /\
  policy (self s1) = policy (self s) /\
  enableFifo (self s1) = enableFifo (self s).
Proof.
  intros Hs Hst Hrc H.
  assert (Hvo : forall c : Cache,
            enableVictimCache c = true -> VictimGood (victimOps lo) IL)
    by (intros c _; by apply victimOps_good).
  destruct x as [a|a v]; cbn [perform accessAddr] in *.
  - bind_as H p Ep. destruct p as [x s']. injection H as <-.
    unfold read, readWith in Ep. bind_as Ep c Ec.
    destruct (account_sysOk true a s c Hs Ec)
      as (Hs0 & Hst0 & _ & Hrc0 & Hp0 & Hf0).
    destruct (getByteWith_newest lo (victimOps lo) IL Hlo a (setSelf c s) x s'
                Hs0 (Hvo _)) as (Hn & Hst1 & Hrc1 & Hp1 & Hf1);
      [by apply Hst0 | cbn [self setSelf]; lia | exact Ep |].
    cbn [self setSelf] in *. split; [done|]. split; [done|].
    rewrite Hrc1, Hp1, Hf1, Hrc0, Hp0, Hf0. done.
  - unfold write, writeWith in H. bind_as H c Ec.
    destruct (account_sysOk false a s c Hs Ec)
      as (Hs0 & Hst0 & _ & Hrc0 & Hp0 & Hf0).
    destruct (setByteWith_newest lo (victimOps lo) IL Hlo a v (setSelf c s) s1
                Hs0 (Hvo _)) as (Hn & Hst1 & Hrc1 & Hp1 & Hf1);
      [by apply Hst0 | cbn [self setSelf]; lia | exact H |].
    cbn [self setSelf] in *. split; [done|]. split; [done|].
    rewrite Hrc1, Hp1, Hf1, Hrc0, Hp0, Hf0. done.
Qed.

Lemma perform_keeps a r y s s2 :
  sysOk IL s -> enableFifo (self s) = false ->
  2 <= Policy.associativity (policy (self s)) ->
  newest (self s) a r ->
  perform lo y s = Ok s2 ->
  inCache (self s2) a = Ok true.
Proof.
  intros Hs Hfifo Hways Hnew H.
  assert (Hvo : forall c : Cache,
            enableVictimCache c = true -> VictimGood (victimOps lo) IL)
    by (intros c _; by apply victimOps_good).
  destruct y as [a2|a2 v]; cbn [perform] in *.
  - bind_as H p Ep. destruct p as [x s']. injection H as <-.
    unfold read, readWith in Ep. bind_as Ep c Ec.
    destruct (account_sysOk true a2 s c Hs Ec)
      as (Hs0 & _ & Hnew0 & _ & Hp0 & Hf0).
    apply (getByteWith_keeps lo (victimOps lo) IL Hlo a r a2 (setSelf c s) x s'
             Hs0 (Hvo _)); cbn [self setSelf]; [congruence | | by apply Hnew0 | done].
    by rewrite Hp0.
  - unfold write, writeWith in H. bind_as H c Ec.
    destruct (account_sysOk false a2 s c Hs Ec)
      as (Hs0 & _ & Hnew0 & _ & Hp0 & Hf0).
    apply (setByteWith_keeps lo (victimOps lo) IL Hlo a r a2 v (setSelf c s) s2
             Hs0 (Hvo _)); cbn [self setSelf]; [congruence | | by apply Hnew0 | done].
    by rewrite Hp0.
Qed.

End PerformRecent.

(** X18. With LRU replacement (FIFO off) and at least two ways, the line of an
    access survives the next access, whatever its address: after [x] and
    then [y], both of which return, the line of [x] is still in the cache,
    so a third access to it is a hit.  The reference counter must not wrap
    around at [x]: a block stamped with a wrapped counter looks like the
    oldest one.  The cache may have a victim cache, and anything that
    satisfies its invariant may be below it. *)
Theorem lru_keeps_line_just_used {L : Type} (lo : Lower L) (IL : L -> Prop)
    (s : Sys L) (x y : access) :
  LowerGood lo IL -> sysOk IL s ->
  enableFifo (self s) = false ->
  2 <= Policy.associativity (policy (self s)) ->
  stamped (self s) -> 0 <= referenceCounter (self s) < 2 ^ 32 - 1 ->
  exists s1 s2,
    perform lo x s = Ok s1 /\ perform lo y s1 = Ok s2 /\
    inCache (self s1) (accessAddr x) = Ok true /\
    inCache (self s2) (accessAddr x) = Ok true /\
    stamped (self s1) /\
    referenceCounter (self s1) = referenceCounter (self s) + 1.
Proof.
  intros Hlo Hs Hfifo Hways Hst Hrc.
  destruct (perform_good lo IL Hlo x s Hs) as (s1 & E1 & Hs1).
  destruct (perform_good lo IL Hlo y s1 Hs1) as (s2 & E2 & Hs2).
  destruct (perform_newest lo IL Hlo x s s1 Hs Hst Hrc E1)
    as ((r & Hnew) & Hst1 & Hrc1 & Hp1 & Hf1).
  exists s1, s2. split; [exact E1|]. split; [exact E2|].
  pose proof Hs1 as (Hc1 & _).
  split; [by apply (newest_resident _ _ r (cacheOk_shape _ Hc1))|].
  split; [|done].
  apply (perform_keeps lo IL Hlo (accessAddr x) r y s1 s2 Hs1); [congruence| |done|done].
  by rewrite Hp1.
Qed.

Lemma lru_keeps_line_just_used_witness :
  exists s1 s2,
    perform memoryLower (Read 0) freshTwoWaySys = Ok s1 /\
    perform memoryLower (Write 128 7) s1 = Ok s2 /\
    inCache (self s1) 0 = Ok true /\ inCache (self s2) 0 = Ok true /\
    stamped (self s1) /\
    referenceCounter (self s1) = referenceCounter (self freshTwoWaySys) + 1.
Proof.
  apply (lru_keeps_line_just_used memoryLower (fun _ => True) freshTwoWaySys
           (Read 0) (Write 128 7) memoryLower_good freshTwoWaySys_ok).
  - reflexivity.
  - vm_compute. discriminate.
  - apply stamped_fresh.
  - vm_compute. split; [discriminate | reflexivity].
Defined.
